(** * dwm.c: client/monitor model, tiling engine, tag views and fullscreen protocol

    A shallow embedding of the window-manager core of [src/dwm.c]:
    the C structs become records, the intrusive [next]/[snext] chains become
    lists of client pointers over a shared client store, the globals become a
    state record threaded through a state-and-failure monad, and the X
    connection becomes a log of the requests sent to the server together
    with an oracle for the replies that [manage] reads. *)

From Stdlib Require Import ZArith Bool Lia Floats.SpecFloat.
From stdpp Require Import base option list gmap strings.

Open Scope Z_scope.

(** ** Machine arithmetic *)

(** [int] and [unsigned int] are 32 bits wide.  Values are kept in [Z] and
    every C expression is reduced with the conversion of its C type.  Both
    conversions are ring morphisms modulo [2^32], so a sum or product is
    reduced once, at the end of the expression; operands of a division, of
    [%] or of a comparison are reduced first.  Signed overflow wraps around
    (two's complement, as under [-fwrapv]); a division that traps ends the
    program, which a run of the model shows by leaving the model ([c_rem]
    below). *)
Definition int_of (z : Z) : Z := (z + 2 ^ 31) mod 2 ^ 32 - 2 ^ 31.
Definition uint_of (z : Z) : Z := z mod 2 ^ 32.
Definition INT_MIN : Z := - 2 ^ 31.
Definition INT_MAX : Z := 2 ^ 31 - 1.

(** [long] and [unsigned long] (the [i] and [ui] members of [Arg]) are 64
    bits wide (LP64). *)
Definition long_of (z : Z) : Z := (z + 2 ^ 63) mod 2 ^ 64 - 2 ^ 63.
Definition ulong_of (z : Z) : Z := z mod 2 ^ 64.

(** Modelled from the spec: the macros MAX and MIN of util.h, which is not
    among the sources; the spec's clamps ("w,h >= 1") and its
    [min(n, m.nmaster)] are the usual maximum and minimum, written here as
    the conditional expressions [(A) > (B) ? (A) : (B)] and
    [(A) < (B) ? (A) : (B)]. *)
Definition MAX (a b : Z) : Z := if a >? b then a else b.
Definition MIN (a b : Z) : Z := if a <? b then a else b.

(** ** Floating point *)

(** [float] is IEEE 754 binary32 and [double] binary64; the operations are
    those of the standard library's executable specification, evaluated in
    the type the C expression has (FLT_EVAL_METHOD 0). *)
Definition float := spec_float.

Module F32.
Definition prec : Z := 24.
Definition emax : Z := 128.
Definition of_Z (z : Z) : float := binary_normalize prec emax z 0 false.
Definition add : float -> float -> float := SFadd prec emax.
Definition mul : float -> float -> float := SFmul prec emax.
Definition div : float -> float -> float := SFdiv prec emax.
  (** Conversion from [double], rounding to nearest even. *)
Definition of_double (d : float) : float :=
    match d with
    | S754_finite s m e => binary_round prec emax s m e
    | _ => d
    end.
End F32.

Module F64.
Definition prec : Z := 53.
Definition emax : Z := 1024.
Definition of_Z (z : Z) : float := binary_normalize prec emax z 0 false.
Definition add : float -> float -> float := SFadd prec emax.
Definition sub : float -> float -> float := SFsub prec emax.
Definition div : float -> float -> float := SFdiv prec emax.
  (** Promotion of a [float]: exact, the mantissa is renormalised. *)
Definition of_float (f : float) : float :=
    match f with
    | S754_finite s m e => binary_round prec emax s m e
    | _ => f
    end.
  (** Decimal literal [n / 10^k], correctly rounded. *)
Definition lit (n : Z) (k : Z) : float := div (of_Z n) (of_Z (10 ^ k)).
End F64.

(** Comparisons do not depend on the format once both sides are in it. *)
Definition flt (a b : float) : bool := SFltb a b.

(** Truncation toward zero of a finite value (C conversion to an integer
    type); [None] for infinities and NaN. *)
Definition ftrunc (f : float) : option Z :=
  match f with
  | S754_zero _ => Some 0
  | S754_finite s m e =>
      let a := match e with
               | Zneg p => Z.shiftr (Zpos m) (Zpos p)
               | _ => Z.shiftl (Zpos m) e
               end in
      Some (if s then - a else a)
  | _ => None
  end.

(** Conversion to [int].  Out of range the C behaviour is undefined; the
    value taken here is the one x86-64 produces ("integer indefinite"). *)
Definition int_of_float (f : float) : Z :=
  match ftrunc f with
  | Some z => if (INT_MIN <=? z) && (z <=? INT_MAX) then z else INT_MIN
  | None => INT_MIN
  end.

(** Conversion to [unsigned int]; undefined in C outside [0, 2^32), where
    the low 32 bits of the truncation are taken (0 for infinities and NaN). *)
Definition uint_of_float (f : float) : Z :=
  match ftrunc f with
  | Some z => uint_of z
  | None => 0
  end.

(** The real value, as a fraction, of a float that has one. *)
Definition fvalue (f : float) : option (Z * Z) :=
  match f with
  | S754_zero _ => Some (0, 1)
  | S754_finite s m e =>
      let n := if s then Zneg m else Zpos m in
      Some (match e with
            | Zneg p => (n, 2 ^ Zpos p)
            | _ => (n * 2 ^ e, 1)
            end)
  | _ => None
  end.

(** [fbetween f a b d]: [f] is a number and [a/d <= f <= b/d]. *)
Definition fbetween (f : float) (a b d : Z) : bool :=
  match fvalue f with
  | Some (n, q) => (a * q <=? n * d) && (n * d <=? b * q)
  | None => false
  end.

(** ** Configuration (config section of dwm.c) *)

Definition borderpx : Z := 0.
Definition gappx : Z := 10.
Definition snap : Z := 32.
Definition ntags : Z := 9.                      (* LENGTH(tags) *)
Definition TAGMASK : Z := Z.shiftl 1 ntags - 1.
(** [static const float mfact = 0.55]: the double literal converted to float. *)
Definition mfact : float := F32.of_double (F64.lit 55 2).
Definition nmaster : Z := 1.
Definition resizehints : bool := true.

(** ** Data model *)

Definition Window := Z.
(** A [Client *] that is not NULL. *)
Definition cptr := positive.

Module Client.
  (** [struct Client] without its links: [next] and [snext] are the
      successors in the owning monitor's [clients] and [stack] lists.  The
      int flags only ever hold 0 or 1 and are booleans here. *)
Record t := mk {
    name : string;
    mina : float; maxa : float;
    x : Z; y : Z; w : Z; h : Z;
    oldx : Z; oldy : Z; oldw : Z; oldh : Z;
    basew : Z; baseh : Z; incw : Z; inch : Z;
    maxw : Z; maxh : Z; minw : Z; minh : Z;
    bw : Z; oldbw : Z;
    tags : Z;
    isfixed : bool; isfloating : bool; isurgent : bool;
    neverfocus : bool; oldstate : bool; isfullscreen : bool;
    mon : nat;          (* index of the monitor in [mons] *)
    win : Window
  }.

Definition set_name (v : string) (c : t) : t :=
    {| name := v; mina := mina c; maxa := maxa c; x := x c; y := y c; w := w c; h := h c; oldx
       := oldx c; oldy := oldy c; oldw := oldw c; oldh := oldh c; basew := basew c; baseh := baseh
       c; incw := incw c; inch := inch c; maxw := maxw c; maxh := maxh c; minw := minw c; minh :=
       minh c; bw := bw c; oldbw := oldbw c; tags := tags c; isfixed := isfixed c; isfloating :=
       isfloating c; isurgent := isurgent c; neverfocus := neverfocus c; oldstate := oldstate c;
       isfullscreen := isfullscreen c; mon := mon c; win := win c |}.
Definition set_x (v : Z) (c : t) : t :=
    {| name := name c; mina := mina c; maxa := maxa c; x := v; y := y c; w := w c; h := h c;
       oldx := oldx c; oldy := oldy c; oldw := oldw c; oldh := oldh c; basew := basew c; baseh :=
       baseh c; incw := incw c; inch := inch c; maxw := maxw c; maxh := maxh c; minw := minw c;
       minh := minh c; bw := bw c; oldbw := oldbw c; tags := tags c; isfixed := isfixed c;
       isfloating := isfloating c; isurgent := isurgent c; neverfocus := neverfocus c; oldstate :=
       oldstate c; isfullscreen := isfullscreen c; mon := mon c; win := win c |}.
Definition set_y (v : Z) (c : t) : t :=
    {| name := name c; mina := mina c; maxa := maxa c; x := x c; y := v; w := w c; h := h c;
       oldx := oldx c; oldy := oldy c; oldw := oldw c; oldh := oldh c; basew := basew c; baseh :=
       baseh c; incw := incw c; inch := inch c; maxw := maxw c; maxh := maxh c; minw := minw c;
       minh := minh c; bw := bw c; oldbw := oldbw c; tags := tags c; isfixed := isfixed c;
       isfloating := isfloating c; isurgent := isurgent c; neverfocus := neverfocus c; oldstate :=
       oldstate c; isfullscreen := isfullscreen c; mon := mon c; win := win c |}.
Definition set_w (v : Z) (c : t) : t :=
    {| name := name c; mina := mina c; maxa := maxa c; x := x c; y := y c; w := v; h := h c;
       oldx := oldx c; oldy := oldy c; oldw := oldw c; oldh := oldh c; basew := basew c; baseh :=
       baseh c; incw := incw c; inch := inch c; maxw := maxw c; maxh := maxh c; minw := minw c;
       minh := minh c; bw := bw c; oldbw := oldbw c; tags := tags c; isfixed := isfixed c;
       isfloating := isfloating c; isurgent := isurgent c; neverfocus := neverfocus c; oldstate :=
       oldstate c; isfullscreen := isfullscreen c; mon := mon c; win := win c |}.
Definition set_h (v : Z) (c : t) : t :=
    {| name := name c; mina := mina c; maxa := maxa c; x := x c; y := y c; w := w c; h := v;
       oldx := oldx c; oldy := oldy c; oldw := oldw c; oldh := oldh c; basew := basew c; baseh :=
       baseh c; incw := incw c; inch := inch c; maxw := maxw c; maxh := maxh c; minw := minw c;
       minh := minh c; bw := bw c; oldbw := oldbw c; tags := tags c; isfixed := isfixed c;
       isfloating := isfloating c; isurgent := isurgent c; neverfocus := neverfocus c; oldstate :=
       oldstate c; isfullscreen := isfullscreen c; mon := mon c; win := win c |}.
Definition set_oldx (v : Z) (c : t) : t :=
    {| name := name c; mina := mina c; maxa := maxa c; x := x c; y := y c; w := w c; h := h c;
       oldx := v; oldy := oldy c; oldw := oldw c; oldh := oldh c; basew := basew c; baseh := baseh
       c; incw := incw c; inch := inch c; maxw := maxw c; maxh := maxh c; minw := minw c; minh :=
       minh c; bw := bw c; oldbw := oldbw c; tags := tags c; isfixed := isfixed c; isfloating :=
       isfloating c; isurgent := isurgent c; neverfocus := neverfocus c; oldstate := oldstate c;
       isfullscreen := isfullscreen c; mon := mon c; win := win c |}.
Definition set_oldy (v : Z) (c : t) : t :=
    {| name := name c; mina := mina c; maxa := maxa c; x := x c; y := y c; w := w c; h := h c;
       oldx := oldx c; oldy := v; oldw := oldw c; oldh := oldh c; basew := basew c; baseh := baseh
       c; incw := incw c; inch := inch c; maxw := maxw c; maxh := maxh c; minw := minw c; minh :=
       minh c; bw := bw c; oldbw := oldbw c; tags := tags c; isfixed := isfixed c; isfloating :=
       isfloating c; isurgent := isurgent c; neverfocus := neverfocus c; oldstate := oldstate c;
       isfullscreen := isfullscreen c; mon := mon c; win := win c |}.
Definition set_oldw (v : Z) (c : t) : t :=
    {| name := name c; mina := mina c; maxa := maxa c; x := x c; y := y c; w := w c; h := h c;
       oldx := oldx c; oldy := oldy c; oldw := v; oldh := oldh c; basew := basew c; baseh := baseh
       c; incw := incw c; inch := inch c; maxw := maxw c; maxh := maxh c; minw := minw c; minh :=
       minh c; bw := bw c; oldbw := oldbw c; tags := tags c; isfixed := isfixed c; isfloating :=
       isfloating c; isurgent := isurgent c; neverfocus := neverfocus c; oldstate := oldstate c;
       isfullscreen := isfullscreen c; mon := mon c; win := win c |}.
Definition set_oldh (v : Z) (c : t) : t :=
    {| name := name c; mina := mina c; maxa := maxa c; x := x c; y := y c; w := w c; h := h c;
       oldx := oldx c; oldy := oldy c; oldw := oldw c; oldh := v; basew := basew c; baseh := baseh
       c; incw := incw c; inch := inch c; maxw := maxw c; maxh := maxh c; minw := minw c; minh :=
       minh c; bw := bw c; oldbw := oldbw c; tags := tags c; isfixed := isfixed c; isfloating :=
       isfloating c; isurgent := isurgent c; neverfocus := neverfocus c; oldstate := oldstate c;
       isfullscreen := isfullscreen c; mon := mon c; win := win c |}.
Definition set_bw (v : Z) (c : t) : t :=
    {| name := name c; mina := mina c; maxa := maxa c; x := x c; y := y c; w := w c; h := h c;
       oldx := oldx c; oldy := oldy c; oldw := oldw c; oldh := oldh c; basew := basew c; baseh :=
       baseh c; incw := incw c; inch := inch c; maxw := maxw c; maxh := maxh c; minw := minw c;
       minh := minh c; bw := v; oldbw := oldbw c; tags := tags c; isfixed := isfixed c; isfloating
       := isfloating c; isurgent := isurgent c; neverfocus := neverfocus c; oldstate := oldstate
       c; isfullscreen := isfullscreen c; mon := mon c; win := win c |}.
Definition set_oldbw (v : Z) (c : t) : t :=
    {| name := name c; mina := mina c; maxa := maxa c; x := x c; y := y c; w := w c; h := h c;
       oldx := oldx c; oldy := oldy c; oldw := oldw c; oldh := oldh c; basew := basew c; baseh :=
       baseh c; incw := incw c; inch := inch c; maxw := maxw c; maxh := maxh c; minw := minw c;
       minh := minh c; bw := bw c; oldbw := v; tags := tags c; isfixed := isfixed c; isfloating :=
       isfloating c; isurgent := isurgent c; neverfocus := neverfocus c; oldstate := oldstate c;
       isfullscreen := isfullscreen c; mon := mon c; win := win c |}.
Definition set_tags (v : Z) (c : t) : t :=
    {| name := name c; mina := mina c; maxa := maxa c; x := x c; y := y c; w := w c; h := h c;
       oldx := oldx c; oldy := oldy c; oldw := oldw c; oldh := oldh c; basew := basew c; baseh :=
       baseh c; incw := incw c; inch := inch c; maxw := maxw c; maxh := maxh c; minw := minw c;
       minh := minh c; bw := bw c; oldbw := oldbw c; tags := v; isfixed := isfixed c; isfloating
       := isfloating c; isurgent := isurgent c; neverfocus := neverfocus c; oldstate := oldstate
       c; isfullscreen := isfullscreen c; mon := mon c; win := win c |}.
Definition set_isfloating (v : bool) (c : t) : t :=
    {| name := name c; mina := mina c; maxa := maxa c; x := x c; y := y c; w := w c; h := h c;
       oldx := oldx c; oldy := oldy c; oldw := oldw c; oldh := oldh c; basew := basew c; baseh :=
       baseh c; incw := incw c; inch := inch c; maxw := maxw c; maxh := maxh c; minw := minw c;
       minh := minh c; bw := bw c; oldbw := oldbw c; tags := tags c; isfixed := isfixed c;
       isfloating := v; isurgent := isurgent c; neverfocus := neverfocus c; oldstate := oldstate
       c; isfullscreen := isfullscreen c; mon := mon c; win := win c |}.
Definition set_isurgent (v : bool) (c : t) : t :=
    {| name := name c; mina := mina c; maxa := maxa c; x := x c; y := y c; w := w c; h := h c;
       oldx := oldx c; oldy := oldy c; oldw := oldw c; oldh := oldh c; basew := basew c; baseh :=
       baseh c; incw := incw c; inch := inch c; maxw := maxw c; maxh := maxh c; minw := minw c;
       minh := minh c; bw := bw c; oldbw := oldbw c; tags := tags c; isfixed := isfixed c;
       isfloating := isfloating c; isurgent := v; neverfocus := neverfocus c; oldstate := oldstate
       c; isfullscreen := isfullscreen c; mon := mon c; win := win c |}.
Definition set_neverfocus (v : bool) (c : t) : t :=
    {| name := name c; mina := mina c; maxa := maxa c; x := x c; y := y c; w := w c; h := h c;
       oldx := oldx c; oldy := oldy c; oldw := oldw c; oldh := oldh c; basew := basew c; baseh :=
       baseh c; incw := incw c; inch := inch c; maxw := maxw c; maxh := maxh c; minw := minw c;
       minh := minh c; bw := bw c; oldbw := oldbw c; tags := tags c; isfixed := isfixed c;
       isfloating := isfloating c; isurgent := isurgent c; neverfocus := v; oldstate := oldstate
       c; isfullscreen := isfullscreen c; mon := mon c; win := win c |}.
Definition set_oldstate (v : bool) (c : t) : t :=
    {| name := name c; mina := mina c; maxa := maxa c; x := x c; y := y c; w := w c; h := h c;
       oldx := oldx c; oldy := oldy c; oldw := oldw c; oldh := oldh c; basew := basew c; baseh :=
       baseh c; incw := incw c; inch := inch c; maxw := maxw c; maxh := maxh c; minw := minw c;
       minh := minh c; bw := bw c; oldbw := oldbw c; tags := tags c; isfixed := isfixed c;
       isfloating := isfloating c; isurgent := isurgent c; neverfocus := neverfocus c; oldstate :=
       v; isfullscreen := isfullscreen c; mon := mon c; win := win c |}.
Definition set_isfullscreen (v : bool) (c : t) : t :=
    {| name := name c; mina := mina c; maxa := maxa c; x := x c; y := y c; w := w c; h := h c;
       oldx := oldx c; oldy := oldy c; oldw := oldw c; oldh := oldh c; basew := basew c; baseh :=
       baseh c; incw := incw c; inch := inch c; maxw := maxw c; maxh := maxh c; minw := minw c;
       minh := minh c; bw := bw c; oldbw := oldbw c; tags := tags c; isfixed := isfixed c;
       isfloating := isfloating c; isurgent := isurgent c; neverfocus := neverfocus c; oldstate :=
       oldstate c; isfullscreen := v; mon := mon c; win := win c |}.
Definition set_mon (v : nat) (c : t) : t :=
    {| name := name c; mina := mina c; maxa := maxa c; x := x c; y := y c; w := w c; h := h c;
       oldx := oldx c; oldy := oldy c; oldw := oldw c; oldh := oldh c; basew := basew c; baseh :=
       baseh c; incw := incw c; inch := inch c; maxw := maxw c; maxh := maxh c; minw := minw c;
       minh := minh c; bw := bw c; oldbw := oldbw c; tags := tags c; isfixed := isfixed c;
       isfloating := isfloating c; isurgent := isurgent c; neverfocus := neverfocus c; oldstate :=
       oldstate c; isfullscreen := isfullscreen c; mon := v; win := win c |}.
Definition set_win (v : Window) (c : t) : t :=
    {| name := name c; mina := mina c; maxa := maxa c; x := x c; y := y c; w := w c; h := h c;
       oldx := oldx c; oldy := oldy c; oldw := oldw c; oldh := oldh c; basew := basew c; baseh :=
       baseh c; incw := incw c; inch := inch c; maxw := maxw c; maxh := maxh c; minw := minw c;
       minh := minh c; bw := bw c; oldbw := oldbw c; tags := tags c; isfixed := isfixed c;
       isfloating := isfloating c; isurgent := isurgent c; neverfocus := neverfocus c; oldstate :=
       oldstate c; isfullscreen := isfullscreen c; mon := mon c; win := v |}.

End Client.
Abbreviation Client := Client.t.

(** WIDTH(X) and HEIGHT(X) *)
Definition WIDTH (c : Client) : Z := int_of (Client.w c + 2 * Client.bw c).
Definition HEIGHT (c : Client) : Z := int_of (Client.h c + 2 * Client.bw c).

Module Monitor.
  (** [struct Monitor]; the monitor list is [mons], [seltags] (always 0 or
      1) is a boolean and [tagset] the pair [(tagset[0], tagset[1])]. *)
Record t := mk {
    mfact : float;
    nmaster : Z;
    num : Z;
    by_ : Z; bh : Z;
    mx : Z; my : Z; mw : Z; mh : Z;
    wx : Z; wy : Z; ww : Z; wh : Z;
    gappx : Z;
    seltags : bool;
    tagset : Z * Z;
    clients : list cptr;
    sel : option cptr;
    stack : list cptr;
    barwin : Window;
    traywin : Window
  }.

Definition set_mfact (v : float) (m : t) : t :=
    {| mfact := v; nmaster := nmaster m; num := num m; by_ := by_ m; bh := bh m; mx := mx m;
       my := my m; mw := mw m; mh := mh m; wx := wx m; wy := wy m; ww := ww m; wh := wh m; gappx
       := gappx m; seltags := seltags m; tagset := tagset m; clients := clients m; sel := sel m;
       stack := stack m; barwin := barwin m; traywin := traywin m |}.
Definition set_nmaster (v : Z) (m : t) : t :=
    {| mfact := mfact m; nmaster := v; num := num m; by_ := by_ m; bh := bh m; mx := mx m; my
       := my m; mw := mw m; mh := mh m; wx := wx m; wy := wy m; ww := ww m; wh := wh m; gappx :=
       gappx m; seltags := seltags m; tagset := tagset m; clients := clients m; sel := sel m;
       stack := stack m; barwin := barwin m; traywin := traywin m |}.
Definition set_seltags (v : bool) (m : t) : t :=
    {| mfact := mfact m; nmaster := nmaster m; num := num m; by_ := by_ m; bh := bh m; mx :=
       mx m; my := my m; mw := mw m; mh := mh m; wx := wx m; wy := wy m; ww := ww m; wh := wh m;
       gappx := gappx m; seltags := v; tagset := tagset m; clients := clients m; sel := sel m;
       stack := stack m; barwin := barwin m; traywin := traywin m |}.
Definition set_tagset (v : Z * Z) (m : t) : t :=
    {| mfact := mfact m; nmaster := nmaster m; num := num m; by_ := by_ m; bh := bh m; mx :=
       mx m; my := my m; mw := mw m; mh := mh m; wx := wx m; wy := wy m; ww := ww m; wh := wh m;
       gappx := gappx m; seltags := seltags m; tagset := v; clients := clients m; sel := sel m;
       stack := stack m; barwin := barwin m; traywin := traywin m |}.
Definition set_clients (v : list cptr) (m : t) : t :=
    {| mfact := mfact m; nmaster := nmaster m; num := num m; by_ := by_ m; bh := bh m; mx :=
       mx m; my := my m; mw := mw m; mh := mh m; wx := wx m; wy := wy m; ww := ww m; wh := wh m;
       gappx := gappx m; seltags := seltags m; tagset := tagset m; clients := v; sel := sel m;
       stack := stack m; barwin := barwin m; traywin := traywin m |}.
Definition set_sel (v : option cptr) (m : t) : t :=
    {| mfact := mfact m; nmaster := nmaster m; num := num m; by_ := by_ m; bh := bh m; mx :=
       mx m; my := my m; mw := mw m; mh := mh m; wx := wx m; wy := wy m; ww := ww m; wh := wh m;
       gappx := gappx m; seltags := seltags m; tagset := tagset m; clients := clients m; sel := v;
       stack := stack m; barwin := barwin m; traywin := traywin m |}.
Definition set_stack (v : list cptr) (m : t) : t :=
    {| mfact := mfact m; nmaster := nmaster m; num := num m; by_ := by_ m; bh := bh m; mx :=
       mx m; my := my m; mw := mw m; mh := mh m; wx := wx m; wy := wy m; ww := ww m; wh := wh m;
       gappx := gappx m; seltags := seltags m; tagset := tagset m; clients := clients m; sel :=
       sel m; stack := v; barwin := barwin m; traywin := traywin m |}.
  (** [m->tagset[i]] *)
Definition tagset_at (i : bool) (m : t) : Z :=
    if i then snd (tagset m) else fst (tagset m).
  (** [m->tagset[i] = v] *)
Definition set_tagset_at (i : bool) (v : Z) (m : t) : t :=
    set_tagset (if i then (fst (tagset m), v) else (v, snd (tagset m))) m.
  (** [m->tagset[m->seltags]] *)
Definition seltagset (m : t) : Z := tagset_at (seltags m) m.
End Monitor.
Abbreviation Monitor := Monitor.t.

(** ** The X connection *)

(** Value-mask bits of ConfigureWindow (X11/X.h). *)
Definition CWX : Z := 1.
Definition CWY : Z := 2.
Definition CWWidth : Z := 4.
Definition CWHeight : Z := 8.
Definition CWBorderWidth : Z := 16.
(** WM_HINTS flag bits (X11/Xutil.h). *)
Definition InputHint : Z := 1.
Definition XUrgencyHint : Z := 256.
(** WM_NORMAL_HINTS flag bits (X11/Xutil.h). *)
Definition PSize : Z := 8.
Definition PMinSize : Z := 16.
Definition PMaxSize : Z := 32.
Definition PResizeInc : Z := 64.
Definition PAspect : Z := 128.
Definition PBaseSize : Z := 256.
(** WM_STATE values. *)
Definition WithdrawnState : Z := 0.
Definition NormalState : Z := 1.
(** Client event mask selected by [manage]:
    EnterWindowMask | FocusChangeMask | PropertyChangeMask | StructureNotifyMask. *)
Definition client_event_mask : Z := 16 + 2097152 + 4194304 + 131072.

(** The atoms the modelled code compares against; anything else is [AtomOther]. *)
Inductive Atom :=
| AtomNone
| NetWMFullscreen
| NetWMWindowTypeDialog
| WMTakeFocus
| AtomOther (id : Z).

Global Instance Atom_eq_dec : EqDecision Atom.
Proof. solve_decision. Defined.

(** Requests sent to the server, in the order they are issued.  The
    ungrab/grab sequence of [grabbuttons] is one entry. *)
Inductive XReq :=
| XConfigureWindow (win : Window) (value_mask x y width height border_width : Z)
                   (sibling : Window) (stack_mode : Z)
| XSendEvent_ConfigureNotify (win : Window) (x y width height border_width : Z)
| XSendEvent_ClientMessage (win : Window) (proto : Atom)
| XMoveResizeWindow (win : Window) (x y width height : Z)
| XMoveWindow (win : Window) (x y : Z)
| XRaiseWindow (win : Window)
| XMapWindow (win : Window)
| XSelectInput (win : Window) (event_mask : Z)
| XSetInputFocus (win : option Window)          (* [None]: the root window *)
| XSetWMHints (win : Window) (flags : Z)
| XChangeProperty_NetWMState (win : Window) (fullscreen : bool)
| XChangeProperty_NetActiveWindow (win : Window)
| XDeleteProperty_NetActiveWindow
| XChangeProperty_NetClientList_Append (win : Window)
| XChangeProperty_WMState (win : Window) (state : Z)
| XGrabButtons (win : Window) (focused : bool)
| XSync.

(** XWindowAttributes, as far as [manage] reads them. *)
Record XWindowAttributes := {
  wa_x : Z; wa_y : Z; wa_width : Z; wa_height : Z; wa_border_width : Z
}.

(** XSizeHints (WM_NORMAL_HINTS). *)
Record XSizeHints := {
  sh_flags : Z;
  min_width : Z; min_height : Z;
  max_width : Z; max_height : Z;
  width_inc : Z; height_inc : Z;
  min_aspect : Z * Z; max_aspect : Z * Z;      (* (x, y) *)
  base_width : Z; base_height : Z
}.

(** XWMHints (WM_HINTS). *)
Record XWMHints := { wm_flags : Z; wm_input : bool }.

(** XConfigureRequestEvent. *)
Record XConfigureRequestEvent := {
  ev_window : Window;
  ev_value_mask : Z;
  ev_x : Z; ev_y : Z; ev_width : Z; ev_height : Z;
  ev_border_width : Z;
  ev_above : Window;
  ev_detail : Z
}.

(** Replies of the server to the read requests of the modelled code; a
    failed request is [None]. *)
Record XServer := {
  XGetTransientForHint : Window -> option Window;
  XGetClassHint : Window -> option (option string * option string); (* res_name, res_class *)
  XGetWMNormalHints : Window -> option XSizeHints;
  XGetWMHints : Window -> option XWMHints;
  XGetWMProtocols : Window -> option (list Atom);
  (** what [gettextprop] leaves in [c->name] for _NET_WM_NAME, else WM_NAME *)
  window_title : Window -> string;
  (** [getatomprop] of _NET_WM_STATE and of _NET_WM_WINDOW_TYPE *)
  net_wm_state : Window -> Atom;
  net_wm_window_type : Window -> Atom
}.

(** ** Global state *)

(** The globals of dwm.c that the modelled code uses, the client store
    ([heap], with [brk] the next address [ecalloc] hands out) and the log
    of X requests. *)
Record State := mkState {
  heap : gmap cptr Client;
  mons : list Monitor;
  selmon : nat;
  combo : bool;
  bh : Z;
  sw : Z; sh : Z;
  brk : cptr;
  xlog : list XReq
}.

Definition set_heap (v : gmap cptr Client) (s : State) : State :=
  {| heap := v; mons := mons s; selmon := selmon s; combo := combo s; bh := bh s;
     sw := sw s; sh := sh s; brk := brk s; xlog := xlog s |}.
Definition set_mons (v : list Monitor) (s : State) : State :=
  {| heap := heap s; mons := v; selmon := selmon s; combo := combo s; bh := bh s;
     sw := sw s; sh := sh s; brk := brk s; xlog := xlog s |}.
Definition set_selmon (v : nat) (s : State) : State :=
  {| heap := heap s; mons := mons s; selmon := v; combo := combo s; bh := bh s;
     sw := sw s; sh := sh s; brk := brk s; xlog := xlog s |}.
Definition set_combo (v : bool) (s : State) : State :=
  {| heap := heap s; mons := mons s; selmon := selmon s; combo := v; bh := bh s;
     sw := sw s; sh := sh s; brk := brk s; xlog := xlog s |}.
Definition set_brk (v : cptr) (s : State) : State :=
  {| heap := heap s; mons := mons s; selmon := selmon s; combo := combo s; bh := bh s;
     sw := sw s; sh := sh s; brk := v; xlog := xlog s |}.
Definition set_xlog (v : list XReq) (s : State) : State :=
  {| heap := heap s; mons := mons s; selmon := selmon s; combo := combo s; bh := bh s;
     sw := sw s; sh := sh s; brk := brk s; xlog := v |}.

(** ** The monad of handlers *)

(** A computation reads and writes the state; [None] is a run that leaves
    the model: a dereference of NULL or of a pointer that is not in the
    store, or a list operation on a client that is not in the list. *)
Definition M (A : Type) : Type := State -> option (A * State).

Definition ret {A} (a : A) : M A := λ s, Some (a, s).
Definition bind {A B} (m : M A) (f : A -> M B) : M B :=
  λ s, match m s with Some (a, s') => f a s' | None => None end.

Declare Scope wm_scope.
Delimit Scope wm_scope with wm.
Notation "x ← y ; z" := (bind y (λ x, z))
  (at level 20, y at level 100, z at level 200, only parsing) : wm_scope.
Notation "' x ← y ; z" := (bind y (λ x, z))
  (at level 20, x pattern, y at level 100, z at level 200, only parsing) : wm_scope.
Notation "x ;; z" := (bind x (λ _, z))
  (at level 100, z at level 200, only parsing, right associativity) : wm_scope.
Open Scope wm_scope.

Definition fail {A} : M A := λ _, None.
Definition gets {A} (f : State -> A) : M A := λ s, Some (f s, s).
Definition modify (f : State -> State) : M unit := λ s, Some (tt, f s).
Definition when (b : bool) (m : M unit) : M unit := if b then m else ret tt.

(** State after a run, if it returns. *)
Definition exec {A} (m : M A) (s : State) : option State := snd <$> m s.

(** [*p] *)
Definition deref (p : cptr) : M Client :=
  λ s, match heap s !! p with Some c => Some (c, s) | None => None end.
(** [*p = c] *)
Definition store (p : cptr) (c : Client) : M unit :=
  modify (λ s, set_heap (<[p:=c]> (heap s)) s).
(** assignments to fields of [*p] *)
Definition update (p : cptr) (f : Client -> Client) : M unit :=
  c ← deref p; store p (f c).
(** the monitor at index [i] of [mons] *)
Definition getmon (i : nat) : M Monitor :=
  λ s, match mons s !! i with Some m => Some (m, s) | None => None end.
Definition updmon (i : nat) (f : Monitor -> Monitor) : M unit :=
  m ← getmon i; modify (λ s, set_mons (<[i:=f m]> (mons s)) s).
(** issue a request *)
Definition xsend (r : XReq) : M unit :=
  modify (λ s, set_xlog (xlog s ++ [r]) s).

(** ** Geometry and size hints *)

(** ISVISIBLE(C): [C->tags & C->mon->tagset[C->mon->seltags]] *)
Definition visible_on (m : Monitor) (c : Client) : bool :=
  negb (Z.land (Client.tags c) (Monitor.seltagset m) =? 0).

Definition ISVISIBLE (p : cptr) : M bool :=
  c ← deref p; m ← getmon (Client.mon c); ret (visible_on m c).

(** The aspect-limit step of [applysizehints] on the pair [(w, h)]. *)
Definition aspect_adjust (c : Client) (w h : Z) : Z * Z :=
  if flt (F32.of_Z 0) (Client.mina c) && flt (F32.of_Z 0) (Client.maxa c) then
    if flt (Client.maxa c) (F32.div (F32.of_Z w) (F32.of_Z h)) then
      (int_of_float (F64.add (F64.of_float (F32.mul (F32.of_Z h) (Client.maxa c))) (F64.lit 5 1)), h)
    else if flt (Client.mina c) (F32.div (F32.of_Z h) (F32.of_Z w)) then
      (w, int_of_float (F64.add (F64.of_float (F32.mul (F32.of_Z w) (Client.mina c))) (F64.lit 5 1)))
    else (w, h)
  else (w, h).

(** [a % b] on two [int]s: the remainder of the division that truncates
    toward zero.  The division instruction traps (SIGFPE) on a zero
    divisor and on [INT_MIN % -1], whose quotient is not an [int]; [None]
    is the trap. *)
Definition c_rem (a b : Z) : option Z :=
  if (b =? 0) || ((a =? INT_MIN) && (b =? -1)) then None else Some (Z.rem a b).

(** The ICCCM part of [applysizehints] (the block under
    [if (resizehints || c->isfloating)]) on the pair [(w, h)]; [None] when
    one of its two [%] traps. *)
Definition size_hints (c : Client) (w h : Z) : option (Z * Z) :=
  let baseismin := (Client.basew c =? Client.minw c) && (Client.baseh c =? Client.minh c) in
  let w := if baseismin then w else int_of (w - Client.basew c) in
  let h := if baseismin then h else int_of (h - Client.baseh c) in
  let '(w, h) := aspect_adjust c w h in
  let w := if baseismin then int_of (w - Client.basew c) else w in
  let h := if baseismin then int_of (h - Client.baseh c) else h in
  match (if Client.incw c =? 0 then Some w
         else (λ r, int_of (w - r)) <$> c_rem w (Client.incw c)) with
  | None => None
  | Some w =>
      match (if Client.inch c =? 0 then Some h
             else (λ r, int_of (h - r)) <$> c_rem h (Client.inch c)) with
      | None => None
      | Some h =>
          let w := MAX (int_of (w + Client.basew c)) (Client.minw c) in
          let h := MAX (int_of (h + Client.baseh c)) (Client.minh c) in
          let w := if Client.maxw c =? 0 then w else MIN w (Client.maxw c) in
          let h := if Client.maxh c =? 0 then h else MIN h (Client.maxh c) in
          Some (w, h)
      end
  end.

(** [applysizehints] on the rectangle behind its four pointers: the
    rectangle it leaves there, [None] when it traps.  [sw], [sh] and [bh]
    are the globals, [m] is [c->mon]. *)
Definition applysizehints_rect (sw sh bh : Z) (m : Monitor) (c : Client)
    (x y w h : Z) (interact : bool) : option (Z * Z * Z * Z) :=
  let w := MAX 1 w in
  let h := MAX 1 h in
  let '(x, y) :=
    if interact then
      let x := if x >? sw then int_of (sw - WIDTH c) else x in
      let y := if y >? sh then int_of (sh - HEIGHT c) else y in
      let x := if int_of (x + w + 2 * Client.bw c) <? 0 then 0 else x in
      let y := if int_of (y + h + 2 * Client.bw c) <? 0 then 0 else y in
      (x, y)
    else
      let x := if x >=? int_of (Monitor.wx m + Monitor.ww m)
               then int_of (Monitor.wx m + Monitor.ww m - WIDTH c) else x in
      let y := if y >=? int_of (Monitor.wy m + Monitor.wh m)
               then int_of (Monitor.wy m + Monitor.wh m - HEIGHT c) else y in
      let x := if int_of (x + w + 2 * Client.bw c) <=? Monitor.wx m then Monitor.wx m else x in
      let y := if int_of (y + h + 2 * Client.bw c) <=? Monitor.wy m then Monitor.wy m else y in
      (x, y) in
  let h := if h <? bh then bh else h in
  let w := if w <? bh then bh else w in
  match (if resizehints || Client.isfloating c then size_hints c w h else Some (w, h)) with
  | Some (w, h) => Some (x, y, w, h)
  | None => None
  end.

(** [size_hints] and [applysizehints_rect] with the remainder of [Z] in
    place of [%]: the values the two return whenever they return (lemmas
    [size_hints_Some] and [applysizehints_rect_Some]). *)
Definition hinted_size (c : Client) (w h : Z) : Z * Z :=
  let baseismin := (Client.basew c =? Client.minw c) && (Client.baseh c =? Client.minh c) in
  let w := if baseismin then w else int_of (w - Client.basew c) in
  let h := if baseismin then h else int_of (h - Client.baseh c) in
  let '(w, h) := aspect_adjust c w h in
  let w := if baseismin then int_of (w - Client.basew c) else w in
  let h := if baseismin then int_of (h - Client.baseh c) else h in
  let w := if Client.incw c =? 0 then w else int_of (w - Z.rem w (Client.incw c)) in
  let h := if Client.inch c =? 0 then h else int_of (h - Z.rem h (Client.inch c)) in
  let w := MAX (int_of (w + Client.basew c)) (Client.minw c) in
  let h := MAX (int_of (h + Client.baseh c)) (Client.minh c) in
  let w := if Client.maxw c =? 0 then w else MIN w (Client.maxw c) in
  let h := if Client.maxh c =? 0 then h else MIN h (Client.maxh c) in
  (w, h).

Definition hinted_rect (sw sh bh : Z) (m : Monitor) (c : Client)
    (x y w h : Z) (interact : bool) : Z * Z * Z * Z :=
  let w := MAX 1 w in
  let h := MAX 1 h in
  let '(x, y) :=
    if interact then
      let x := if x >? sw then int_of (sw - WIDTH c) else x in
      let y := if y >? sh then int_of (sh - HEIGHT c) else y in
      let x := if int_of (x + w + 2 * Client.bw c) <? 0 then 0 else x in
      let y := if int_of (y + h + 2 * Client.bw c) <? 0 then 0 else y in
      (x, y)
    else
      let x := if x >=? int_of (Monitor.wx m + Monitor.ww m)
               then int_of (Monitor.wx m + Monitor.ww m - WIDTH c) else x in
      let y := if y >=? int_of (Monitor.wy m + Monitor.wh m)
               then int_of (Monitor.wy m + Monitor.wh m - HEIGHT c) else y in
      let x := if int_of (x + w + 2 * Client.bw c) <=? Monitor.wx m then Monitor.wx m else x in
      let y := if int_of (y + h + 2 * Client.bw c) <=? Monitor.wy m then Monitor.wy m else y in
      (x, y) in
  let h := if h <? bh then bh else h in
  let w := if w <? bh then bh else w in
  let '(w, h) := if resizehints || Client.isfloating c then hinted_size c w h else (w, h) in
  (x, y, w, h).

(** A client none of whose resize increments is -1: its hints never
    make [%] trap (a zero increment is skipped by [applysizehints]). *)
Definition tame (c : Client) : Prop := Client.incw c ≠ -1 ∧ Client.inch c ≠ -1.

(** Every client of the store is such. *)
Definition tamed (s : State) : Prop := ∀ p c, heap s !! p = Some c -> tame c.

(** The return value of [applysizehints]: did the rectangle move away from
    the client's current one? *)
Definition rect_changed (c : Client) (r : Z * Z * Z * Z) : bool :=
  let '(x, y, w, h) := r in
  negb (x =? Client.x c) || negb (y =? Client.y c)
  || negb (w =? Client.w c) || negb (h =? Client.h c).

Definition applysizehints (p : cptr) (x y w h : Z) (interact : bool)
    : M (bool * (Z * Z * Z * Z)) :=
  c ← deref p;
  m ← getmon (Client.mon c);
  sw ← gets sw; sh ← gets sh; bh ← gets bh;
  match applysizehints_rect sw sh bh m c x y w h interact with
  | Some r => ret (rect_changed c r, r)
  | None => fail                                             (* SIGFPE *)
  end.

(** [configure]: the synthetic ConfigureNotify carrying the client's
    current geometry and border width. *)
Definition configure (p : cptr) : M unit :=
  c ← deref p;
  xsend (XSendEvent_ConfigureNotify (Client.win c) (Client.x c) (Client.y c)
           (Client.w c) (Client.h c) (Client.bw c)).

Definition resizeclient (p : cptr) (x y w h : Z) : M unit :=
  update p (λ c, Client.set_h h (Client.set_oldh (Client.h c)
                (Client.set_w w (Client.set_oldw (Client.w c)
                (Client.set_y y (Client.set_oldy (Client.y c)
                (Client.set_x x (Client.set_oldx (Client.x c) c))))))));;
  c ← deref p;
  xsend (XConfigureWindow (Client.win c)
           (CWX + CWY + CWWidth + CWHeight + CWBorderWidth) x y w h (Client.bw c) 0 0);;
  configure p;;
  xsend XSync.

Definition resize (p : cptr) (x y w h : Z) (interact : bool) : M unit :=
  '(changed, (x, y, w, h)) ← applysizehints p x y w h interact;
  when changed (resizeclient p x y w h).

(** ** Client list and focus stack *)

(** The list without the first occurrence of [p], as the pointer walk of
    [detach] and [detachstack] leaves it; [None] when [p] is not in the
    list (the walk then overwrites the terminating NULL, which the list
    model does not represent). *)
Fixpoint unlink (p : cptr) (l : list cptr) : option (list cptr) :=
  match l with
  | [] => None
  | q :: l' => if decide (q = p) then Some l' else (q ::.) <$> unlink p l'
  end.

(** The successors of the first occurrence of [p]: [p->next] as a list. *)
Fixpoint successors (p : cptr) (l : list cptr) : option (list cptr) :=
  match l with
  | [] => None
  | q :: l' => if decide (q = p) then Some l' else successors p l'
  end.

(** The elements before the first occurrence of [p]. *)
Fixpoint predecessors (p : cptr) (l : list cptr) : option (list cptr) :=
  match l with
  | [] => None
  | q :: l' => if decide (q = p) then Some [] else (q ::.) <$> predecessors p l'
  end.

Definition attach (p : cptr) : M unit :=
  c ← deref p;
  updmon (Client.mon c) (λ m, Monitor.set_clients (p :: Monitor.clients m) m).

Definition attachstack (p : cptr) : M unit :=
  c ← deref p;
  updmon (Client.mon c) (λ m, Monitor.set_stack (p :: Monitor.stack m) m).

Definition detach (p : cptr) : M unit :=
  c ← deref p;
  m ← getmon (Client.mon c);
  match unlink p (Monitor.clients m) with
  | Some l => updmon (Client.mon c) (Monitor.set_clients l)
  | None => fail
  end.

(** [for (t = l; t && !ISVISIBLE(t); t = t->snext);] (and the same walk
    along [next]): the first visible client of the list, or NULL. *)
Fixpoint first_visible (l : list cptr) : M (option cptr) :=
  match l with
  | [] => ret None
  | p :: l' => v ← ISVISIBLE p; if v then ret (Some p) else first_visible l'
  end.

Definition detachstack (p : cptr) : M unit :=
  c ← deref p;
  m ← getmon (Client.mon c);
  match unlink p (Monitor.stack m) with
  | Some l =>
      updmon (Client.mon c) (Monitor.set_stack l);;
      when (bool_decide (Monitor.sel m = Some p))
        (t ← first_visible l; updmon (Client.mon c) (Monitor.set_sel t))
  | None => fail
  end.

(** The test of [nexttiled]'s loop, negated: [!c->isfloating && ISVISIBLE(c)]. *)
Definition istiled (p : cptr) : M bool :=
  c ← deref p;
  if Client.isfloating c then ret false else ISVISIBLE p.

(** [nexttiled(c)], with [c] given as the list that starts at it and the
    result as the list that starts at the client found ([[]] is NULL). *)
Fixpoint nexttiled (l : list cptr) : M (list cptr) :=
  match l with
  | [] => ret []
  | p :: l' => t ← istiled p; if t then ret (p :: l') else nexttiled l'
  end.

(** ** Layout: showhide, tile, restack, arrange *)

Fixpoint showhide (l : list cptr) : M unit :=
  match l with
  | [] => ret tt
  | p :: l' =>
      v ← ISVISIBLE p;
      if v then
        (* show clients top down *)
        c ← deref p;
        xsend (XMoveWindow (Client.win c) (Client.x c) (Client.y c));;
        when (Client.isfloating c && negb (Client.isfullscreen c))
          (resize p (Client.x c) (Client.y c) (Client.w c) (Client.h c) false);;
        showhide l'
      else
        (* hide clients bottom up *)
        showhide l';;
        c ← deref p;
        xsend (XMoveWindow (Client.win c) (int_of (WIDTH c * -2)) (Client.y c))
  end.

(** The first loop of [tile]: the number of tiled visible clients. *)
Fixpoint tile_count (l : list cptr) : M Z :=
  match l with
  | [] => ret 0
  | p :: l' => t ← istiled p; n ← tile_count l'; ret (if t then n + 1 else n)
  end.

(** Master width of [tile]; [n], [mw], [my], [ty], [i] and [h] are
    [unsigned int], so [m->nmaster] and [m->wh] are converted in the
    comparisons and differences they meet. *)
Definition tile_mw (m : Monitor) (n : Z) : Z :=
  if n >? uint_of (Monitor.nmaster m) then
    if Monitor.nmaster m =? 0 then 0
    else uint_of_float (F32.mul (F32.of_Z (Monitor.ww m)) (Monitor.mfact m))
  else uint_of (Monitor.ww m - Monitor.gappx m).

(** The second loop of [tile], over the list that starts at [m->clients];
    the clients [nexttiled] skips are skipped here.  The loop writes no
    monitor, so [m] is read once. *)
Fixpoint tile_loop (m : Monitor) (n mw : Z) (l : list cptr) (i my ty : Z) : M unit :=
  match l with
  | [] => ret tt
  | p :: l' =>
      t ← istiled p;
      if negb t then tile_loop m n mw l' i my ty
      else
        c ← deref p;
        if i <? uint_of (Monitor.nmaster m) then
          let h := uint_of (uint_of (Monitor.wh m - my)
                            / uint_of (MIN n (uint_of (Monitor.nmaster m)) - i)
                            - Monitor.gappx m) in
          resize p (int_of (Monitor.wx m + Monitor.gappx m)) (int_of (Monitor.wy m + my))
                   (int_of (mw - 2 * Client.bw c - Monitor.gappx m))
                   (int_of (h - 2 * Client.bw c)) false;;
          c ← deref p;
          let my := if uint_of (my + HEIGHT c) <? uint_of (Monitor.wh m)
                    then uint_of (my + HEIGHT c + Monitor.gappx m) else my in
          tile_loop m n mw l' (uint_of (i + 1)) my ty
        else
          let h := uint_of (uint_of (Monitor.wh m - ty) / uint_of (n - i) - Monitor.gappx m) in
          resize p (int_of (Monitor.wx m + mw + Monitor.gappx m)) (int_of (Monitor.wy m + ty))
                   (int_of (Monitor.ww m - mw - 2 * Client.bw c - 2 * Monitor.gappx m))
                   (int_of (h - 2 * Client.bw c)) false;;
          c ← deref p;
          let ty := if uint_of (ty + HEIGHT c) <? uint_of (Monitor.wh m)
                    then uint_of (ty + HEIGHT c + Monitor.gappx m) else ty in
          tile_loop m n mw l' (uint_of (i + 1)) my ty
  end.

Definition tile (mi : nat) : M unit :=
  m ← getmon mi;
  n ← tile_count (Monitor.clients m);
  let n := uint_of n in
  if n =? 0 then ret tt
  else tile_loop m n (tile_mw m n) (Monitor.clients m) 0
         (uint_of (Monitor.gappx m)) (uint_of (Monitor.gappx m)).

(** [restack]; draining the pending EnterNotify events leaves no trace. *)
Definition restack (mi : nat) : M unit :=
  m ← getmon mi;
  match Monitor.sel m with
  | None => ret tt
  | Some p =>
      c ← deref p;
      when (Client.isfloating c) (xsend (XRaiseWindow (Client.win c)));;
      xsend XSync
  end.

(** Run [f] on every monitor of [mons], in list order. *)
Fixpoint for_mons (f : nat -> M unit) (i n : nat) : M unit :=
  match n with
  | O => ret tt
  | S n' => f i;; for_mons f (S i) n'
  end.

(** [arrange(m)]; [None] is [arrange(NULL)]. *)
Definition arrange (m : option nat) : M unit :=
  match m with
  | Some mi =>
      mo ← getmon mi;
      showhide (Monitor.stack mo);;
      tile mi;;
      restack mi
  | None =>
      ms ← gets mons;
      for_mons (λ i, mo ← getmon i; showhide (Monitor.stack mo)) 0 (length ms);;
      for_mons tile 0 (length ms)
  end.

(** ** Fullscreen *)

Definition setfullscreen (p : cptr) (fullscreen : bool) : M unit :=
  c ← deref p;
  if fullscreen && negb (Client.isfullscreen c) then
    xsend (XChangeProperty_NetWMState (Client.win c) true);;
    update p (λ c, Client.set_isfloating true (Client.set_bw 0
                  (Client.set_oldbw (Client.bw c)
                  (Client.set_oldstate (Client.isfloating c)
                  (Client.set_isfullscreen true c)))));;
    m ← getmon (Client.mon c);
    resizeclient p (Monitor.mx m) (Monitor.my m) (Monitor.mw m) (Monitor.mh m);;
    xsend (XRaiseWindow (Client.win c))
  else if negb fullscreen && Client.isfullscreen c then
    xsend (XChangeProperty_NetWMState (Client.win c) false);;
    update p (λ c, Client.set_h (Client.oldh c) (Client.set_w (Client.oldw c)
                  (Client.set_y (Client.oldy c) (Client.set_x (Client.oldx c)
                  (Client.set_bw (Client.oldbw c)
                  (Client.set_isfloating (Client.oldstate c)
                  (Client.set_isfullscreen false c)))))));;
    c ← deref p;
    resizeclient p (Client.x c) (Client.y c) (Client.w c) (Client.h c);;
    arrange (Some (Client.mon c))
  else ret tt.

(** ** Master factor and master count *)

(** [setmfact]; [None] is a NULL [arg].  [f < 1.0], [f - 1.0] and the range
    test are in double, the sum [arg->f + selmon->mfact] in float. *)
Definition setmfact (arg : option float) : M unit :=
  match arg with
  | None => ret tt
  | Some af =>
      mi ← gets selmon;
      m ← getmon mi;
      let f := F32.of_double
                 (if flt (F64.of_float af) (F64.of_Z 1)
                  then F64.of_float (F32.add af (Monitor.mfact m))
                  else F64.sub (F64.of_float af) (F64.of_Z 1)) in
      if flt (F64.of_float f) (F64.lit 5 2) || flt (F64.lit 95 2) (F64.of_float f)
      then ret tt
      else updmon mi (Monitor.set_mfact f);; arrange (Some mi)
  end.

(** [incnmaster]: the sum and MAX are in [long], the store converts to [int]. *)
Definition incnmaster (i : Z) : M unit :=
  mi ← gets selmon;
  updmon mi (λ m, Monitor.set_nmaster (int_of (MAX (long_of (Monitor.nmaster m + i)) 0)) m);;
  arrange (Some mi).

(** [createmon]: a zeroed monitor with the configured defaults. *)
Definition createmon (bh : Z) : Monitor :=
  {| Monitor.mfact := mfact; Monitor.nmaster := nmaster; Monitor.num := 0;
     Monitor.by_ := 0; Monitor.bh := bh;
     Monitor.mx := 0; Monitor.my := 0; Monitor.mw := 0; Monitor.mh := 0;
     Monitor.wx := 0; Monitor.wy := 0; Monitor.ww := 0; Monitor.wh := 0;
     Monitor.gappx := gappx; Monitor.seltags := false; Monitor.tagset := (1, 1);
     Monitor.clients := []; Monitor.sel := None; Monitor.stack := [];
     Monitor.barwin := 0; Monitor.traywin := 0 |}.

(** ** Focus *)

Section Handlers.

(** The server the handlers talk to. *)
Variable X : XServer.

(** [grabbuttons]: the numlock mask it refreshes is not part of the model. *)
Definition grabbuttons (p : cptr) (focused : bool) : M unit :=
  c ← deref p;
  xsend (XGrabButtons (Client.win c) focused).

Definition sendevent (p : cptr) (proto : Atom) : M bool :=
  c ← deref p;
  let exists_ :=
    match XGetWMProtocols X (Client.win c) with
    | Some protocols => bool_decide (proto ∈ protocols)
    | None => false
    end in
  when exists_ (xsend (XSendEvent_ClientMessage (Client.win c) proto));;
  ret exists_.

Definition setfocus (p : cptr) : M unit :=
  c ← deref p;
  when (negb (Client.neverfocus c))
    (xsend (XSetInputFocus (Some (Client.win c)));;
     xsend (XChangeProperty_NetActiveWindow (Client.win c)));;
  _ ← sendevent p WMTakeFocus;
  ret tt.

Definition seturgent (p : cptr) (urg : bool) : M unit :=
  update p (Client.set_isurgent urg);;
  c ← deref p;
  match XGetWMHints X (Client.win c) with
  | None => ret tt
  | Some wmh =>
      xsend (XSetWMHints (Client.win c)
               (if urg then Z.lor (wm_flags wmh) XUrgencyHint
                else Z.land (wm_flags wmh) (Z.lnot XUrgencyHint)))
  end.

Definition unfocus (c : option cptr) (setfocus : bool) : M unit :=
  match c with
  | None => ret tt
  | Some p =>
      grabbuttons p false;;
      when setfocus
        (xsend (XSetInputFocus None);; xsend XDeleteProperty_NetActiveWindow)
  end.

Definition focus (c : option cptr) : M unit :=
  v ← match c with Some p => ISVISIBLE p | None => ret false end;
  c ← (if v then ret c
       else mi ← gets selmon; m ← getmon mi; first_visible (Monitor.stack m));
  mi ← gets selmon;
  m ← getmon mi;
  when (bool_decide (is_Some (Monitor.sel m)) && negb (bool_decide (Monitor.sel m = c)))
    (unfocus (Monitor.sel m) false);;
  match c with
  | Some p =>
      cl ← deref p;
      when (negb (bool_decide (Client.mon cl = mi))) (modify (set_selmon (Client.mon cl)));;
      when (Client.isurgent cl) (seturgent p false);;
      detachstack p;;
      attachstack p;;
      grabbuttons p true;;
      setfocus p
  | None =>
      xsend (XSetInputFocus None);;
      xsend XDeleteProperty_NetActiveWindow
  end;;
  mi ← gets selmon;
  updmon mi (Monitor.set_sel c).

(** ** Promotion to master *)

Definition pop (p : cptr) : M unit :=
  detach p;;
  attach p;;
  focus (Some p);;
  c ← deref p;
  arrange (Some (Client.mon c)).

Definition zoom : M unit :=
  mi ← gets selmon;
  m ← getmon mi;
  floating ← match Monitor.sel m with
             | Some p => c ← deref p; ret (Client.isfloating c)
             | None => ret false
             end;
  if floating then ret tt
  else
    t ← nexttiled (Monitor.clients m);
    match Monitor.sel m, t with
    | None, [] => ret tt                       (* c == NULL == nexttiled(..) *)
    | None, _ :: _ => fail                     (* pop(NULL) *)
    | Some p, [] => pop p
    | Some p, q :: rest =>
        if decide (p = q) then
          t' ← nexttiled rest;                 (* nexttiled(c->next) *)
          match t' with
          | [] => ret tt
          | r :: _ => pop r
          end
        else pop p
    end.

Definition togglefullscr : M unit :=
  mi ← gets selmon;
  m ← getmon mi;
  match Monitor.sel m with
  | Some p => c ← deref p; setfullscreen p (negb (Client.isfullscreen c))
  | None => ret tt
  end.

(** ** Tags and views *)

Definition keyrelease : M unit := modify (set_combo false).

(** [arg->ui & TAGMASK], stored in an [unsigned int]. *)
Definition tagbits (ui : Z) : Z := uint_of (Z.land (ulong_of ui) TAGMASK).

Definition combotag (ui : Z) : M unit :=
  mi ← gets selmon;
  m ← getmon mi;
  match Monitor.sel m with
  | Some p =>
      if tagbits ui =? 0 then ret tt
      else
        cmb ← gets combo;
        (if cmb then update p (λ c, Client.set_tags (Z.lor (Client.tags c) (tagbits ui)) c)
         else modify (set_combo true);; update p (Client.set_tags (tagbits ui)));;
        focus None;;
        mi ← gets selmon;
        arrange (Some mi)
  | None => ret tt
  end.

Definition comboview (ui : Z) : M unit :=
  let newtags := tagbits ui in
  mi ← gets selmon;
  cmb ← gets combo;
  (if cmb then
     updmon mi (λ m, Monitor.set_tagset_at (Monitor.seltags m)
                        (Z.lor (Monitor.seltagset m) newtags) m)
   else
     updmon mi (λ m, Monitor.set_seltags (negb (Monitor.seltags m)) m);;  (* toggle tagset *)
     modify (set_combo true);;
     when (negb (newtags =? 0))
       (updmon mi (λ m, Monitor.set_tagset_at (Monitor.seltags m) newtags m)));;
  focus None;;
  mi ← gets selmon;
  arrange (Some mi).

Definition tag (ui : Z) : M unit :=
  mi ← gets selmon;
  m ← getmon mi;
  match Monitor.sel m with
  | Some p =>
      if tagbits ui =? 0 then ret tt
      else
        update p (Client.set_tags (tagbits ui));;
        focus None;;
        mi ← gets selmon;
        arrange (Some mi)
  | None => ret tt
  end.

Definition toggletag (ui : Z) : M unit :=
  mi ← gets selmon;
  m ← getmon mi;
  match Monitor.sel m with
  | None => ret tt
  | Some p =>
      c ← deref p;
      let newtags := uint_of (Z.lxor (Client.tags c) (tagbits ui)) in
      if newtags =? 0 then ret tt
      else
        update p (Client.set_tags newtags);;
        focus None;;
        mi ← gets selmon;
        arrange (Some mi)
  end.

Definition toggleview (ui : Z) : M unit :=
  mi ← gets selmon;
  m ← getmon mi;
  let newtagset := uint_of (Z.lxor (Monitor.seltagset m) (tagbits ui)) in
  if newtagset =? 0 then ret tt
  else
    updmon mi (λ m, Monitor.set_tagset_at (Monitor.seltags m) newtagset m);;
    focus None;;
    mi ← gets selmon;
    arrange (Some mi).

Definition view (ui : Z) : M unit :=
  mi ← gets selmon;
  m ← getmon mi;
  if tagbits ui =? Monitor.seltagset m then ret tt
  else
    updmon mi (λ m, Monitor.set_seltags (negb (Monitor.seltags m)) m);;
    when (negb (tagbits ui =? 0))
      (updmon mi (λ m, Monitor.set_tagset_at (Monitor.seltags m) (tagbits ui) m));;
    focus None;;
    mi ← gets selmon;
    arrange (Some mi).

(** ** ConfigureRequest *)

(** The first client of the list whose window is [w]. *)
Fixpoint find_win (w : Window) (l : list cptr) : M (option cptr) :=
  match l with
  | [] => ret None
  | p :: l' => c ← deref p; if Client.win c =? w then ret (Some p) else find_win w l'
  end.

Fixpoint wintoclient_mons (w : Window) (ms : list Monitor) : M (option cptr) :=
  match ms with
  | [] => ret None
  | m :: ms' =>
      r ← find_win w (Monitor.clients m);
      match r with
      | Some p => ret (Some p)
      | None => wintoclient_mons w ms'
      end
  end.

Definition wintoclient (w : Window) : M (option cptr) :=
  ms ← gets mons; wintoclient_mons w ms.

Definition has_bits (mask bits : Z) : bool := negb (Z.land mask bits =? 0).

Definition configurerequest (ev : XConfigureRequestEvent) : M unit :=
  c ← wintoclient (ev_window ev);
  match c with
  | Some p =>
      cl ← deref p;
      if has_bits (ev_value_mask ev) CWBorderWidth then
        update p (Client.set_bw (ev_border_width ev))
      else if Client.isfloating cl then
        m ← getmon (Client.mon cl);
        when (has_bits (ev_value_mask ev) CWX)
          (update p (λ c, Client.set_x (int_of (Monitor.mx m + ev_x ev))
                            (Client.set_oldx (Client.x c) c)));;
        when (has_bits (ev_value_mask ev) CWY)
          (update p (λ c, Client.set_y (int_of (Monitor.my m + ev_y ev))
                            (Client.set_oldy (Client.y c) c)));;
        when (has_bits (ev_value_mask ev) CWWidth)
          (update p (λ c, Client.set_w (ev_width ev) (Client.set_oldw (Client.w c) c)));;
        when (has_bits (ev_value_mask ev) CWHeight)
          (update p (λ c, Client.set_h (ev_height ev) (Client.set_oldh (Client.h c) c)));;
        c1 ← deref p;
        (* center in x direction *)
        when ((int_of (Client.x c1 + Client.w c1) >? int_of (Monitor.mx m + Monitor.mw m))
              && Client.isfloating c1)
          (update p (Client.set_x
             (int_of (Monitor.mx m + (Monitor.mw m ÷ 2 - WIDTH c1 ÷ 2)))));;
        c2 ← deref p;
        (* center in y direction *)
        when ((int_of (Client.y c2 + Client.h c2) >? int_of (Monitor.my m + Monitor.mh m))
              && Client.isfloating c2)
          (update p (Client.set_y
             (int_of (Monitor.my m + (Monitor.mh m ÷ 2 - HEIGHT c2 ÷ 2)))));;
        when (has_bits (ev_value_mask ev) (CWX + CWY)
              && negb (has_bits (ev_value_mask ev) (CWWidth + CWHeight)))
          (configure p);;
        v ← ISVISIBLE p;
        c3 ← deref p;
        when v (xsend (XMoveResizeWindow (Client.win c3) (Client.x c3) (Client.y c3)
                         (Client.w c3) (Client.h c3)))
      else configure p
  | None =>
      xsend (XConfigureWindow (ev_window ev) (ev_value_mask ev) (ev_x ev) (ev_y ev)
               (ev_width ev) (ev_height ev) (ev_border_width ev) (ev_above ev) (ev_detail ev))
  end;;
  xsend XSync.

(** ** Adoption of a window *)

(** [strstr(hay, needle) != NULL] *)
Fixpoint strstr (hay needle : string) : bool :=
  String.prefix needle hay
  || match hay with
     | EmptyString => false
     | String _ hay' => strstr hay' needle
     end.

Record Rule := {
  r_class : option string; r_instance : option string; r_title : option string;
  r_tags : Z; r_isfloating : bool; r_monitor : Z
}.

Definition rules : list Rule :=
  [ {| r_class := Some "Gimp"%string; r_instance := None; r_title := None;
       r_tags := 0; r_isfloating := true; r_monitor := -1 |};
    {| r_class := Some "Firefox"%string; r_instance := None; r_title := None;
       r_tags := Z.shiftl 1 8; r_isfloating := false; r_monitor := -1 |} ].

Definition broken : string := "broken".

(** [!pat || strstr(text, pat)] *)
Definition rule_matches (pat : option string) (text : string) : bool :=
  match pat with
  | None => true
  | Some s => strstr text s
  end.

(** [for (m = mons; m && m->num != n; m = m->next);]: index of the monitor found. *)
Fixpoint mon_by_num (n : Z) (ms : list Monitor) (i : nat) : option nat :=
  match ms with
  | [] => None
  | m :: ms' => if Monitor.num m =? n then Some i else mon_by_num n ms' (S i)
  end.

Fixpoint applyrules_loop (p : cptr) (class instance : string) (rs : list Rule) : M unit :=
  match rs with
  | [] => ret tt
  | r :: rs' =>
      c ← deref p;
      when (rule_matches (r_title r) (Client.name c) && rule_matches (r_class r) class
            && rule_matches (r_instance r) instance)
        (update p (λ c, Client.set_tags (Z.lor (Client.tags c) (r_tags r))
                          (Client.set_isfloating (r_isfloating r) c));;
         ms ← gets mons;
         match mon_by_num (r_monitor r) ms 0 with
         | Some i => update p (Client.set_mon i)
         | None => ret tt
         end);;
      applyrules_loop p class instance rs'
  end.

Definition applyrules (p : cptr) : M unit :=
  update p (λ c, Client.set_tags 0 (Client.set_isfloating false c));;
  c ← deref p;
  let ch := match XGetClassHint X (Client.win c) with
            | Some ch => ch
            | None => (None, None)
            end in
  let class := default broken (snd ch) in
  let instance := default broken (fst ch) in
  applyrules_loop p class instance rules;;
  c ← deref p;
  m ← getmon (Client.mon c);
  update p (Client.set_tags
              (if Z.land (Client.tags c) TAGMASK =? 0 then Monitor.seltagset m
               else Z.land (Client.tags c) TAGMASK)).

Definition updatetitle (p : cptr) : M unit :=
  c ← deref p;
  let t := window_title X (Client.win c) in
  (* hack to mark broken clients *)
  update p (Client.set_name (if decide (t = EmptyString) then broken else t)).

Definition updatewindowtype (p : cptr) : M unit :=
  c ← deref p;
  when (bool_decide (net_wm_state X (Client.win c) = NetWMFullscreen))
    (setfullscreen p true);;
  when (bool_decide (net_wm_window_type X (Client.win c) = NetWMWindowTypeDialog))
    (update p (Client.set_isfloating true)).

Definition updatesizehints (p : cptr) : M unit :=
  c ← deref p;
  let size := match XGetWMNormalHints X (Client.win c) with
              | Some size => size
              | None => (* size is uninitialized, ensure that size.flags aren't used *)
                  {| sh_flags := PSize; min_width := 0; min_height := 0;
                     max_width := 0; max_height := 0; width_inc := 0; height_inc := 0;
                     min_aspect := (0, 0); max_aspect := (0, 0);
                     base_width := 0; base_height := 0 |}
              end in
  let has f := has_bits (sh_flags size) f in
  let '(basew, baseh) :=
    if has PBaseSize then (base_width size, base_height size)
    else if has PMinSize then (min_width size, min_height size)
    else (0, 0) in
  let '(incw, inch) := if has PResizeInc then (width_inc size, height_inc size) else (0, 0) in
  let '(maxw, maxh) := if has PMaxSize then (max_width size, max_height size) else (0, 0) in
  let '(minw, minh) :=
    if has PMinSize then (min_width size, min_height size)
    else if has PBaseSize then (base_width size, base_height size)
    else (0, 0) in
  let '(mina, maxa) :=
    if has PAspect then
      (F32.div (F32.of_Z (snd (min_aspect size))) (F32.of_Z (fst (min_aspect size))),
       F32.div (F32.of_Z (fst (max_aspect size))) (F32.of_Z (snd (max_aspect size))))
    else (F32.of_Z 0, F32.of_Z 0) in
  store p
    {| Client.name := Client.name c; Client.mina := mina; Client.maxa := maxa;
       Client.x := Client.x c; Client.y := Client.y c;
       Client.w := Client.w c; Client.h := Client.h c;
       Client.oldx := Client.oldx c; Client.oldy := Client.oldy c;
       Client.oldw := Client.oldw c; Client.oldh := Client.oldh c;
       Client.basew := basew; Client.baseh := baseh;
       Client.incw := incw; Client.inch := inch;
       Client.maxw := maxw; Client.maxh := maxh;
       Client.minw := minw; Client.minh := minh;
       Client.bw := Client.bw c; Client.oldbw := Client.oldbw c;
       Client.tags := Client.tags c;
       Client.isfixed := negb (maxw =? 0) && negb (maxh =? 0)
                         && (maxw =? minw) && (maxh =? minh);
       Client.isfloating := Client.isfloating c; Client.isurgent := Client.isurgent c;
       Client.neverfocus := Client.neverfocus c; Client.oldstate := Client.oldstate c;
       Client.isfullscreen := Client.isfullscreen c;
       Client.mon := Client.mon c; Client.win := Client.win c |}.

Definition updatewmhints (p : cptr) : M unit :=
  c ← deref p;
  match XGetWMHints X (Client.win c) with
  | None => ret tt
  | Some wmh =>
      mi ← gets selmon;
      m ← getmon mi;
      (if bool_decide (Monitor.sel m = Some p) && has_bits (wm_flags wmh) XUrgencyHint then
         xsend (XSetWMHints (Client.win c) (Z.land (wm_flags wmh) (Z.lnot XUrgencyHint)))
       else update p (Client.set_isurgent (has_bits (wm_flags wmh) XUrgencyHint)));;
      update p (Client.set_neverfocus
                  (if has_bits (wm_flags wmh) InputHint then negb (wm_input wmh) else false))
  end.

Definition setclientstate (p : cptr) (state : Z) : M unit :=
  c ← deref p;
  xsend (XChangeProperty_WMState (Client.win c) state).

(** What [ecalloc(1, sizeof(Client))] returns. *)
Definition zero_client : Client :=
  {| Client.name := EmptyString; Client.mina := F32.of_Z 0; Client.maxa := F32.of_Z 0;
     Client.x := 0; Client.y := 0; Client.w := 0; Client.h := 0;
     Client.oldx := 0; Client.oldy := 0; Client.oldw := 0; Client.oldh := 0;
     Client.basew := 0; Client.baseh := 0; Client.incw := 0; Client.inch := 0;
     Client.maxw := 0; Client.maxh := 0; Client.minw := 0; Client.minh := 0;
     Client.bw := 0; Client.oldbw := 0; Client.tags := 0;
     Client.isfixed := false; Client.isfloating := false; Client.isurgent := false;
     Client.neverfocus := false; Client.oldstate := false; Client.isfullscreen := false;
     Client.mon := 0%nat; Client.win := 0 |}.

Definition ecalloc_client : M cptr :=
  p ← gets brk;
  modify (set_brk (Pos.succ p));;
  store p zero_client;;
  ret p.

Definition manage (w : Window) (wa : XWindowAttributes) : M unit :=
  p ← ecalloc_client;
  update p (Client.set_win w);;
  (* geometry *)
  update p (λ c, Client.set_oldbw (wa_border_width wa)
                (Client.set_oldh (wa_height wa) (Client.set_h (wa_height wa)
                (Client.set_oldw (wa_width wa) (Client.set_w (wa_width wa)
                (Client.set_oldy (wa_y wa) (Client.set_y (wa_y wa)
                (Client.set_oldx (wa_x wa) (Client.set_x (wa_x wa) c)))))))));;
  updatetitle p;;
  let trans := default 0 (XGetTransientForHint X w) in
  t ← match XGetTransientForHint X w with
      | Some tw => wintoclient tw
      | None => ret None
      end;
  match t with
  | Some tp =>
      tc ← deref tp;
      update p (λ c, Client.set_tags (Client.tags tc) (Client.set_mon (Client.mon tc) c))
  | None =>
      mi ← gets selmon;
      update p (Client.set_mon mi);;
      applyrules p
  end;;
  c ← deref p;
  m ← getmon (Client.mon c);
  when (int_of (Client.x c + WIDTH c) >? int_of (Monitor.mx m + Monitor.mw m))
    (update p (Client.set_x (int_of (Monitor.mx m + Monitor.mw m - WIDTH c))));;
  when (int_of (Client.y c + HEIGHT c) >? int_of (Monitor.my m + Monitor.mh m))
    (update p (Client.set_y (int_of (Monitor.my m + Monitor.mh m - HEIGHT c))));;
  update p (λ c, Client.set_x (MAX (Client.x c) (Monitor.mx m)) c);;
  (* only fix client y-offset, if the client center might cover the bar *)
  gbh ← gets bh;
  update p (λ c, Client.set_y
     (MAX (Client.y c)
        (if (Monitor.by_ m =? Monitor.my m)
            && (int_of (Client.x c + Client.w c ÷ 2) >=? Monitor.wx m)
            && (int_of (Client.x c + Client.w c ÷ 2) <? int_of (Monitor.wx m + Monitor.ww m))
         then gbh else Monitor.my m)) c);;
  update p (Client.set_bw borderpx);;
  xsend (XConfigureWindow w CWBorderWidth 0 0 0 0 borderpx 0 0);;
  configure p;;       (* propagates border_width, if size doesn't change *)
  updatewindowtype p;;
  updatesizehints p;;
  updatewmhints p;;
  xsend (XSelectInput w client_event_mask);;
  grabbuttons p false;;
  c ← deref p;
  when (negb (Client.isfloating c))
    (let v := negb (trans =? 0) || Client.isfixed c in
     update p (λ c, Client.set_isfloating v (Client.set_oldstate v c)));;
  c ← deref p;
  when (Client.isfloating c) (xsend (XRaiseWindow (Client.win c)));;
  attach p;;
  attachstack p;;
  xsend (XChangeProperty_NetClientList_Append (Client.win c));;
  gsw ← gets sw;
  (* some windows require this *)
  xsend (XMoveResizeWindow (Client.win c) (int_of (Client.x c + 2 * gsw)) (Client.y c)
           (Client.w c) (Client.h c));;
  setclientstate p NormalState;;
  mi ← gets selmon;
  when (bool_decide (Client.mon c = mi)) (m ← getmon mi; unfocus (Monitor.sel m) false);;
  updmon (Client.mon c) (Monitor.set_sel (Some p));;
  arrange (Some (Client.mon c));;
  xsend (XMapWindow (Client.win c));;
  focus None.

(** ** Focus along the client list *)

(** [for (; i; i = i->next) if (ISVISIBLE(i)) c = i;] *)
Fixpoint last_visible (l : list cptr) (c : option cptr) : M (option cptr) :=
  match l with
  | [] => ret c
  | p :: l' => v ← ISVISIBLE p; last_visible l' (if v then Some p else c)
  end.

Definition focusstack (i : Z) : M unit :=
  mi ← gets selmon;
  m ← getmon mi;
  match Monitor.sel m with
  | None => ret tt
  | Some s =>
      c ← (if i >? 0 then
             match successors s (Monitor.clients m) with
             | Some l =>
                 c ← first_visible l;
                 match c with
                 | Some _ => ret c
                 | None => first_visible (Monitor.clients m)
                 end
             | None => fail
             end
           else
             match predecessors s (Monitor.clients m), successors s (Monitor.clients m) with
             | Some before, Some after =>
                 c ← last_visible before None;
                 match c with
                 | Some _ => ret c
                 | None => last_visible (s :: after) None
                 end
             | _, _ => fail
             end);
      match c with
      | Some p => focus (Some p);; mi ← gets selmon; restack mi
      | None => ret tt
      end
  end.

End Handlers.

(** The size hints the server keeps of a window carry no resize increment
    of -1, by which the remainder of [applysizehints] would trap. *)
Definition tame_server (X : XServer) : Prop :=
  ∀ w size, XGetWMNormalHints X w = Some size ->
            has_bits (sh_flags size) PResizeInc = true ->
            width_inc size ≠ -1 ∧ height_inc size ≠ -1.

(** The increments [updatesizehints] stores for the window [w]. *)
Definition tame_hints (X : XServer) (w : Window) : Prop :=
  let size := match XGetWMNormalHints X w with
              | Some size => size
              | None =>
                  {| sh_flags := PSize; min_width := 0; min_height := 0;
                     max_width := 0; max_height := 0; width_inc := 0; height_inc := 0;
                     min_aspect := (0, 0); max_aspect := (0, 0);
                     base_width := 0; base_height := 0 |}
              end in
  let i := if has_bits (sh_flags size) PResizeInc
           then (width_inc size, height_inc size) else (0, 0) in
  fst i ≠ -1 ∧ snd i ≠ -1.

Lemma tame_server_hints X : tame_server X -> ∀ w, tame_hints X w.
Proof.
  intros HX w. unfold tame_hints. specialize (HX w).
  destruct (XGetWMNormalHints X w) as [size|]; cbv zeta.
  - destruct (has_bits (sh_flags size) PResizeInc) eqn:E; [|simpl; lia].
    exact (HX size eq_refl E).
  - destruct (has_bits _ _); simpl; lia.
Qed.

(** ** Start-up state *)

(** [updatebarpos] *)
Definition updatebarpos (m : Monitor) : Monitor :=
  {| Monitor.mfact := Monitor.mfact m; Monitor.nmaster := Monitor.nmaster m;
     Monitor.num := Monitor.num m;
     Monitor.by_ := Monitor.my m; Monitor.bh := Monitor.bh m;
     Monitor.mx := Monitor.mx m; Monitor.my := Monitor.my m;
     Monitor.mw := Monitor.mw m; Monitor.mh := Monitor.mh m;
     Monitor.wx := Monitor.wx m; Monitor.wy := int_of (Monitor.my m + Monitor.bh m);
     Monitor.ww := Monitor.ww m; Monitor.wh := int_of (Monitor.mh m - Monitor.bh m);
     Monitor.gappx := Monitor.gappx m; Monitor.seltags := Monitor.seltags m;
     Monitor.tagset := Monitor.tagset m; Monitor.clients := Monitor.clients m;
     Monitor.sel := Monitor.sel m; Monitor.stack := Monitor.stack m;
     Monitor.barwin := Monitor.barwin m; Monitor.traywin := Monitor.traywin m |}.

(** The monitor [updategeom] sets up for a display of [sw] by [sh] pixels
    that has one screen (its default branch: [createmon], then the screen
    size into [mw], [ww], [mh], [wh], then [updatebarpos]). *)
Definition screen_monitor (bh sw sh : Z) : Monitor :=
  let m := createmon bh in
  updatebarpos
    {| Monitor.mfact := Monitor.mfact m; Monitor.nmaster := Monitor.nmaster m;
       Monitor.num := Monitor.num m; Monitor.by_ := Monitor.by_ m; Monitor.bh := Monitor.bh m;
       Monitor.mx := Monitor.mx m; Monitor.my := Monitor.my m;
       Monitor.mw := sw; Monitor.mh := sh;
       Monitor.wx := Monitor.wx m; Monitor.wy := Monitor.wy m;
       Monitor.ww := sw; Monitor.wh := sh;
       Monitor.gappx := Monitor.gappx m; Monitor.seltags := Monitor.seltags m;
       Monitor.tagset := Monitor.tagset m; Monitor.clients := Monitor.clients m;
       Monitor.sel := Monitor.sel m; Monitor.stack := Monitor.stack m;
       Monitor.barwin := Monitor.barwin m; Monitor.traywin := Monitor.traywin m |}.

(** The state [setup] leaves on such a display: no client, no bar ([bh] is
    0 until a bar window is adopted), [combo] clear. *)
Definition setup_state (sw sh : Z) : State :=
  {| heap := ∅; mons := [screen_monitor 0 sw sh]; selmon := 0%nat; combo := false;
     bh := 0; sw := sw; sh := sh; brk := 1%positive; xlog := [] |}.

(** * Verification *)

(** ** Machine arithmetic *)

Lemma int_of_id z : INT_MIN <= z <= INT_MAX -> int_of z = z.
Proof.
  unfold int_of, INT_MIN, INT_MAX. intros H.
  rewrite Z.mod_small by lia. lia.
Qed.


Lemma MAX_spec a b : MAX a b = Z.max a b.
Proof. unfold MAX. destruct (Z.gtb_spec a b); lia. Qed.

Lemma MIN_spec a b : MIN a b = Z.min a b.
Proof. unfold MIN. destruct (Z.ltb_spec a b); lia. Qed.

(** ** The monad *)

Lemma bind_run {A B} (m : M A) (f : A -> M B) s a s' :
  m s = Some (a, s') -> bind m f s = f a s'.
Proof. unfold bind. now intros ->. Qed.

Lemma bind_stuck {A B} (m : M A) (f : A -> M B) s :
  m s = None -> bind m f s = None.
Proof. unfold bind. now intros ->. Qed.

Lemma bind_inv {A B} (m : M A) (f : A -> M B) s r :
  bind m f s = Some r -> ∃ a s', m s = Some (a, s') ∧ f a s' = Some r.
Proof.
  unfold bind. destruct (m s) as [[a s']|]; [|discriminate]. eauto.
Qed.

Lemma deref_Some s p c : heap s !! p = Some c -> deref p s = Some (c, s).
Proof. unfold deref. now intros ->. Qed.

Lemma getmon_Some s i m : mons s !! i = Some m -> getmon i s = Some (m, s).
Proof. unfold getmon. now intros ->. Qed.

Lemma deref_inv s p c s' : deref p s = Some (c, s') -> heap s !! p = Some c ∧ s' = s.
Proof. unfold deref. destruct (heap s !! p); naive_solver. Qed.

Lemma getmon_inv s i m s' : getmon i s = Some (m, s') -> mons s !! i = Some m ∧ s' = s.
Proof. unfold getmon. destruct (mons s !! i); naive_solver. Qed.

(** ** States up to a view of the clients *)

(** The state with every client replaced by its image under [f] and the
    request log dropped: two states with the same image agree on everything
    a handler can read except what [f] forgets. *)
Definition norm (f : Client -> Client) (s : State) : State :=
  {| heap := f <$> heap s; mons := mons s; selmon := selmon s; combo := combo s;
     bh := bh s; sw := sw s; sh := sh s; brk := brk s; xlog := [] |}.

Definition agree (f : Client -> Client) (s s' : State) : Prop := norm f s = norm f s'.

Section Agree.
Variable f : Client -> Client.

Lemma agree_refl s : agree f s s.
Proof. reflexivity. Qed.

Lemma agree_sym s s' : agree f s s' -> agree f s' s.
Proof. unfold agree. congruence. Qed.

Lemma agree_trans s1 s2 s3 : agree f s1 s2 -> agree f s2 s3 -> agree f s1 s3.
Proof. unfold agree. congruence. Qed.

Lemma agree_mons s s' : agree f s s' -> mons s = mons s'.
Proof. intros H. exact (f_equal mons H). Qed.

Lemma agree_selmon s s' : agree f s s' -> selmon s = selmon s'.
Proof. intros H. exact (f_equal selmon H). Qed.

Lemma agree_combo s s' : agree f s s' -> combo s = combo s'.
Proof. intros H. exact (f_equal combo H). Qed.

Lemma agree_globals s s' : agree f s s' -> bh s = bh s' ∧ sw s = sw s' ∧ sh s = sh s'.
Proof.
  intros H. repeat split;
    [exact (f_equal bh H) | exact (f_equal sw H) | exact (f_equal sh H)].
Qed.

Lemma agree_lookup s s' p : agree f s s' -> f <$> heap s !! p = f <$> heap s' !! p.
Proof.
  intros H. rewrite <- !lookup_fmap. exact (f_equal (λ t, heap t !! p) H).
Qed.

Lemma agree_lookup_Some s s' p c :
  agree f s s' -> heap s !! p = Some c -> ∃ c', heap s' !! p = Some c' ∧ f c' = f c.
Proof.
  intros H Hc. pose proof (agree_lookup s s' p H) as E. rewrite Hc in E.
  destruct (heap s' !! p) as [c'|]; simpl in E; [|discriminate].
  exists c'. split; [done|congruence].
Qed.

Lemma agree_xlog s l : agree f s (set_xlog l s).
Proof. reflexivity. Qed.

Lemma agree_store s p c c' :
  heap s !! p = Some c -> f c' = f c -> agree f s (set_heap (<[p:=c']> (heap s)) s).
Proof.
  intros Hc E. unfold agree, norm. simpl. f_equal.
  rewrite fmap_insert, E. symmetry. apply insert_id. now rewrite lookup_fmap, Hc.
Qed.

(** *** Runs that return and stay in the class of the start state *)

(** [safe s0 m Q]: from every state that agrees with [s0], [m] returns a
    value satisfying [Q] in a state that still agrees. *)
Definition safe (s0 : State) {A} (m : M A) (Q : A -> Prop) : Prop :=
  ∀ s, agree f s0 s -> ∃ a s', m s = Some (a, s') ∧ agree f s s' ∧ Q a.

Lemma safe_ret s0 {A} (a : A) (Q : A -> Prop) : Q a -> safe s0 (ret a) Q.
Proof. intros HQ s _. exists a, s. auto using agree_refl. Qed.

Lemma safe_bind s0 {A B} (m : M A) (k : A -> M B) (Q : A -> Prop) (Q' : B -> Prop) :
  safe s0 m Q -> (∀ a, Q a -> safe s0 (k a) Q') -> safe s0 (bind m k) Q'.
Proof.
  intros Hm Hk s Hs.
  destruct (Hm s Hs) as (a & s1 & E1 & A1 & HQ).
  destruct (Hk a HQ s1 (agree_trans _ _ _ Hs A1)) as (b & s2 & E2 & A2 & HQ').
  exists b, s2. rewrite (bind_run _ _ _ _ _ E1). eauto using agree_trans.
Qed.

Lemma safe_weaken s0 {A} (m : M A) (Q Q' : A -> Prop) :
  safe s0 m Q -> (∀ a, Q a -> Q' a) -> safe s0 m Q'.
Proof.
  intros Hm HQ s Hs. destruct (Hm s Hs) as (a & s1 & E1 & A1 & H). eauto 6.
Qed.

Lemma safe_seq s0 {A B} (m : M A) (k : M B) (Q : A -> Prop) (Q' : B -> Prop) :
  safe s0 m Q -> safe s0 k Q' -> safe s0 (bind m (λ _, k)) Q'.
Proof. intros Hm Hk. eapply safe_bind; eauto. Qed.

Lemma safe_gets s0 {A} (g : State -> A) :
  (∀ s, agree f s0 s -> g s = g s0) -> safe s0 (gets g) (λ a, a = g s0).
Proof. intros Hg s Hs. exists (g s), s. auto using agree_refl. Qed.

Lemma safe_xsend s0 r : safe s0 (xsend r) (λ _, True).
Proof. intros s _. eexists tt, _. split; [reflexivity|]. auto using agree_xlog. Qed.

Lemma safe_when s0 b (m : M unit) :
  safe s0 m (λ _, True) -> safe s0 (when b m) (λ _, True).
Proof. intros Hm. destruct b; [exact Hm|]. now apply safe_ret. Qed.

Lemma safe_deref s0 p c0 :
  heap s0 !! p = Some c0 -> safe s0 (deref p) (λ c, f c = f c0).
Proof.
  intros Hc s Hs. destruct (agree_lookup_Some _ _ _ _ Hs Hc) as (c & Hc' & E).
  exists c, s. rewrite (deref_Some _ _ _ Hc'). auto using agree_refl.
Qed.

Lemma safe_getmon s0 i m :
  mons s0 !! i = Some m -> safe s0 (getmon i) (λ m', m' = m).
Proof.
  intros Hm s Hs. exists m, s. rewrite (getmon_Some s i m).
  - auto using agree_refl.
  - now rewrite <- (agree_mons _ _ Hs).
Qed.

Lemma safe_update s0 p (g : Client -> Client) :
  is_Some (heap s0 !! p) -> (∀ c, f (g c) = f c) -> safe s0 (update p g) (λ _, True).
Proof.
  intros [c0 Hc] Hg s Hs. destruct (agree_lookup_Some _ _ _ _ Hs Hc) as (c & Hc' & E).
  eexists tt, _. unfold update. rewrite (bind_run _ _ _ _ _ (deref_Some _ _ _ Hc')).
  split; [reflexivity|]. split; [|done]. now apply agree_store with c.
Qed.

(** *** Runs from two agreeing states *)

(** [sim R m1 m2]: from agreeing states, [m1] and [m2] both leave the model
    or both return, with values related by [R], in agreeing states. *)
Definition sim {A} (R : A -> A -> Prop) (m1 m2 : M A) : Prop :=
  ∀ s1 s2, agree f s1 s2 ->
    match m1 s1, m2 s2 with
    | Some (a1, s1'), Some (a2, s2') => R a1 a2 ∧ agree f s1' s2'
    | None, None => True
    | _, _ => False
    end.

Lemma sim_ret {A} (R : A -> A -> Prop) a1 a2 : R a1 a2 -> sim R (ret a1) (ret a2).
Proof. intros HR s1 s2 Hs. simpl. auto. Qed.

Lemma sim_fail {A} (R : A -> A -> Prop) : sim R fail fail.
Proof. intros s1 s2 Hs. exact I. Qed.

Lemma sim_bind {A B} (R : A -> A -> Prop) (R' : B -> B -> Prop)
    (m1 m2 : M A) (k1 k2 : A -> M B) :
  sim R m1 m2 -> (∀ a1 a2, R a1 a2 -> sim R' (k1 a1) (k2 a2)) ->
  sim R' (bind m1 k1) (bind m2 k2).
Proof.
  intros Hm Hk s1 s2 Hs. specialize (Hm s1 s2 Hs). unfold bind.
  destruct (m1 s1) as [[a1 s1']|], (m2 s2) as [[a2 s2']|]; try done.
  destruct Hm as [HR Hs']. exact (Hk a1 a2 HR s1' s2' Hs').
Qed.

Lemma sim_gets {A} (g : State -> A) :
  (∀ s1 s2, agree f s1 s2 -> g s1 = g s2) -> sim eq (gets g) (gets g).
Proof. intros Hg s1 s2 Hs. simpl. auto. Qed.

Lemma sim_xsend r1 r2 : sim eq (xsend r1) (xsend r2).
Proof. intros s1 s2 Hs. simpl. split; [done|]. exact Hs. Qed.

Lemma sim_when b (m1 m2 : M unit) : sim eq m1 m2 -> sim eq (when b m1) (when b m2).
Proof. intros Hm. destruct b; [exact Hm|]. now apply sim_ret. Qed.

Lemma sim_deref p : sim (λ c1 c2, f c1 = f c2) (deref p) (deref p).
Proof.
  intros s1 s2 Hs. pose proof (agree_lookup _ _ p Hs) as E. unfold deref.
  destruct (heap s1 !! p), (heap s2 !! p); simpl in E; try done.
  split; [congruence|done].
Qed.

Lemma sim_getmon i : sim eq (getmon i) (getmon i).
Proof.
  intros s1 s2 Hs. unfold getmon. rewrite <- (agree_mons _ _ Hs).
  destruct (mons s1 !! i); done.
Qed.

Lemma sim_store p c1 c2 : f c1 = f c2 -> sim eq (store p c1) (store p c2).
Proof.
  intros E s1 s2 Hs. simpl. split; [done|].
  unfold agree, norm in *. simpl. rewrite !fmap_insert, E.
  injection Hs as -> -> -> -> -> -> -> ->. reflexivity.
Qed.

Lemma sim_update p (g1 g2 : Client -> Client) :
  (∀ c1 c2, f c1 = f c2 -> f (g1 c1) = f (g2 c2)) ->
  sim eq (update p g1) (update p g2).
Proof.
  intros Hg. unfold update. eapply sim_bind; [apply sim_deref|].
  intros c1 c2 E. apply sim_store. auto.
Qed.

(** *** Runs that stay in the class of their start state, if they return *)

Definition frame {A} (m : M A) : Prop :=
  ∀ s a s', m s = Some (a, s') -> agree f s s'.

Lemma frame_ret {A} (a : A) : frame (ret a).
Proof. intros s a' s' [= _ <-]. apply agree_refl. Qed.

Lemma frame_fail {A} : frame (@fail A).
Proof. intros s a s' [=]. Qed.

Lemma frame_bind {A B} (m : M A) (k : A -> M B) :
  frame m -> (∀ a, frame (k a)) -> frame (bind m k).
Proof.
  intros Hm Hk s b s' E. apply bind_inv in E as (a & s1 & E1 & E2).
  exact (agree_trans _ _ _ (Hm _ _ _ E1) (Hk _ _ _ _ E2)).
Qed.

Lemma frame_gets {A} (g : State -> A) : frame (gets g).
Proof. intros s a s' [= _ <-]. apply agree_refl. Qed.

Lemma frame_xsend r : frame (xsend r).
Proof. intros s a s' [= _ <-]. apply agree_xlog. Qed.

Lemma frame_when b (m : M unit) : frame m -> frame (when b m).
Proof. intros Hm. destruct b; [exact Hm|apply frame_ret]. Qed.

Lemma frame_deref p : frame (deref p).
Proof. intros s c s' E. apply deref_inv in E as [_ ->]. apply agree_refl. Qed.

Lemma frame_getmon i : frame (getmon i).
Proof. intros s c s' E. apply getmon_inv in E as [_ ->]. apply agree_refl. Qed.

Lemma frame_update p (g : Client -> Client) :
  (∀ c, f (g c) = f c) -> frame (update p g).
Proof.
  intros Hg s a s' E. unfold update in E. apply bind_inv in E as (c & s1 & E1 & E2).
  apply deref_inv in E1 as [Hc ->]. injection E2 as _ <-.
  apply agree_store with c; [exact Hc|apply Hg].
Qed.

End Agree.

(** ** The layout engine only moves clients *)

(** A client without its geometry: what [resizeclient] leaves alone. *)
Definition strip_geom (c : Client) : Client :=
  Client.set_x 0 (Client.set_y 0 (Client.set_w 0 (Client.set_h 0
  (Client.set_oldx 0 (Client.set_oldy 0 (Client.set_oldw 0 (Client.set_oldh 0 c))))))).

(** [p] can be dereferenced, and so can its [mon]. *)
Definition valid (s : State) (p : cptr) : Prop :=
  ∃ c, heap s !! p = Some c ∧ is_Some (mons s !! Client.mon c).

(** *** Size hints that do not trap *)

Lemma c_rem_Some a b : b ≠ 0 -> b ≠ -1 -> c_rem a b = Some (Z.rem a b).
Proof.
  intros H0 H1. unfold c_rem.
  destruct (Z.eqb_spec b 0) as [->|_]; [done|].
  destruct (Z.eqb_spec b (-1)) as [->|_]; [done|]. now rewrite andb_false_r.
Qed.

Lemma c_rem_inv a b r : c_rem a b = Some r -> r = Z.rem a b.
Proof. unfold c_rem. destruct (_ || _); congruence. Qed.

Lemma size_hints_tame c w h : tame c -> size_hints c w h = Some (hinted_size c w h).
Proof.
  intros [Hw Hh]. unfold size_hints, hinted_size.
  destruct (aspect_adjust c _ _) as [w1 h1].
  destruct (Z.eqb_spec (Client.incw c) 0) as [Ew|Ew];
    destruct (Z.eqb_spec (Client.inch c) 0) as [Eh|Eh];
    rewrite ?(c_rem_Some _ (Client.incw c)), ?(c_rem_Some _ (Client.inch c)) by done;
    reflexivity.
Qed.

Lemma size_hints_Some c w h r : size_hints c w h = Some r -> r = hinted_size c w h.
Proof.
  unfold size_hints, hinted_size. destruct (aspect_adjust c _ _) as [w1 h1].
  destruct (Client.incw c =? 0).
  - destruct (Client.inch c =? 0); [congruence|].
    destruct (c_rem _ (Client.inch c)) as [rh|] eqn:Eh; [|discriminate].
    apply c_rem_inv in Eh as ->. simpl. congruence.
  - destruct (c_rem _ (Client.incw c)) as [rw|] eqn:Ew; [|discriminate].
    apply c_rem_inv in Ew as ->. simpl.
    destruct (Client.inch c =? 0); [congruence|].
    destruct (c_rem _ (Client.inch c)) as [rh|] eqn:Eh; [|discriminate].
    apply c_rem_inv in Eh as ->. simpl. congruence.
Qed.

Lemma applysizehints_rect_tame sw sh bh m c x y w h i :
  tame c -> applysizehints_rect sw sh bh m c x y w h i
            = Some (hinted_rect sw sh bh m c x y w h i).
Proof.
  intros Ht. unfold applysizehints_rect, hinted_rect.
  destruct (if i then _ else _) as [x1 y1].
  destruct (resizehints || Client.isfloating c); [|reflexivity].
  rewrite (size_hints_tame _ _ _ Ht). now destruct (hinted_size c _ _).
Qed.

Lemma applysizehints_rect_Some sw sh bh m c x y w h i r :
  applysizehints_rect sw sh bh m c x y w h i = Some r ->
  r = hinted_rect sw sh bh m c x y w h i.
Proof.
  unfold applysizehints_rect, hinted_rect.
  destruct (if i then _ else _) as [x1 y1].
  destruct (resizehints || Client.isfloating c); [|congruence].
  destruct (size_hints c _ _) as [[w1 h1]|] eqn:E; [|discriminate].
  apply size_hints_Some in E as <-. congruence.
Qed.

Lemma tame_strip_geom c c0 : strip_geom c = strip_geom c0 -> tame c0 -> tame c.
Proof.
  intros E [Hw Hh]. pose proof (f_equal Client.incw E) as Ew.
  pose proof (f_equal Client.inch E) as Eh. simpl in Ew, Eh. split; congruence.
Qed.

(** [safe] with no claim on the value. *)
Abbreviation moves s0 m := (safe strip_geom s0 m (λ _, True)).

Create HintDb moves discriminated.
#[local] Hint Resolve safe_xsend safe_when : moves.
#[local] Hint Extern 1 (safe _ _ (ret _) _) => (apply safe_ret; exact I) : moves.

Section Moves.
Variable s0 : State.

(** No hint of a client of the start state makes [%] trap: what the
    lemmas on [applysizehints] and its callers assume. *)
Hypothesis Htame : tamed s0.

Lemma strip_geom_mon c c0 : strip_geom c = strip_geom c0 -> Client.mon c = Client.mon c0.
Proof. intros E. exact (f_equal Client.mon E). Qed.

Lemma moves_ISVISIBLE p : valid s0 p -> moves s0 (ISVISIBLE p).
Proof.
  intros (c0 & Hc & m0 & Hm). unfold ISVISIBLE.
  eapply safe_bind; [exact (safe_deref _ _ _ _ Hc)|]. intros c E.
  rewrite (strip_geom_mon _ _ E).
  eapply safe_bind; [exact (safe_getmon _ _ _ _ Hm)|]. intros m _. auto with moves.
Qed.

Lemma moves_gets {A} (g : State -> A) : moves s0 (gets g).
Proof. intros s Hs. exists (g s), s. auto using agree_refl. Qed.

Lemma moves_applysizehints p x y w h i :
  valid s0 p -> moves s0 (applysizehints p x y w h i).
Proof.
  intros (c0 & Hc & m0 & Hm). unfold applysizehints.
  eapply safe_bind; [exact (safe_deref _ _ _ _ Hc)|]. intros c E.
  rewrite (strip_geom_mon _ _ E).
  eapply safe_bind; [exact (safe_getmon _ _ _ _ Hm)|]. intros m _.
  do 3 (eapply safe_bind; [apply moves_gets|]; intros ? _).
  rewrite (applysizehints_rect_tame _ _ _ _ _ _ _ _ _ _ (tame_strip_geom _ _ E (Htame _ _ Hc))).
  auto with moves.
Qed.

Lemma moves_deref' p : is_Some (heap s0 !! p) -> moves s0 (deref p).
Proof.
  intros [c0 Hc]. eapply safe_weaken; [exact (safe_deref _ _ _ _ Hc)|done].
Qed.

Lemma moves_deref p : valid s0 p -> moves s0 (deref p).
Proof. intros (c0 & Hc & _). apply moves_deref'. eauto. Qed.

Lemma moves_configure p : valid s0 p -> moves s0 (configure p).
Proof.
  intros Hp. unfold configure.
  eapply safe_bind; [exact (moves_deref _ Hp)|]. intros c _. auto with moves.
Qed.

Lemma moves_resizeclient p x y w h : valid s0 p -> moves s0 (resizeclient p x y w h).
Proof.
  intros Hp. unfold resizeclient.
  eapply safe_seq.
  { apply safe_update; [destruct Hp as (c & -> & _); eauto|]. intros c. reflexivity. }
  eapply safe_bind; [exact (moves_deref _ Hp)|]. intros c _.
  eapply safe_seq; [apply safe_xsend|].
  eapply safe_seq; [exact (moves_configure _ Hp)|]. apply safe_xsend.
Qed.

Lemma moves_resize p x y w h i : valid s0 p -> moves s0 (resize p x y w h i).
Proof.
  intros Hp. unfold resize.
  eapply safe_bind; [exact (moves_applysizehints _ _ _ _ _ _ Hp)|].
  intros [ch [[[x' y'] w'] h']] _.
  apply safe_when. now apply moves_resizeclient.
Qed.

Lemma moves_showhide l : Forall (valid s0) l -> moves s0 (showhide l).
Proof.
  induction 1 as [|p l Hp Hl IH]; simpl; [auto with moves|].
  eapply safe_bind; [exact (moves_ISVISIBLE _ Hp)|]. intros [] _.
  - eapply safe_bind; [exact (moves_deref _ Hp)|]. intros c _.
    eapply safe_seq; [apply safe_xsend|].
    eapply safe_seq; [|exact IH].
    apply safe_when. now apply moves_resize.
  - eapply safe_seq; [exact IH|].
    eapply safe_bind; [exact (moves_deref _ Hp)|]. intros c _. apply safe_xsend.
Qed.

Lemma moves_istiled p : valid s0 p -> moves s0 (istiled p).
Proof.
  intros Hp. unfold istiled.
  eapply safe_bind; [exact (moves_deref _ Hp)|]. intros c _.
  destruct (Client.isfloating c); [auto with moves|]. now apply moves_ISVISIBLE.
Qed.

Lemma moves_nexttiled l : Forall (valid s0) l -> moves s0 (nexttiled l).
Proof.
  induction 1 as [|p l Hp Hl IH]; simpl; [auto with moves|].
  eapply safe_bind; [exact (moves_istiled _ Hp)|]. intros [] _; auto with moves.
Qed.

Lemma moves_tile_count l : Forall (valid s0) l -> moves s0 (tile_count l).
Proof.
  induction 1 as [|p l Hp Hl IH]; simpl; [auto with moves|].
  eapply safe_bind; [exact (moves_istiled _ Hp)|]. intros t _.
  eapply safe_bind; [exact IH|]. intros n _. auto with moves.
Qed.

Lemma moves_tile_loop m n mw l :
  Forall (valid s0) l -> ∀ i my ty, moves s0 (tile_loop m n mw l i my ty).
Proof.
  induction 1 as [|p l Hp Hl IH]; intros i my ty; simpl; [auto with moves|].
  eapply safe_bind; [exact (moves_istiled _ Hp)|]. intros [] _; simpl; [|apply IH].
  eapply safe_bind; [exact (moves_deref _ Hp)|]. intros c _.
  destruct (i <? uint_of (Monitor.nmaster m)).
  - eapply safe_seq; [now apply moves_resize|].
    eapply safe_bind; [exact (moves_deref _ Hp)|]. intros c' _. apply IH.
  - eapply safe_seq; [now apply moves_resize|].
    eapply safe_bind; [exact (moves_deref _ Hp)|]. intros c' _. apply IH.
Qed.

(** Every pointer the layout of monitor [mi] follows can be followed. *)
Definition arrangeable (s : State) (mi : nat) : Prop :=
  ∃ m, mons s !! mi = Some m
       ∧ Forall (valid s) (Monitor.stack m)
       ∧ Forall (valid s) (Monitor.clients m)
       ∧ (∀ p, Monitor.sel m = Some p -> is_Some (heap s !! p)).

Lemma moves_tile mi : arrangeable s0 mi -> moves s0 (tile mi).
Proof.
  intros (m & Hm & _ & Hc & _). unfold tile.
  eapply safe_bind; [exact (safe_getmon _ _ _ _ Hm)|]. intros ? ->.
  eapply safe_bind; [exact (moves_tile_count _ Hc)|]. intros n _.
  destruct (uint_of n =? 0); [auto with moves|]. now apply moves_tile_loop.
Qed.

Lemma moves_restack mi : arrangeable s0 mi -> moves s0 (restack mi).
Proof.
  intros (m & Hm & _ & _ & Hsel). unfold restack.
  eapply safe_bind; [exact (safe_getmon _ _ _ _ Hm)|]. intros ? ->.
  destruct (Monitor.sel m) as [p|]; [|auto with moves].
  eapply safe_bind; [exact (moves_deref' _ (Hsel p eq_refl))|]. intros c _.
  eapply safe_seq; auto with moves.
Qed.

Lemma moves_arrange mi : arrangeable s0 mi -> moves s0 (arrange (Some mi)).
Proof.
  intros Ha. pose proof Ha as (m & Hm & Hst & _ & _). unfold arrange.
  eapply safe_bind; [exact (safe_getmon _ _ _ _ Hm)|]. intros ? ->.
  eapply safe_seq; [now apply moves_showhide|].
  eapply safe_seq; [now apply moves_tile|]. now apply moves_restack.
Qed.

End Moves.

(** [arrange] returns, and changes nothing but geometry and the log. *)
Lemma arrange_moves s mi :
  tamed s -> arrangeable s mi ->
  ∃ s', arrange (Some mi) s = Some (tt, s') ∧ agree strip_geom s s'.
Proof.
  intros Ht Ha.
  destruct (moves_arrange s Ht mi Ha s (agree_refl _ _)) as ([] & s' & E & A & _).
  eauto.
Qed.

(** The same without the premise that the pointers can be followed: a run
    of the layout engine that returns has only moved clients. *)
Create HintDb frames discriminated.

Ltac frame_step :=
  first
    [ solve [auto with frames nocore] | apply frame_ret | apply frame_fail | apply frame_xsend | apply frame_deref
    | apply frame_getmon | apply frame_gets | assumption
    | apply frame_when
    | apply frame_update; intros; reflexivity
    | apply frame_bind; [|intros]
    | match goal with
      | |- frame _ (match ?b with _ => _ end) => destruct b
      | |- frame _ (let (_, _) := ?b in _) => destruct b
      end ].

Lemma frame_ISVISIBLE p : frame strip_geom (ISVISIBLE p).
Proof. unfold ISVISIBLE. repeat frame_step. Qed.
#[local] Hint Resolve frame_ISVISIBLE : frames.

Lemma frame_resizeclient p x y w h : frame strip_geom (resizeclient p x y w h).
Proof. unfold resizeclient, configure. repeat frame_step. Qed.
#[local] Hint Resolve frame_resizeclient : frames.

Lemma frame_resize p x y w h i : frame strip_geom (resize p x y w h i).
Proof.
  unfold resize, applysizehints. repeat frame_step.
Qed.
#[local] Hint Resolve frame_resize : frames.

Lemma frame_showhide l : frame strip_geom (showhide l).
Proof.
  induction l as [|p l IH]; simpl; [apply frame_ret|].
  apply frame_bind; [apply frame_ISVISIBLE|]. intros [].
  - repeat frame_step.
  - repeat frame_step.
Qed.
#[local] Hint Resolve frame_showhide : frames.

Lemma frame_istiled p : frame strip_geom (istiled p).
Proof. unfold istiled. repeat frame_step. Qed.
#[local] Hint Resolve frame_istiled : frames.

Lemma frame_tile_count l : frame strip_geom (tile_count l).
Proof.
  induction l as [|p l IH]; simpl; [apply frame_ret|].
  apply frame_bind; [apply frame_istiled|]. intros t. repeat frame_step.
Qed.
#[local] Hint Resolve frame_tile_count : frames.

Lemma frame_tile_loop m n mw l : ∀ i my ty, frame strip_geom (tile_loop m n mw l i my ty).
Proof.
  induction l as [|p l IH]; intros i my ty; simpl; [apply frame_ret|].
  apply frame_bind; [apply frame_istiled|]. intros []; simpl; [|apply IH].
  apply frame_bind; [apply frame_deref|]. intros c.
  destruct (i <? uint_of (Monitor.nmaster m)).
  - apply frame_bind; [apply frame_resize|]. intros _.
    apply frame_bind; [apply frame_deref|]. intros c'. apply IH.
  - apply frame_bind; [apply frame_resize|]. intros _.
    apply frame_bind; [apply frame_deref|]. intros c'. apply IH.
Qed.
#[local] Hint Resolve frame_tile_loop : frames.

Lemma frame_tile mi : frame strip_geom (tile mi).
Proof.
  unfold tile. apply frame_bind; [apply frame_getmon|]. intros m.
  apply frame_bind; [apply frame_tile_count|]. intros n.
  destruct (uint_of n =? 0); [apply frame_ret|apply frame_tile_loop].
Qed.
#[local] Hint Resolve frame_tile : frames.

Lemma frame_restack mi : frame strip_geom (restack mi).
Proof. unfold restack. repeat frame_step. Qed.
#[local] Hint Resolve frame_restack : frames.

Lemma frame_for_mons (g : nat -> M unit) :
  (∀ i, frame strip_geom (g i)) -> ∀ n i, frame strip_geom (for_mons g i n).
Proof.
  intros Hg. induction n as [|n IH]; intros i; simpl; [apply frame_ret|].
  apply frame_bind; [apply Hg|]. intros _. apply IH.
Qed.

Lemma frame_arrange m : frame strip_geom (arrange m).
Proof.
  destruct m as [mi|]; simpl.
  - apply frame_bind; [apply frame_getmon|]. intros m.
    apply frame_bind; [apply frame_showhide|]. intros _.
    apply frame_bind; [apply frame_tile|]. intros _. apply frame_restack.
  - apply frame_bind; [apply frame_gets|]. intros ms.
    apply frame_bind; [|intros _; apply frame_for_mons, frame_tile].
    apply frame_for_mons. intros i.
    apply frame_bind; [apply frame_getmon|]. intros m. apply frame_showhide.
Qed.
#[local] Hint Resolve frame_arrange : frames.

Lemma strip_geom_fields c c' :
  strip_geom c' = strip_geom c ->
  Client.isfullscreen c' = Client.isfullscreen c
  ∧ Client.isfloating c' = Client.isfloating c
  ∧ Client.bw c' = Client.bw c
  ∧ Client.tags c' = Client.tags c
  ∧ Client.mon c' = Client.mon c
  ∧ Client.win c' = Client.win c.
Proof.
  intros E. repeat split;
    [ exact (f_equal Client.isfullscreen E) | exact (f_equal Client.isfloating E)
    | exact (f_equal Client.bw E) | exact (f_equal Client.tags E)
    | exact (f_equal Client.mon E) | exact (f_equal Client.win E) ].
Qed.

Lemma update_Some s p c g :
  heap s !! p = Some c ->
  update p g s = Some (tt, set_heap (<[p:=g c]> (heap s)) s).
Proof. intros Hc. unfold update. now rewrite (bind_run _ _ _ _ _ (deref_Some _ _ _ Hc)). Qed.

(** ** Fullscreen: repeating a request *)

(** After [setfullscreen(c, f)] the flag is [f]. *)
Lemma setfullscreen_flag p f s s' :
  setfullscreen p f s = Some (tt, s') ->
  ∃ c', heap s' !! p = Some c' ∧ Client.isfullscreen c' = f.
Proof.
  unfold setfullscreen. intros E.
  apply bind_inv in E as (c & s1 & E1 & E). apply deref_inv in E1 as [Hc ->].
  destruct f, (Client.isfullscreen c) eqn:Hf; simpl in E.
  - injection E as <-. eauto.
  - apply bind_inv in E as ([] & s1 & E1 & E). injection E1 as <-.
    apply bind_inv in E as ([] & s2 & E2 & E).
    rewrite (update_Some _ _ c) in E2 by exact Hc. injection E2 as <-.
    assert (frame strip_geom
              (m ← getmon (Client.mon c);
               resizeclient p (Monitor.mx m) (Monitor.my m) (Monitor.mw m) (Monitor.mh m);;
               xsend (XRaiseWindow (Client.win c)))) as F.
    { repeat frame_step. }
    apply F in E.
    eapply agree_lookup_Some in E as (c' & Hc' & E'); [|apply lookup_insert_eq].
    exists c'. split; [exact Hc'|]. now destruct (strip_geom_fields _ _ E') as [-> _].
  - apply bind_inv in E as ([] & s1 & E1 & E). injection E1 as <-.
    apply bind_inv in E as ([] & s2 & E2 & E).
    rewrite (update_Some _ _ c) in E2 by exact Hc. injection E2 as <-.
    assert (frame strip_geom
              (c ← deref p;
               resizeclient p (Client.x c) (Client.y c) (Client.w c) (Client.h c);;
               arrange (Some (Client.mon c)))) as F.
    { repeat frame_step. }
    apply F in E.
    eapply agree_lookup_Some in E as (c' & Hc' & E'); [|apply lookup_insert_eq].
    exists c'. split; [exact Hc'|]. now destruct (strip_geom_fields _ _ E') as [-> _].
  - injection E as <-. eauto.
Qed.

(** C9: [setfullscreen(c, f)] on a client whose [isfullscreen] already
    equals [f] returns the state it was given (no client field, no saved
    old state, no geometry, not even a request changes), and so two calls
    in a row, whether they return or not, are the same as one. *)
Theorem setfullscreen_idempotent (p : cptr) (f : bool) (s : State) :
  (∀ c, heap s !! p = Some c -> Client.isfullscreen c = f ->
        setfullscreen p f s = Some (tt, s))
  ∧ bind (setfullscreen p f) (λ _, setfullscreen p f) s = setfullscreen p f s.
Proof.
  assert (∀ t c, heap t !! p = Some c -> Client.isfullscreen c = f ->
                 setfullscreen p f t = Some (tt, t)) as Hsame.
  { intros t c Hc Hf. unfold setfullscreen.
    rewrite (bind_run _ _ _ _ _ (deref_Some _ _ _ Hc)).
    rewrite Hf. now destruct f. }
  split; [exact (Hsame s)|].
  unfold bind at 1. destruct (setfullscreen p f s) as [[[] s']|] eqn:E; [|reflexivity].
  destruct (setfullscreen_flag _ _ _ _ E) as (c' & Hc' & Hf). eauto.
Qed.

(** ** Computations that only read *)

Definition reads {A} (m : M A) : Prop := ∀ s a s', m s = Some (a, s') -> s' = s.

Lemma reads_ret {A} (a : A) : reads (ret a).
Proof. now intros s a' s' [= _ <-]. Qed.

Lemma reads_bind {A B} (m : M A) (k : A -> M B) :
  reads m -> (∀ a, reads (k a)) -> reads (bind m k).
Proof.
  intros Hm Hk s b s' E. apply bind_inv in E as (a & s1 & E1 & E2).
  apply Hm in E1 as ->. now apply Hk in E2.
Qed.

Lemma reads_deref p : reads (deref p).
Proof. intros s c s' E. now apply deref_inv in E. Qed.

Lemma reads_getmon i : reads (getmon i).
Proof. intros s c s' E. now apply getmon_inv in E. Qed.

Lemma reads_gets {A} (g : State -> A) : reads (gets g).
Proof. now intros s a s' [= _ <-]. Qed.

Create HintDb reads discriminated.
#[local] Hint Resolve reads_ret reads_deref reads_getmon reads_gets : reads.

Ltac reads_step :=
  first
    [ solve [auto with reads nocore]
    | apply reads_bind; [|intros]
    | match goal with
      | |- reads (match ?b with _ => _ end) => destruct b
      end ].

Lemma reads_ISVISIBLE p : reads (ISVISIBLE p).
Proof. unfold ISVISIBLE. repeat reads_step. Qed.
#[local] Hint Resolve reads_ISVISIBLE : reads.

Lemma reads_istiled p : reads (istiled p).
Proof. unfold istiled. repeat reads_step. Qed.
#[local] Hint Resolve reads_istiled : reads.

Lemma reads_first_visible l : reads (first_visible l).
Proof. induction l; simpl; repeat reads_step. Qed.
#[local] Hint Resolve reads_first_visible : reads.

Lemma reads_nexttiled l : reads (nexttiled l).
Proof. induction l; simpl; repeat reads_step. Qed.
#[local] Hint Resolve reads_nexttiled : reads.

Lemma reads_find_win w l : reads (find_win w l).
Proof. induction l; simpl; repeat reads_step. Qed.
#[local] Hint Resolve reads_find_win : reads.

Lemma reads_wintoclient w : reads (wintoclient w).
Proof.
  unfold wintoclient. apply reads_bind; [auto with reads|]. intros ms.
  induction ms; simpl; repeat reads_step.
Qed.

(** ** ConfigureRequest on a tiled client *)

Lemma set_xlog_twice l1 l2 s : set_xlog l2 (set_xlog l1 s) = set_xlog l2 s.
Proof. reflexivity. Qed.

(** C7: a ConfigureRequest for a managed client that is not floating.
    Without CWBorderWidth in the value mask the state keeps every client as
    it is (the store, and so each client's x, y, w and h, is the one
    before, and so are the monitors) and the log grows by the
    ConfigureNotify of [configure], carrying the client's current x, y, w,
    h and bw, and the XSync.  With CWBorderWidth the client's [bw] becomes
    the requested border width; its x, y, w and h and every other field
    are as before, no other client changes, the monitors stay and only the
    XSync is logged. *)
Theorem configurerequest_tiled (ev : XConfigureRequestEvent) (s : State) (p : cptr) (c : Client) :
  wintoclient (ev_window ev) s = Some (Some p, s) ->
  heap s !! p = Some c ->
  Client.isfloating c = false ->
  (has_bits (ev_value_mask ev) CWBorderWidth = false ->
   ∃ s', configurerequest ev s = Some (tt, s')
         ∧ heap s' = heap s ∧ mons s' = mons s ∧ selmon s' = selmon s
         ∧ xlog s' = xlog s ++ [XSendEvent_ConfigureNotify (Client.win c) (Client.x c)
                                  (Client.y c) (Client.w c) (Client.h c) (Client.bw c);
                                XSync]
         ∧ s' = set_xlog (xlog s ++ [XSendEvent_ConfigureNotify (Client.win c) (Client.x c)
                                       (Client.y c) (Client.w c) (Client.h c) (Client.bw c);
                                     XSync]) s)
  ∧ (has_bits (ev_value_mask ev) CWBorderWidth = true ->
     ∃ s' c', configurerequest ev s = Some (tt, s')
       ∧ heap s' !! p = Some c'
       ∧ Client.bw c' = ev_border_width ev
       ∧ Client.x c' = Client.x c ∧ Client.y c' = Client.y c
       ∧ Client.w c' = Client.w c ∧ Client.h c' = Client.h c
       ∧ c' = {| Client.name := Client.name c;
                 Client.mina := Client.mina c; Client.maxa := Client.maxa c;
                 Client.x := Client.x c; Client.y := Client.y c;
                 Client.w := Client.w c; Client.h := Client.h c;
                 Client.oldx := Client.oldx c; Client.oldy := Client.oldy c;
                 Client.oldw := Client.oldw c; Client.oldh := Client.oldh c;
                 Client.basew := Client.basew c; Client.baseh := Client.baseh c;
                 Client.incw := Client.incw c; Client.inch := Client.inch c;
                 Client.maxw := Client.maxw c; Client.maxh := Client.maxh c;
                 Client.minw := Client.minw c; Client.minh := Client.minh c;
                 Client.bw := ev_border_width ev; Client.oldbw := Client.oldbw c;
                 Client.tags := Client.tags c;
                 Client.isfixed := Client.isfixed c;
                 Client.isfloating := Client.isfloating c;
                 Client.isurgent := Client.isurgent c;
                 Client.neverfocus := Client.neverfocus c;
                 Client.oldstate := Client.oldstate c;
                 Client.isfullscreen := Client.isfullscreen c;
                 Client.mon := Client.mon c; Client.win := Client.win c |}
       ∧ (∀ q, q ≠ p -> heap s' !! q = heap s !! q)
       ∧ mons s' = mons s ∧ selmon s' = selmon s
       ∧ xlog s' = xlog s ++ [XSync]
       ∧ s' = set_xlog (xlog s ++ [XSync])
                (set_heap (<[p:=Client.set_bw (ev_border_width ev) c]> (heap s)) s)).
Proof.
  intros Hw Hc Hfl.
  assert (∀ b, has_bits (ev_value_mask ev) CWBorderWidth = b ->
            configurerequest ev s
            = Some (tt, if b
                        then set_xlog (xlog s ++ [XSync])
                               (set_heap (<[p:=Client.set_bw (ev_border_width ev) c]> (heap s))
                                  s)
                        else set_xlog
                               (xlog s ++ [XSendEvent_ConfigureNotify (Client.win c)
                                             (Client.x c) (Client.y c) (Client.w c)
                                             (Client.h c) (Client.bw c); XSync]) s)) as E.
  { intros b Hb. unfold configurerequest, configure, update, store.
    unfold bind, deref, xsend, modify. rewrite Hw. simpl. rewrite Hc, Hfl, Hb.
    destruct b; simpl; rewrite Hc; [reflexivity|]. simpl. now rewrite <- app_assoc. }
  split; intros Hb; rewrite (E _ Hb).
  - eexists. split; [reflexivity|]. simpl. repeat split.
  - eexists _, (Client.set_bw (ev_border_width ev) c).
    split; [reflexivity|]. simpl.
    split; [apply lookup_insert_eq|]. repeat split.
    intros q Hq. now apply lookup_insert_ne.
Qed.

(** ** zoom without effect *)

(** [p] is a tiled visible client: [nexttiled] stops at it. *)
Definition tiled_visible (s : State) (p : cptr) : Prop :=
  ∃ c m, heap s !! p = Some c ∧ mons s !! Client.mon c = Some m
         ∧ Client.isfloating c = false ∧ visible_on m c = true.

(** [p] is a client that [nexttiled] skips: floating or not visible. *)
Definition skipped (s : State) (p : cptr) : Prop :=
  ∃ c, heap s !! p = Some c
       ∧ (Client.isfloating c = true
          ∨ ∃ m, mons s !! Client.mon c = Some m ∧ visible_on m c = false).

Lemma istiled_tiled s p : tiled_visible s p -> istiled p s = Some (true, s).
Proof.
  intros (c & m & Hc & Hm & Hf & Hv). unfold istiled, ISVISIBLE, bind, deref, getmon, ret.
  now rewrite Hc, Hf, Hc, Hm, Hv.
Qed.

Lemma istiled_skipped s p : skipped s p -> istiled p s = Some (false, s).
Proof.
  intros (c & Hc & H). unfold istiled, ISVISIBLE, bind, deref, getmon, ret. rewrite Hc.
  destruct (Client.isfloating c); [reflexivity|].
  destruct H as [[=]|(m & Hm & Hv)]. now rewrite Hc, Hm, Hv.
Qed.

Lemma nexttiled_skipped s l : Forall (skipped s) l -> nexttiled l s = Some ([], s).
Proof.
  induction 1 as [|p l Hp Hl IH]; [reflexivity|].
  simpl. now rewrite (bind_run _ _ _ _ _ (istiled_skipped _ _ Hp)).
Qed.

Lemma nexttiled_found s l1 p l2 :
  Forall (skipped s) l1 -> tiled_visible s p ->
  nexttiled (l1 ++ p :: l2) s = Some (p :: l2, s).
Proof.
  intros H Hp. induction H as [|q l1 Hq Hl IH]; simpl.
  - now rewrite (bind_run _ _ _ _ _ (istiled_tiled _ _ Hp)).
  - now rewrite (bind_run _ _ _ _ _ (istiled_skipped _ _ Hq)).
Qed.

(** The three situations in which [zoom] has nothing to do. *)
Definition zoom_idle (s : State) (m : Monitor) : Prop :=
  (∃ p c, Monitor.sel m = Some p ∧ heap s !! p = Some c ∧ Client.isfloating c = true)
  ∨ (Monitor.sel m = None ∧ Forall (skipped s) (Monitor.clients m))
  ∨ (∃ p, Monitor.sel m = Some p ∧ NoDup (Monitor.clients m) ∧ p ∈ Monitor.clients m
          ∧ tiled_visible s p
          ∧ ∀ q, q ∈ Monitor.clients m -> q ≠ p -> skipped s q).

(** C10: [zoom] returns the state it was given (client lists, focus
    stacks, every client field, the log) when the selected client is
    floating, when no client is selected (the selected monitor then shows
    no tiled client: [focus] selects a visible client whenever there is
    one), and when the selected client is the only tiled visible client of
    the monitor's client list. *)
Theorem zoom_noop (X : XServer) (s : State) (m : Monitor) :
  mons s !! selmon s = Some m -> zoom_idle s m -> zoom X s = Some (tt, s).
Proof.
  intros Hm H. unfold zoom.
  rewrite (bind_run _ _ s (selmon s) s) by reflexivity.
  rewrite (bind_run _ _ _ _ _ (getmon_Some _ _ _ Hm)).
  destruct H as [(p & c & Hsel & Hc & Hf)|[(Hsel & Hall)|(p & Hsel & Hnd & Hin & Hp & Hq)]];
    rewrite Hsel.
  - rewrite (bind_run _ _ s true s); [reflexivity|].
    now rewrite (bind_run _ _ _ _ _ (deref_Some _ _ _ Hc)), Hf.
  - rewrite (bind_run _ _ s false s) by reflexivity.
    now rewrite (bind_run _ _ _ _ _ (nexttiled_skipped _ _ Hall)).
  - pose proof Hp as (c & mc & Hc & _ & Hf & _).
    rewrite (bind_run _ _ s false s)
      by now rewrite (bind_run _ _ _ _ _ (deref_Some _ _ _ Hc)), Hf.
    apply list_elem_of_split in Hin as (l1 & l2 & E). rewrite E in *.
    apply NoDup_app in Hnd as (_ & Hl1 & Hnd). apply NoDup_cons in Hnd as [Hl2 _].
    assert (Forall (skipped s) l1) as H1.
    { apply Forall_forall. intros q Hq1. apply Hq; [set_solver|].
      intros ->. eapply Hl1; [exact Hq1|set_solver]. }
    assert (Forall (skipped s) l2) as H2.
    { apply Forall_forall. intros q Hq2. apply Hq; [set_solver|]. now intros ->. }
    rewrite (bind_run _ _ _ _ _ (nexttiled_found _ _ _ _ H1 Hp)).
    rewrite decide_True by reflexivity.
    now rewrite (bind_run _ _ _ _ _ (nexttiled_skipped _ _ H2)).
Qed.

(** ** Well-formed states and focus *)

(** [p] is a client of monitor [mi]. *)
Definition owned (s : State) (mi : nat) (p : cptr) : Prop :=
  ∃ c, heap s !! p = Some c ∧ Client.mon c = mi.

(** The part of the spec's invariants 1 and 2 the handlers rely on: the
    selected monitor exists, the clients on a monitor's two lists are in
    the store and point back to the monitor, and [sel] is in the store. *)
Definition wf (s : State) : Prop :=
  is_Some (mons s !! selmon s)
  ∧ ∀ mi m, mons s !! mi = Some m ->
      Forall (owned s mi) (Monitor.stack m)
      ∧ Forall (owned s mi) (Monitor.clients m)
      ∧ (∀ p, Monitor.sel m = Some p -> is_Some (heap s !! p)).

(** [mons[i] = m] *)
Definition upd_mon (i : nat) (m : Monitor) (s : State) : State :=
  set_mons (<[i:=m]> (mons s)) s.

Lemma updmon_Some s i m g :
  mons s !! i = Some m -> updmon i g s = Some (tt, upd_mon i (g m) s).
Proof. intros Hm. unfold updmon. now rewrite (bind_run _ _ _ _ _ (getmon_Some _ _ _ Hm)). Qed.

Lemma owned_valid s mi p : is_Some (mons s !! mi) -> owned s mi p -> valid s p.
Proof. intros Hm (c & Hc & <-). exists c. auto. Qed.

Lemma wf_arrangeable s mi : wf s -> is_Some (mons s !! mi) -> arrangeable s mi.
Proof.
  intros [_ H] [m Hm]. destruct (H mi m Hm) as (Hst & Hcl & Hsel).
  exists m. repeat split; [exact Hm| | |exact Hsel].
  - eapply Forall_impl; [exact Hst|]. intros p. apply owned_valid. eauto.
  - eapply Forall_impl; [exact Hcl|]. intros p. apply owned_valid. eauto.
Qed.

Lemma ISVISIBLE_Some s p c m :
  heap s !! p = Some c -> mons s !! Client.mon c = Some m ->
  ISVISIBLE p s = Some (visible_on m c, s).
Proof.
  intros Hc Hm. unfold ISVISIBLE.
  rewrite (bind_run _ _ _ _ _ (deref_Some _ _ _ Hc)).
  now rewrite (bind_run _ _ _ _ _ (getmon_Some _ _ _ Hm)).
Qed.

Lemma first_visible_ok s l :
  Forall (valid s) l ->
  ∃ r, first_visible l s = Some (r, s) ∧ ∀ p, r = Some p -> p ∈ l.
Proof.
  induction 1 as [|p l (c & Hc & m & Hm) Hl (r & E & Hr)]; simpl.
  - exists None. split; [reflexivity|]. intros p [=].
  - rewrite (bind_run _ _ _ _ _ (ISVISIBLE_Some _ _ _ _ Hc Hm)).
    destruct (visible_on m c).
    + exists (Some p). split; [reflexivity|]. intros ? [= <-]. set_solver.
    + exists r. split; [exact E|]. intros q Hq. specialize (Hr q Hq). set_solver.
Qed.

(** A run that only appends to the log. *)
Definition logs {A} (m : M A) (s : State) : Prop :=
  ∃ a l, m s = Some (a, set_xlog l s).

Lemma logs_bind {A B} (m : M A) (k : A -> M B) s :
  logs m s -> (∀ a l, logs (k a) (set_xlog l s)) -> logs (bind m k) s.
Proof.
  intros (a & l & E) Hk. destruct (Hk a l) as (b & l' & E').
  exists b, l'. now rewrite (bind_run _ _ _ _ _ E), E'.
Qed.

Lemma logs_xsend r s : logs (xsend r) s.
Proof. now exists tt, (xlog s ++ [r]). Qed.

Lemma logs_ret {A} (a : A) s : logs (ret a) s.
Proof. exists a, (xlog s). now destruct s. Qed.

Lemma logs_when b (m : M unit) s : logs m s -> logs (when b m) s.
Proof. destruct b; [done|]. intros _. apply logs_ret. Qed.

Lemma logs_deref p s : is_Some (heap s !! p) -> logs (deref p) s.
Proof.
  intros [c Hc]. exists c, (xlog s). rewrite (deref_Some _ _ _ Hc). now destruct s.
Qed.

Section FocusLemmas.
Variable X : XServer.

Lemma logs_grabbuttons p b s : is_Some (heap s !! p) -> logs (grabbuttons p b) s.
Proof.
  intros Hp. unfold grabbuttons. apply logs_bind; [now apply logs_deref|].
  intros c l. apply logs_xsend.
Qed.

Lemma logs_unfocus c b s :
  (∀ q, c = Some q -> is_Some (heap s !! q)) -> logs (unfocus c b) s.
Proof.
  intros Hc. destruct c as [q|]; simpl; [|apply logs_ret].
  apply logs_bind; [apply logs_grabbuttons; auto|]. intros _ l.
  apply logs_when, logs_bind; [apply logs_xsend|]. intros _ l'. apply logs_xsend.
Qed.

Lemma logs_setfocus p s : is_Some (heap s !! p) -> logs (setfocus X p) s.
Proof.
  intros Hp. unfold setfocus, sendevent.
  apply logs_bind; [now apply logs_deref|]. intros c l.
  apply logs_bind.
  { apply logs_when, logs_bind; [apply logs_xsend|]. intros _ l'. apply logs_xsend. }
  intros _ l'. apply logs_bind; [|intros; apply logs_ret].
  apply logs_bind; [now apply logs_deref|]. intros c' l''.
  apply logs_bind; [apply logs_when, logs_xsend|]. intros; apply logs_ret.
Qed.

Lemma seturgent_ok p u s c :
  heap s !! p = Some c ->
  ∃ l, seturgent X p u s
       = Some (tt, set_xlog l (set_heap (<[p:=Client.set_isurgent u c]> (heap s)) s)).
Proof.
  intros Hc. unfold seturgent.
  rewrite (bind_run _ _ _ _ _ (update_Some _ _ _ _ Hc)).
  erewrite bind_run; [|apply deref_Some; simpl; apply lookup_insert_eq].
  simpl. destruct (XGetWMHints X (Client.win c)); simpl; eauto.
Qed.

End FocusLemmas.

(** *** What [focus(NULL)] does to the model *)

(** [focus] leaves the selected monitor selected, clears at most an urgency
    flag in the store, and on the selected monitor reorders the stack and
    sets [sel] to a member of it (or to NULL). *)
Definition focus_post (s s' : State) : Prop :=
  selmon s' = selmon s ∧ combo s' = combo s
  ∧ bh s' = bh s ∧ sw s' = sw s ∧ sh s' = sh s ∧ brk s' = brk s
  ∧ Client.set_isurgent false <$> heap s' = Client.set_isurgent false <$> heap s
  ∧ ∃ m m', mons s !! selmon s = Some m
      ∧ mons s' = <[selmon s:=m']> (mons s)
      ∧ Monitor.set_sel None (Monitor.set_stack [] m')
        = Monitor.set_sel None (Monitor.set_stack [] m)
      ∧ (∀ q, q ∈ Monitor.stack m' ↔ q ∈ Monitor.stack m)
      ∧ (∀ q, Monitor.sel m' = Some q -> q ∈ Monitor.stack m).

Lemma unlink_elem p l : p ∈ l -> ∃ l', unlink p l = Some l' ∧ (∀ q, q ∈ p :: l' ↔ q ∈ l).
Proof.
  induction l as [|a l IH]; [intros H; inversion H|]. intros Hin. simpl.
  destruct (decide (a = p)) as [->|Hne].
  - exists l. split; reflexivity.
  - apply elem_of_cons in Hin as [->|Hin]; [done|].
    destruct (IH Hin) as (l' & -> & Hl'). exists (a :: l'). split; [reflexivity|].
    intros q. specialize (Hl' q). rewrite !elem_of_cons in *. tauto.
Qed.

Lemma valid_upd_mon s i m p : valid s p -> valid (upd_mon i m s) p.
Proof.
  intros (c & Hc & Hm). exists c. split; [exact Hc|]. simpl.
  apply lookup_lt_is_Some. rewrite length_insert. now apply lookup_lt_is_Some.
Qed.



Lemma bind_bind {A B C} (m : M A) (k1 : A -> M B) (k2 : B -> M C) s :
  bind (bind m k1) k2 s = bind m (λ a, bind (k1 a) k2) s.
Proof. unfold bind. now destruct (m s) as [[a s']|]. Qed.
Lemma bind_ret {A B} (a : A) (k : A -> M B) s : bind (ret a) k s = k a s.
Proof. reflexivity. Qed.
Lemma bind_gets {A B} (g : State -> A) (k : A -> M B) s : bind (gets g) k s = k (g s) s.
Proof. reflexivity. Qed.
Lemma bind_modify {B} (g : State -> State) (k : unit -> M B) s :
  bind (modify g) k s = k tt (g s).
Proof. reflexivity. Qed.
Lemma bind_xsend {B} r (k : unit -> M B) s :
  bind (xsend r) k s = k tt (set_xlog (xlog s ++ [r]) s).
Proof. reflexivity. Qed.
Lemma bind_logs {A B} (m : M A) (k : A -> M B) s :
  logs m s -> ∃ a l, bind m k s = k a (set_xlog l s).
Proof. intros (a & l & E). exists a, l. now rewrite (bind_run _ _ _ _ _ E). Qed.

Ltac mstep :=
  first
    [ rewrite bind_bind | rewrite bind_ret | rewrite bind_gets | rewrite bind_modify
    | rewrite bind_xsend
    | match goal with
      | H : ?m ?s = Some _ |- context [bind ?m _ ?s] => rewrite (bind_run _ _ _ _ _ H)
      | |- context [bind (getmon ?i) _ ?s] =>
          erewrite (bind_run (getmon i)) by (apply getmon_Some; simpl; eassumption)
      | |- context [bind (deref ?p) _ ?s] =>
          erewrite (bind_run (deref p))
            by (apply deref_Some; simpl; first [eassumption | apply lookup_insert_eq])
      end ];
  cbv beta.

Ltac mlogs l tac :=
  rewrite ?bind_bind;
  match goal with
  | |- ∃ s', bind ?m ?k ?s = _ ∧ _ =>
      let H := fresh in
      assert (logs m s) as H by tac;
      destruct (bind_logs m k s H) as ([] & l & ->); clear H
  end.

Lemma detachstack_ok s p c m l :
  heap s !! p = Some c -> mons s !! Client.mon c = Some m ->
  unlink p (Monitor.stack m) = Some l -> Forall (valid s) l ->
  ∃ t, detachstack p s
       = Some (tt, upd_mon (Client.mon c)
                     (if bool_decide (Monitor.sel m = Some p)
                      then Monitor.set_sel t (Monitor.set_stack l m)
                      else Monitor.set_stack l m) s)
       ∧ ∀ q, t = Some q -> q ∈ l.
Proof.
  intros Hc Hm Hl Hv. unfold detachstack.
  rewrite (bind_run _ _ _ _ _ (deref_Some _ _ _ Hc)).
  rewrite (bind_run _ _ _ _ _ (getmon_Some _ _ _ Hm)). rewrite Hl.
  rewrite (bind_run _ _ _ _ _ (updmon_Some _ _ _ _ Hm)).
  destruct (bool_decide (Monitor.sel m = Some p)); simpl.
  - destruct (first_visible_ok (upd_mon (Client.mon c) (Monitor.set_stack l m) s) l)
      as (t & Et & Ht).
    { eapply Forall_impl; [exact Hv|]. intros q. apply valid_upd_mon. }
    exists t. split; [|exact Ht].
    rewrite (bind_run _ _ _ _ _ Et).
    erewrite updmon_Some; [|simpl; apply list_lookup_insert_eq; now apply lookup_lt_Some in Hm].
    unfold upd_mon. simpl. now rewrite list_insert_insert_eq.
  - exists None. split; [reflexivity|]. intros q [=].
Qed.


Lemma attachstack_ok s p c m :
  heap s !! p = Some c -> mons s !! Client.mon c = Some m ->
  attachstack p s
  = Some (tt, upd_mon (Client.mon c) (Monitor.set_stack (p :: Monitor.stack m) m) s).
Proof.
  intros Hc Hm. unfold attachstack.
  rewrite (bind_run _ _ _ _ _ (deref_Some _ _ _ Hc)).
  exact (updmon_Some _ _ m (λ m, Monitor.set_stack (p :: Monitor.stack m) m) Hm).
Qed.

(** [focus] once the client to focus is chosen. *)
Definition focus_on (X : XServer) (c : option cptr) : M unit :=
  mi ← gets selmon;
  m ← getmon mi;
  when (bool_decide (is_Some (Monitor.sel m)) && negb (bool_decide (Monitor.sel m = c)))
    (unfocus (Monitor.sel m) false);;
  match c with
  | Some p =>
      cl ← deref p;
      when (negb (bool_decide (Client.mon cl = mi))) (modify (set_selmon (Client.mon cl)));;
      when (Client.isurgent cl) (seturgent X p false);;
      detachstack p;;
      attachstack p;;
      grabbuttons p true;;
      setfocus X p
  | None =>
      xsend (XSetInputFocus None);;
      xsend XDeleteProperty_NetActiveWindow
  end;;
  mi ← gets selmon;
  updmon mi (Monitor.set_sel c).

Lemma focus_unfold X c :
  focus X c
  = (v ← match c with Some p => ISVISIBLE p | None => ret false end;
     c ← (if v then ret c
          else mi ← gets selmon; m ← getmon mi; first_visible (Monitor.stack m));
     focus_on X c).
Proof. reflexivity. Qed.

Lemma focus_on_ok X r s m :
  wf s -> mons s !! selmon s = Some m -> (∀ q, r = Some q -> q ∈ Monitor.stack m) ->
  ∃ s', focus_on X r s = Some (tt, s') ∧ focus_post s s'.
Proof.
  intros [_ Hwf] Hm Hr. destruct (Hwf _ _ Hm) as (Hst & Hcl & Hsel).
  assert (Forall (valid s) (Monitor.stack m)) as Hv.
  { eapply Forall_impl; [exact Hst|]. intros p. apply owned_valid. eauto. }
  unfold focus_on. repeat mstep.
  mlogs l1 ltac:(apply logs_when, logs_unfocus, Hsel).
  destruct r as [p|]; repeat mstep.
  - (* a client is focused *)
    specialize (Hr p eq_refl).
    destruct (proj1 (Forall_forall _ _) Hst p Hr) as (cl & Hc & Hmon).
    rewrite (bind_run (deref p) _ _ cl (set_xlog l1 s)) by now apply deref_Some.
    rewrite Hmon, bool_decide_eq_true_2 by reflexivity. simpl negb. cbv beta.
    change (when false ?x) with (ret tt). mstep.
    assert (∃ h2 cl2 l2,
              when (Client.isurgent cl) (seturgent X p false) (set_xlog l1 s)
              = Some (tt, set_xlog l2 (set_heap h2 s))
              ∧ h2 !! p = Some cl2 ∧ Client.mon cl2 = selmon s
              ∧ Client.set_isurgent false <$> h2 = Client.set_isurgent false <$> heap s
              ∧ dom h2 = dom (heap s)
              ∧ ∀ q, valid s q -> valid (set_xlog l2 (set_heap h2 s)) q)
      as (h2 & cl2 & l2 & E2 & Hc2 & Hmon2 & Hh2 & Hdom & Hv2).
    { destruct (Client.isurgent cl) eqn:Hu; simpl.
      - destruct (seturgent_ok X p false (set_xlog l1 s) cl Hc) as (l2 & ->).
        exists (<[p:=Client.set_isurgent false cl]> (heap s)), (Client.set_isurgent false cl), l2.
        split; [reflexivity|]. split; [apply lookup_insert_eq|]. split; [exact Hmon|].
        split.
        { rewrite fmap_insert. apply insert_id. now rewrite lookup_fmap, Hc. }
        split.
        { rewrite dom_insert_L. apply elem_of_dom_2 in Hc. set_solver. }
        intros q (c & Hq & Hqm). simpl. destruct (decide (p = q)) as [->|Hne].
        + exists (Client.set_isurgent false cl). simpl. rewrite lookup_insert_eq.
          split; [done|]. simpl. congruence.
        + exists c. simpl. now rewrite lookup_insert_ne.
      - exists (heap s), cl, l1. split; [now destruct s|]. repeat split; try done. }
    repeat mstep. clear E2.
    destruct (unlink_elem p _ Hr) as (l & Hl & Hlin).
    assert (Forall (valid (set_xlog l2 (set_heap h2 s))) l) as Hvl.
    { apply Forall_forall. intros q Hq. apply Hv2.
      apply (proj1 (Forall_forall _ _) Hv). apply Hlin. set_solver. }
    edestruct (detachstack_ok (set_xlog l2 (set_heap h2 s)) p cl2 m l) as (t & Ed & Ht);
      [exact Hc2|simpl; now rewrite Hmon2|exact Hl|exact Hvl|].
    rewrite (bind_run _ _ _ _ _ Ed). clear Ed. rewrite Hmon2, !bind_bind.
    set (m1 := if bool_decide _ then _ else _).
    assert (Monitor.stack m1 = l) as Hm1 by (subst m1; now destruct (bool_decide _)).
    erewrite (bind_run (attachstack p)); cycle 1.
    { eapply attachstack_ok; simpl; [exact Hc2|]. rewrite Hmon2.
      apply list_lookup_insert_eq. now apply lookup_lt_Some in Hm. }
    rewrite Hmon2, Hm1. unfold upd_mon at 1 2. simpl. rewrite list_insert_insert_eq.
    mlogs l3 ltac:(apply logs_grabbuttons; simpl; eauto).
    mlogs l4 ltac:(apply logs_setfocus; simpl; eauto).
    mstep. simpl.
    erewrite updmon_Some; cycle 1.
    { simpl. apply list_lookup_insert_eq. now apply lookup_lt_Some in Hm. }
    eexists. split; [reflexivity|].
    unfold upd_mon, focus_post. simpl. rewrite list_insert_insert_eq.
    repeat split; try done.
    eexists m, _. split; [exact Hm|]. split; [reflexivity|]. simpl.
    split.
    { subst m1. now destruct (bool_decide _). }
    split.
    { intros q. apply Hlin. }
    intros q [= <-]. exact Hr.
  - (* nothing is visible *)
    simpl.
    erewrite updmon_Some by (simpl; exact Hm).
    eexists. split; [reflexivity|].
    unfold upd_mon, focus_post. simpl. repeat split; try done.
    exists m, (Monitor.set_sel None m). repeat split; try done.
Qed.


(** [focus(c)] for a client on the stack of the selected monitor. *)
Lemma focus_Some_ok X p s m :
  wf s -> mons s !! selmon s = Some m -> p ∈ Monitor.stack m ->
  ∃ s', focus X (Some p) s = Some (tt, s') ∧ focus_post s s'.
Proof.
  intros Hwf Hm Hp. pose proof Hwf as [_ H]. destruct (H _ _ Hm) as (Hst & _ & _).
  assert (Forall (valid s) (Monitor.stack m)) as Hv.
  { eapply Forall_impl; [exact Hst|]. intros q. apply owned_valid. eauto. }
  destruct (first_visible_ok s _ Hv) as (r & Er & Hr).
  destruct (proj1 (Forall_forall _ _) Hst p Hp) as (c & Hc & Hmon).
  rewrite <- Hmon in Hm.
  rewrite focus_unfold, (bind_run _ _ _ _ _ (ISVISIBLE_Some _ _ _ _ Hc Hm)).
  rewrite Hmon in Hm.
  destruct (visible_on m c); repeat mstep; apply focus_on_ok with m; auto.
  now intros q [= <-].
Qed.

Lemma unurgent_lookup (h h' : gmap cptr Client) p c :
  Client.set_isurgent false <$> h' = Client.set_isurgent false <$> h ->
  h !! p = Some c ->
  ∃ c', h' !! p = Some c' ∧ Client.set_isurgent false c' = Client.set_isurgent false c.
Proof.
  intros E Hc. pose proof (f_equal (λ t, t !! p) E) as Ep. simpl in Ep.
  rewrite !lookup_fmap, Hc in Ep. destruct (h' !! p) as [c'|]; [|discriminate].
  exists c'. split; [reflexivity|]. simpl in Ep. congruence.
Qed.

Lemma focus_post_owned s s' mi p : focus_post s s' -> owned s mi p -> owned s' mi p.
Proof.
  intros (_ & _ & _ & _ & _ & _ & Hh & _) (c & Hc & Hmon).
  destruct (unurgent_lookup _ _ _ _ Hh Hc) as (c' & Hc' & E).
  exists c'. split; [exact Hc'|]. rewrite <- Hmon. exact (f_equal Client.mon E).
Qed.

Lemma focus_post_wf s s' : wf s -> focus_post s s' -> wf s'.
Proof.
  intros [Hsm Hwf] Hp. pose proof Hp as (Esel & _ & _ & _ & _ & _ & Hh & m & m' & Hm & Ems & Est & Hstack & Hnew).
  assert (∀ p, is_Some (heap s !! p) -> is_Some (heap s' !! p)) as Hdom.
  { intros p [c Hc]. destruct (unurgent_lookup _ _ _ _ Hh Hc) as (c' & -> & _). eauto. }
  destruct (Hwf _ _ Hm) as (Hst & Hcl & Hsl).
  split.
  - rewrite Esel, Ems. apply lookup_lt_is_Some. rewrite length_insert.
    now apply lookup_lt_is_Some.
  - intros mi mo Hmo. rewrite Ems in Hmo.
    destruct (decide (mi = selmon s)) as [->|Hne].
    + rewrite list_lookup_insert_eq in Hmo by now apply lookup_lt_Some in Hm.
      injection Hmo as <-. repeat split.
      * apply Forall_forall. intros q Hq. apply (focus_post_owned s); [exact Hp|].
        apply (proj1 (Forall_forall _ _) Hst). now apply Hstack.
      * replace (Monitor.clients m') with (Monitor.clients m)
          by exact (f_equal Monitor.clients (eq_sym Est)).
        eapply Forall_impl; [exact Hcl|]. intros q. now apply focus_post_owned.
      * intros q Hq. specialize (Hnew q Hq).
        destruct (proj1 (Forall_forall _ _) Hst q Hnew) as (c & Hc & _). apply Hdom. eauto.
    + rewrite list_lookup_insert_ne in Hmo by done.
      destruct (Hwf _ _ Hmo) as (Hst' & Hcl' & Hsl'). repeat split.
      * eapply Forall_impl; [exact Hst'|]. intros q. now apply focus_post_owned.
      * eapply Forall_impl; [exact Hcl'|]. intros q. now apply focus_post_owned.
      * intros q Hq. apply Hdom. eauto.
Qed.

Lemma agree_geom_owned s s' mi p : agree strip_geom s s' -> owned s mi p -> owned s' mi p.
Proof.
  intros Ha (c & Hc & Hmon). destruct (agree_lookup_Some _ _ _ _ _ Ha Hc) as (c' & Hc' & E).
  exists c'. split; [exact Hc'|]. rewrite <- Hmon. exact (f_equal Client.mon E).
Qed.

Lemma agree_geom_wf s s' : wf s -> agree strip_geom s s' -> wf s'.
Proof.
  intros [Hsm Hwf] Ha.
  rewrite (agree_selmon _ _ _ Ha), (agree_mons _ _ _ Ha) in Hsm.
  split; [exact Hsm|]. intros mi m Hm. rewrite <- (agree_mons _ _ _ Ha) in Hm.
  destruct (Hwf _ _ Hm) as (Hst & Hcl & Hsl). repeat split.
  - eapply Forall_impl; [exact Hst|]. intros q. now apply agree_geom_owned.
  - eapply Forall_impl; [exact Hcl|]. intros q. now apply agree_geom_owned.
  - intros q Hq. destruct (Hsl q Hq) as [c Hc].
    destruct (agree_lookup_Some _ _ _ _ _ Ha Hc) as (c' & -> & _). eauto.
Qed.

Lemma agree_geom_tamed s s' : tamed s -> agree strip_geom s s' -> tamed s'.
Proof.
  intros Ht Ha p c' Hc'.
  destruct (agree_lookup_Some _ _ _ _ _ (agree_sym _ _ _ Ha) Hc') as (c & Hc & E).
  exact (tame_strip_geom _ _ (eq_sym E) (Ht _ _ Hc)).
Qed.

Lemma focus_post_tamed s s' : tamed s -> focus_post s s' -> tamed s'.
Proof.
  intros Ht (_ & _ & _ & _ & _ & _ & Hh & _) p c' Hc'.
  destruct (unurgent_lookup _ _ _ _ (eq_sym Hh) Hc') as (c & Hc & E).
  destruct (Ht _ _ Hc) as [Hw Hi].
  pose proof (f_equal Client.incw E) as Ew. pose proof (f_equal Client.inch E) as Eh.
  simpl in Ew, Eh. split; congruence.
Qed.

Lemma tamed_store s p c' :
  tamed s -> tame c' -> tamed (set_heap (<[p:=c']> (heap s)) s).
Proof.
  intros Ht Hc' q c Hq. simpl in Hq. destruct (decide (p = q)) as [->|Hne].
  - rewrite lookup_insert_eq in Hq. now injection Hq as <-.
  - rewrite lookup_insert_ne in Hq by done. exact (Ht _ _ Hq).
Qed.


(** ** Tag masks *)

Lemma tagbits_land ui : tagbits ui = Z.land ui TAGMASK.
Proof.
  unfold tagbits, ulong_of, uint_of. change TAGMASK with (Z.ones 9).
  rewrite !Z.land_ones by lia.
  rewrite (Z.mod_mod_divide ui (2 ^ 64) (2 ^ 9)) by (exists (2 ^ 55); reflexivity).
  apply Z.mod_small. pose proof (Z.mod_pos_bound ui (2 ^ 9)). lia.
Qed.




Lemma wf_upd_mon' s i m m1 :
  wf s -> mons s !! i = Some m ->
  Forall (owned s i) (Monitor.stack m1) -> Forall (owned s i) (Monitor.clients m1) ->
  (∀ p, Monitor.sel m1 = Some p -> is_Some (heap s !! p)) ->
  wf (upd_mon i m1 s).
Proof.
  intros [Hsm Hwf] Hm Hst Hcl Hsl. split; simpl.
  - apply lookup_lt_is_Some. rewrite length_insert. now apply lookup_lt_is_Some.
  - intros mi mo Hmo. destruct (decide (mi = i)) as [->|Hne].
    + rewrite list_lookup_insert_eq in Hmo by now apply lookup_lt_Some in Hm.
      injection Hmo as <-. auto.
    + rewrite list_lookup_insert_ne in Hmo by done. exact (Hwf _ _ Hmo).
Qed.

Lemma wf_upd_mon s i m m1 :
  wf s -> mons s !! i = Some m ->
  Monitor.stack m1 = Monitor.stack m -> Monitor.clients m1 = Monitor.clients m ->
  Monitor.sel m1 = Monitor.sel m ->
  wf (upd_mon i m1 s).
Proof.
  intros Hwf Hm Est Ecl Esl. pose proof Hwf as [_ H]. destruct (H _ _ Hm) as (? & ? & ?).
  apply wf_upd_mon' with m; [exact Hwf|exact Hm|now rewrite Est|now rewrite Ecl|].
  now rewrite Esl.
Qed.

Lemma wf_set_tags s p c v :
  wf s -> heap s !! p = Some c ->
  wf (set_heap (<[p:=Client.set_tags v c]> (heap s)) s).
Proof.
  intros [Hsm Hwf] Hc.
  assert (∀ mi q, owned s mi q -> owned (set_heap (<[p:=Client.set_tags v c]> (heap s)) s) mi q)
    as Ho.
  { intros mi q (c' & Hq & Hmon). simpl. destruct (decide (p = q)) as [->|Hne].
    - exists (Client.set_tags v c). unfold set_heap at 1. simpl heap.
      rewrite lookup_insert_eq. split; [done|]. simpl. congruence.
    - exists c'. unfold set_heap at 1. simpl heap. now rewrite lookup_insert_ne. }
  split; [exact Hsm|]. intros mi m Hm. destruct (Hwf _ _ Hm) as (Hst & Hcl & Hsl).
  repeat split.
  - eapply Forall_impl; [exact Hst|]. apply Ho.
  - eapply Forall_impl; [exact Hcl|]. apply Ho.
  - intros q Hq. simpl. destruct (decide (p = q)) as [->|Hne].
    + rewrite lookup_insert_eq. eauto.
    + rewrite lookup_insert_ne by done. eauto.
Qed.



(** ** The combo chord *)

(** The monitor after the tag-set update of [comboview]. *)
Definition comboview_mon (cmb : bool) (newtags : Z) (m : Monitor) : Monitor :=
  if cmb then
    Monitor.set_tagset_at (Monitor.seltags m) (Z.lor (Monitor.seltagset m) newtags) m
  else
    let m1 := Monitor.set_seltags (negb (Monitor.seltags m)) m in
    if newtags =? 0 then m1 else Monitor.set_tagset_at (Monitor.seltags m1) newtags m1.






(** ** What [resize] does to the store *)

Definition rect_of (c : Client) : Z * Z * Z * Z :=
  (Client.x c, Client.y c, Client.w c, Client.h c).

Lemma rect_changed_false c r : rect_changed c r = false -> rect_of c = r.
Proof.
  destruct r as [[[x y] w] h]. unfold rect_changed, rect_of. intros H.
  repeat (apply orb_false_iff in H as [H ?]).
  repeat match goal with
         | E : negb (_ =? _) = false |- _ =>
             apply negb_false_iff, Z.eqb_eq in E
         end.
  congruence.
Qed.

Lemma resize_spec s p c m x y w h i :
  heap s !! p = Some c -> mons s !! Client.mon c = Some m -> tame c ->
  ∃ s' c', resize p x y w h i s = Some (tt, s')
    ∧ agree strip_geom s s'
    ∧ heap s' !! p = Some c'
    ∧ rect_of c' = hinted_rect (sw s) (sh s) (bh s) m c x y w h i
    ∧ strip_geom c' = strip_geom c
    ∧ ∀ q, q ≠ p -> heap s' !! q = heap s !! q.
Proof.
  intros Hc Hm Ht. unfold resize, applysizehints.
  repeat mstep. rewrite (applysizehints_rect_tame _ _ _ _ _ _ _ _ _ _ Ht).
  cbv beta iota. repeat mstep.
  destruct (hinted_rect _ _ _ m c x y w h i) as [[[x' y'] w'] h'] eqn:Er.
  destruct (rect_changed c (x', y', w', h')) eqn:Hch; simpl.
  - unfold resizeclient, configure.
    rewrite (bind_run _ _ _ _ _ (update_Some _ _ _ _ Hc)).
    repeat mstep.
    eexists _, _. split; [reflexivity|]. simpl.
    split.
    { unfold agree, norm. simpl. f_equal. rewrite fmap_insert. symmetry.
      apply insert_id. now rewrite lookup_fmap, Hc. }
    split; [apply lookup_insert_eq|]. split; [reflexivity|]. split; [reflexivity|].
    intros q Hq. now apply lookup_insert_ne.
  - exists s, c. repeat split; try done. now apply rect_changed_false.
Qed.

Lemma agree_skipped s s' p : agree strip_geom s s' -> skipped s p -> skipped s' p.
Proof.
  intros Ha (c & Hc & H). destruct (agree_lookup_Some _ _ _ _ _ Ha Hc) as (c' & Hc' & E).
  destruct (strip_geom_fields _ _ E) as (_ & Hfl & _ & Htags & Hmon & _).
  exists c'. split; [exact Hc'|]. rewrite Hfl, Hmon, <- (agree_mons _ _ _ Ha).
  destruct H as [H|(m & Hm & Hv)]; [now left|right].
  exists m. split; [exact Hm|]. unfold visible_on in *. now rewrite Htags.
Qed.

Lemma tile_count_skipped s l : Forall (skipped s) l -> tile_count l s = Some (0, s).
Proof.
  induction 1 as [|p l Hp Hl IH]; [reflexivity|]. simpl.
  now rewrite (bind_run _ _ _ _ _ (istiled_skipped _ _ Hp)), (bind_run _ _ _ _ _ IH).
Qed.

Lemma tile_count_cons_tiled s p l n :
  tiled_visible s p -> tile_count l s = Some (n, s) -> tile_count (p :: l) s = Some (n + 1, s).
Proof.
  intros Hp Hl. simpl.
  now rewrite (bind_run _ _ _ _ _ (istiled_tiled _ _ Hp)), (bind_run _ _ _ _ _ Hl).
Qed.

Lemma tile_count_app_skipped s l0 l n :
  Forall (skipped s) l0 -> tile_count l s = Some (n, s) -> tile_count (l0 ++ l) s = Some (n, s).
Proof.
  intros H Hl. induction H as [|p l0 Hp H0 IH]; [exact Hl|]. simpl.
  now rewrite (bind_run _ _ _ _ _ (istiled_skipped _ _ Hp)), (bind_run _ _ _ _ _ IH).
Qed.

Lemma tile_loop_skipped m n mw l0 l i my ty s :
  Forall (skipped s) l0 ->
  tile_loop m n mw (l0 ++ l) i my ty s = tile_loop m n mw l i my ty s.
Proof.
  induction 1 as [|p l0 Hp H0 IH]; [reflexivity|]. simpl.
  now rewrite (bind_run _ _ _ _ _ (istiled_skipped _ _ Hp)).
Qed.

Lemma tile_loop_all_skipped m n mw l i my ty s :
  Forall (skipped s) l -> tile_loop m n mw l i my ty s = Some (tt, s).
Proof.
  intros H. rewrite <- (app_nil_r l). now rewrite tile_loop_skipped.
Qed.

(** ** The scenarios S1 and S2 *)

(** No WM_NORMAL_HINTS: what [updatesizehints] stores for a window without them. *)
Definition unhinted (c : Client) : Prop :=
  Client.basew c = 0 ∧ Client.baseh c = 0 ∧ Client.incw c = 0 ∧ Client.inch c = 0
  ∧ Client.maxw c = 0 ∧ Client.maxh c = 0 ∧ Client.minw c = 0 ∧ Client.minh c = 0
  ∧ Client.mina c = F32.of_Z 0 ∧ Client.maxa c = F32.of_Z 0.

(** A 1920x1080 monitor without bar and with the configured gap, master
    factor and master count. *)
Definition scenario_monitor (m : Monitor) : Prop :=
  Monitor.wx m = 0 ∧ Monitor.wy m = 0 ∧ Monitor.ww m = 1920 ∧ Monitor.wh m = 1080
  ∧ Monitor.gappx m = gappx ∧ Monitor.mfact m = mfact ∧ Monitor.nmaster m = nmaster.

(** [p] is a tiled visible client of monitor [mi] with border [borderpx]
    and no size hints. *)
Definition plain_tile (s : State) (mi : nat) (m : Monitor) (p : cptr) : Prop :=
  ∃ c, heap s !! p = Some c ∧ Client.mon c = mi ∧ unhinted c
       ∧ Client.bw c = borderpx ∧ Client.isfloating c = false ∧ visible_on m c = true.

Lemma plain_tile_tiled s mi m p :
  mons s !! mi = Some m -> plain_tile s mi m p -> tiled_visible s p.
Proof. intros Hm (c & Hc & <- & _ & _ & Hf & Hv). exists c, m. auto. Qed.

Lemma unhinted_tame c : unhinted c -> tame c.
Proof.
  intros (_ & _ & Hiw & Hih & _). split; [rewrite Hiw|rewrite Hih]; discriminate.
Qed.

Lemma plain_rect sw sh m c x y w h :
  scenario_monitor m -> unhinted c -> Client.bw c = borderpx ->
  0 <= x < 1920 -> 0 <= y < 1080 -> 1 <= w < 2 ^ 16 -> 1 <= h < 2 ^ 16 ->
  hinted_rect sw sh 0 m c x y w h false = (x, y, w, h).
Proof.
  intros (Hwx & Hwy & Hww & Hwh & _) (Hbw & Hbh & Hiw & Hih & Hxw & Hxh & Hnw & Hnh & Hmi & Hma)
    Hb Hx Hy Hw Hh.
  unfold hinted_rect, hinted_size, aspect_adjust.
  rewrite Hwx, Hwy, Hww, Hwh, Hbw, Hbh, Hiw, Hih, Hxw, Hxh, Hnw, Hnh, Hmi, Hma, Hb.
  change (flt (F32.of_Z 0) (F32.of_Z 0)) with false. cbn [andb orb resizehints].
  change (0 =? 0) with true. cbn [andb].
  rewrite !MAX_spec.
  unfold borderpx. replace (Z.max 1 w) with w by lia. replace (Z.max 1 h) with h by lia.
  rewrite !(int_of_id (0 + 1920)), !(int_of_id (0 + 1080)) by (unfold INT_MIN, INT_MAX; lia).
  destruct (Z.geb_spec x (0 + 1920)); [lia|]. destruct (Z.geb_spec y (0 + 1080)); [lia|].
  rewrite !(int_of_id (_ + _ + 2 * 0)) by (unfold INT_MIN, INT_MAX; lia).
  destruct (Z.leb_spec (x + w + 2 * 0) 0); [lia|].
  destruct (Z.leb_spec (y + h + 2 * 0) 0); [lia|].
  destruct (Z.ltb_spec h 0); [lia|]. destruct (Z.ltb_spec w 0); [lia|].
  rewrite !(int_of_id (_ - 0)) by (unfold INT_MIN, INT_MAX; lia).
  rewrite !(int_of_id (_ + 0)) by (unfold INT_MIN, INT_MAX; lia).
  f_equal; [f_equal|]; lia.
Qed.

Lemma scenario_tile_mw m :
  scenario_monitor m -> tile_mw m 1 = 1910 ∧ tile_mw m 2 = 1056.
Proof.
  intros (_ & _ & Hww & _ & Hg & Hf & Hn). unfold tile_mw. rewrite Hww, Hg, Hf, Hn.
  split; vm_compute; reflexivity.
Qed.

Lemma tile_one s mi m l0 p l1 :
  mons s !! mi = Some m -> scenario_monitor m -> bh s = 0 ->
  Monitor.clients m = l0 ++ p :: l1 ->
  Forall (skipped s) l0 -> Forall (skipped s) l1 -> plain_tile s mi m p ->
  ∃ s' c', tile mi s = Some (tt, s') ∧ heap s' !! p = Some c'
           ∧ rect_of c' = (10, 10, 1900, 1060).
Proof.
  intros Hm Hsc Hbh Hcl H0 H1 Hp.
  pose proof (plain_tile_tiled _ _ _ _ Hm Hp) as Htv.
  destruct Hp as (c & Hc & Hmon & Hun & Hbw & Hfl & Hv).
  destruct (scenario_tile_mw m Hsc) as [Hmw _].
  pose proof Hsc as (Hwx & Hwy & Hww & Hwh & Hg & Hf & Hn).
  unfold tile. rewrite (bind_run _ _ _ _ _ (getmon_Some _ _ _ Hm)), Hcl.
  assert (tile_count (l0 ++ p :: l1) s = Some (1, s)) as Hcount.
  { apply tile_count_app_skipped; [exact H0|].
    apply (tile_count_cons_tiled _ _ _ 0 Htv). now apply tile_count_skipped. }
  rewrite (bind_run _ _ _ _ _ Hcount). change (uint_of 1) with 1. cbn [Z.eqb].
  rewrite Hmw, tile_loop_skipped by exact H0. cbn [tile_loop].
  rewrite (bind_run _ _ _ _ _ (istiled_tiled _ _ Htv)). cbn [negb].
  rewrite (bind_run _ _ _ _ _ (deref_Some _ _ _ Hc)).
  rewrite Hn, Hg, Hwh, Hwx, Hwy, Hbw. 
  change (0 <? uint_of nmaster) with true. cbv iota.
  change (int_of (0 + gappx)) with 10. change (int_of (0 + uint_of gappx)) with 10.
  change (int_of (1910 - 2 * borderpx - gappx)) with 1900.
  change (int_of (uint_of (uint_of (1080 - uint_of gappx)
                           `div` uint_of (MIN 1 (uint_of nmaster) - 0) - gappx)
                  - 2 * borderpx)) with 1060.
  rewrite <- Hmon in Hm.
  destruct (resize_spec s p c m 10 10 1900 1060 false Hc Hm (unhinted_tame _ Hun))
    as (s1 & c1 & E & Ha & Hc1 & Hr & _ & _).
  rewrite Hbh, plain_rect in Hr by (auto; lia).
  rewrite (bind_run _ _ _ _ _ E), (bind_run _ _ _ _ _ (deref_Some _ _ _ Hc1)).
  rewrite tile_loop_all_skipped.
  - exists s1, c1. auto.
  - eapply Forall_impl; [exact H1|]. intros q. now apply agree_skipped.
Qed.

Lemma tile_two s mi m l0 p1 l1 p2 l2 :
  mons s !! mi = Some m -> scenario_monitor m -> bh s = 0 ->
  Monitor.clients m = l0 ++ p1 :: l1 ++ p2 :: l2 -> p1 ≠ p2 ->
  Forall (skipped s) l0 -> Forall (skipped s) l1 -> Forall (skipped s) l2 ->
  plain_tile s mi m p1 -> plain_tile s mi m p2 ->
  ∃ s' c1 c2, tile mi s = Some (tt, s')
              ∧ heap s' !! p1 = Some c1 ∧ rect_of c1 = (10, 10, 1046, 1060)
              ∧ heap s' !! p2 = Some c2 ∧ rect_of c2 = (1066, 10, 844, 1060).
Proof.
  intros Hm Hsc Hbh Hcl Hne H0 H1 H2 Hp1 Hp2.
  pose proof (plain_tile_tiled _ _ _ _ Hm Hp1) as Htv1.
  pose proof (plain_tile_tiled _ _ _ _ Hm Hp2) as Htv2.
  destruct Hp1 as (c1 & Hc1 & Hmon1 & Hun1 & Hbw1 & Hfl1 & Hv1).
  destruct Hp2 as (c2 & Hc2 & Hmon2 & Hun2 & Hbw2 & Hfl2 & Hv2).
  destruct (scenario_tile_mw m Hsc) as [_ Hmw].
  pose proof Hsc as (Hwx & Hwy & Hww & Hwh & Hg & Hf & Hn).
  unfold tile. rewrite (bind_run _ _ _ _ _ (getmon_Some _ _ _ Hm)), Hcl.
  assert (tile_count (l0 ++ p1 :: l1 ++ p2 :: l2) s = Some (2, s)) as Hcount.
  { apply tile_count_app_skipped; [exact H0|].
    apply (tile_count_cons_tiled _ _ _ 1 Htv1).
    apply tile_count_app_skipped; [exact H1|].
    apply (tile_count_cons_tiled _ _ _ 0 Htv2). now apply tile_count_skipped. }
  rewrite (bind_run _ _ _ _ _ Hcount). change (uint_of 2) with 2. cbn [Z.eqb].
  rewrite Hmw, tile_loop_skipped by exact H0. cbn [tile_loop].
  rewrite (bind_run _ _ _ _ _ (istiled_tiled _ _ Htv1)). cbn [negb].
  rewrite (bind_run _ _ _ _ _ (deref_Some _ _ _ Hc1)).
  rewrite Hn, Hg, Hwh, Hwx, Hwy, Hww, Hbw1.
  change (0 <? uint_of nmaster) with true. cbv iota.
  change (int_of (0 + gappx)) with 10. change (int_of (0 + uint_of gappx)) with 10.
  change (int_of (1056 - 2 * borderpx - gappx)) with 1046.
  change (int_of (uint_of (uint_of (1080 - uint_of gappx)
                           `div` uint_of (MIN 2 (uint_of nmaster) - 0) - gappx)
                  - 2 * borderpx)) with 1060.
  rewrite <- Hmon1 in Hm.
  destruct (resize_spec s p1 c1 m 10 10 1046 1060 false Hc1 Hm (unhinted_tame _ Hun1))
    as (s1 & c1' & E1 & Ha1 & Hc1' & Hr1 & Hs1 & Ho1).
  rewrite Hbh, plain_rect in Hr1 by (auto; lia).
  rewrite (bind_run _ _ _ _ _ E1), (bind_run _ _ _ _ _ (deref_Some _ _ _ Hc1')).
  assert (HEIGHT c1' = 1060) as Hh1.
  { unfold HEIGHT. destruct (strip_geom_fields _ _ Hs1) as (_ & _ & -> & _).
    injection Hr1 as _ _ _ ->. now rewrite Hbw1. }
  rewrite Hh1.
  change (if uint_of (uint_of gappx + 1060) <? uint_of 1080
          then uint_of (uint_of gappx + 1060 + gappx) else uint_of gappx) with 1080.
  change (uint_of (0 + 1)) with 1.
  rewrite tile_loop_skipped
    by (eapply Forall_impl; [exact H1|]; intros q; now apply agree_skipped).
  cbn [tile_loop].
  assert (heap s1 !! p2 = Some c2) as Hc2' by (rewrite Ho1; auto).
  assert (tiled_visible s1 p2) as Htv2'.
  { exists c2, m. rewrite <- (agree_mons _ _ _ Ha1), Hmon2, <- Hmon1. auto. }
  rewrite (bind_run _ _ _ _ _ (istiled_tiled _ _ Htv2')). cbn [negb].
  rewrite (bind_run _ _ _ _ _ (deref_Some _ _ _ Hc2')).
  rewrite Hn, Hg, Hwh, Hwx, Hwy, Hww, Hbw2.
  change (1 <? uint_of nmaster) with false. cbv iota.
  change (int_of (0 + 1056 + gappx)) with 1066.
  change (int_of (1920 - 1056 - 2 * borderpx - 2 * gappx)) with 844.
  change (int_of (uint_of (uint_of (1080 - uint_of gappx) `div` uint_of (2 - 1) - gappx)
                  - 2 * borderpx)) with 1060.
  rewrite Hmon1, <- Hmon2, (agree_mons _ _ _ Ha1) in Hm.
  destruct (resize_spec s1 p2 c2 m 1066 10 844 1060 false Hc2' Hm (unhinted_tame _ Hun2))
    as (s2 & c2' & E2 & Ha2 & Hc2'' & Hr2 & Hs2 & Ho2).
  destruct (agree_globals _ _ _ Ha1) as (Hbh1 & _ & _).
  rewrite <- Hbh1, Hbh, plain_rect in Hr2 by (auto; lia).
  rewrite (bind_run _ _ _ _ _ E2), (bind_run _ _ _ _ _ (deref_Some _ _ _ Hc2'')).
  rewrite tile_loop_all_skipped.
  - exists s2, c1', c2'. split; [reflexivity|]. rewrite Ho2 by done. auto.
  - eapply Forall_impl; [exact H2|]. intros q Hq.
    eapply agree_skipped; [exact Ha2|]. now apply agree_skipped with s.
Qed.

(** C1: on a 1920x1080 monitor without bar, with gap 10, master factor
    0.55 and one master, [tile] leaves a single tiled visible client
    without size hints and border at (10,10) with size 1900x1060, and two
    such clients at (10,10) with size 1046x1060 (the first in tile order)
    and at (1066,10) with size 844x1060 (the second); floating and hidden
    clients anywhere in the list do not matter. *)
Theorem tile_scenarios (s : State) (mi : nat) (m : Monitor) :
  mons s !! mi = Some m -> scenario_monitor m -> bh s = 0 ->
  (∀ l0 p l1,
     Monitor.clients m = l0 ++ p :: l1 ->
     Forall (skipped s) l0 -> Forall (skipped s) l1 -> plain_tile s mi m p ->
     ∃ s' c', tile mi s = Some (tt, s') ∧ heap s' !! p = Some c'
              ∧ rect_of c' = (10, 10, 1900, 1060))
  ∧ (∀ l0 p1 l1 p2 l2,
       Monitor.clients m = l0 ++ p1 :: l1 ++ p2 :: l2 -> p1 ≠ p2 ->
       Forall (skipped s) l0 -> Forall (skipped s) l1 -> Forall (skipped s) l2 ->
       plain_tile s mi m p1 -> plain_tile s mi m p2 ->
       ∃ s' c1 c2, tile mi s = Some (tt, s')
                   ∧ heap s' !! p1 = Some c1 ∧ rect_of c1 = (10, 10, 1046, 1060)
                   ∧ heap s' !! p2 = Some c2 ∧ rect_of c2 = (1066, 10, 844, 1060)).
Proof.
  intros Hm Hsc Hbh. split.
  - intros l0 p l1. now apply tile_one.
  - intros l0 p1 l1 p2 l2. now apply tile_two.
Qed.

(** ** Promotion to master: [pop] and [zoom] *)

Lemma unlink_owned s i p l l' :
  unlink p l = Some l' -> Forall (owned s i) l -> Forall (owned s i) l'.
Proof.
  revert l'. induction l as [|a l IH]; intros l' H Hall; [discriminate|].
  simpl in H. apply Forall_cons in Hall as [Ha Hl].
  destruct (decide (a = p)); [now injection H as <-|].
  destruct (unlink p l) as [l0|]; [|discriminate]. injection H as <-.
  apply Forall_cons. auto.
Qed.

(** [pop(c)] for the client the selected monitor has selected. *)
Lemma pop_ok X s m p :
  wf s -> tamed s -> mons s !! selmon s = Some m ->
  p ∈ Monitor.clients m -> p ∈ Monitor.stack m ->
  ∃ s' m' l, pop X p s = Some (tt, s')
             ∧ unlink p (Monitor.clients m) = Some l
             ∧ mons s' !! selmon s = Some m'
             ∧ Monitor.clients m' = p :: l.
Proof.
  intros Hwf Htm Hm Hcl Hst. pose proof Hwf as [_ H].
  destruct (H _ _ Hm) as (Ost & Ocl & Osl).
  destruct (proj1 (Forall_forall _ _) Ocl p Hcl) as (c & Hc & Hmon).
  destruct (unlink_elem p _ Hcl) as (l & Hl & Hlin).
  rewrite <- Hmon in Hm.
  unfold pop, detach, attach. repeat mstep. rewrite Hl.
  rewrite (bind_run _ _ _ _ _ (updmon_Some _ _ _ _ Hm)).
  set (s1 := upd_mon (Client.mon c) (Monitor.set_clients l m) s).
  assert (mons s1 !! Client.mon c = Some (Monitor.set_clients l m)) as Hm1.
  { simpl. apply list_lookup_insert_eq. now apply lookup_lt_Some in Hm. }
  assert (heap s1 !! p = Some c) as Hc1 by exact Hc.
  rewrite bind_bind. rewrite (bind_run _ _ _ _ _ (deref_Some _ _ _ Hc1)).
  rewrite (bind_run _ _ _ _ _ (updmon_Some _ _ _ _ Hm1)).
  set (m1 := Monitor.set_clients _ (Monitor.set_clients l m)).
  assert (upd_mon (Client.mon c) m1 s1 = upd_mon (Client.mon c) m1 s) as ->.
  { unfold upd_mon, s1, set_mons. simpl. now rewrite list_insert_insert_eq. }
  assert (wf (upd_mon (Client.mon c) m1 s)) as Hwf1.
  { rewrite <- Hmon in Ost, Ocl.
    apply wf_upd_mon' with m; [exact Hwf|exact Hm|exact Ost| |exact Osl].
    apply Forall_cons. split; [exists c; auto|]. eapply unlink_owned; eauto. }
  destruct (focus_Some_ok X p (upd_mon (Client.mon c) m1 s) m1) as (s2 & E2 & Hp2).
  { exact Hwf1. }
  { simpl. rewrite <- Hmon. apply list_lookup_insert_eq. now apply lookup_lt_Some in Hm. }
  { exact Hst. }
  rewrite (bind_run _ _ _ _ _ E2).
  pose proof (focus_post_wf _ _ Hwf1 Hp2) as Hwf2.
  pose proof (focus_post_tamed _ _ (Htm : tamed (upd_mon (Client.mon c) m1 s)) Hp2) as Htm2.
  destruct Hp2 as (Esel & _ & _ & _ & _ & _ & Hh & m1' & m2 & Hm1' & Ems & Est & _ & _).
  simpl in Hm1', Ems. rewrite <- Hmon in Hm1', Ems.
  rewrite list_lookup_insert_eq in Hm1' by now apply lookup_lt_Some in Hm.
  injection Hm1' as <-. rewrite list_insert_insert_eq in Ems.
  destruct (unurgent_lookup _ _ _ _ Hh Hc) as (c2 & Hc2 & Ec2).
  rewrite (bind_run _ _ _ _ _ (deref_Some _ _ _ Hc2)).
  assert (Client.mon c2 = Client.mon c) as Emon.
  { exact (f_equal Client.mon Ec2). }
  assert (mons s2 !! Client.mon c = Some m2) as Hm2.
  { rewrite Ems. apply list_lookup_insert_eq. now apply lookup_lt_Some in Hm. }
  destruct (arrange_moves s2 (Client.mon c2)) as (s3 & E3 & Ha).
  { exact Htm2. }
  { apply wf_arrangeable; [exact Hwf2|]. rewrite Emon, Hm2. eauto. }
  exists s3, m2, l. split; [exact E3|]. split; [reflexivity|].
  rewrite <- Hmon, <- (agree_mons _ _ _ Ha). split; [exact Hm2|].
  exact (f_equal Monitor.clients Est).
Qed.

Lemma tiled_or_skipped s p : valid s p -> tiled_visible s p ∨ skipped s p.
Proof.
  intros (c & Hc & m & Hm).
  destruct (Client.isfloating c) eqn:Hf; [right; exists c; auto|].
  destruct (visible_on m c) eqn:Hv.
  - left. now exists c, m.
  - right. exists c. split; [done|]. right. now exists m.
Qed.

Lemma first_tiled s l q :
  Forall (valid s) l -> q ∈ l -> tiled_visible s q ->
  ∃ l1 t l2, l = l1 ++ t :: l2 ∧ Forall (skipped s) l1 ∧ tiled_visible s t.
Proof.
  induction 1 as [|a l Ha Hl IH]; intros Hq Ht; [now apply elem_of_nil in Hq|].
  destruct (tiled_or_skipped _ _ Ha) as [Hta|Hsa].
  - now exists [], a, l.
  - apply elem_of_cons in Hq as [->|Hq].
    + exfalso. destruct Ht as (c & m & Hc & Hm & Hf & Hv), Hsa as (c' & Hc' & H).
      rewrite Hc in Hc'. injection Hc' as <-. destruct H as [H|(m' & Hm' & H)]; [congruence|].
      rewrite Hm in Hm'. injection Hm' as <-. congruence.
    + destruct (IH Hq Ht) as (l1 & t & l2 & -> & H1 & H2).
      exists (a :: l1), t, l2. split; [done|]. split; [|done]. now apply Forall_cons.
Qed.

Lemma unlink_middle p l l2 : p ∉ l -> unlink p (l ++ p :: l2) = Some (l ++ l2).
Proof.
  induction l as [|a l IH]; intros Hn; simpl.
  - now rewrite decide_True.
  - apply not_elem_of_cons in Hn as [Hne Hn].
    rewrite decide_False by congruence. now rewrite (IH Hn).
Qed.

(** C5 (amended): [zoom] with the selected client [p] tiled, on the client
    list after an earlier client [q] that is tiled and visible, moves [p]
    to the head of the client list and keeps all other clients in the order
    they had. Since [attach] inserts at the head, three mapped windows are
    listed third, second, first, and [zoom] on the second leaves the list
    second, third, first: the stack column holds the third-mapped window
    above the first-mapped one.  [zoom] ends in [arrange], which returns
    when no client has a resize increment of -1 (where the [%] of
    [applysizehints] can trap). *)
Theorem zoom_promotes (X : XServer) (s : State) (m : Monitor) (p q : cptr) (c : Client)
    (l l2 : list cptr) :
  wf s -> tamed s -> mons s !! selmon s = Some m ->
  Monitor.sel m = Some p -> heap s !! p = Some c -> Client.isfloating c = false ->
  Monitor.clients m = l ++ p :: l2 -> p ∉ l -> p ∈ Monitor.stack m ->
  q ∈ l -> tiled_visible s q ->
  ∃ s' m', zoom X s = Some (tt, s')
           ∧ mons s' !! selmon s = Some m'
           ∧ Monitor.clients m' = p :: l ++ l2.
Proof.
  intros Hwf Htm Hm Hsel Hc Hf Hcl Hnl Hst Hq Ht.
  pose proof Hwf as [_ H]. destruct (H _ _ Hm) as (_ & Ocl & _). clear H.
  assert (Forall (valid s) l) as Hv.
  { rewrite Hcl in Ocl. apply Forall_app in Ocl as [Ol _].
    eapply Forall_impl; [exact Ol|]. intros r. apply owned_valid. eauto. }
  destruct (first_tiled _ _ _ Hv Hq Ht) as (l1 & t & l1' & -> & Hsk & Htt).
  assert (t ≠ p) as Hne.
  { intros ->. apply Hnl. apply elem_of_app. right. apply elem_of_cons. now left. }
  destruct (pop_ok X s m p Hwf Htm Hm) as (s' & m' & l' & E & Hl & Hm' & Hcl').
  { rewrite Hcl. apply elem_of_app. right. apply elem_of_cons. now left. }
  { exact Hst. }
  rewrite Hcl, unlink_middle in Hl by exact Hnl. injection Hl as <-.
  exists s', m'. split; [|split; [exact Hm'|exact Hcl']].
  unfold zoom. repeat mstep. rewrite Hsel. repeat mstep. rewrite Hf.
  rewrite Hcl, <- app_assoc. simpl app.
  rewrite (bind_run _ _ _ _ _ (nexttiled_found s l1 t _ Hsk Htt)).
  rewrite decide_False by congruence. exact E.
Qed.

(** ** Fullscreen: the round trip *)

(** A client without what [setfullscreen] and [resizeclient] save of its
    earlier state. *)
Definition erase_old (c : Client) : Client :=
  Client.set_oldx 0 (Client.set_oldy 0 (Client.set_oldw 0 (Client.set_oldh 0
  (Client.set_oldbw 0 (Client.set_oldstate false c))))).

Abbreviation same R m := (sim erase_old R m m).

Lemma erase_old_fields c c' :
  erase_old c = erase_old c' ->
  Client.mon c = Client.mon c' ∧ Client.win c = Client.win c'
  ∧ Client.isfloating c = Client.isfloating c'
  ∧ Client.isfullscreen c = Client.isfullscreen c'
  ∧ Client.bw c = Client.bw c'
  ∧ rect_of c = rect_of c'.
Proof.
  intros E. repeat split;
    [ exact (f_equal Client.mon E) | exact (f_equal Client.win E)
    | exact (f_equal Client.isfloating E) | exact (f_equal Client.isfullscreen E)
    | exact (f_equal Client.bw E) | exact (f_equal rect_of E) ].
Qed.

(** Functions of a client that do not read the saved fields. *)
Definition forgets {A} (g : Client -> A) : Prop := ∀ c, g (erase_old c) = g c.

Lemma forgets_eq {A} (g : Client -> A) c c' :
  forgets g -> erase_old c = erase_old c' -> g c = g c'.
Proof. intros Hg E. rewrite <- (Hg c), <- (Hg c'). now rewrite E. Qed.

Lemma forgets_visible_on m : forgets (visible_on m).
Proof. intros c. reflexivity. Qed.

Lemma forgets_WIDTH : forgets WIDTH.
Proof. intros c. reflexivity. Qed.

Lemma forgets_HEIGHT : forgets HEIGHT.
Proof. intros c. reflexivity. Qed.

Lemma forgets_applysizehints_rect sw sh bh m x y w h i :
  forgets (λ c, applysizehints_rect sw sh bh m c x y w h i).
Proof. intros c. reflexivity. Qed.

Lemma forgets_rect_changed r : forgets (λ c, rect_changed c r).
Proof. intros c. reflexivity. Qed.

Lemma same_ret {A} (a : A) : same eq (ret a).
Proof. now apply sim_ret. Qed.

Lemma same_gets {A} (g : State -> A) :
  (∀ s1 s2, agree erase_old s1 s2 -> g s1 = g s2) -> same eq (gets g).
Proof. apply sim_gets. Qed.

Lemma same_ISVISIBLE p : same eq (ISVISIBLE p).
Proof.
  unfold ISVISIBLE. eapply sim_bind; [apply sim_deref|]. intros c c' E.
  rewrite (forgets_eq Client.mon c c') by done.
  eapply sim_bind; [apply sim_getmon|]. intros m ? <-.
  rewrite (forgets_eq (visible_on m) c c') by done. apply same_ret.
Qed.

Lemma same_applysizehints p x y w h i : same eq (applysizehints p x y w h i).
Proof.
  unfold applysizehints. eapply sim_bind; [apply sim_deref|]. intros c c' E.
  rewrite (forgets_eq Client.mon c c') by done.
  eapply sim_bind; [apply sim_getmon|]. intros m ? <-.
  eapply sim_bind; [apply same_gets; intros s1 s2 H; exact (f_equal sw H)|]. intros a ? <-.
  eapply sim_bind; [apply same_gets; intros s1 s2 H; exact (f_equal sh H)|]. intros b ? <-.
  eapply sim_bind; [apply same_gets; intros s1 s2 H; exact (f_equal bh H)|]. intros d ? <-.
  rewrite (forgets_eq (λ c, applysizehints_rect a b d m c x y w h i) c c') by done.
  destruct (applysizehints_rect a b d m c' x y w h i) as [r|]; [|apply sim_fail].
  rewrite (forgets_eq (λ c, rect_changed c r) c c') by done. apply same_ret.
Qed.

Lemma same_configure p : same eq (configure p).
Proof.
  unfold configure. eapply sim_bind; [apply sim_deref|]. intros c c' E. apply sim_xsend.
Qed.

Lemma same_resizeclient p x y w h : same eq (resizeclient p x y w h).
Proof.
  unfold resizeclient.
  eapply sim_bind; [apply sim_update|].
  { intros c c' E. destruct c, c'. injection E as ?. subst. reflexivity. }
  intros _ _ _. eapply sim_bind; [apply sim_deref|]. intros c c' E.
  eapply sim_bind; [apply sim_xsend|]. intros _ _ _.
  eapply sim_bind; [apply same_configure|]. intros _ _ _. apply sim_xsend.
Qed.

Lemma same_resize p x y w h i : same eq (resize p x y w h i).
Proof.
  unfold resize. eapply sim_bind; [apply same_applysizehints|].
  intros [ch [[[x' y'] w'] h']] ? <-. apply sim_when, same_resizeclient.
Qed.

Lemma same_showhide l : same eq (showhide l).
Proof.
  induction l as [|p l IH]; simpl; [apply same_ret|].
  eapply sim_bind; [apply same_ISVISIBLE|]. intros v ? <-. destruct v.
  - eapply sim_bind; [apply sim_deref|]. intros c c' E.
    destruct (erase_old_fields _ _ E) as (_ & _ & -> & -> & _ & [= -> -> -> ->]).
    eapply sim_bind; [apply sim_xsend|]. intros _ _ _.
    eapply sim_bind; [apply sim_when, same_resize|]. intros _ _ _. exact IH.
  - eapply sim_bind; [exact IH|]. intros _ _ _.
    eapply sim_bind; [apply sim_deref|]. intros c c' E. apply sim_xsend.
Qed.

Lemma same_istiled p : same eq (istiled p).
Proof.
  unfold istiled. eapply sim_bind; [apply sim_deref|]. intros c c' E.
  destruct (erase_old_fields _ _ E) as (_ & _ & -> & _).
  destruct (Client.isfloating c'); [apply same_ret|apply same_ISVISIBLE].
Qed.

Lemma same_tile_count l : same eq (tile_count l).
Proof.
  induction l as [|p l IH]; simpl; [apply same_ret|].
  eapply sim_bind; [apply same_istiled|]. intros t ? <-.
  eapply sim_bind; [exact IH|]. intros n ? <-. apply same_ret.
Qed.

Lemma same_tile_loop m n mw l : ∀ i my ty, same eq (tile_loop m n mw l i my ty).
Proof.
  induction l as [|p l IH]; intros i my ty; simpl; [apply same_ret|].
  eapply sim_bind; [apply same_istiled|]. intros t ? <-. destruct t; simpl; [|apply IH].
  eapply sim_bind; [apply sim_deref|]. intros c c' E.
  destruct (erase_old_fields _ _ E) as (_ & _ & _ & _ & -> & _).
  destruct (i <? uint_of (Monitor.nmaster m)).
  - eapply sim_bind; [apply same_resize|]. intros _ _ _.
    eapply sim_bind; [apply sim_deref|]. intros d d' E'.
    rewrite (forgets_eq HEIGHT d d') by done. apply IH.
  - eapply sim_bind; [apply same_resize|]. intros _ _ _.
    eapply sim_bind; [apply sim_deref|]. intros d d' E'.
    rewrite (forgets_eq HEIGHT d d') by done. apply IH.
Qed.

Lemma same_tile mi : same eq (tile mi).
Proof.
  unfold tile. eapply sim_bind; [apply sim_getmon|]. intros m ? <-.
  eapply sim_bind; [apply same_tile_count|]. intros n ? <-.
  destruct (uint_of n =? 0); [apply same_ret|apply same_tile_loop].
Qed.

Lemma same_restack mi : same eq (restack mi).
Proof.
  unfold restack. eapply sim_bind; [apply sim_getmon|]. intros m ? <-.
  destruct (Monitor.sel m) as [p|]; [|apply same_ret].
  eapply sim_bind; [apply sim_deref|]. intros c c' E.
  destruct (erase_old_fields _ _ E) as (_ & -> & -> & _).
  eapply sim_bind; [apply sim_when, sim_xsend|]. intros _ _ _. apply sim_xsend.
Qed.

(** [arrange] neither reads nor keeps the saved fields. *)
Lemma same_arrange mi : same eq (arrange (Some mi)).
Proof.
  unfold arrange. eapply sim_bind; [apply sim_getmon|]. intros m ? <-.
  eapply sim_bind; [apply same_showhide|]. intros _ _ _.
  eapply sim_bind; [apply same_tile|]. intros _ _ _. apply same_restack.
Qed.


(** The client [setfullscreen(c, 1); setfullscreen(c, 0)] leaves before the
    final [arrange]: [c] with its geometry, border and floating state saved. *)
Definition saved (c : Client) : Client :=
  Client.set_oldh (Client.h c) (Client.set_oldw (Client.w c)
  (Client.set_oldy (Client.y c) (Client.set_oldx (Client.x c)
  (Client.set_oldbw (Client.bw c) (Client.set_oldstate (Client.isfloating c) c))))).

Lemma erase_old_saved c : erase_old (saved c) = erase_old c.
Proof. reflexivity. Qed.

Lemma set_heap_twice h h' s : set_heap h (set_heap h' s) = set_heap h s.
Proof. reflexivity. Qed.

Lemma set_heap_xlog h l s : set_heap h (set_xlog l s) = set_xlog l (set_heap h s).
Proof. reflexivity. Qed.

Lemma setfullscreen_on_off p c m s :
  heap s !! p = Some c -> mons s !! Client.mon c = Some m -> Client.isfullscreen c = false ->
  ∃ l, bind (setfullscreen p true) (λ _, setfullscreen p false) s
       = arrange (Some (Client.mon c)) (set_xlog l (set_heap (<[p:=saved c]> (heap s)) s)).
Proof.
  intros Hc Hm Hf. unfold setfullscreen. generalize arrange. intros arr.
  repeat mstep. rewrite Hf. simpl.
  unfold resizeclient, configure, update, store. repeat mstep. simpl.
  rewrite ?set_heap_xlog, ?set_heap_twice, ?set_xlog_twice, ?insert_insert_eq.
  repeat mstep. simpl.
  rewrite ?set_heap_xlog, ?set_heap_twice, ?set_xlog_twice, ?insert_insert_eq.
  repeat mstep. simpl.
  rewrite ?set_heap_xlog, ?set_heap_twice, ?set_xlog_twice, ?insert_insert_eq.
  eexists. do 4 f_equal. destruct c. simpl in *. now subst.
Qed.

(** C2 (amended): for a client that is not fullscreen, on a state of the
    invariant, [setfullscreen(c, 1); setfullscreen(c, 0)] returns, restores
    [isfloating] and [bw], and leaves the state [arrange(c->mon)] gives from
    the start state, up to the saved fields and the requests sent: the
    client's rectangle is the one [arrange] gives it, so it is restored
    when the layout was up to date (when [arrange] keeps the rectangle).
    Leaving fullscreen ends in [arrange], which returns when no client has
    a resize increment of -1 (where the [%] of [applysizehints] can
    trap). *)
Theorem setfullscreen_round_trip (p : cptr) (c : Client) (s : State) :
  wf s -> tamed s -> heap s !! p = Some c -> is_Some (mons s !! Client.mon c) ->
  Client.isfullscreen c = false ->
  ∃ s1 c1 s' c',
    arrange (Some (Client.mon c)) s = Some (tt, s1) ∧ heap s1 !! p = Some c1
    ∧ bind (setfullscreen p true) (λ _, setfullscreen p false) s = Some (tt, s')
    ∧ heap s' !! p = Some c'
    ∧ agree erase_old s1 s'
    ∧ Client.isfloating c' = Client.isfloating c
    ∧ Client.bw c' = Client.bw c
    ∧ rect_of c' = rect_of c1
    ∧ (rect_of c1 = rect_of c -> rect_of c' = rect_of c).
Proof.
  intros Hwf Htm Hc [m Hm] Hf.
  destruct (arrange_moves s (Client.mon c)) as (s1 & E1 & A1).
  { exact Htm. }
  { apply wf_arrangeable; eauto. }
  destruct (agree_lookup_Some _ _ _ _ _ A1 Hc) as (c1 & Hc1 & G1).
  destruct (setfullscreen_on_off p c m s Hc Hm Hf) as (l & ->).
  set (s2 := set_xlog l _).
  assert (agree erase_old s s2) as A2.
  { unfold s2. eapply agree_trans; [|apply agree_xlog].
    apply agree_store with c; [exact Hc|apply erase_old_saved]. }
  pose proof (same_arrange (Client.mon c) s s2 A2) as H. rewrite E1 in H.
  destruct (arrange (Some (Client.mon c)) s2) as [[[] s']|]; [|done].
  destruct H as [_ A]. destruct (agree_lookup_Some _ _ _ _ _ A Hc1) as (c' & Hc' & G).
  destruct (erase_old_fields _ _ G) as (_ & _ & Efl & _ & Ebw & Er).
  destruct (strip_geom_fields _ _ G1) as (_ & Efl1 & Ebw1 & _).
  exists s1, c1, s', c'. repeat split; try done; congruence.
Qed.

(** ** Size hints applied twice *)

(** The range of the X protocol's positions (INT16) and sizes (CARD16). *)
Definition coord (v : Z) : Prop := - 2 ^ 16 <= v <= 2 ^ 16.

(** Hints that only give a base and a minimum size: no resize increments,
    no maximum size, no aspect limits. *)
Definition loose (c : Client) : Prop :=
  Client.incw c = 0 ∧ Client.inch c = 0 ∧ Client.maxw c = 0 ∧ Client.maxh c = 0
  ∧ flt (F32.of_Z 0) (Client.mina c) && flt (F32.of_Z 0) (Client.maxa c) = false.

(** The position clamps of [applysizehints] along one axis: [lim] is [sw]
    or [sh], [o] and [d] are [m->wx] and [m->ww] (or [wy] and [wh]), [W] is
    [WIDTH(c)] (or [HEIGHT(c)]). *)
Definition place (interact : bool) (lim o d W bw x w : Z) : Z :=
  if interact then
    let x := if x >? lim then int_of (lim - W) else x in
    if int_of (x + w + 2 * bw) <? 0 then 0 else x
  else
    let x := if x >=? int_of (o + d) then int_of (o + d - W) else x in
    if int_of (x + w + 2 * bw) <=? o then o else x.

Ltac zcase :=
  match goal with
  | |- context [?a <=? ?b] => destruct (Z.leb_spec a b)
  | |- context [?a <? ?b] => destruct (Z.ltb_spec a b)
  | |- context [?a >=? ?b] => destruct (Z.geb_spec a b)
  | |- context [?a >? ?b] => destruct (Z.gtb_spec a b)
  | |- context [?a =? ?b] => destruct (Z.eqb_spec a b)
  end.

Ltac int_range := unfold INT_MIN, INT_MAX, coord in *; lia.

Lemma place_idem (i : bool) lim o d W bw x w w' :
  coord lim -> coord o -> coord d -> - 2 ^ 18 <= W <= 2 ^ 18 -> coord bw -> coord x ->
  coord w -> coord w' ->
  w <= w' -> (if i then 0 <= lim else 0 < d) ->
  place i lim o d W bw (place i lim o d W bw x w) w' = place i lim o d W bw x w.
Proof.
  intros Hl Ho Hd HW Hb Hx Hw Hw' Hle Hi. unfold place.
  assert (∀ (b : bool) (v : Z), (if b then v else v) = v) as Hsame by now intros [].
  destruct i.
  - rewrite (int_of_id (lim - W)) by int_range.
    destruct (Z.gtb_spec x lim).
    + rewrite (int_of_id (lim - W + w + 2 * bw)) by int_range.
      destruct (Z.ltb_spec (lim - W + w + 2 * bw) 0).
      * destruct (Z.gtb_spec 0 lim); [lia|].
        rewrite (int_of_id (0 + w' + 2 * bw)) by int_range. now zcase.
      * rewrite Hsame. rewrite (int_of_id (_ + w' + 2 * bw)) by int_range.
        zcase; lia.
    + rewrite (int_of_id (x + w + 2 * bw)) by int_range.
      destruct (Z.ltb_spec (x + w + 2 * bw) 0).
      * destruct (Z.gtb_spec 0 lim); [lia|].
        rewrite (int_of_id (0 + w' + 2 * bw)) by int_range. now zcase.
      * destruct (Z.gtb_spec x lim); [lia|].
        rewrite (int_of_id (x + w' + 2 * bw)) by int_range. zcase; lia.
  - rewrite (int_of_id (o + d)), (int_of_id (o + d - W)) by int_range.
    destruct (Z.geb_spec x (o + d)).
    + rewrite (int_of_id (o + d - W + w + 2 * bw)) by int_range.
      destruct (Z.leb_spec (o + d - W + w + 2 * bw) o).
      * destruct (Z.geb_spec o (o + d)); [lia|].
        rewrite (int_of_id (o + w' + 2 * bw)) by int_range. now zcase.
      * rewrite Hsame. rewrite (int_of_id (_ + w' + 2 * bw)) by int_range.
        zcase; lia.
    + rewrite (int_of_id (x + w + 2 * bw)) by int_range.
      destruct (Z.leb_spec (x + w + 2 * bw) o).
      * destruct (Z.geb_spec o (o + d)); [lia|].
        rewrite (int_of_id (o + w' + 2 * bw)) by int_range. now zcase.
      * destruct (Z.geb_spec x (o + d)); [lia|].
        rewrite (int_of_id (x + w' + 2 * bw)) by int_range. zcase; lia.
Qed.

Lemma loose_tame c : loose c -> tame c.
Proof. intros (Hiw & Hih & _). split; [rewrite Hiw|rewrite Hih]; discriminate. Qed.

(** What [applysizehints] leaves in the rectangle for a client with
    [loose] hints. *)
Lemma loose_rect sw sh bh m c x y w h i :
  loose c -> coord bh -> coord w -> coord h ->
  coord (Client.basew c) -> coord (Client.baseh c) ->
  coord (Client.minw c) -> coord (Client.minh c) ->
  hinted_rect sw sh bh m c x y w h i
  = (place i sw (Monitor.wx m) (Monitor.ww m) (WIDTH c) (Client.bw c) x (Z.max 1 w),
     place i sh (Monitor.wy m) (Monitor.wh m) (HEIGHT c) (Client.bw c) y (Z.max 1 h),
     Z.max (Z.max (Z.max 1 w) bh) (Client.minw c),
     Z.max (Z.max (Z.max 1 h) bh) (Client.minh c)).
Proof.
  intros (Hiw & Hih & Hxw & Hxh & Ha) Hbh Hw Hh Hbw Hbh' Hnw Hnh.
  unfold hinted_rect, hinted_size, aspect_adjust, place.
  rewrite Hiw, Hih, Hxw, Hxh, Ha, !MAX_spec. cbn [orb resizehints].
  change (0 =? 0) with true. cbv iota.
  assert (∀ v b, (if v <? b then b else v) = Z.max v b) as Hmax.
  { intros v b. destruct (Z.ltb_spec v b); lia. }
  rewrite !Hmax.
  set (w1 := Z.max (Z.max 1 w) bh). set (h1 := Z.max (Z.max 1 h) bh).
  assert (coord w1 ∧ coord h1) as [Hw1 Hh1] by (unfold w1, h1; int_range).
  destruct ((Client.basew c =? Client.minw c) && (Client.baseh c =? Client.minh c));
    destruct i; cbv beta iota zeta;
    rewrite ?(int_of_id (w1 - Client.basew c)), ?(int_of_id (h1 - Client.baseh c)),
      ?(int_of_id (w1 - Client.basew c + Client.basew c)),
      ?(int_of_id (h1 - Client.baseh c + Client.baseh c)) by int_range;
    do 2 f_equal; lia.
Qed.

Lemma loose_rect_idem sw sh bh m c x y w h (i : bool) :
  loose c ->
  Forall coord [x; y; w; h; sw; sh; bh;
                Monitor.wx m; Monitor.wy m; Monitor.ww m; Monitor.wh m;
                Client.w c; Client.h c; Client.bw c;
                Client.basew c; Client.baseh c; Client.minw c; Client.minh c] ->
  (if i then 0 <= sw ∧ 0 <= sh else 0 < Monitor.ww m ∧ 0 < Monitor.wh m) ->
  ∀ x1 y1 w1 h1,
    hinted_rect sw sh bh m c x y w h i = (x1, y1, w1, h1) ->
    hinted_rect sw sh bh m c x1 y1 w1 h1 i = (x1, y1, w1, h1).
Proof.
  intros Hl Hr Hi x1 y1 w1 h1.
  repeat (apply Forall_cons in Hr as [? Hr]).
  assert (- 2 ^ 18 <= WIDTH c <= 2 ^ 18 ∧ - 2 ^ 18 <= HEIGHT c <= 2 ^ 18) as [HW HH].
  { unfold WIDTH, HEIGHT. rewrite !int_of_id by int_range. int_range. }
  rewrite loose_rect by assumption. intros [= <- <- <- <-].
  rewrite loose_rect by (try assumption; int_range).
  f_equal; [f_equal; [f_equal|]|]; try lia.
  - apply place_idem; try assumption; try int_range. now destruct i.
  - apply place_idem; try assumption; try int_range. now destruct i.
Qed.

(** C3 (amended): for a client whose hints give no resize increments, no
    maximum size and no aspect limits (any base and minimum size), with the
    rectangle, the client, its monitor's window area and the screen within
    the X protocol's coordinate range, and a monitor window area (without
    [interact]) or screen (with it) that is not empty, [applysizehints]
    returns, leaves the state alone, and applied to the rectangle it gave
    gives that rectangle again. *)
Theorem applysizehints_idempotent (p : cptr) (c : Client) (m : Monitor) (s : State)
    (x y w h : Z) (interact : bool) :
  heap s !! p = Some c -> mons s !! Client.mon c = Some m -> loose c ->
  Forall coord [x; y; w; h; sw s; sh s; bh s;
                Monitor.wx m; Monitor.wy m; Monitor.ww m; Monitor.wh m;
                Client.w c; Client.h c; Client.bw c;
                Client.basew c; Client.baseh c; Client.minw c; Client.minh c] ->
  (if interact then 0 <= sw s ∧ 0 <= sh s else 0 < Monitor.ww m ∧ 0 < Monitor.wh m) ->
  ∃ b x1 y1 w1 h1,
    applysizehints p x y w h interact s = Some ((b, (x1, y1, w1, h1)), s)
    ∧ applysizehints p x1 y1 w1 h1 interact s = Some ((b, (x1, y1, w1, h1)), s).
Proof.
  intros Hc Hm Hl Hr Hi. unfold applysizehints. repeat mstep.
  rewrite (applysizehints_rect_tame _ _ _ _ _ _ _ _ _ _ (loose_tame _ Hl)).
  destruct (hinted_rect (sw s) (sh s) (bh s) m c x y w h interact)
    as [[[x1 y1] w1] h1] eqn:E.
  exists (rect_changed c (x1, y1, w1, h1)), x1, y1, w1, h1. split; [reflexivity|].
  repeat mstep.
  rewrite (applysizehints_rect_tame _ _ _ _ _ _ _ _ _ _ (loose_tame _ Hl)).
  now rewrite (loose_rect_idem _ _ _ _ _ _ _ _ _ _ Hl Hr Hi _ _ _ _ E).
Qed.

(** ** Master factor and master count: the ranges *)

(** A write to the selected monitor that keeps its lists, then [arrange]. *)
Lemma updmon_arrange_ok s m (g : Monitor -> Monitor) :
  wf s -> tamed s -> mons s !! selmon s = Some m ->
  Monitor.stack (g m) = Monitor.stack m -> Monitor.clients (g m) = Monitor.clients m ->
  Monitor.sel (g m) = Monitor.sel m ->
  ∃ s', bind (updmon (selmon s) g) (λ _, arrange (Some (selmon s))) s = Some (tt, s')
        ∧ mons s' = <[selmon s:=g m]> (mons s)
        ∧ wf s' ∧ tamed s' ∧ selmon s' = selmon s.
Proof.
  intros Hwf Htm Hm E1 E2 E3.
  rewrite (bind_run _ _ _ _ _ (updmon_Some _ _ _ _ Hm)).
  assert (wf (upd_mon (selmon s) (g m) s)) as Hwf1 by now apply wf_upd_mon with m.
  destruct (arrange_moves (upd_mon (selmon s) (g m) s) (selmon s)) as (s' & E & A).
  { exact Htm. }
  { apply wf_arrangeable; [exact Hwf1|].
    simpl. apply lookup_lt_is_Some. rewrite length_insert. now apply lookup_lt_Some in Hm. }
  exists s'. split; [exact E|]. split; [now rewrite <- (agree_mons _ _ _ A)|].
  split; [exact (agree_geom_wf _ _ Hwf1 A)|].
  split; [exact (agree_geom_tamed (upd_mon (selmon s) (g m) s) _ Htm A)|].
  now rewrite <- (agree_selmon _ _ _ A).
Qed.

(** [setmfact] stores exactly the values its range test lets through. *)
Lemma setmfact_guard af s m :
  wf s -> tamed s -> mons s !! selmon s = Some m ->
  ∃ s' m', setmfact (Some af) s = Some (tt, s')
           ∧ mons s' !! selmon s = Some m'
           ∧ (Monitor.mfact m' = Monitor.mfact m
              ∨ flt (F64.of_float (Monitor.mfact m')) (F64.lit 5 2) = false
                ∧ flt (F64.lit 95 2) (F64.of_float (Monitor.mfact m')) = false).
Proof.
  intros Hwf Htm Hm. unfold setmfact. repeat mstep.
  set (f := F32.of_double _).
  destruct (flt (F64.of_float f) (F64.lit 5 2)) eqn:E1; simpl.
  { exists s, m. auto. }
  destruct (flt (F64.lit 95 2) (F64.of_float f)) eqn:E2; simpl.
  { exists s, m. auto. }
  destruct (updmon_arrange_ok s m (Monitor.set_mfact f) Hwf Htm Hm) as (s' & E & Hs' & _);
    try done.
  exists s', (Monitor.set_mfact f m). split; [exact E|]. split.
  - rewrite Hs'. apply list_lookup_insert_eq. now apply lookup_lt_Some in Hm.
  - right. auto.
Qed.

(** [incnmaster] stores the [long] maximum of the sum and 0, converted to
    [int]. *)
Lemma incnmaster_stores i s m :
  wf s -> tamed s -> mons s !! selmon s = Some m ->
  ∃ s' m', incnmaster i s = Some (tt, s')
           ∧ mons s' !! selmon s' = Some m'
           ∧ Monitor.nmaster m' = int_of (MAX (long_of (Monitor.nmaster m + i)) 0)
           ∧ wf s' ∧ tamed s' ∧ selmon s' = selmon s.
Proof.
  intros Hwf Htm Hm. unfold incnmaster. repeat mstep.
  destruct (updmon_arrange_ok s m
              (λ m, Monitor.set_nmaster (int_of (MAX (long_of (Monitor.nmaster m + i)) 0)) m)
              Hwf Htm Hm) as (s' & E & Hs' & Hwf' & Htm' & Esel); try done.
  eexists s', _. split; [exact E|]. split.
  - rewrite Esel, Hs'. apply list_lookup_insert_eq. now apply lookup_lt_Some in Hm.
  - split; [reflexivity|]. auto.
Qed.

(** It clamps at 0 as long as the sum fits an [int]. *)
Lemma incnmaster_clamps i s m :
  wf s -> tamed s -> mons s !! selmon s = Some m ->
  INT_MIN <= Monitor.nmaster m + i <= INT_MAX ->
  ∃ s' m', incnmaster i s = Some (tt, s')
           ∧ mons s' !! selmon s' = Some m'
           ∧ Monitor.nmaster m' = Z.max (Monitor.nmaster m + i) 0
           ∧ wf s' ∧ tamed s' ∧ selmon s' = selmon s.
Proof.
  intros Hwf Htm Hm Hr.
  destruct (incnmaster_stores i s m Hwf Htm Hm) as (s' & m' & E & Hm' & Hn & H).
  exists s', m'. split; [exact E|]. split; [exact Hm'|]. split; [|exact H].
  rewrite Hn, MAX_spec.
  assert (long_of (Monitor.nmaster m + i) = Monitor.nmaster m + i) as ->.
  { unfold long_of, INT_MIN, INT_MAX in *. rewrite Z.mod_small by lia. lia. }
  apply int_of_id. unfold INT_MIN, INT_MAX in *. lia.
Qed.

(** [n] calls of [k] in a row. *)
Definition times (n : N) (k : M unit) : M unit := N.iter n (λ r, k;; r) (ret tt).
Arguments times : simpl never.

Lemma times_succ n k : times (N.succ n) k = (k;; times n k).
Proof. unfold times. now rewrite N.iter_succ. Qed.

(** The key [MODKEY+u] pressed [n] times raises the master count by [n],
    up to [INT_MAX]. *)
Lemma incnmaster_counts n : ∀ s m,
  wf s -> tamed s -> mons s !! selmon s = Some m ->
  0 <= Monitor.nmaster m -> Monitor.nmaster m + Z.of_N n <= INT_MAX ->
  ∃ s' m', times n (incnmaster 1) s = Some (tt, s')
           ∧ wf s' ∧ tamed s' ∧ mons s' !! selmon s' = Some m'
           ∧ Monitor.nmaster m' = Monitor.nmaster m + Z.of_N n.
Proof.
  induction n as [|n IH] using N.peano_ind; intros s m Hwf Htm Hm H0 Hn.
  - exists s, m. rewrite Z.add_0_r. auto.
  - rewrite N2Z.inj_succ in Hn. rewrite times_succ.
    destruct (incnmaster_clamps 1 s m Hwf Htm Hm)
      as (s1 & m1 & E1 & Hm1 & Hn1 & Hwf1 & Htm1 & _);
      [unfold INT_MIN, INT_MAX in *; lia|].
    rewrite Z.max_l in Hn1 by lia.
    destruct (IH s1 m1 Hwf1 Htm1 Hm1) as (s' & m' & E & Hwf' & Htm' & Hm' & Hn'); [lia..|].
    exists s', m'. rewrite (bind_run _ _ _ _ _ E1). split; [exact E|].
    split; [exact Hwf'|]. split; [exact Htm'|]. split; [exact Hm'|].
    rewrite Hn', Hn1, N2Z.inj_succ. lia.
Qed.

(** C8: the master count does not stay at or above 0.  [incnmaster]
    computes [MAX(selmon->nmaster + arg->i, 0)] in [long] and stores it in
    the [int] field, so the clamp at 0 misses the sum that no longer fits:
    from the state [setup] leaves (master count 1), 2147483646 presses of
    [MODKEY+u] ([incnmaster] with [+1]) bring the master count to
    [INT_MAX], and the next press stores [INT_MIN]. *)
Theorem incnmaster_overflows :
  ∃ s m s' m',
    times 2147483646 (incnmaster 1) (setup_state 1920 1080) = Some (tt, s)
    ∧ mons s !! selmon s = Some m ∧ Monitor.nmaster m = INT_MAX
    ∧ incnmaster 1 s = Some (tt, s')
    ∧ mons s' !! selmon s' = Some m' ∧ Monitor.nmaster m' = INT_MIN.
Proof.
  assert (wf (setup_state 1920 1080)) as Hwf.
  { split; [simpl; eauto|]. intros [|mi] m Hm; [|discriminate]. injection Hm as <-.
    repeat split; try constructor. intros p [=]. }
  assert (tamed (setup_state 1920 1080)) as Htm.
  { intros p c Hc. simpl in Hc. now rewrite lookup_empty in Hc. }
  destruct (incnmaster_counts 2147483646 (setup_state 1920 1080) (screen_monitor 0 1920 1080)
              Hwf Htm eq_refl)
    as (s & m & E & Hwf' & Htm' & Hm & Hn); [done|done|].
  destruct (incnmaster_stores 1 s m Hwf' Htm' Hm) as (s' & m' & E' & Hm' & Hn' & _).
  exists s, m, s', m'. split; [exact E|]. split; [exact Hm|].
  split; [exact Hn|]. split; [exact E'|]. split; [exact Hm'|].
  rewrite Hn', Hn. reflexivity.
Qed.

(** * Runs *)

(** ** The invariant, decided *)

Definition owned_b (s : State) (mi : nat) (p : cptr) : bool :=
  match heap s !! p with
  | Some c => bool_decide (Client.mon c = mi)
  | None => false
  end.

Definition wf_mon_b (s : State) (mi : nat) (m : Monitor) : bool :=
  forallb (owned_b s mi) (Monitor.stack m)
  && forallb (owned_b s mi) (Monitor.clients m)
  && match Monitor.sel m with
     | Some p => bool_decide (is_Some (heap s !! p))
     | None => true
     end.

Fixpoint wf_mons_b (s : State) (mi : nat) (ms : list Monitor) : bool :=
  match ms with
  | [] => true
  | m :: ms' => wf_mon_b s mi m && wf_mons_b s (S mi) ms'
  end.

Definition wf_b (s : State) : bool :=
  bool_decide (is_Some (mons s !! selmon s)) && wf_mons_b s 0 (mons s).

Lemma owned_b_sound s mi l : forallb (owned_b s mi) l = true -> Forall (owned s mi) l.
Proof.
  intros H. apply Forall_forall. intros p Hp.
  apply list_elem_of_In in Hp. rewrite forallb_forall in H. specialize (H p Hp).
  unfold owned_b in H. destruct (heap s !! p) as [c|] eqn:Hc; [|discriminate].
  exists c. split; [exact Hc|]. now apply bool_decide_eq_true in H.
Qed.

Lemma wf_mons_b_sound s ms : ∀ k,
  wf_mons_b s k ms = true ->
  ∀ i m, ms !! i = Some m -> wf_mon_b s (k + i) m = true.
Proof.
  induction ms as [|m0 ms IH]; intros k H i m Hm; [discriminate|].
  simpl in H. apply andb_true_iff in H as [H0 H1]. destruct i as [|i]; simpl in Hm.
  - injection Hm as <-. now rewrite Nat.add_0_r.
  - rewrite <- Nat.add_succ_comm. now apply IH.
Qed.

Lemma wf_b_sound s : wf_b s = true -> wf s.
Proof.
  unfold wf_b. intros H. apply andb_true_iff in H as [H0 H1].
  split; [now apply bool_decide_eq_true in H0|].
  intros mi m Hm. pose proof (wf_mons_b_sound s _ 0 H1 mi m Hm) as H. simpl in H.
  unfold wf_mon_b in H. apply andb_true_iff in H as [H H3].
  apply andb_true_iff in H as [H2 H4].
  split; [now apply owned_b_sound|]. split; [now apply owned_b_sound|].
  intros p Hp. rewrite Hp in H3. now apply bool_decide_eq_true in H3.
Qed.

Definition tame_b (c : Client) : bool :=
  negb (Client.incw c =? -1) && negb (Client.inch c =? -1).

Definition tamed_b (s : State) : bool :=
  forallb (λ pc, tame_b pc.2) (map_to_list (heap s)).

Lemma tamed_b_sound s : tamed_b s = true -> tamed s.
Proof.
  intros H p c Hc. unfold tamed_b in H. rewrite forallb_forall in H.
  specialize (H (p, c)). simpl in H.
  assert (tame_b c = true) as Hb.
  { apply H. apply list_elem_of_In. now apply elem_of_map_to_list. }
  unfold tame_b in Hb. apply andb_true_iff in Hb as [H1 H2].
  apply negb_true_iff in H1, H2. apply Z.eqb_neq in H1, H2. now split.
Qed.

Definition coord_b (v : Z) : bool := (- 2 ^ 16 <=? v) && (v <=? 2 ^ 16).

Lemma coord_b_sound l : forallb coord_b l = true -> Forall coord l.
Proof.
  intros H. apply Forall_forall. intros v Hv. apply list_elem_of_In in Hv.
  rewrite forallb_forall in H. specialize (H v Hv). unfold coord_b in H.
  apply andb_true_iff in H as [H1 H2]. unfold coord. lia.
Qed.

(** ** A display and its windows *)

(** WM_NORMAL_HINTS with the fields [flags] selects: a maximum size of
    1000x1000, resize increments of 7, aspect limits 1/4 and 1/2. *)
Definition hints (flags : Z) : XSizeHints :=
  {| sh_flags := flags; min_width := 0; min_height := 0;
     max_width := 1000; max_height := 1000; width_inc := 7; height_inc := 7;
     min_aspect := (4, 1); max_aspect := (1, 2);
     base_width := 0; base_height := 0 |}.

(** WM_NORMAL_HINTS with a base size of 4x6 and a minimum size of 300x250. *)
Definition sized : XSizeHints :=
  {| sh_flags := PBaseSize + PMinSize; min_width := 300; min_height := 250;
     max_width := 0; max_height := 0; width_inc := 0; height_inc := 0;
     min_aspect := (0, 0); max_aspect := (0, 0);
     base_width := 4; base_height := 6 |}.

(** A server whose windows carry no properties, except that windows 201
    and 401 are dialogs and that windows 301 to 305 and 401 have size
    hints: increments and a maximum size (301, 401), a maximum size (302),
    increments (303), aspect limits (304), a base and a minimum size
    (305). *)
Definition display : XServer :=
  {| XGetTransientForHint := λ _, None;
     XGetClassHint := λ _, None;
     XGetWMNormalHints := λ w,
       if (w =? 301) || (w =? 401) then Some (hints (PResizeInc + PMaxSize))
       else if w =? 302 then Some (hints PMaxSize)
       else if w =? 303 then Some (hints PResizeInc)
       else if w =? 304 then Some (hints PAspect)
       else if w =? 305 then Some sized
       else None;
     XGetWMHints := λ _, None;
     XGetWMProtocols := λ _, None;
     window_title := λ _, EmptyString;
     net_wm_state := λ _, AtomNone;
     net_wm_window_type := λ w,
       if (w =? 201) || (w =? 401) then NetWMWindowTypeDialog else AtomNone |}.

(** The attributes every window is mapped with. *)
Definition attrs : XWindowAttributes :=
  {| wa_x := 0; wa_y := 0; wa_width := 640; wa_height := 480; wa_border_width := 1 |}.
(** The attributes of a window larger than its maximum size. *)
Definition wide : XWindowAttributes :=
  {| wa_x := 0; wa_y := 0; wa_width := 1500; wa_height := 900; wa_border_width := 1 |}.

(** The state a run ends in (the start state when it leaves the model; the
    runs below do not, as the facts proved of their end states show). *)
Definition run {A} (m : M A) (s : State) : State := default s (exec m s).

Definition the (s : State) (p : cptr) : Client := default zero_client (heap s !! p).
Definition the_mon (s : State) (i : nat) : Monitor := default (createmon 0) (mons s !! i).

(** A 1920x1080 screen after [setup]; then with window 101 mapped; with
    101 and 102; with 101, 102, 103 and the focus moved to the next client
    (the second mapped); with the dialog; with one of the windows with
    hints; with the wide dialog with hints; with window 101 made
    fullscreen; with tag 3 viewed and the keys released. *)
Definition s_empty : State := setup_state 1920 1080.
Definition s_one : State := run (manage display 101 attrs) s_empty.
Definition s_two : State := run (manage display 102 attrs) s_one.
Definition s_three : State := run (manage display 103 attrs;; focusstack display 1) s_two.
Definition s_dialog : State := run (manage display 201 attrs) s_empty.
Definition s_hinted (w : Window) : State := run (manage display w attrs) s_empty.
Definition s_float : State := run (manage display 401 wide) s_empty.
Definition s_full : State := run (setfullscreen 1%positive true) s_one.
Definition s_viewed : State := run (comboview display 4;; keyrelease) s_empty.

Ltac by_run := vm_compute; first [reflexivity | intro; discriminate].
Ltac by_runs :=
  unfold scenario_monitor, unhinted, loose;
  repeat match goal with |- _ ∧ _ => split end; by_run.

Lemma wf_s_one : wf s_one.
Proof. apply wf_b_sound. by_run. Qed.
Lemma wf_s_two : wf s_two.
Proof. apply wf_b_sound. by_run. Qed.
Lemma wf_s_three : wf s_three.
Proof. apply wf_b_sound. by_run. Qed.

Lemma tamed_s_empty : tamed s_empty.
Proof. apply tamed_b_sound. by_run. Qed.
Lemma tamed_s_one : tamed s_one.
Proof. apply tamed_b_sound. by_run. Qed.
Lemma tamed_s_two : tamed s_two.
Proof. apply tamed_b_sound. by_run. Qed.
Lemma tamed_s_three : tamed s_three.
Proof. apply tamed_b_sound. by_run. Qed.

(** ** Witnesses *)

Lemma tile_scenarios_witness :
  (∃ s' c', tile 0 s_one = Some (tt, s') ∧ heap s' !! 1%positive = Some c'
            ∧ rect_of c' = (10, 10, 1900, 1060))
  ∧ (∃ s' c1 c2, tile 0 s_two = Some (tt, s')
                 ∧ heap s' !! 2%positive = Some c1 ∧ rect_of c1 = (10, 10, 1046, 1060)
                 ∧ heap s' !! 1%positive = Some c2 ∧ rect_of c2 = (1066, 10, 844, 1060)).
Proof.
  split.
  - destruct (tile_scenarios s_one 0 (the_mon s_one 0)) as [H _];
      [by_run | by_runs | by_run |].
    apply (H [] 1%positive []); [by_run | constructor | constructor |].
    exists (the s_one 1%positive). by_runs.
  - destruct (tile_scenarios s_two 0 (the_mon s_two 0)) as [_ H];
      [by_run | by_runs | by_run |].
    apply (H [] 2%positive [] 1%positive []);
      [by_run | discriminate | constructor | constructor | constructor | |].
    + exists (the s_two 2%positive). by_runs.
    + exists (the s_two 1%positive). by_runs.
Defined.

Lemma setfullscreen_idempotent_witness :
  setfullscreen 1%positive false s_one = Some (tt, s_one)
  ∧ setfullscreen 1%positive true s_full = Some (tt, s_full)
  ∧ bind (setfullscreen 1%positive true) (λ _, setfullscreen 1%positive true) s_one
    = setfullscreen 1%positive true s_one.
Proof.
  destruct (setfullscreen_idempotent 1%positive false s_one) as [Hoff _].
  destruct (setfullscreen_idempotent 1%positive true s_full) as [Hon _].
  destruct (setfullscreen_idempotent 1%positive true s_one) as [_ Htwice].
  split; [|split].
  - apply (Hoff (the s_one 1%positive)); by_run.
  - apply (Hon (the s_full 1%positive)); by_run.
  - exact Htwice.
Defined.

Lemma setfullscreen_round_trip_witness :
  ∃ s1 c1 s' c',
    arrange (Some (Client.mon (the s_one 1%positive))) s_one = Some (tt, s1)
    ∧ heap s1 !! 1%positive = Some c1
    ∧ bind (setfullscreen 1%positive true) (λ _, setfullscreen 1%positive false) s_one
      = Some (tt, s')
    ∧ heap s' !! 1%positive = Some c'
    ∧ agree erase_old s1 s'
    ∧ Client.isfloating c' = Client.isfloating (the s_one 1%positive)
    ∧ Client.bw c' = Client.bw (the s_one 1%positive)
    ∧ rect_of c' = rect_of c1
    ∧ (rect_of c1 = rect_of (the s_one 1%positive) ->
       rect_of c' = rect_of (the s_one 1%positive)).
Proof.
  apply (setfullscreen_round_trip 1%positive (the s_one 1%positive) s_one).
  - exact wf_s_one.
  - exact tamed_s_one.
  - by_run.
  - exists (the_mon s_one 0). by_run.
  - by_run.
Defined.

Lemma applysizehints_idempotent_witness :
  Client.basew (the (s_hinted 305) 1%positive) = 4
  ∧ Client.minw (the (s_hinted 305) 1%positive) = 300
  ∧ applysizehints 1%positive 5 6 100 200 false (s_hinted 305)
    = Some ((true, (5, 6, 300, 250)), s_hinted 305)
  ∧ applysizehints 1%positive 5 6 300 250 false (s_hinted 305)
    = Some ((true, (5, 6, 300, 250)), s_hinted 305).
Proof.
  destruct (applysizehints_idempotent 1%positive (the (s_hinted 305) 1%positive)
              (the_mon (s_hinted 305) 0) (s_hinted 305) 5 6 100 200 false)
    as (b & x1 & y1 & w1 & h1 & E1 & E2); [by_run|by_run|by_runs| |split; by_run|].
  { apply coord_b_sound. by_run. }
  split; [by_run|]. split; [by_run|].
  assert (b = true ∧ (x1, y1, w1, h1) = (5, 6, 300, 250)) as [-> [= -> -> -> ->]].
  { pose proof E1 as E0. vm_compute in E0. injection E0 as -> -> -> -> ->. now split. }
  split; [exact E1|exact E2].
Defined.



Lemma zoom_promotes_witness :
  ∃ s' m', zoom display s_three = Some (tt, s')
           ∧ mons s' !! selmon s_three = Some m'
           ∧ Monitor.clients m' = [2; 3; 1]%positive.
Proof.
  apply (zoom_promotes display s_three (the_mon s_three 0) 2%positive 3%positive
           (the s_three 2%positive) [3%positive] [1%positive]).
  - exact wf_s_three.
  - exact tamed_s_three.
  - by_run.
  - by_run.
  - by_run.
  - by_run.
  - by_run.
  - intros H. apply list_elem_of_singleton in H. discriminate.
  - change (2%positive ∈ [2; 3; 1]%positive). apply list_elem_of_here.
  - apply list_elem_of_here.
  - exists (the s_three 3%positive), (the_mon s_three 0). by_runs.
Defined.


(** A request for position and width, and one that also asks for a border
    of 3. *)
Definition ev_move : XConfigureRequestEvent :=
  {| ev_window := 101; ev_value_mask := CWX + CWWidth; ev_x := 5; ev_y := 6;
     ev_width := 100; ev_height := 200; ev_border_width := 3; ev_above := 0;
     ev_detail := 0 |}.
Definition ev_border : XConfigureRequestEvent :=
  {| ev_window := 101; ev_value_mask := CWX + CWWidth + CWBorderWidth; ev_x := 5; ev_y := 6;
     ev_width := 100; ev_height := 200; ev_border_width := 3; ev_above := 0;
     ev_detail := 0 |}.

Lemma configurerequest_tiled_witness :
  (∃ s', configurerequest ev_move s_one = Some (tt, s')
         ∧ heap s' = heap s_one
         ∧ xlog s' = xlog s_one ++ [XSendEvent_ConfigureNotify 101 10 10 1900 1060 0; XSync])
  ∧ (∃ s' c', configurerequest ev_border s_one = Some (tt, s')
              ∧ heap s' !! 1%positive = Some c'
              ∧ Client.bw c' = 3
              ∧ (Client.x c', Client.y c', Client.w c', Client.h c') = (10, 10, 1900, 1060)
              ∧ xlog s' = xlog s_one ++ [XSync]).
Proof.
  split.
  - destruct (configurerequest_tiled ev_move s_one 1%positive (the s_one 1%positive))
      as [H _]; [by_run | by_run | by_run |].
    destruct H as (s' & E & Hh & _ & _ & Hl & _); [by_run|].
    exists s'. split; [exact E|]. split; [exact Hh|].
    etransitivity; [exact Hl|by_run].
  - destruct (configurerequest_tiled ev_border s_one 1%positive (the s_one 1%positive))
      as [_ H]; [by_run | by_run | by_run |].
    destruct H as (s' & c' & E & Hc' & Hbw & Hx & Hy & Hw & Hh & _ & _ & _ & _ & Hl & _);
      [by_run|].
    exists s', c'. split; [exact E|]. split; [exact Hc'|]. split; [exact Hbw|].
    split; [|exact Hl].
    rewrite Hx, Hy, Hw, Hh. by_run.
Defined.

Lemma zoom_noop_witness :
  zoom display s_dialog = Some (tt, s_dialog)
  ∧ zoom display s_empty = Some (tt, s_empty)
  ∧ zoom display s_one = Some (tt, s_one).
Proof.
  split; [|split].
  - apply (zoom_noop display s_dialog (the_mon s_dialog 0)); [by_run|].
    left. exists 1%positive, (the s_dialog 1%positive). by_runs.
  - apply (zoom_noop display s_empty (the_mon s_empty 0)); [by_run|].
    right. left. split; [by_run|]. change (Forall (skipped s_empty) []). constructor.
  - apply (zoom_noop display s_one (the_mon s_one 0)); [by_run|].
    right. right. exists 1%positive. split; [by_run|].
    change (Monitor.clients (the_mon s_one 0)) with [1%positive].
    split; [apply NoDup_singleton|]. split; [apply list_elem_of_here|]. split.
    + exists (the s_one 1%positive), (the_mon s_one 0). by_runs.
    + intros q Hq Hne. apply list_elem_of_singleton in Hq. contradiction.
Defined.

(** ** Counterexamples *)

(** C2: the round trip from a client that is fullscreen already: the first
    call is skipped, the second leaves fullscreen, and the client ends
    tiled at (10,10) 1900x1060 where it was floating at (0,0) 1920x1080.
    And the round trip from a floating client that is not fullscreen, the
    dialog mapped 1500 wide with increments of 7 and a maximum width of
    1000: [manage] left it 1000 wide, the [arrange] that ends the round
    trip applies the hints again and leaves it 994 wide. *)
Lemma setfullscreen_round_trip_moves :
  (∃ c s' c',
     heap s_full !! 1%positive = Some c
     ∧ Client.isfullscreen c = true ∧ Client.isfloating c = true
     ∧ rect_of c = (0, 0, 1920, 1080)
     ∧ bind (setfullscreen 1%positive true) (λ _, setfullscreen 1%positive false) s_full
       = Some (tt, s')
     ∧ heap s' !! 1%positive = Some c'
     ∧ Client.isfloating c' = false
     ∧ rect_of c' = (10, 10, 1900, 1060))
  ∧ (∃ c s' c',
       heap s_float !! 1%positive = Some c
       ∧ Client.isfullscreen c = false
       ∧ rect_of c = (0, 0, 1000, 896)
       ∧ bind (setfullscreen 1%positive true) (λ _, setfullscreen 1%positive false) s_float
         = Some (tt, s')
       ∧ heap s' !! 1%positive = Some c'
       ∧ rect_of c' = (0, 0, 994, 896)).
Proof.
  split.
  - exists (the s_full 1%positive),
      (run (bind (setfullscreen 1%positive true) (λ _, setfullscreen 1%positive false)) s_full),
      (the (run (bind (setfullscreen 1%positive true) (λ _, setfullscreen 1%positive false))
              s_full) 1%positive).
    by_runs.
  - exists (the s_float 1%positive),
      (run (bind (setfullscreen 1%positive true) (λ _, setfullscreen 1%positive false)) s_float),
      (the (run (bind (setfullscreen 1%positive true) (λ _, setfullscreen 1%positive false))
              s_float) 1%positive).
    by_runs.
Qed.

(** C3: a client with resize increments of 7 and a maximum size of
    1000x1000: from width 1500 the first application gives 1000 (1498,
    cut to the maximum), the second 994 (the multiple of 7 below 1000).
    Each kind of hint alone breaks the repetition too. With a maximum
    size only, or increments only, the first application shrinks the
    width and the second then finds the rectangle left of the monitor and
    moves it to x = 0; with aspect limits only, the first application
    adjusts the width and the second the height. *)
Lemma applysizehints_twice_differs :
  (∃ c, heap (s_hinted 301) !! 1%positive = Some c
        ∧ Client.incw c = 7 ∧ Client.maxw c = 1000
        ∧ applysizehints 1%positive 0 0 1500 500 false (s_hinted 301)
          = Some ((true, (0, 0, 1000, 497)), s_hinted 301)
        ∧ applysizehints 1%positive 0 0 1000 497 false (s_hinted 301)
          = Some ((true, (0, 0, 994, 497)), s_hinted 301))
  ∧ (∃ c, heap (s_hinted 302) !! 1%positive = Some c
          ∧ Client.incw c = 0 ∧ Client.maxw c = 1000
          ∧ applysizehints 1%positive (-1200) 0 1500 500 false (s_hinted 302)
            = Some ((true, (-1200, 0, 1000, 500)), s_hinted 302)
          ∧ applysizehints 1%positive (-1200) 0 1000 500 false (s_hinted 302)
            = Some ((true, (0, 0, 1000, 500)), s_hinted 302))
  ∧ (∃ c, heap (s_hinted 303) !! 1%positive = Some c
          ∧ Client.incw c = 7 ∧ Client.maxw c = 0
          ∧ applysizehints 1%positive (-100) 0 104 70 false (s_hinted 303)
            = Some ((true, (-100, 0, 98, 70)), s_hinted 303)
          ∧ applysizehints 1%positive (-100) 0 98 70 false (s_hinted 303)
            = Some ((true, (0, 0, 98, 70)), s_hinted 303))
  ∧ (∃ c, heap (s_hinted 304) !! 1%positive = Some c
          ∧ Client.incw c = 0 ∧ Client.maxw c = 0
          ∧ applysizehints 1%positive 0 0 150 100 false (s_hinted 304)
            = Some ((true, (0, 0, 50, 100)), s_hinted 304)
          ∧ applysizehints 1%positive 0 0 50 100 false (s_hinted 304)
            = Some ((true, (0, 0, 50, 13)), s_hinted 304)).
Proof.
  split; [|split; [|split]].
  - exists (the (s_hinted 301) 1%positive). by_runs.
  - exists (the (s_hinted 302) 1%positive). by_runs.
  - exists (the (s_hinted 303) 1%positive). by_runs.
  - exists (the (s_hinted 304) 1%positive). by_runs.
Qed.

(** [comboview] with an empty mask, which no key passes, while [combo] is
    clear, after tag 3 was viewed from tag 1: [seltags] is toggled and the
    tag set selected is the earlier view, tag 1; the guard [if (newtags)]
    keeps the empty mask out of the tag set. *)
Lemma comboview_empty_mask :
  ∃ m s' m',
    combo s_viewed = false
    ∧ mons s_viewed !! selmon s_viewed = Some m ∧ Monitor.seltagset m = 4
    ∧ comboview display 0 s_viewed = Some (tt, s')
    ∧ mons s' !! selmon s_viewed = Some m'
    ∧ Monitor.seltags m' = negb (Monitor.seltags m)
    ∧ Z.land 0 TAGMASK = 0
    ∧ Monitor.seltagset m' = 1.
Proof.
  exists (the_mon s_viewed 0), (run (comboview display 0) s_viewed),
    (the_mon (run (comboview display 0) s_viewed) 0).
  by_runs.
Qed.

(** C5: windows 101, 102, 103 mapped in this order (clients 1, 2, 3),
    [zoom] with the second selected: the client list is second, third,
    first, and the stack column holds the third-mapped window on top, at
    y = 10, and the first-mapped one below it, at y = 545. *)
Lemma zoom_stack_order :
  ∃ s' m' c3 c1,
    zoom display s_three = Some (tt, s')
    ∧ mons s' !! selmon s_three = Some m'
    ∧ Monitor.clients m' = [2; 3; 1]%positive
    ∧ heap s' !! 3%positive = Some c3 ∧ Client.win c3 = 103
    ∧ rect_of c3 = (1066, 10, 844, 525)
    ∧ heap s' !! 1%positive = Some c1 ∧ Client.win c1 = 101
    ∧ rect_of c1 = (1066, 545, 844, 525).
Proof.
  exists (run (zoom display) s_three), (the_mon (run (zoom display) s_three) 0),
    (the (run (zoom display) s_three) 3%positive),
    (the (run (zoom display) s_three) 1%positive).
  by_runs.
Qed.

(** * Further handlers *)

(** ** Floating, monitors, messages *)

(** [togglefloating] *)
Definition togglefloating : M unit :=
  mi ← gets selmon;
  m ← getmon mi;
  match Monitor.sel m with
  | None => ret tt
  | Some p =>
      c ← deref p;
      if Client.isfullscreen c then ret tt      (* no support for fullscreen windows *)
      else
        update p (λ c, Client.set_isfloating
                         (negb (Client.isfloating c) || Client.isfixed c) c);;
        c ← deref p;
        when (Client.isfloating c)
          (resize p (Client.x c) (Client.y c) (Client.w c) (Client.h c) false);;
        arrange (Some mi)
  end.

(** [m->next] for the monitor at index [i]: the next index, or NULL. *)
Definition next_mon (ms : list Monitor) (i : nat) : option nat :=
  if decide (S i < length ms)%nat then Some (S i) else None.

(** [for (; !stop(m->next); m = m->next);] from the monitor at index [i]:
    the monitor the loop ends at.  Stepping to a NULL [m->next] that does
    not stop the loop leaves the model, as does a monitor that is not in
    the list; the list is finite, so its length bounds the steps. *)
Fixpoint mon_walk (ms : list Monitor) (stop : option nat -> bool) (i : nat) (fuel : nat)
    : M nat :=
  if decide (i < length ms)%nat then
    if stop (next_mon ms i) then ret i
    else match fuel, next_mon ms i with
         | S fuel', Some j => mon_walk ms stop j fuel'
         | _, _ => fail
         end
  else fail.

(** [dirtomon] *)
Definition dirtomon (dir : Z) : M nat :=
  ms ← gets mons;
  sel ← gets selmon;
  if dir >? 0 then
    _ ← getmon sel;                                          (* selmon->next *)
    ret (default 0%nat (next_mon ms sel))
  else if decide (sel = 0%nat) then
    mon_walk ms (λ nx, bool_decide (nx = None)) 0 (length ms)
  else
    mon_walk ms (λ nx, bool_decide (nx = Some sel)) 0 (length ms).

Section MoreHandlers.
Variable X : XServer.

(** [focusmon]; [arg->i] is passed to an [int]. *)
Definition focusmon (i : Z) : M unit :=
  ms ← gets mons;
  match ms with
  | [] => fail                                               (* mons->next *)
  | [_] => ret tt
  | _ =>
      m ← dirtomon (int_of i);
      sel ← gets selmon;
      if decide (m = sel) then ret tt
      else
        mo ← getmon sel;
        unfocus (Monitor.sel mo) false;;
        modify (set_selmon m);;
        focus X None
  end.

(** [sendmon] *)
Definition sendmon (p : cptr) (m : nat) : M unit :=
  c ← deref p;
  if decide (Client.mon c = m) then ret tt
  else
    unfocus (Some p) true;;
    detach p;;
    detachstack p;;
    mo ← getmon m;
    (* assign tags of target monitor *)
    update p (λ c, Client.set_tags (Monitor.seltagset mo) (Client.set_mon m c));;
    attach p;;
    attachstack p;;
    focus X None;;
    arrange None.

(** [tagmon] *)
Definition tagmon (i : Z) : M unit :=
  mi ← gets selmon;
  mo ← getmon mi;
  match Monitor.sel mo with
  | None => ret tt
  | Some p =>
      ms ← gets mons;
      match ms with
      | [] => fail
      | [_] => ret tt
      | _ => m ← dirtomon (int_of i); sendmon p m
      end
  end.

(** The message types [clientmessage] tells apart. *)
Inductive MessageType := NetWMState | NetActiveWindow | OtherMessage.

(** XClientMessageEvent: [data.l[0]] as a number, [data.l[1]] and
    [data.l[2]] as the atoms they are compared with. *)
Record XClientMessageEvent := {
  cm_window : Window;
  cm_message_type : MessageType;
  cm_l0 : Z; cm_l1 : Atom; cm_l2 : Atom
}.

(** [clientmessage] *)
Definition clientmessage (cme : XClientMessageEvent) : M unit :=
  c ← wintoclient (cm_window cme);
  match c with
  | None => ret tt
  | Some p =>
      match cm_message_type cme with
      | NetWMState =>
          when (bool_decide (cm_l1 cme = NetWMFullscreen)
                || bool_decide (cm_l2 cme = NetWMFullscreen))
            (cl ← deref p;
             setfullscreen p ((cm_l0 cme =? 1)               (* _NET_WM_STATE_ADD *)
                              || (cm_l0 cme =? 2)            (* _NET_WM_STATE_TOGGLE *)
                                 && negb (Client.isfullscreen cl)))
      | NetActiveWindow =>
          mi ← gets selmon;
          mo ← getmon mi;
          cl ← deref p;
          when (negb (bool_decide (Monitor.sel mo = Some p)) && negb (Client.isurgent cl))
            (seturgent X p true)
      | OtherMessage => ret tt
      end
  end.

End MoreHandlers.

(** ** Monitors and rectangles *)

(** [INTERSECT(x, y, w, h, m)]: the area, in [int], of the part of the
    rectangle that lies on the monitor. *)
Definition INTERSECT (x y w h : Z) (m : Monitor) : Z :=
  int_of
    (MAX 0 (int_of (MIN (int_of (x + w)) (int_of (Monitor.mx m + Monitor.mw m))
                    - MAX x (Monitor.mx m)))
     * MAX 0 (int_of (MIN (int_of (y + h)) (int_of (Monitor.my m + Monitor.mh m))
                      - MAX y (Monitor.my m)))).

(** The loop of [recttomon] over the monitors from index [i] on, with the
    best monitor [r] and its area so far. *)
Fixpoint recttomon_loop (x y w h : Z) (ms : list Monitor) (i r : nat) (area : Z) : nat :=
  match ms with
  | [] => r
  | m :: ms' =>
      let a := INTERSECT x y w h m in
      if a >? area then recttomon_loop x y w h ms' (S i) i a
      else recttomon_loop x y w h ms' (S i) r area
  end.

(** [recttomon] *)
Definition recttomon (x y w h : Z) : M nat :=
  ms ← gets mons;
  r ← gets selmon;
  ret (recttomon_loop x y w h ms 0 r 0).

(** * Further properties *)

(** ** The layout engine: what it leaves alone *)

Lemma moves_for_mons s0 (g : nat -> M unit) :
  ∀ n i, (∀ j, (i <= j < i + n)%nat -> moves s0 (g j)) -> moves s0 (for_mons g i n).
Proof.
  induction n as [|n IH]; intros i Hg; simpl.
  - apply safe_ret. exact I.
  - eapply safe_seq; [apply Hg; lia|]. apply IH. intros j Hj. apply Hg. lia.
Qed.

(** Every pointer the layout of any monitor follows can be followed. *)
Definition all_arrangeable (s : State) : Prop :=
  ∀ mi, (mi < length (mons s))%nat -> arrangeable s mi.

Lemma wf_all_arrangeable s : wf s -> all_arrangeable s.
Proof. intros Hwf mi Hmi. apply wf_arrangeable; [exact Hwf|]. now apply lookup_lt_is_Some. Qed.

Lemma moves_arrange_all s0 : tamed s0 -> all_arrangeable s0 -> moves s0 (arrange None).
Proof.
  intros Htm Ha. unfold arrange.
  eapply safe_bind; [apply safe_gets; intros s Hs; exact (eq_sym (agree_mons _ _ _ Hs))|].
  intros ms ->.
  eapply safe_seq.
  - apply moves_for_mons. intros j Hj.
    destruct (Ha j ltac:(lia)) as (m & Hm & Hst & _).
    eapply safe_bind; [exact (safe_getmon _ _ _ _ Hm)|]. intros ? ->.
    now apply moves_showhide.
  - apply moves_for_mons. intros j Hj. apply moves_tile; [exact Htm|]. apply Ha. lia.
Qed.

Lemma arrange_all_moves s :
  tamed s -> all_arrangeable s ->
  ∃ s', arrange None s = Some (tt, s') ∧ agree strip_geom s s'.
Proof.
  intros Htm Ha.
  destruct (moves_arrange_all s Htm Ha s (agree_refl _ _)) as ([] & s' & E & A & _).
  eauto.
Qed.

(** A client's geometry: what [strip_geom] forgets. *)
Lemma strip_geom_eq c c' :
  strip_geom c' = strip_geom c ->
  c' = Client.set_oldh (Client.oldh c') (Client.set_oldw (Client.oldw c')
       (Client.set_oldy (Client.oldy c') (Client.set_oldx (Client.oldx c')
       (Client.set_h (Client.h c') (Client.set_w (Client.w c')
       (Client.set_y (Client.y c') (Client.set_x (Client.x c') c))))))).
Proof. destruct c, c'. intros [=]. subst. reflexivity. Qed.

(** X1: on a well-formed state (every client on a list is in the store
    and points back to its monitor) none of whose clients has a resize
    increment of -1 (where the [%] of [applysizehints] can trap),
    [arrange(m)] and [arrange(NULL)]
    return, and change nothing but the log of requests and, in clients,
    the geometry [x], [y], [w], [h] and its saved copy: the monitors with
    their lists and selections, the selected monitor, [combo], the
    globals and the set of clients are as before, and every client keeps
    every other field. *)
Theorem arrange_only_moves (s : State) (m : option nat) :
  wf s -> tamed s -> (∀ mi, m = Some mi -> is_Some (mons s !! mi)) ->
  ∃ s', arrange m s = Some (tt, s')
        ∧ mons s' = mons s ∧ selmon s' = selmon s ∧ combo s' = combo s
        ∧ brk s' = brk s ∧ bh s' = bh s
        ∧ dom (heap s') = dom (heap s)
        ∧ ∀ p c, heap s !! p = Some c ->
            ∃ c', heap s' !! p = Some c' ∧ strip_geom c' = strip_geom c.
Proof.
  intros Hwf Htm Hm.
  assert (∃ s', arrange m s = Some (tt, s') ∧ agree strip_geom s s') as (s' & E & A).
  { destruct m as [mi|].
    - apply arrange_moves; [exact Htm|]. apply wf_arrangeable; auto.
    - apply arrange_all_moves; [exact Htm|]. apply wf_all_arrangeable, Hwf. }
  exists s'. split; [exact E|].
  split; [exact (eq_sym (agree_mons _ _ _ A))|].
  split; [exact (eq_sym (agree_selmon _ _ _ A))|].
  split; [exact (eq_sym (agree_combo _ _ _ A))|].
  split; [exact (f_equal brk (eq_sym A))|].
  split; [exact (f_equal bh (eq_sym A))|].
  split.
  - pose proof (f_equal (λ t, dom (heap t)) A) as D. simpl in D.
    rewrite !dom_fmap_L in D. now symmetry.
  - intros p c Hc. exact (agree_lookup_Some _ _ _ _ _ A Hc).
Qed.

(** *** [tile] and the clients it skips *)

Lemma tiled_not_skipped s p : tiled_visible s p -> skipped s p -> False.
Proof.
  intros (c & m & Hc & Hm & Hf & Hv) (c' & Hc' & H).
  rewrite Hc in Hc'. injection Hc' as <-.
  destruct H as [H|(m' & Hm' & H)]; [congruence|].
  rewrite Hm in Hm'. injection Hm' as <-. congruence.
Qed.

Lemma agree_valid s s' p : agree strip_geom s s' -> valid s p -> valid s' p.
Proof.
  intros A (c & Hc & Hm). destruct (agree_lookup_Some _ _ _ _ _ A Hc) as (c' & Hc' & E).
  exists c'. split; [exact Hc'|].
  rewrite (f_equal Client.mon E : Client.mon c' = Client.mon c), <- (agree_mons _ _ _ A).
  exact Hm.
Qed.

Lemma agree_tiled s s' p : agree strip_geom s s' -> tiled_visible s p -> tiled_visible s' p.
Proof.
  intros A (c & m & Hc & Hm & Hf & Hv).
  destruct (agree_lookup_Some _ _ _ _ _ A Hc) as (c' & Hc' & E).
  destruct (strip_geom_fields _ _ E) as (_ & Hfl & _ & Htags & Hmon & _).
  exists c', m. rewrite Hmon, <- (agree_mons _ _ _ A), Hfl.
  repeat split; try done. unfold visible_on in *. now rewrite Htags.
Qed.

(** The loop of [tile] writes only to the tiled visible clients of its list. *)
Lemma tile_loop_touches m n mw l :
  ∀ s i my ty, tamed s -> Forall (valid s) l ->
  ∃ s', tile_loop m n mw l i my ty s = Some (tt, s')
        ∧ agree strip_geom s s'
        ∧ ∀ q, ¬ (q ∈ l ∧ tiled_visible s q) -> heap s' !! q = heap s !! q.
Proof.
  induction l as [|p l IH]; intros s i my ty Htm Hv.
  - exists s. split; [reflexivity|]. split; [apply agree_refl|]. reflexivity.
  - apply Forall_cons in Hv as [Hp Hl]. simpl.
    destruct (tiled_or_skipped _ _ Hp) as [Ht|Hs].
    + rewrite (bind_run _ _ _ _ _ (istiled_tiled _ _ Ht)). simpl.
      destruct Ht as (c & mo & Hc & Hmo & Hf & Hvis).
      rewrite (bind_run _ _ _ _ _ (deref_Some _ _ _ Hc)).
      assert (∀ x y w h (k : M unit),
                (∀ s1, agree strip_geom s s1 ->
                       (∀ q, q ≠ p -> heap s1 !! q = heap s !! q) ->
                       ∃ s', k s1 = Some (tt, s') ∧ agree strip_geom s1 s'
                             ∧ ∀ q, ¬ (q ∈ l ∧ tiled_visible s1 q) ->
                                    heap s' !! q = heap s1 !! q) ->
                ∃ s', bind (resize p x y w h false) (λ _, k) s = Some (tt, s')
                      ∧ agree strip_geom s s'
                      ∧ ∀ q, ¬ (q ∈ p :: l ∧ tiled_visible s q) ->
                             heap s' !! q = heap s !! q) as Hstep.
      { intros x y w h k Hk.
        destruct (resize_spec s p c mo x y w h false Hc Hmo (Htm _ _ Hc))
          as (s1 & c1 & E1 & A1 & Hc1 & _ & _ & Ho).
        destruct (Hk s1 A1 Ho) as (s' & E' & A' & Ho').
        exists s'. rewrite (bind_run _ _ _ _ _ E1). split; [exact E'|].
        split; [exact (agree_trans _ _ _ _ A1 A')|].
        intros q Hq. assert (q ≠ p) as Hne.
        { intros ->. apply Hq. split; [apply list_elem_of_here|]. now exists c, mo. }
        rewrite Ho', Ho; [reflexivity|exact Hne|].
        intros [Hin Htq]. apply Hq. split; [now apply list_elem_of_further|].
        eapply agree_tiled; [apply agree_sym; exact A1|exact Htq]. }
      assert (∀ s1, agree strip_geom s s1 -> Forall (valid s1) l) as Hl1.
      { intros s1 A1. eapply Forall_impl; [exact Hl|]. intros q. now apply agree_valid. }
      destruct (i <? uint_of (Monitor.nmaster m)).
      * apply Hstep. intros s1 A1 Ho.
        destruct (agree_lookup_Some _ _ _ _ _ A1 Hc) as (c1 & Hc1 & _).
        rewrite (bind_run _ _ _ _ _ (deref_Some _ _ _ Hc1)).
        apply IH; [exact (agree_geom_tamed _ _ Htm A1)|apply Hl1, A1].
      * apply Hstep. intros s1 A1 Ho.
        destruct (agree_lookup_Some _ _ _ _ _ A1 Hc) as (c1 & Hc1 & _).
        rewrite (bind_run _ _ _ _ _ (deref_Some _ _ _ Hc1)).
        apply IH; [exact (agree_geom_tamed _ _ Htm A1)|apply Hl1, A1].
    + rewrite (bind_run _ _ _ _ _ (istiled_skipped _ _ Hs)). simpl.
      destruct (IH s i my ty Htm Hl) as (s' & E & A & Ho).
      exists s'. split; [exact E|]. split; [exact A|].
      intros q Hq. apply Ho. intros [Hin Ht]. apply Hq. split; [|exact Ht].
      now apply list_elem_of_further.
Qed.

Lemma tile_count_total s l :
  Forall (valid s) l -> ∃ n, tile_count l s = Some (n, s).
Proof.
  induction 1 as [|p l Hp Hl (n & IH)]; simpl; [now exists 0|].
  destruct (tiled_or_skipped _ _ Hp) as [Ht|Hs].
  - rewrite (bind_run _ _ _ _ _ (istiled_tiled _ _ Ht)), (bind_run _ _ _ _ _ IH). eauto.
  - rewrite (bind_run _ _ _ _ _ (istiled_skipped _ _ Hs)), (bind_run _ _ _ _ _ IH). eauto.
Qed.

(** X2: on a well-formed state none of whose clients has a resize
    increment of -1 (where the [%] of [applysizehints] can trap),
    [tile(m)] returns and writes only to the tiled visible clients on the
    client list of [m], and only their geometry: a client that is
    floating, or not visible, or on another monitor's list keeps its whole
    record, position and size included. *)
Theorem tile_skips (s : State) (mi : nat) (m : Monitor) :
  wf s -> tamed s -> mons s !! mi = Some m ->
  ∃ s', tile mi s = Some (tt, s')
        ∧ (∀ q, ¬ (q ∈ Monitor.clients m ∧ tiled_visible s q) ->
                heap s' !! q = heap s !! q)
        ∧ (∀ q c, heap s !! q = Some c ->
                  ∃ c', heap s' !! q = Some c' ∧ strip_geom c' = strip_geom c).
Proof.
  intros Hwf Htm Hm.
  destruct (wf_arrangeable s mi Hwf) as (m0 & Hm0 & _ & Hcl & _); [eauto|].
  rewrite Hm in Hm0. injection Hm0 as <-.
  unfold tile. rewrite (bind_run _ _ _ _ _ (getmon_Some _ _ _ Hm)).
  destruct (tile_count_total s _ Hcl) as (n & En). rewrite (bind_run _ _ _ _ _ En).
  destruct (uint_of n =? 0).
  - exists s. split; [reflexivity|]. split; [reflexivity|]. eauto.
  - destruct (tile_loop_touches m (uint_of n) (tile_mw m (uint_of n)) _ s 0
                (uint_of (Monitor.gappx m)) (uint_of (Monitor.gappx m)) Htm Hcl)
      as (s' & E & A & Ho).
    exists s'. split; [exact E|]. split; [exact Ho|].
    intros q c Hc. exact (agree_lookup_Some _ _ _ _ _ A Hc).
Qed.

(** ** Focus: the top of the stack *)

(** [ISVISIBLE(p)], read off the state. *)
Definition visible (s : State) (p : cptr) : bool :=
  match heap s !! p with
  | Some c => match mons s !! Client.mon c with
              | Some m => visible_on m c
              | None => false
              end
  | None => false
  end.

Lemma ISVISIBLE_visible s p : valid s p -> ISVISIBLE p s = Some (visible s p, s).
Proof.
  intros (c & Hc & m & Hm). unfold visible. rewrite Hc, Hm.
  exact (ISVISIBLE_Some _ _ _ _ Hc Hm).
Qed.

Lemma first_visible_find s l :
  Forall (valid s) l -> first_visible l s = Some (List.find (visible s) l, s).
Proof.
  induction 1 as [|p l Hp Hl IH]; [reflexivity|]. simpl.
  rewrite (bind_run _ _ _ _ _ (ISVISIBLE_visible _ _ Hp)).
  destruct (visible s p); [reflexivity|exact IH].
Qed.

(** The selected monitor after [focus] has chosen [r]: [r] selected and on
    top of the stack. *)
Definition raised (r : option cptr) (m : Monitor) : Monitor :=
  match r with
  | Some p => Monitor.set_sel (Some p)
                (Monitor.set_stack (p :: default [] (unlink p (Monitor.stack m))) m)
  | None => Monitor.set_sel None m
  end.

Lemma focus_on_exact X r s m :
  wf s -> mons s !! selmon s = Some m -> (∀ q, r = Some q -> q ∈ Monitor.stack m) ->
  ∃ s', focus_on X r s = Some (tt, s') ∧ focus_post s s'
        ∧ mons s' = <[selmon s:=raised r m]> (mons s)
        ∧ (∀ q, r ≠ Some q -> heap s' !! q = heap s !! q)
        ∧ (∀ q c, r = Some q -> heap s !! q = Some c ->
                  heap s' !! q = Some (Client.set_isurgent false c)).
Proof.
  intros [_ Hwf] Hm Hr. destruct (Hwf _ _ Hm) as (Hst & Hcl & Hsel).
  assert (Forall (valid s) (Monitor.stack m)) as Hv.
  { eapply Forall_impl; [exact Hst|]. intros p. apply owned_valid. eauto. }
  unfold focus_on. repeat mstep.
  mlogs l1 ltac:(apply logs_when, logs_unfocus, Hsel).
  destruct r as [p|]; repeat mstep.
  - specialize (Hr p eq_refl).
    destruct (proj1 (Forall_forall _ _) Hst p Hr) as (cl & Hc & Hmon).
    rewrite (bind_run (deref p) _ _ cl (set_xlog l1 s)) by now apply deref_Some.
    rewrite Hmon, bool_decide_eq_true_2 by reflexivity. simpl negb. cbv beta.
    change (when false ?x) with (ret tt). mstep.
    set (h2 := <[p:=Client.set_isurgent false cl]> (heap s)).
    assert (∃ l2, when (Client.isurgent cl) (seturgent X p false) (set_xlog l1 s)
                  = Some (tt, set_xlog l2 (set_heap h2 s))) as (l2 & E2).
    { destruct (Client.isurgent cl) eqn:Hu; simpl.
      - destruct (seturgent_ok X p false (set_xlog l1 s) cl Hc) as (l2 & ->). now exists l2.
      - exists l1. unfold h2. rewrite insert_id; [now destruct s|].
        rewrite Hc. f_equal. destruct cl. simpl in *. now subst. }
    assert (h2 !! p = Some (Client.set_isurgent false cl)) as Hc2 by apply lookup_insert_eq.
    assert (Client.set_isurgent false <$> h2 = Client.set_isurgent false <$> heap s) as Hh2.
    { unfold h2. rewrite fmap_insert. apply insert_id. now rewrite lookup_fmap, Hc. }
    assert (∀ q, valid s q -> valid (set_xlog l2 (set_heap h2 s)) q) as Hv2.
    { intros q (c & Hq & Hqm). simpl. destruct (decide (p = q)) as [->|Hne].
      - exists (Client.set_isurgent false cl). split; [exact Hc2|]. simpl. congruence.
      - exists c. simpl. unfold h2. now rewrite lookup_insert_ne. }
    repeat mstep. clear E2.
    destruct (unlink_elem p _ Hr) as (l & Hl & Hlin).
    assert (Forall (valid (set_xlog l2 (set_heap h2 s))) l) as Hvl.
    { apply Forall_forall. intros q Hq. apply Hv2.
      apply (proj1 (Forall_forall _ _) Hv). apply Hlin. set_solver. }
    edestruct (detachstack_ok (set_xlog l2 (set_heap h2 s)) p
                 (Client.set_isurgent false cl) m l) as (t & Ed & Ht);
      [exact Hc2|simpl; now rewrite Hmon|exact Hl|exact Hvl|].
    rewrite (bind_run _ _ _ _ _ Ed). clear Ed.
    change (Client.mon (Client.set_isurgent false cl)) with (Client.mon cl).
    rewrite Hmon, !bind_bind.
    set (m1 := if bool_decide _ then _ else _).
    assert (Monitor.stack m1 = l) as Hm1 by (subst m1; now destruct (bool_decide _)).
    erewrite (bind_run (attachstack p)); cycle 1.
    { eapply attachstack_ok; simpl; [exact Hc2|].
      change (Client.mon (Client.set_isurgent false cl)) with (Client.mon cl).
      rewrite Hmon. apply list_lookup_insert_eq. now apply lookup_lt_Some in Hm. }
    change (Client.mon (Client.set_isurgent false cl)) with (Client.mon cl).
    rewrite Hmon, Hm1. unfold upd_mon at 1 2. simpl.
    rewrite list_insert_insert_eq.
    mlogs l3 ltac:(apply logs_grabbuttons; simpl; eauto).
    mlogs l4 ltac:(apply logs_setfocus; simpl; eauto).
    mstep. simpl.
    erewrite updmon_Some; cycle 1.
    { simpl. apply list_lookup_insert_eq. now apply lookup_lt_Some in Hm. }
    eexists. split; [reflexivity|].
    unfold upd_mon. simpl. rewrite list_insert_insert_eq.
    assert (Monitor.set_sel (Some p) (Monitor.set_stack (p :: l) m1) = raised (Some p) m)
      as Hrm.
    { unfold raised. rewrite Hl. subst m1. now destruct (bool_decide _). }
    split; [|split; [now rewrite Hrm|split]].
    + unfold focus_post. simpl. repeat split; try done.
      eexists m, _. split; [exact Hm|]. split; [reflexivity|]. simpl.
      split; [subst m1; now destruct (bool_decide _)|].
      split; [intros q; apply Hlin|]. intros q [= <-]. exact Hr.
    + intros q Hq. unfold h2. apply lookup_insert_ne. congruence.
    + intros q c [= <-] Hq. rewrite Hc in Hq. injection Hq as <-. exact Hc2.
  - simpl.
    erewrite updmon_Some by (simpl; exact Hm).
    eexists. split; [reflexivity|].
    unfold upd_mon. simpl. split; [|split; [reflexivity|split; [reflexivity|]]].
    + unfold focus_post. simpl. repeat split; try done.
      exists m, (Monitor.set_sel None m). repeat split; try done.
    + intros q c [=].
Qed.

(** The client [focus(c)] chooses: [c] when it is visible, else the first
    visible client of the selected monitor's stack. *)
Definition focus_choice (s : State) (c : option cptr) (m : Monitor) : option cptr :=
  match c with
  | Some p => if visible s p then Some p else List.find (visible s) (Monitor.stack m)
  | None => List.find (visible s) (Monitor.stack m)
  end.

Lemma find_elem {A} (f : A -> bool) (l : list A) (a : A) :
  List.find f l = Some a -> a ∈ l ∧ f a = true.
Proof.
  intros H. apply find_some in H as [H1 H2]. split; [now apply list_elem_of_In|exact H2].
Qed.

Lemma focus_exact X c s m :
  wf s -> mons s !! selmon s = Some m -> (∀ q, c = Some q -> q ∈ Monitor.stack m) ->
  ∃ s', focus X c s = Some (tt, s') ∧ focus_post s s'
        ∧ mons s' = <[selmon s:=raised (focus_choice s c m) m]> (mons s)
        ∧ (∀ q, focus_choice s c m ≠ Some q -> heap s' !! q = heap s !! q)
        ∧ (∀ q cl, focus_choice s c m = Some q -> heap s !! q = Some cl ->
                   heap s' !! q = Some (Client.set_isurgent false cl)).
Proof.
  intros Hwf Hm Hc. pose proof Hwf as [_ H]. destruct (H _ _ Hm) as (Hst & _ & _).
  assert (Forall (valid s) (Monitor.stack m)) as Hv.
  { eapply Forall_impl; [exact Hst|]. intros q. apply owned_valid. eauto. }
  rewrite focus_unfold. unfold focus_choice.
  destruct c as [p|].
  - rewrite (bind_run _ _ _ _ _ (ISVISIBLE_visible _ _
               (proj1 (Forall_forall _ _) Hv p (Hc p eq_refl)))).
    destruct (visible s p).
    + repeat mstep. apply focus_on_exact; auto.
    + repeat mstep. rewrite (bind_run _ _ _ _ _ (first_visible_find _ _ Hv)).
      apply focus_on_exact; auto. intros q Hq. now apply find_elem in Hq.
  - repeat mstep. rewrite (bind_run _ _ _ _ _ (first_visible_find _ _ Hv)).
    apply focus_on_exact; auto. intros q Hq. now apply find_elem in Hq.
Qed.

(** ** The invariant of the client lists *)

(** The two lists of a monitor hold the same clients, each once, and [sel]
    is one of them. *)
Definition lists_ok (m : Monitor) : Prop :=
  NoDup (Monitor.clients m) ∧ NoDup (Monitor.stack m)
  ∧ (∀ p, p ∈ Monitor.clients m ↔ p ∈ Monitor.stack m)
  ∧ (∀ p, Monitor.sel m = Some p -> p ∈ Monitor.stack m).

(** The invariant up to the choice of [sel] on the selected monitor. *)
Definition linked (s : State) : Prop :=
  wf s ∧ ∀ mi m, mons s !! mi = Some m -> lists_ok m.

(** The selected monitor has selected the topmost visible client of its
    stack, or none when it shows none. *)
Definition top_selected (s : State) : Prop :=
  ∀ m, mons s !! selmon s = Some m ->
       Monitor.sel m = List.find (visible s) (Monitor.stack m).

Definition inv (s : State) : Prop := linked s ∧ top_selected s.

Lemma unlink_split p l l' :
  unlink p l = Some l' -> ∃ l1 l2, l = l1 ++ p :: l2 ∧ l' = l1 ++ l2 ∧ p ∉ l1.
Proof.
  revert l'. induction l as [|a l IH]; intros l' H; [discriminate|]. simpl in H.
  destruct (decide (a = p)) as [->|Hne].
  - injection H as <-. exists [], l. repeat split. apply not_elem_of_nil.
  - destruct (unlink p l) as [l0|]; [|discriminate]. injection H as <-.
    destruct (IH l0 eq_refl) as (l1 & l2 & -> & -> & Hn).
    exists (a :: l1), l2. repeat split. apply not_elem_of_cons. split; [congruence|exact Hn].
Qed.

Lemma unlink_NoDup p l l' :
  NoDup l -> unlink p l = Some l' -> NoDup (p :: l') ∧ (∀ q, q ∈ p :: l' ↔ q ∈ l).
Proof.
  intros Hnd H. destruct (unlink_split _ _ _ H) as (l1 & l2 & -> & -> & Hn).
  split.
  - apply NoDup_app in Hnd as (H1 & H2 & H3). apply NoDup_cons in H3 as [H3 H4].
    apply NoDup_cons. split.
    + rewrite elem_of_app. intros [?|?]; [done|done].
    + apply NoDup_app. repeat split; [done| |done].
      intros q Hq Hq2. apply (H2 q Hq). now apply list_elem_of_further.
  - intros q. rewrite elem_of_cons, !elem_of_app, elem_of_cons. tauto.
Qed.

Lemma unlink_absent p l : p ∉ l -> unlink p l = None.
Proof.
  induction l as [|a l IH]; intros Hn; [reflexivity|]. simpl.
  apply not_elem_of_cons in Hn as [Hne Hn].
  rewrite decide_False by congruence. now rewrite IH.
Qed.

Lemma unlink_head p l : unlink p (p :: l) = Some l.
Proof. simpl. now rewrite decide_True. Qed.

Lemma raised_lists_ok r m :
  lists_ok m -> (∀ q, r = Some q -> q ∈ Monitor.stack m) -> lists_ok (raised r m).
Proof.
  intros (Hc & Hs & Hcs & Hsel) Hr. destruct r as [p|]; simpl.
  - destruct (unlink_elem p _ (Hr p eq_refl)) as (l & Hl & _).
    rewrite Hl. simpl. destruct (unlink_NoDup _ _ _ Hs Hl) as [Hnd Hin].
    split; [exact Hc|]. split; [exact Hnd|]. split.
    + intros q. simpl. rewrite Hin. apply Hcs.
    + intros q [= <-]. apply list_elem_of_here.
  - split; [exact Hc|]. split; [exact Hs|]. split; [exact Hcs|]. intros q [=].
Qed.

(** Visibility reads a client's tags and monitor, and the tag set that
    monitor shows. *)
Lemma visible_ext s s' p :
  (∀ c, heap s !! p = Some c ->
        ∃ c', heap s' !! p = Some c' ∧ Client.tags c' = Client.tags c
              ∧ Client.mon c' = Client.mon c) ->
  (heap s !! p = None -> heap s' !! p = None) ->
  (∀ i, Monitor.seltagset <$> mons s' !! i = Monitor.seltagset <$> mons s !! i) ->
  visible s' p = visible s p.
Proof.
  intros Hh Hn Hm. unfold visible. destruct (heap s !! p) as [c|] eqn:Hc.
  - destruct (Hh c eq_refl) as (c' & -> & Ht & Hmon). rewrite Hmon.
    specialize (Hm (Client.mon c)).
    destruct (mons s' !! Client.mon c), (mons s !! Client.mon c); simpl in Hm;
      try done. injection Hm as Hm. unfold visible_on. now rewrite Ht, Hm.
  - now rewrite (Hn eq_refl).
Qed.

Lemma find_ext {A} (f g : A -> bool) l : (∀ a, f a = g a) -> List.find f l = List.find g l.
Proof. intros H. induction l as [|a l IH]; [reflexivity|]. simpl. now rewrite H, IH. Qed.

Lemma focus_post_visible s s' p : focus_post s s' -> visible s' p = visible s p.
Proof.
  intros (_ & _ & _ & _ & _ & _ & Hh & m & m' & Hm & Ems & Est & _).
  apply visible_ext.
  - intros c Hc. destruct (unurgent_lookup _ _ _ _ Hh Hc) as (c' & Hc' & E).
    exists c'. split; [exact Hc'|].
    split; [exact (f_equal Client.tags E)|exact (f_equal Client.mon E)].
  - intros Hn. pose proof (f_equal (λ t, t !! p) Hh) as E. simpl in E.
    rewrite !lookup_fmap, Hn in E. now destruct (heap s' !! p).
  - intros i. rewrite Ems. destruct (decide (i = selmon s)) as [->|Hne].
    + rewrite list_lookup_insert_eq by now apply lookup_lt_Some in Hm.
      rewrite Hm. simpl. f_equal. exact (f_equal Monitor.seltagset Est).
    + now rewrite list_lookup_insert_ne.
Qed.

Lemma agree_geom_visible s s' p : agree strip_geom s s' -> visible s' p = visible s p.
Proof.
  intros A. apply visible_ext.
  - intros c Hc. destruct (agree_lookup_Some _ _ _ _ _ A Hc) as (c' & Hc' & E).
    exists c'. split; [exact Hc'|].
    split; [exact (f_equal Client.tags E)|exact (f_equal Client.mon E)].
  - intros Hn. pose proof (agree_lookup _ _ _ p A) as E. rewrite Hn in E.
    now destruct (heap s' !! p).
  - intros i. now rewrite (agree_mons _ _ _ A).
Qed.

Lemma agree_geom_linked s s' : linked s -> agree strip_geom s s' -> linked s'.
Proof.
  intros [Hwf Hl] A. split; [now apply agree_geom_wf with s|].
  intros mi m Hm. rewrite <- (agree_mons _ _ _ A) in Hm. eauto.
Qed.

Lemma agree_geom_inv s s' : inv s -> agree strip_geom s s' -> inv s'.
Proof.
  intros [Hl Ht] A. split; [now apply agree_geom_linked with s|].
  intros m Hm. rewrite <- (agree_selmon _ _ _ A), <- (agree_mons _ _ _ A) in Hm.
  rewrite (Ht m Hm). apply find_ext. intros q. symmetry. now apply agree_geom_visible.
Qed.

Lemma find_unlink_hidden (f : cptr -> bool) p l :
  ∀ l', unlink p l = Some l' -> f p = false -> List.find f l' = List.find f l.
Proof.
  induction l as [|a l IH]; intros l' H Hp; [discriminate|]. simpl in H.
  destruct (decide (a = p)) as [->|Hne].
  - injection H as <-. simpl. now rewrite Hp.
  - destruct (unlink p l) as [l0|]; [|discriminate]. injection H as <-. simpl.
    destruct (f a); [reflexivity|]. now apply IH.
Qed.

Lemma focus_choice_stack s c m q :
  (∀ p, c = Some p -> p ∈ Monitor.stack m) ->
  focus_choice s c m = Some q -> q ∈ Monitor.stack m ∧ visible s q = true.
Proof.
  intros Hc. unfold focus_choice. destruct c as [p|].
  - destruct (visible s p) eqn:Hv.
    + intros [= <-]. auto.
    + apply find_elem.
  - apply find_elem.
Qed.

Lemma focus_choice_none s c m :
  focus_choice s c m = None -> List.find (visible s) (Monitor.stack m) = None.
Proof. unfold focus_choice. destruct c as [p|]; [destruct (visible s p)|]; done. Qed.

(** [focus] re-establishes the invariant from linked lists. *)
Lemma focus_inv X c s m :
  linked s -> mons s !! selmon s = Some m -> (∀ q, c = Some q -> q ∈ Monitor.stack m) ->
  ∃ s', focus X c s = Some (tt, s') ∧ focus_post s s' ∧ inv s'
        ∧ mons s' = <[selmon s:=raised (focus_choice s c m) m]> (mons s)
        ∧ (∀ q, focus_choice s c m ≠ Some q -> heap s' !! q = heap s !! q)
        ∧ (∀ q cl, focus_choice s c m = Some q -> heap s !! q = Some cl ->
                   heap s' !! q = Some (Client.set_isurgent false cl)).
Proof.
  intros [Hwf Hl] Hm Hc.
  destruct (focus_exact X c s m Hwf Hm Hc) as (s' & E & Hp & Ems & Hh1 & Hh2).
  exists s'. split; [exact E|]. split; [exact Hp|]. split; [|auto].
  pose proof Hp as (Esel & _).
  assert (∀ q, focus_choice s c m = Some q -> q ∈ Monitor.stack m) as Hr.
  { intros q Hq. now apply (focus_choice_stack s c m q Hc). }
  split; [split|].
  - now apply focus_post_wf with s.
  - intros mi mo Hmo. rewrite Ems in Hmo. destruct (decide (mi = selmon s)) as [->|Hne].
    + rewrite list_lookup_insert_eq in Hmo by now apply lookup_lt_Some in Hm.
      injection Hmo as <-. apply raised_lists_ok; eauto.
    + rewrite list_lookup_insert_ne in Hmo by done. eauto.
  - intros mo Hmo. rewrite Esel, Ems in Hmo.
    rewrite list_lookup_insert_eq in Hmo by now apply lookup_lt_Some in Hm.
    injection Hmo as <-.
    rewrite (find_ext (visible s') (visible s)) by (intros q; now apply focus_post_visible).
    destruct (focus_choice s c m) as [p|] eqn:Hch; simpl.
    + destruct (focus_choice_stack s c m p Hc Hch) as [Hin Hv]. now rewrite Hv.
    + symmetry. now apply focus_choice_none with c.
Qed.

(** X3: [focus(c)] for a visible client on the stack of the selected
    monitor returns, selects [c] and moves it to the top of the focus
    stack, keeping the other clients of the stack in their order; the
    client list, the other monitors and the selected monitor stay, and in
    the store only the urgency flag of [c] is cleared. *)
Theorem focus_raises (X : XServer) (p : cptr) (s : State) (m : Monitor) :
  wf s -> mons s !! selmon s = Some m -> p ∈ Monitor.stack m ->
  ISVISIBLE p s = Some (true, s) ->
  ∃ s' m' l c,
    focus X (Some p) s = Some (tt, s')
    ∧ unlink p (Monitor.stack m) = Some l
    ∧ selmon s' = selmon s ∧ mons s' !! selmon s = Some m'
    ∧ Monitor.sel m' = Some p ∧ Monitor.stack m' = p :: l
    ∧ Monitor.clients m' = Monitor.clients m
    ∧ (∀ i, i ≠ selmon s -> mons s' !! i = mons s !! i)
    ∧ heap s !! p = Some c ∧ heap s' !! p = Some (Client.set_isurgent false c)
    ∧ (∀ q, q ≠ p -> heap s' !! q = heap s !! q).
Proof.
  intros Hwf Hm Hp Hvis.
  destruct (focus_exact X (Some p) s m Hwf Hm) as (s' & E & Hpost & Ems & Hh1 & Hh2).
  { now intros q [= <-]. }
  destruct (unlink_elem p _ Hp) as (l & Hl & _).
  pose proof Hwf as [_ H]. destruct (H _ _ Hm) as (Hst & _ & _).
  destruct (proj1 (Forall_forall _ _) Hst p Hp) as (c & Hc & Hmon).
  assert (visible s p = true) as Hv.
  { rewrite ISVISIBLE_visible in Hvis by (exists c; rewrite Hmon; eauto). congruence. }
  unfold focus_choice in *. rewrite Hv in *.
  exists s', (raised (Some p) m), l, c. split; [exact E|]. split; [exact Hl|].
  split; [apply Hpost|]. split.
  { rewrite Ems. apply list_lookup_insert_eq. now apply lookup_lt_Some in Hm. }
  unfold raised. rewrite Hl. simpl. repeat split; try done.
  - intros i Hi. rewrite Ems. now apply list_lookup_insert_ne.
  - now apply Hh2.
  - intros q Hq. apply Hh1. congruence.
Qed.

(** X4: [focus(NULL)] returns and selects the topmost visible client of
    the selected monitor's focus stack, which it moves to the top, the
    rest of the stack keeping its order; when the stack holds no visible
    client it selects none and leaves the stack as it is. *)
Theorem focus_null_selects_top (X : XServer) (s : State) (m : Monitor) :
  wf s -> mons s !! selmon s = Some m ->
  ∃ r s' m',
    first_visible (Monitor.stack m) s = Some (r, s)
    ∧ focus X None s = Some (tt, s')
    ∧ selmon s' = selmon s ∧ mons s' !! selmon s = Some m'
    ∧ Monitor.sel m' = r
    ∧ Monitor.clients m' = Monitor.clients m
    ∧ match r with
      | Some p => ∃ l, unlink p (Monitor.stack m) = Some l ∧ Monitor.stack m' = p :: l
      | None => Monitor.stack m' = Monitor.stack m
      end.
Proof.
  intros Hwf Hm.
  destruct (focus_exact X None s m Hwf Hm) as (s' & E & Hpost & Ems & _); [done|].
  pose proof Hwf as [_ H]. destruct (H _ _ Hm) as (Hst & _ & _).
  assert (Forall (valid s) (Monitor.stack m)) as Hv.
  { eapply Forall_impl; [exact Hst|]. intros q. apply owned_valid. eauto. }
  exists (List.find (visible s) (Monitor.stack m)), s', (raised (focus_choice s None m) m).
  split; [now apply first_visible_find|]. split; [exact E|]. split; [apply Hpost|].
  split.
  { rewrite Ems. apply list_lookup_insert_eq. now apply lookup_lt_Some in Hm. }
  simpl. destruct (List.find (visible s) (Monitor.stack m)) as [p|] eqn:Hf; simpl.
  - apply find_elem in Hf as [Hin _]. destruct (unlink_elem p _ Hin) as (l & Hl & _).
    rewrite Hl. simpl. repeat split. now exists l.
  - repeat split.
Qed.

(** ** Tags and views *)

Lemma linked_upd_mon s i m m1 :
  linked s -> mons s !! i = Some m ->
  Monitor.stack m1 = Monitor.stack m -> Monitor.clients m1 = Monitor.clients m ->
  Monitor.sel m1 = Monitor.sel m ->
  linked (upd_mon i m1 s).
Proof.
  intros [Hwf Hl] Hm Est Ecl Esl. split; [now apply wf_upd_mon with m|].
  intros mi mo Hmo. simpl in Hmo. destruct (decide (mi = i)) as [->|Hne].
  - rewrite list_lookup_insert_eq in Hmo by now apply lookup_lt_Some in Hm.
    injection Hmo as <-. unfold lists_ok. rewrite Est, Ecl, Esl. exact (Hl _ _ Hm).
  - rewrite list_lookup_insert_ne in Hmo by done. eauto.
Qed.

Lemma linked_set_tags s p c v :
  linked s -> heap s !! p = Some c ->
  linked (set_heap (<[p:=Client.set_tags v c]> (heap s)) s).
Proof. intros [Hwf Hl] Hc. split; [now apply wf_set_tags|exact Hl]. Qed.

Lemma linked_set_combo s b : linked s -> linked (set_combo b s).
Proof. intros [[H1 H2] Hl]. split; [split|]; assumption. Qed.

(** ** Resize increments along the handlers *)

(** A run of [m] that returns from a state none of whose clients has a
    resize increment of -1 ends in such a state. *)
Definition tames {A} (m : M A) : Prop := ∀ s a s', m s = Some (a, s') -> tamed s -> tamed s'.

Lemma tames_ret {A} (a : A) : tames (ret a).
Proof. now intros s a' s' [= _ <-]. Qed.

Lemma tames_fail {A} : tames (@fail A).
Proof. intros s a s' [=]. Qed.

Lemma tames_bind {A B} (m : M A) (k : A -> M B) :
  tames m -> (∀ a, tames (k a)) -> tames (bind m k).
Proof.
  intros Hm Hk s b s' E Ht. apply bind_inv in E as (a & s1 & E1 & E2).
  exact (Hk _ _ _ _ E2 (Hm _ _ _ E1 Ht)).
Qed.

Lemma tames_reads {A} (m : M A) : reads m -> tames m.
Proof. intros H s a s' E. now rewrite (H _ _ _ E). Qed.

Lemma tames_frame {A} (m : M A) : frame strip_geom m -> tames m.
Proof. intros H s a s' E Ht. exact (agree_geom_tamed _ _ Ht (H _ _ _ E)). Qed.

Lemma tames_modify (f : State -> State) : (∀ s, heap (f s) = heap s) -> tames (modify f).
Proof. intros Hf s a s' [= _ <-] Ht p c Hc. rewrite Hf in Hc. exact (Ht _ _ Hc). Qed.

Lemma tames_when b (m : M unit) : tames m -> tames (when b m).
Proof. intros Hm. destruct b; [exact Hm|apply tames_ret]. Qed.

Lemma tames_store p c : tame c -> tames (store p c).
Proof. intros Hc s a s' [= _ <-] Ht. now apply tamed_store. Qed.

Lemma tames_update p (g : Client -> Client) : (∀ c, tame c -> tame (g c)) -> tames (update p g).
Proof.
  intros Hg s a s' E Ht. unfold update in E. apply bind_inv in E as (c & s1 & E1 & E2).
  apply deref_inv in E1 as [Hc ->]. exact (tames_store _ _ (Hg _ (Ht _ _ Hc)) _ _ _ E2 Ht).
Qed.

Lemma tames_updmon i (g : Monitor -> Monitor) : tames (updmon i g).
Proof.
  intros s a s' E Ht. unfold updmon in E. apply bind_inv in E as (m & s1 & E1 & E2).
  apply getmon_inv in E1 as [Hm ->]. now injection E2 as _ <-.
Qed.

Create HintDb tames discriminated.
#[local] Hint Resolve tames_ret tames_fail tames_updmon : tames.
#[local] Hint Extern 1 (tames (xsend _)) => (apply tames_modify; reflexivity) : tames.
#[local] Hint Extern 1 (tames (modify _)) => (apply tames_modify; reflexivity) : tames.
#[local] Hint Extern 1 (tames (update _ _)) =>
  (apply tames_update; let H := fresh in intros ? H; exact H) : tames.
#[local] Hint Extern 1 (tames (gets _)) => (apply tames_reads, reads_gets) : tames.
#[local] Hint Extern 1 (tames (deref _)) => (apply tames_reads, reads_deref) : tames.
#[local] Hint Extern 1 (tames (getmon _)) => (apply tames_reads, reads_getmon) : tames.
#[local] Hint Extern 1 (tames (ISVISIBLE _)) => (apply tames_reads, reads_ISVISIBLE) : tames.
#[local] Hint Extern 1 (tames (first_visible _)) =>
  (apply tames_reads, reads_first_visible) : tames.
#[local] Hint Extern 1 (tames (nexttiled _)) => (apply tames_reads, reads_nexttiled) : tames.
#[local] Hint Extern 1 (tames (wintoclient _)) => (apply tames_reads, reads_wintoclient) : tames.
#[local] Hint Extern 1 (tames (arrange _)) => (apply tames_frame, frame_arrange) : tames.
#[local] Hint Extern 1 (tames (restack _)) => (apply tames_frame, frame_restack) : tames.
#[local] Hint Extern 1 (tames (resize _ _ _ _ _ _)) => (apply tames_frame, frame_resize) : tames.
#[local] Hint Extern 1 (tames (resizeclient _ _ _ _ _)) =>
  (apply tames_frame, frame_resizeclient) : tames.

Ltac tames_step :=
  first
    [ solve [auto with tames nocore]
    | assumption
    | apply tames_when
    | apply tames_bind; [|intros]
    | match goal with
      | |- tames (match ?b with _ => _ end) => destruct b
      | |- tames (let (_, _) := ?b in _) => destruct b
      end ].

Lemma tames_configure p : tames (configure p).
Proof. unfold configure. repeat tames_step. Qed.
#[local] Hint Resolve tames_configure : tames.

Lemma tames_attach p : tames (attach p).
Proof. unfold attach. repeat tames_step. Qed.
Lemma tames_attachstack p : tames (attachstack p).
Proof. unfold attachstack. repeat tames_step. Qed.
Lemma tames_detach p : tames (detach p).
Proof. unfold detach. repeat tames_step. Qed.
Lemma tames_detachstack p : tames (detachstack p).
Proof. unfold detachstack. repeat tames_step. Qed.
#[local] Hint Resolve tames_attach tames_attachstack tames_detach tames_detachstack : tames.

Lemma tames_setfullscreen p b : tames (setfullscreen p b).
Proof. unfold setfullscreen. repeat tames_step. Qed.
#[local] Hint Resolve tames_setfullscreen : tames.

Lemma tames_setmfact a : tames (setmfact a).
Proof. unfold setmfact. repeat tames_step. Qed.

Lemma tames_incnmaster i : tames (incnmaster i).
Proof. unfold incnmaster. repeat tames_step. Qed.

Lemma tames_togglefloating : tames togglefloating.
Proof. unfold togglefloating. repeat tames_step. Qed.

Lemma tames_mon_walk ms stop fuel : ∀ i, tames (mon_walk ms stop i fuel).
Proof.
  induction fuel as [|fuel IH]; intros i; simpl; repeat tames_step; try apply IH.
Qed.
#[local] Hint Resolve tames_mon_walk : tames.

Lemma tames_dirtomon d : tames (dirtomon d).
Proof. unfold dirtomon. repeat tames_step. Qed.
#[local] Hint Resolve tames_dirtomon : tames.

Section Tames.
Variable X : XServer.

Lemma tames_grabbuttons p b : tames (grabbuttons p b).
Proof. unfold grabbuttons. repeat tames_step. Qed.
Hint Resolve tames_grabbuttons : tames.

Lemma tames_sendevent p a : tames (sendevent X p a).
Proof. unfold sendevent. repeat tames_step. Qed.
Hint Resolve tames_sendevent : tames.

Lemma tames_setfocus p : tames (setfocus X p).
Proof. unfold setfocus. repeat tames_step. Qed.
Hint Resolve tames_setfocus : tames.

Lemma tames_seturgent p u : tames (seturgent X p u).
Proof. unfold seturgent. repeat tames_step. Qed.
Hint Resolve tames_seturgent : tames.

Lemma tames_unfocus c b : tames (unfocus c b).
Proof. unfold unfocus. repeat tames_step. Qed.
Hint Resolve tames_unfocus : tames.

Lemma tames_focus c : tames (focus X c).
Proof. unfold focus. repeat tames_step. Qed.
Hint Resolve tames_focus : tames.

Lemma tames_pop p : tames (pop X p).
Proof. unfold pop. repeat tames_step. Qed.
Hint Resolve tames_pop : tames.

Lemma tames_zoom : tames (zoom X).
Proof. unfold zoom. repeat tames_step. Qed.

Lemma tames_togglefullscr : tames togglefullscr.
Proof. unfold togglefullscr. repeat tames_step. Qed.

Lemma tames_keyrelease : tames keyrelease.
Proof. unfold keyrelease. repeat tames_step. Qed.

Lemma tames_combotag ui : tames (combotag X ui).
Proof. unfold combotag. repeat tames_step. Qed.

Lemma tames_comboview ui : tames (comboview X ui).
Proof. unfold comboview. repeat tames_step. Qed.

Lemma tames_tag ui : tames (tag X ui).
Proof. unfold tag. repeat tames_step. Qed.

Lemma tames_toggletag ui : tames (toggletag X ui).
Proof. unfold toggletag. repeat tames_step. Qed.

Lemma tames_toggleview ui : tames (toggleview X ui).
Proof. unfold toggleview. repeat tames_step. Qed.

Lemma tames_view ui : tames (view X ui).
Proof. unfold view. repeat tames_step. Qed.

Lemma tames_configurerequest ev : tames (configurerequest ev).
Proof. unfold configurerequest. repeat tames_step. Qed.

Lemma tames_last_visible l : ∀ c, tames (last_visible l c).
Proof. induction l as [|p l IH]; intros c; simpl; repeat tames_step; try apply IH. Qed.
Hint Resolve tames_last_visible : tames.

Lemma tames_focusstack i : tames (focusstack X i).
Proof. unfold focusstack. repeat tames_step. Qed.

Lemma tames_focusmon i : tames (focusmon X i).
Proof. unfold focusmon. repeat tames_step. Qed.

Lemma tames_sendmon p m : tames (sendmon X p m).
Proof. unfold sendmon. repeat tames_step. Qed.
Hint Resolve tames_sendmon : tames.

Lemma tames_tagmon i : tames (tagmon X i).
Proof. unfold tagmon. repeat tames_step. Qed.

Lemma tames_clientmessage cme : tames (clientmessage X cme).
Proof. unfold clientmessage. repeat tames_step. Qed.

End Tames.

(** The tail [focus(NULL); arrange(selmon)] of the tag and view handlers
    re-establishes the invariant. *)
Lemma tail_inv X s m :
  linked s -> tamed s -> mons s !! selmon s = Some m ->
  ∃ s1 s', bind (focus X None) (λ _, mi ← gets selmon; arrange (Some mi)) s = Some (tt, s')
           ∧ focus_post s s1 ∧ agree strip_geom s1 s' ∧ inv s'
           ∧ mons s' = <[selmon s:=raised (List.find (visible s) (Monitor.stack m)) m]> (mons s).
Proof.
  intros Hl Htm Hm.
  destruct (focus_inv X None s m Hl Hm) as (s1 & E1 & Hp & Hinv & Ems & _); [done|].
  destruct (arrange_moves s1 (selmon s1)) as (s' & E2 & Ha).
  { exact (focus_post_tamed _ _ Htm Hp). }
  { apply wf_arrangeable; [apply Hinv|apply Hinv]. }
  exists s1, s'. rewrite (bind_run _ _ _ _ _ E1), bind_gets.
  split; [exact E2|]. split; [exact Hp|]. split; [exact Ha|].
  split; [now apply agree_geom_inv with s1|]. now rewrite <- (agree_mons _ _ _ Ha).
Qed.

(** What the tail keeps, for a state with linked lists. *)
Lemma tail_inv_keeps X s m :
  linked s -> tamed s -> mons s !! selmon s = Some m ->
  ∃ s', bind (focus X None) (λ _, mi ← gets selmon; arrange (Some mi)) s = Some (tt, s')
        ∧ inv s' ∧ selmon s' = selmon s ∧ combo s' = combo s
        ∧ (∀ p c, heap s !! p = Some c ->
             ∃ c', heap s' !! p = Some c' ∧ Client.tags c' = Client.tags c)
        ∧ (∃ m', mons s' !! selmon s = Some m'
                 ∧ Monitor.seltags m' = Monitor.seltags m
                 ∧ Monitor.tagset m' = Monitor.tagset m
                 ∧ Monitor.clients m' = Monitor.clients m)
        ∧ (∀ i, i ≠ selmon s -> mons s' !! i = mons s !! i).
Proof.
  intros Hl Htm Hm. destruct (tail_inv X s m Hl Htm Hm) as (s1 & s' & E & Hp & Ha & Hinv & Ems).
  exists s'. split; [exact E|]. split; [exact Hinv|].
  destruct Hp as (Esel & Ecmb & _ & _ & _ & _ & Hh & _).
  split; [now rewrite <- (agree_selmon _ _ _ Ha)|].
  split; [now rewrite <- (agree_combo _ _ _ Ha)|].
  split; [|split].
  - intros p c Hc. destruct (unurgent_lookup _ _ _ _ Hh Hc) as (c1 & Hc1 & E1).
    destruct (agree_lookup_Some _ _ _ _ _ Ha Hc1) as (c' & Hc' & E').
    exists c'. split; [exact Hc'|].
    rewrite (f_equal Client.tags E' : Client.tags c' = Client.tags c1).
    exact (f_equal Client.tags E1).
  - eexists. rewrite Ems.
    split; [apply list_lookup_insert_eq; now apply lookup_lt_Some in Hm|].
    now destruct (List.find (visible s) (Monitor.stack m)).
  - intros i Hi. rewrite Ems. now apply list_lookup_insert_ne.
Qed.

(** The monitor after the tag-set update of [view]. *)
Definition view_mon (newtags : Z) (m : Monitor) : Monitor :=
  let m1 := Monitor.set_seltags (negb (Monitor.seltags m)) m in
  if newtags =? 0 then m1 else Monitor.set_tagset_at (Monitor.seltags m1) newtags m1.

Lemma view_ok X s m ui :
  linked s -> tamed s -> mons s !! selmon s = Some m -> tagbits ui ≠ Monitor.seltagset m ->
  ∃ s' m', view X ui s = Some (tt, s')
           ∧ inv s' ∧ selmon s' = selmon s ∧ combo s' = combo s
           ∧ mons s' !! selmon s = Some m'
           ∧ Monitor.seltags m' = negb (Monitor.seltags m)
           ∧ Monitor.tagset m' = Monitor.tagset (view_mon (tagbits ui) m)
           ∧ Monitor.clients m' = Monitor.clients m
           ∧ (∀ p c, heap s !! p = Some c ->
                ∃ c', heap s' !! p = Some c' ∧ Client.tags c' = Client.tags c)
           ∧ (∀ i, i ≠ selmon s -> mons s' !! i = mons s !! i).
Proof.
  intros Hl Htm Hm Hne. unfold view. repeat mstep.
  rewrite (proj2 (Z.eqb_neq _ _) Hne).
  rewrite (bind_run _ _ _ _ _ (updmon_Some _ _ _ _ Hm)).
  assert (∃ s1, when (negb (tagbits ui =? 0))
                  (updmon (selmon s)
                     (λ m, Monitor.set_tagset_at (Monitor.seltags m) (tagbits ui) m))
                  (upd_mon (selmon s) (Monitor.set_seltags (negb (Monitor.seltags m)) m) s)
                = Some (tt, s1)
                ∧ s1 = upd_mon (selmon s) (view_mon (tagbits ui) m) s) as (s1 & E1 & ->).
  { unfold view_mon. destruct (tagbits ui =? 0); simpl.
    - eexists. split; reflexivity.
    - erewrite updmon_Some;
        [|simpl; apply list_lookup_insert_eq; now apply lookup_lt_Some in Hm].
      eexists. split; [reflexivity|]. unfold upd_mon. simpl.
      now rewrite list_insert_insert_eq. }
  rewrite (bind_run _ _ _ _ _ E1). clear E1.
  set (m1 := view_mon (tagbits ui) m).
  assert (linked (upd_mon (selmon s) m1 s)) as Hl1.
  { apply linked_upd_mon with m; try done; subst m1; unfold view_mon;
      destruct (tagbits ui =? 0); reflexivity. }
  destruct (tail_inv_keeps X _ m1 Hl1 Htm) as (s' & E & Hinv & Esel & Ecmb & Hh & Hk & Ho).
  { simpl. apply list_lookup_insert_eq. now apply lookup_lt_Some in Hm. }
  destruct Hk as (m' & Hm' & Hsel' & Hts' & Hcl').
  exists s', m'. split; [exact E|]. split; [exact Hinv|]. split; [exact Esel|].
  split; [exact Ecmb|]. split; [exact Hm'|]. split.
  { rewrite Hsel'. subst m1. unfold view_mon. now destruct (tagbits ui =? 0). }
  split; [exact Hts'|]. split; [|split; [exact Hh|]].
  - rewrite Hcl'. subst m1. unfold view_mon. now destruct (tagbits ui =? 0).
  - intros i Hi. rewrite (Ho i Hi). simpl. now apply list_lookup_insert_ne.
Qed.

(** X5: [view].  Asked for the tag set already shown it returns the
    state it was given.  Otherwise it returns in a state of the
    invariant with the other of the monitor's two tag sets selected; a
    mask that is not empty is stored there, an empty mask leaves there
    what it held, the view before; the tag set shown before is kept in
    the slot left.  So [view(mask)] followed by [view(0)] shows the tag
    set shown at first.  A view that changes ends in [arrange], which
    returns when no client has a resize increment of -1 (where the [%] of
    [applysizehints] can trap). *)
Theorem view_switches (X : XServer) (s : State) (m : Monitor) (ui : Z) :
  inv s -> mons s !! selmon s = Some m ->
  let mask := Z.land ui TAGMASK in
  (mask = Monitor.seltagset m -> view X ui s = Some (tt, s))
  ∧ (mask ≠ Monitor.seltagset m -> tamed s ->
     ∃ s' m',
       view X ui s = Some (tt, s') ∧ inv s'
       ∧ mons s' !! selmon s' = Some m'
       ∧ Monitor.seltags m' = negb (Monitor.seltags m)
       ∧ Monitor.seltagset m'
         = (if mask =? 0 then Monitor.tagset_at (negb (Monitor.seltags m)) m else mask)
       ∧ Monitor.tagset_at (Monitor.seltags m) m' = Monitor.seltagset m
       ∧ (mask ≠ 0 ->
          ∃ s'' m'', view X 0 s' = Some (tt, s'') ∧ inv s''
                     ∧ mons s'' !! selmon s'' = Some m''
                     ∧ Monitor.seltags m'' = Monitor.seltags m
                     ∧ Monitor.seltagset m'' = Monitor.seltagset m)).
Proof.
  intros [Hl Ht] Hm mask. subst mask. rewrite <- tagbits_land. split.
  - intros E. unfold view. repeat mstep. now rewrite E, Z.eqb_refl.
  - intros Hne Htm. destruct (view_ok X s m ui Hl Htm Hm Hne)
      as (s' & m' & E & Hinv & Esel & _ & Hm' & Hst & Hts & _ & _ & _).
    exists s', m'. split; [exact E|]. split; [exact Hinv|]. rewrite Esel.
    split; [exact Hm'|]. split; [exact Hst|].
    assert (Monitor.seltagset m'
            = (if tagbits ui =? 0 then Monitor.tagset_at (negb (Monitor.seltags m)) m
               else tagbits ui)) as Hsel.
    { unfold Monitor.seltagset, Monitor.tagset_at. rewrite Hst, Hts. unfold view_mon.
      destruct m as [? ? ? ? ? ? ? ? ? ? ? ? ? ? st [t0 t1] ? ? ? ? ?]. simpl.
      destruct (tagbits ui =? 0), st; reflexivity. }
    assert (Monitor.tagset_at (Monitor.seltags m) m' = Monitor.seltagset m) as Hold.
    { unfold Monitor.seltagset, Monitor.tagset_at. rewrite Hts. unfold view_mon.
      destruct m as [? ? ? ? ? ? ? ? ? ? ? ? ? ? st [t0 t1] ? ? ? ? ?]. simpl.
      destruct (tagbits ui =? 0), st; reflexivity. }
    split; [exact Hsel|]. split; [exact Hold|].
    intros Hnz. rewrite <- Esel in Hm'.
    assert (tagbits 0 = 0) as H0 by reflexivity.
    destruct (view_ok X s' m' 0 (proj1 Hinv) (tames_view X ui _ _ _ E Htm) Hm')
      as (s'' & m'' & E' & Hinv' & Esel' & _ & Hm'' & Hst' & Hts' & _ & _ & _).
    { rewrite H0, Hsel. rewrite (proj2 (Z.eqb_neq _ _) Hnz). congruence. }
    exists s'', m''. split; [exact E'|]. split; [exact Hinv'|]. rewrite Esel'.
    split; [exact Hm''|]. rewrite Hst', Hst, negb_involutive. split; [reflexivity|].
    unfold Monitor.seltagset at 1. unfold Monitor.tagset_at.
    rewrite Hst', Hst, negb_involutive, Hts'. unfold view_mon. rewrite H0. simpl.
    exact Hold.
Qed.

(** A handler that changes one monitor's tag sets and ends in the tail. *)
Lemma retagset_ok X s m m1 (pre : M unit) (b : bool) :
  linked s -> tamed s -> mons s !! selmon s = Some m ->
  pre s = Some (tt, set_combo b (upd_mon (selmon s) m1 s)) ->
  Monitor.stack m1 = Monitor.stack m -> Monitor.clients m1 = Monitor.clients m ->
  Monitor.sel m1 = Monitor.sel m ->
  ∃ s' m', bind pre (λ _, bind (focus X None) (λ _, mi ← gets selmon; arrange (Some mi))) s
           = Some (tt, s')
           ∧ inv s' ∧ selmon s' = selmon s ∧ combo s' = b
           ∧ mons s' !! selmon s = Some m'
           ∧ Monitor.seltags m' = Monitor.seltags m1
           ∧ Monitor.tagset m' = Monitor.tagset m1
           ∧ Monitor.clients m' = Monitor.clients m
           ∧ (∀ p c, heap s !! p = Some c ->
                ∃ c', heap s' !! p = Some c' ∧ Client.tags c' = Client.tags c)
           ∧ (∀ i, i ≠ selmon s -> mons s' !! i = mons s !! i).
Proof.
  intros Hl Htm Hm Epre Est Ecl Esl. rewrite (bind_run _ _ _ _ _ Epre).
  assert (linked (set_combo b (upd_mon (selmon s) m1 s))) as Hl1.
  { apply linked_set_combo. now apply linked_upd_mon with m. }
  destruct (tail_inv_keeps X _ m1 Hl1 Htm) as (s' & E & Hinv & Esel & Ecmb & Hh & Hk & Ho).
  { simpl. apply list_lookup_insert_eq. now apply lookup_lt_Some in Hm. }
  destruct Hk as (m' & Hm' & Hsel' & Hts' & Hcl').
  exists s', m'. split; [exact E|]. split; [exact Hinv|]. split; [exact Esel|].
  split; [exact Ecmb|]. split; [exact Hm'|]. split; [exact Hsel'|].
  split; [exact Hts'|]. split; [now rewrite Hcl'|]. split; [exact Hh|].
  intros i Hi. rewrite (Ho i Hi). simpl. now apply list_lookup_insert_ne.
Qed.

(** A handler that changes the tags of one client and ends in the tail. *)
Lemma retag_ok X s m p c v (pre : M unit) (b : bool) :
  linked s -> tamed s -> mons s !! selmon s = Some m -> heap s !! p = Some c ->
  pre s = Some (tt, set_combo b (set_heap (<[p:=Client.set_tags v c]> (heap s)) s)) ->
  ∃ s' m' c', bind pre (λ _, bind (focus X None) (λ _, mi ← gets selmon; arrange (Some mi))) s
              = Some (tt, s')
              ∧ inv s' ∧ selmon s' = selmon s ∧ combo s' = b
              ∧ mons s' !! selmon s = Some m'
              ∧ Monitor.seltags m' = Monitor.seltags m
              ∧ Monitor.tagset m' = Monitor.tagset m
              ∧ Monitor.clients m' = Monitor.clients m
              ∧ heap s' !! p = Some c' ∧ Client.tags c' = v
              ∧ (∀ q c0, q ≠ p -> heap s !! q = Some c0 ->
                   ∃ c1, heap s' !! q = Some c1 ∧ Client.tags c1 = Client.tags c0)
              ∧ (∀ i, i ≠ selmon s -> mons s' !! i = mons s !! i).
Proof.
  intros Hl Htm Hm Hc Epre. rewrite (bind_run _ _ _ _ _ Epre).
  assert (linked (set_combo b (set_heap (<[p:=Client.set_tags v c]> (heap s)) s))) as Hl1.
  { apply linked_set_combo. now apply linked_set_tags. }
  destruct (tail_inv_keeps X _ m Hl1) as (s' & E & Hinv & Esel & Ecmb & Hh & Hk & Ho);
    [apply (tamed_store s); [exact Htm|exact (Htm _ _ Hc)]|exact Hm|].
  destruct Hk as (m' & Hm' & Hsel' & Hts' & Hcl').
  destruct (Hh p (Client.set_tags v c)) as (c' & Hc' & Et); [apply lookup_insert_eq|].
  exists s', m', c'. split; [exact E|]. split; [exact Hinv|]. split; [exact Esel|].
  split; [exact Ecmb|]. split; [exact Hm'|]. split; [exact Hsel'|].
  split; [exact Hts'|]. split; [exact Hcl'|]. split; [exact Hc'|]. split; [exact Et|].
  split; [|exact Ho].
  intros q c0 Hne Hq. apply Hh. simpl. now rewrite lookup_insert_ne.
Qed.

Lemma set_combo_same s : set_combo (combo s) s = s.
Proof. now destruct s. Qed.

Lemma tag_ok X s m p c ui :
  linked s -> tamed s -> mons s !! selmon s = Some m -> Monitor.sel m = Some p -> heap s !! p = Some c ->
  tagbits ui ≠ 0 ->
  ∃ s' m' c', tag X ui s = Some (tt, s')
              ∧ inv s' ∧ selmon s' = selmon s ∧ combo s' = combo s
              ∧ mons s' !! selmon s = Some m'
              ∧ Monitor.seltags m' = Monitor.seltags m
              ∧ Monitor.tagset m' = Monitor.tagset m
              ∧ Monitor.clients m' = Monitor.clients m
              ∧ heap s' !! p = Some c' ∧ Client.tags c' = tagbits ui
              ∧ (∀ q c0, q ≠ p -> heap s !! q = Some c0 ->
                   ∃ c1, heap s' !! q = Some c1 ∧ Client.tags c1 = Client.tags c0)
              ∧ (∀ i, i ≠ selmon s -> mons s' !! i = mons s !! i).
Proof.
  intros Hl Htm Hm Hsel Hc Hne. unfold tag. repeat mstep. rewrite Hsel.
  rewrite (proj2 (Z.eqb_neq _ _) Hne).
  apply (retag_ok X s m p c (tagbits ui) (update p (Client.set_tags (tagbits ui))) (combo s));
    try done.
  rewrite (update_Some _ _ _ _ Hc). now destruct s.
Qed.

Lemma toggletag_ok X s m p c ui :
  linked s -> tamed s -> mons s !! selmon s = Some m -> Monitor.sel m = Some p -> heap s !! p = Some c ->
  uint_of (Z.lxor (Client.tags c) (tagbits ui)) ≠ 0 ->
  ∃ s' m' c', toggletag X ui s = Some (tt, s')
              ∧ inv s' ∧ selmon s' = selmon s ∧ combo s' = combo s
              ∧ mons s' !! selmon s = Some m'
              ∧ Monitor.seltags m' = Monitor.seltags m
              ∧ Monitor.tagset m' = Monitor.tagset m
              ∧ Monitor.clients m' = Monitor.clients m
              ∧ heap s' !! p = Some c'
              ∧ Client.tags c' = uint_of (Z.lxor (Client.tags c) (tagbits ui))
              ∧ (∀ q c0, q ≠ p -> heap s !! q = Some c0 ->
                   ∃ c1, heap s' !! q = Some c1 ∧ Client.tags c1 = Client.tags c0)
              ∧ (∀ i, i ≠ selmon s -> mons s' !! i = mons s !! i).
Proof.
  intros Hl Htm Hm Hsel Hc Hne. unfold toggletag. repeat mstep. rewrite Hsel. repeat mstep.
  rewrite (proj2 (Z.eqb_neq _ _) Hne).
  apply (retag_ok X s m p c _ (update p (Client.set_tags _)) (combo s)); try done.
  rewrite (update_Some _ _ _ _ Hc). now destruct s.
Qed.

Lemma combotag_ok X s m p c ui :
  linked s -> tamed s -> mons s !! selmon s = Some m -> Monitor.sel m = Some p -> heap s !! p = Some c ->
  tagbits ui ≠ 0 ->
  ∃ s' m' c', combotag X ui s = Some (tt, s')
              ∧ inv s' ∧ selmon s' = selmon s ∧ combo s' = true
              ∧ mons s' !! selmon s = Some m'
              ∧ Monitor.seltags m' = Monitor.seltags m
              ∧ Monitor.tagset m' = Monitor.tagset m
              ∧ Monitor.clients m' = Monitor.clients m
              ∧ heap s' !! p = Some c'
              ∧ Client.tags c'
                = (if combo s then Z.lor (Client.tags c) (tagbits ui) else tagbits ui)
              ∧ (∀ q c0, q ≠ p -> heap s !! q = Some c0 ->
                   ∃ c1, heap s' !! q = Some c1 ∧ Client.tags c1 = Client.tags c0)
              ∧ (∀ i, i ≠ selmon s -> mons s' !! i = mons s !! i).
Proof.
  intros Hl Htm Hm Hsel Hc Hne. unfold combotag. repeat mstep. rewrite Hsel.
  rewrite (proj2 (Z.eqb_neq _ _) Hne). repeat mstep.
  destruct (combo s) eqn:Hcmb.
  - apply (retag_ok X s m p c _
             (update p (λ c, Client.set_tags (Z.lor (Client.tags c) (tagbits ui)) c)) true);
      try done.
    rewrite (update_Some _ _ _ _ Hc). f_equal. f_equal. destruct s; simpl in *. now subst.
  - apply (retag_ok X s m p c _
             (modify (set_combo true);; update p (Client.set_tags (tagbits ui))) true);
      try done.
    rewrite bind_modify. now rewrite (update_Some _ _ c) by exact Hc.
Qed.

Lemma toggleview_ok X s m ui :
  linked s -> tamed s -> mons s !! selmon s = Some m ->
  uint_of (Z.lxor (Monitor.seltagset m) (tagbits ui)) ≠ 0 ->
  ∃ s' m', toggleview X ui s = Some (tt, s')
           ∧ inv s' ∧ selmon s' = selmon s ∧ combo s' = combo s
           ∧ mons s' !! selmon s = Some m'
           ∧ Monitor.seltags m' = Monitor.seltags m
           ∧ Monitor.tagset m'
             = Monitor.tagset (Monitor.set_tagset_at (Monitor.seltags m)
                                 (uint_of (Z.lxor (Monitor.seltagset m) (tagbits ui))) m)
           ∧ Monitor.clients m' = Monitor.clients m
           ∧ (∀ p c, heap s !! p = Some c ->
                ∃ c', heap s' !! p = Some c' ∧ Client.tags c' = Client.tags c)
           ∧ (∀ i, i ≠ selmon s -> mons s' !! i = mons s !! i).
Proof.
  intros Hl Htm Hm Hne. unfold toggleview. repeat mstep.
  rewrite (proj2 (Z.eqb_neq _ _) Hne).
  apply (retagset_ok X s m
           (Monitor.set_tagset_at (Monitor.seltags m)
              (uint_of (Z.lxor (Monitor.seltagset m) (tagbits ui))) m)
           (updmon (selmon s) _) (combo s)); try done.
  rewrite (updmon_Some _ _ _ _ Hm). now destruct s.
Qed.

Lemma comboview_inv X s m ui :
  linked s -> tamed s -> mons s !! selmon s = Some m ->
  ∃ s' m', comboview X ui s = Some (tt, s')
           ∧ inv s' ∧ selmon s' = selmon s ∧ combo s' = true
           ∧ mons s' !! selmon s = Some m'
           ∧ Monitor.seltags m' = Monitor.seltags (comboview_mon (combo s) (tagbits ui) m)
           ∧ Monitor.tagset m' = Monitor.tagset (comboview_mon (combo s) (tagbits ui) m)
           ∧ Monitor.clients m' = Monitor.clients m
           ∧ (∀ p c, heap s !! p = Some c ->
                ∃ c', heap s' !! p = Some c' ∧ Client.tags c' = Client.tags c)
           ∧ (∀ i, i ≠ selmon s -> mons s' !! i = mons s !! i).
Proof.
  intros Hl Htm Hm. unfold comboview. rewrite !bind_gets.
  apply (retagset_ok X s m (comboview_mon (combo s) (tagbits ui) m) _ true); try done.
  - unfold comboview_mon. destruct (combo s) eqn:Hcmb.
    + rewrite (updmon_Some _ _ _ _ Hm). f_equal. f_equal. destruct s; simpl in *. now subst.
    + rewrite (bind_run _ _ _ _ _ (updmon_Some _ _ _ _ Hm)), bind_modify.
      destruct (tagbits ui =? 0); simpl; [reflexivity|].
      erewrite updmon_Some;
        [|simpl; apply list_lookup_insert_eq; now apply lookup_lt_Some in Hm].
      unfold upd_mon. simpl. now rewrite list_insert_insert_eq.
  - unfold comboview_mon. now destruct (combo s), (tagbits ui =? 0).
  - unfold comboview_mon. now destruct (combo s), (tagbits ui =? 0).
  - unfold comboview_mon. now destruct (combo s), (tagbits ui =? 0).
Qed.

(** X6: [tag].  Without a selected client, or with an empty mask, it
    returns the state it was given.  Otherwise it returns in a state of
    the invariant in which the selected client's tags are the mask; no
    other client's tags, no tag set and no client list changes.  (The
    invariant of the state it ends in says who is selected then: the
    topmost visible client of the stack.)  A change of tags ends in
    [arrange], which returns when no client has a resize increment of -1
    (where the [%] of [applysizehints] can trap). *)
Theorem tag_retags (X : XServer) (s : State) (m : Monitor) (ui : Z) :
  inv s -> mons s !! selmon s = Some m ->
  let mask := Z.land ui TAGMASK in
  (Monitor.sel m = None ∨ mask = 0 -> tag X ui s = Some (tt, s))
  ∧ (∀ p, Monitor.sel m = Some p -> mask ≠ 0 -> tamed s ->
       ∃ s' m' c',
         tag X ui s = Some (tt, s') ∧ inv s'
         ∧ heap s' !! p = Some c' ∧ Client.tags c' = mask
         ∧ (∀ q c0, q ≠ p -> heap s !! q = Some c0 ->
              ∃ c1, heap s' !! q = Some c1 ∧ Client.tags c1 = Client.tags c0)
         ∧ mons s' !! selmon s' = Some m'
         ∧ Monitor.seltags m' = Monitor.seltags m ∧ Monitor.tagset m' = Monitor.tagset m
         ∧ Monitor.clients m' = Monitor.clients m).
Proof.
  intros [Hl Ht] Hm mask. subst mask. rewrite <- tagbits_land. split.
  - intros H. unfold tag. repeat mstep. destruct (Monitor.sel m) as [p|]; [|reflexivity].
    destruct H as [H| ->]; [discriminate|reflexivity].
  - intros p Hsel Hne Htm.
    destruct (proj2 (proj1 Hl) _ _ Hm) as (_ & _ & Hs). destruct (Hs p Hsel) as [c Hc].
    destruct (tag_ok X s m p c ui Hl Htm Hm Hsel Hc Hne)
      as (s' & m' & c' & E & Hinv & Esel & _ & Hm' & Hst & Hts & Hcl & Hc' & Etags & Ho & _).
    exists s', m', c'. rewrite Esel. auto 10.
Qed.

(** X7: [combotag] accumulates a chord on the selected client's tags.
    Without a selected client, or with an empty mask, it returns the
    state it was given (and leaves [combo] as it is).  Otherwise it
    returns in a state of the invariant with [combo] set, in which the
    client's tags are the mask when [combo] was clear and the union of
    its tags and the mask when [combo] was set; no other client's tags
    change.  A change of tags ends in [arrange], which returns when no
    client has a resize increment of -1 (where the [%] of
    [applysizehints] can trap). *)
Theorem combotag_chord (X : XServer) (s : State) (m : Monitor) (ui : Z) :
  inv s -> mons s !! selmon s = Some m ->
  let mask := Z.land ui TAGMASK in
  (Monitor.sel m = None ∨ mask = 0 -> combotag X ui s = Some (tt, s))
  ∧ (∀ p c, Monitor.sel m = Some p -> heap s !! p = Some c -> mask ≠ 0 -> tamed s ->
       ∃ s' c', combotag X ui s = Some (tt, s') ∧ inv s' ∧ combo s' = true
                ∧ heap s' !! p = Some c'
                ∧ Client.tags c' = (if combo s then Z.lor (Client.tags c) mask else mask)
                ∧ (∀ q c0, q ≠ p -> heap s !! q = Some c0 ->
                     ∃ c1, heap s' !! q = Some c1 ∧ Client.tags c1 = Client.tags c0)).
Proof.
  intros [Hl Ht] Hm mask. subst mask. rewrite <- tagbits_land. split.
  - intros H. unfold combotag. repeat mstep.
    destruct (Monitor.sel m) as [q|]; [|reflexivity].
    destruct H as [H| ->]; [discriminate|reflexivity].
  - intros p c Hsel Hc Hne Htm.
    destruct (combotag_ok X s m p c ui Hl Htm Hm Hsel Hc Hne)
      as (s' & m' & c' & E & Hinv & _ & Hcmb & _ & _ & _ & _ & Hc' & Etags & Ho & _).
    exists s', c'. auto 10.
Qed.

(** * The invariant along the handlers *)

(** ** Handlers that neither create nor free a client *)

(** The states have the same clients in the store, the same next address,
    as many monitors and the same bar height and screen size. *)
Definition same_clients (s s' : State) : Prop :=
  brk s' = brk s ∧ dom (heap s') = dom (heap s) ∧ length (mons s') = length (mons s)
  ∧ bh s' = bh s ∧ sw s' = sw s ∧ sh s' = sh s.

(** A run of [m] that returns ends in such a state. *)
Definition keeps {A} (m : M A) : Prop := ∀ s a s', m s = Some (a, s') -> same_clients s s'.

Lemma same_clients_refl s : same_clients s s.
Proof. repeat split. Qed.

Lemma same_clients_trans s1 s2 s3 :
  same_clients s1 s2 -> same_clients s2 s3 -> same_clients s1 s3.
Proof. unfold same_clients. intros (?&?&?&?&?&?) (?&?&?&?&?&?). repeat split; congruence. Qed.

Lemma agree_same_clients f s s' : agree f s s' -> same_clients s s'.
Proof.
  intros H. destruct (agree_globals _ _ _ H) as (H1 & H2 & H3).
  repeat split; try congruence.
  - symmetry. exact (f_equal brk H).
  - apply set_eq. intros p. rewrite !elem_of_dom.
    pose proof (agree_lookup _ _ _ p H) as E.
    destruct (heap s !! p), (heap s' !! p); simpl in E; try discriminate;
      split; intros [? ?]; try discriminate; eauto.
  - now rewrite (agree_mons _ _ _ H).
Qed.

Lemma focus_post_same_clients s s' : focus_post s s' -> same_clients s s'.
Proof.
  intros (_ & _ & Hbh & Hsw & Hsh & Hbrk & Hh & m & m' & _ & Hms & _).
  repeat split; try assumption.
  - apply set_eq. intros p. rewrite !elem_of_dom.
    pose proof (f_equal (λ h, h !! p) Hh) as E. simpl in E. rewrite !lookup_fmap in E.
    destruct (heap s !! p), (heap s' !! p); simpl in E; try discriminate;
      split; intros [? ?]; try discriminate; eauto.
  - rewrite Hms. apply length_insert.
Qed.

Lemma keeps_ret {A} (a : A) : keeps (ret a).
Proof. intros s a' s' [= _ <-]. apply same_clients_refl. Qed.

Lemma keeps_fail {A} : keeps (@fail A).
Proof. intros s a s' [=]. Qed.

Lemma keeps_bind {A B} (m : M A) (k : A -> M B) :
  keeps m -> (∀ a, keeps (k a)) -> keeps (bind m k).
Proof.
  intros Hm Hk s b s' E. apply bind_inv in E as (a & s1 & E1 & E2).
  exact (same_clients_trans _ _ _ (Hm _ _ _ E1) (Hk _ _ _ _ E2)).
Qed.

Lemma keeps_reads {A} (m : M A) : reads m -> keeps m.
Proof. intros H s a s' E. rewrite (H _ _ _ E). apply same_clients_refl. Qed.

Lemma keeps_frame {A} f (m : M A) : frame f m -> keeps m.
Proof. intros H s a s' E. exact (agree_same_clients f _ _ (H _ _ _ E)). Qed.

Lemma keeps_xsend r : keeps (xsend r).
Proof. intros s a s' [= _ <-]. repeat split. Qed.

Lemma keeps_when b (m : M unit) : keeps m -> keeps (when b m).
Proof. intros Hm. destruct b; [exact Hm|apply keeps_ret]. Qed.

Lemma keeps_update p (g : Client -> Client) : keeps (update p g).
Proof.
  intros s a s' E. unfold update in E. apply bind_inv in E as (c & s1 & E1 & E2).
  apply deref_inv in E1 as [Hc ->]. injection E2 as _ <-.
  repeat split. simpl. apply set_eq. intros q. rewrite dom_insert, elem_of_union, elem_of_singleton.
  rewrite !elem_of_dom. split; [intros [->|H]; eauto|auto].
Qed.

Lemma keeps_updmon i (g : Monitor -> Monitor) : keeps (updmon i g).
Proof.
  intros s a s' E. unfold updmon in E. apply bind_inv in E as (m & s1 & E1 & E2).
  apply getmon_inv in E1 as [Hm ->]. injection E2 as _ <-.
  repeat split. simpl. apply length_insert.
Qed.

Lemma keeps_set_combo b : keeps (modify (set_combo b)).
Proof. intros s a s' [= _ <-]. repeat split. Qed.

Lemma keeps_set_selmon i : keeps (modify (set_selmon i)).
Proof. intros s a s' [= _ <-]. repeat split. Qed.

Create HintDb keeps discriminated.
#[local] Hint Resolve keeps_ret keeps_fail keeps_xsend keeps_update keeps_updmon
  keeps_set_combo keeps_set_selmon : keeps.
#[local] Hint Extern 1 (keeps (gets _)) => (apply keeps_reads, reads_gets) : keeps.
#[local] Hint Extern 1 (keeps (deref _)) => (apply keeps_reads, reads_deref) : keeps.
#[local] Hint Extern 1 (keeps (getmon _)) => (apply keeps_reads, reads_getmon) : keeps.
#[local] Hint Extern 1 (keeps (ISVISIBLE _)) => (apply keeps_reads, reads_ISVISIBLE) : keeps.
#[local] Hint Extern 1 (keeps (first_visible _)) =>
  (apply keeps_reads, reads_first_visible) : keeps.
#[local] Hint Extern 1 (keeps (nexttiled _)) => (apply keeps_reads, reads_nexttiled) : keeps.
#[local] Hint Extern 1 (keeps (wintoclient _)) => (apply keeps_reads, reads_wintoclient) : keeps.
#[local] Hint Extern 1 (keeps (arrange _)) =>
  (apply (keeps_frame strip_geom), frame_arrange) : keeps.
#[local] Hint Extern 1 (keeps (restack _)) =>
  (apply (keeps_frame strip_geom), frame_restack) : keeps.
#[local] Hint Extern 1 (keeps (resize _ _ _ _ _ _)) =>
  (apply (keeps_frame strip_geom), frame_resize) : keeps.
#[local] Hint Extern 1 (keeps (resizeclient _ _ _ _ _)) =>
  (apply (keeps_frame strip_geom), frame_resizeclient) : keeps.

Ltac keeps_step :=
  first
    [ solve [auto with keeps nocore]
    | assumption
    | apply keeps_when
    | apply keeps_bind; [|intros]
    | match goal with
      | |- keeps (match ?b with _ => _ end) => destruct b
      | |- keeps (let (_, _) := ?b in _) => destruct b
      end ].

Lemma keeps_configure p : keeps (configure p).
Proof. unfold configure. repeat keeps_step. Qed.
#[local] Hint Resolve keeps_configure : keeps.

Lemma keeps_attach p : keeps (attach p).
Proof. unfold attach. repeat keeps_step. Qed.
Lemma keeps_attachstack p : keeps (attachstack p).
Proof. unfold attachstack. repeat keeps_step. Qed.
Lemma keeps_detach p : keeps (detach p).
Proof. unfold detach. repeat keeps_step. Qed.
Lemma keeps_detachstack p : keeps (detachstack p).
Proof. unfold detachstack. repeat keeps_step. Qed.
#[local] Hint Resolve keeps_attach keeps_attachstack keeps_detach keeps_detachstack : keeps.

Lemma keeps_setfullscreen p b : keeps (setfullscreen p b).
Proof. unfold setfullscreen. repeat keeps_step. Qed.
#[local] Hint Resolve keeps_setfullscreen : keeps.

Lemma keeps_setmfact a : keeps (setmfact a).
Proof. unfold setmfact. repeat keeps_step. Qed.

Lemma keeps_incnmaster i : keeps (incnmaster i).
Proof. unfold incnmaster. repeat keeps_step. Qed.

Lemma keeps_togglefloating : keeps togglefloating.
Proof. unfold togglefloating. repeat keeps_step. Qed.

Lemma keeps_mon_walk ms stop fuel : ∀ i, keeps (mon_walk ms stop i fuel).
Proof.
  induction fuel as [|fuel IH]; intros i; simpl; repeat keeps_step; try apply IH.
Qed.
#[local] Hint Resolve keeps_mon_walk : keeps.

Lemma keeps_dirtomon d : keeps (dirtomon d).
Proof. unfold dirtomon. repeat keeps_step. Qed.
#[local] Hint Resolve keeps_dirtomon : keeps.

Section Keeps.
Variable X : XServer.

Lemma keeps_grabbuttons p b : keeps (grabbuttons p b).
Proof. unfold grabbuttons. repeat keeps_step. Qed.
Hint Resolve keeps_grabbuttons : keeps.

Lemma keeps_sendevent p a : keeps (sendevent X p a).
Proof. unfold sendevent. repeat keeps_step. Qed.
Hint Resolve keeps_sendevent : keeps.

Lemma keeps_setfocus p : keeps (setfocus X p).
Proof. unfold setfocus. repeat keeps_step. Qed.
Hint Resolve keeps_setfocus : keeps.

Lemma keeps_seturgent p u : keeps (seturgent X p u).
Proof. unfold seturgent. repeat keeps_step. Qed.
Hint Resolve keeps_seturgent : keeps.

Lemma keeps_unfocus c b : keeps (unfocus c b).
Proof. unfold unfocus. repeat keeps_step. Qed.
Hint Resolve keeps_unfocus : keeps.

Lemma keeps_focus c : keeps (focus X c).
Proof. unfold focus. repeat keeps_step. Qed.
Hint Resolve keeps_focus : keeps.

Lemma keeps_pop p : keeps (pop X p).
Proof. unfold pop. repeat keeps_step. Qed.
Hint Resolve keeps_pop : keeps.

Lemma keeps_zoom : keeps (zoom X).
Proof. unfold zoom. repeat keeps_step. Qed.

Lemma keeps_togglefullscr : keeps togglefullscr.
Proof. unfold togglefullscr. repeat keeps_step. Qed.

Lemma keeps_keyrelease : keeps keyrelease.
Proof. unfold keyrelease. repeat keeps_step. Qed.

Lemma keeps_combotag ui : keeps (combotag X ui).
Proof. unfold combotag. repeat keeps_step. Qed.

Lemma keeps_comboview ui : keeps (comboview X ui).
Proof. unfold comboview. repeat keeps_step. Qed.

Lemma keeps_tag ui : keeps (tag X ui).
Proof. unfold tag. repeat keeps_step. Qed.

Lemma keeps_toggletag ui : keeps (toggletag X ui).
Proof. unfold toggletag. repeat keeps_step. Qed.

Lemma keeps_toggleview ui : keeps (toggleview X ui).
Proof. unfold toggleview. repeat keeps_step. Qed.

Lemma keeps_view ui : keeps (view X ui).
Proof. unfold view. repeat keeps_step. Qed.

Lemma keeps_configurerequest ev : keeps (configurerequest ev).
Proof. unfold configurerequest. repeat keeps_step. Qed.

Lemma keeps_last_visible l : ∀ c, keeps (last_visible l c).
Proof. induction l as [|p l IH]; intros c; simpl; repeat keeps_step; try apply IH. Qed.
Hint Resolve keeps_last_visible : keeps.

Lemma keeps_focusstack i : keeps (focusstack X i).
Proof. unfold focusstack. repeat keeps_step. Qed.

Lemma keeps_focusmon i : keeps (focusmon X i).
Proof. unfold focusmon. repeat keeps_step. Qed.

Lemma keeps_sendmon p m : keeps (sendmon X p m).
Proof. unfold sendmon. repeat keeps_step. Qed.
Hint Resolve keeps_sendmon : keeps.

Lemma keeps_tagmon i : keeps (tagmon X i).
Proof. unfold tagmon. repeat keeps_step. Qed.

Lemma keeps_clientmessage cme : keeps (clientmessage X cme).
Proof. unfold clientmessage. repeat keeps_step. Qed.

End Keeps.

(** ** Tag masks *)

(** A tag mask that is not empty and names only tags that exist. *)
Definition mask_ok (t : Z) : Prop := t ≠ 0 ∧ Z.land t TAGMASK = t.

(** Every client has such tags and both tag sets of every monitor are such. *)
Definition tagged (s : State) : Prop :=
  (∀ p c, heap s !! p = Some c -> mask_ok (Client.tags c))
  ∧ (∀ i m, mons s !! i = Some m ->
       mask_ok (fst (Monitor.tagset m)) ∧ mask_ok (snd (Monitor.tagset m))).

(** The addresses from [brk] on are not in use. *)
Definition fresh (s : State) : Prop :=
  ∀ p : cptr, (brk s <= p)%positive -> heap s !! p = None.

(** The invariant of the handlers. *)
Definition good (s : State) : Prop := inv s ∧ tagged s ∧ fresh s.

Lemma mask_range t : Z.land t TAGMASK = t -> 0 <= t < 2 ^ 9.
Proof.
  change TAGMASK with (Z.ones 9). rewrite Z.land_ones by lia. intros <-.
  apply Z.mod_pos_bound. lia.
Qed.

Lemma mask_ok_tagbits ui : tagbits ui ≠ 0 -> mask_ok (tagbits ui).
Proof.
  intros H. split; [exact H|]. rewrite tagbits_land, <- Z.land_assoc. f_equal.
Qed.

Lemma tagbits_mask ui : Z.land (tagbits ui) TAGMASK = tagbits ui.
Proof. rewrite tagbits_land, <- Z.land_assoc. f_equal. Qed.

Lemma mask_ok_lor a b : mask_ok a -> Z.land b TAGMASK = b -> mask_ok (Z.lor a b).
Proof.
  intros [Ha Ea] Eb. split.
  - intros H. apply Z.lor_eq_0_iff in H as [H _]. contradiction.
  - now rewrite Z.land_lor_distr_l, Ea, Eb.
Qed.

Lemma land_lxor_distr a b c : Z.land (Z.lxor a b) c = Z.lxor (Z.land a c) (Z.land b c).
Proof.
  apply Z.bits_inj'. intros n Hn. rewrite Z.lxor_spec, !Z.land_spec, Z.lxor_spec.
  now destruct (Z.testbit a n), (Z.testbit b n), (Z.testbit c n).
Qed.

Lemma mask_lxor a b :
  Z.land a TAGMASK = a -> Z.land b TAGMASK = b ->
  uint_of (Z.lxor a b) = Z.lxor a b ∧ Z.land (Z.lxor a b) TAGMASK = Z.lxor a b.
Proof.
  intros Ea Eb.
  assert (Z.land (Z.lxor a b) TAGMASK = Z.lxor a b) as E
    by now rewrite land_lxor_distr, Ea, Eb.
  split; [|exact E]. apply mask_range in E. unfold uint_of. apply Z.mod_small. lia.
Qed.

Lemma mask_ok_lxor a b :
  Z.land a TAGMASK = a -> Z.land b TAGMASK = b -> uint_of (Z.lxor a b) ≠ 0 ->
  mask_ok (uint_of (Z.lxor a b)).
Proof.
  intros Ea Eb H. destruct (mask_lxor a b Ea Eb) as [E1 E2]. rewrite E1 in *. now split.
Qed.

Lemma same_clients_fresh s s' : same_clients s s' -> fresh s -> fresh s'.
Proof.
  intros (Hb & Hd & _) Hf p Hp. rewrite Hb in Hp. apply Hf in Hp.
  apply not_elem_of_dom. rewrite Hd. now apply not_elem_of_dom.
Qed.

Lemma same_clients_lookup s s' p c' :
  same_clients s s' -> heap s' !! p = Some c' -> ∃ c, heap s !! p = Some c.
Proof.
  intros (_ & Hd & _) Hc. apply (elem_of_dom_2 (heap s')) in Hc. rewrite Hd in Hc.
  now apply elem_of_dom in Hc.
Qed.

Lemma mask_ok_seltagset m :
  mask_ok (fst (Monitor.tagset m)) ∧ mask_ok (snd (Monitor.tagset m)) ->
  mask_ok (Monitor.seltagset m).
Proof.
  intros [H1 H2]. unfold Monitor.seltagset, Monitor.tagset_at. now destruct (Monitor.seltags m).
Qed.

Lemma mask_ok_set_tagset_at b v m :
  mask_ok (fst (Monitor.tagset m)) ∧ mask_ok (snd (Monitor.tagset m)) -> mask_ok v ->
  mask_ok (fst (Monitor.tagset (Monitor.set_tagset_at b v m)))
  ∧ mask_ok (snd (Monitor.tagset (Monitor.set_tagset_at b v m))).
Proof. intros [H1 H2] Hv. destruct b; simpl; auto. Qed.

(** A handler that keeps the clients' tags, and the monitors up to the
    selected one, keeps the tag masks when the selected monitor's are. *)
Lemma tagged_views s s' m' :
  tagged s -> same_clients s s' ->
  (∀ p c, heap s !! p = Some c ->
     ∃ c', heap s' !! p = Some c' ∧ Client.tags c' = Client.tags c) ->
  mons s' !! selmon s = Some m' ->
  mask_ok (fst (Monitor.tagset m')) ∧ mask_ok (snd (Monitor.tagset m')) ->
  (∀ i, i ≠ selmon s -> mons s' !! i = mons s !! i) ->
  tagged s'.
Proof.
  intros [Hc Hm] Hk Hh Hm' Hok Ho. split.
  - intros p c' Hc'. destruct (same_clients_lookup _ _ _ _ Hk Hc') as [c Hc0].
    destruct (Hh p c Hc0) as (c1 & Hc1 & Et). rewrite Hc' in Hc1. injection Hc1 as <-.
    rewrite Et. eauto.
  - intros i m Hi. destruct (decide (i = selmon s)) as [->|Hne].
    + rewrite Hm' in Hi. now injection Hi as <-.
    + rewrite (Ho i Hne) in Hi. eauto.
Qed.

(** The same for a handler that retags one client. *)
Lemma tagged_retag s s' p c' m' m :
  tagged s -> same_clients s s' ->
  heap s' !! p = Some c' -> mask_ok (Client.tags c') ->
  (∀ q c0, q ≠ p -> heap s !! q = Some c0 ->
     ∃ c1, heap s' !! q = Some c1 ∧ Client.tags c1 = Client.tags c0) ->
  mons s !! selmon s = Some m -> mons s' !! selmon s = Some m' ->
  Monitor.tagset m' = Monitor.tagset m ->
  (∀ i, i ≠ selmon s -> mons s' !! i = mons s !! i) ->
  tagged s'.
Proof.
  intros [Hc Hm] Hk Hp Hok Hh Hm0 Hm' Et Ho. split.
  - intros q c1 Hc1. destruct (decide (q = p)) as [->|Hne].
    + rewrite Hp in Hc1. now injection Hc1 as <-.
    + destruct (same_clients_lookup _ _ _ _ Hk Hc1) as [c Hc0].
      destruct (Hh q c Hne Hc0) as (c2 & Hc2 & Et2). rewrite Hc1 in Hc2.
      injection Hc2 as <-. rewrite Et2. eauto.
  - intros i mo Hi. destruct (decide (i = selmon s)) as [->|Hne].
    + rewrite Hm' in Hi. injection Hi as <-. rewrite Et. eauto.
    + rewrite (Ho i Hne) in Hi. eauto.
Qed.

Section Good.
Variable X : XServer.

Lemma good_selmon s : good s -> ∃ m, mons s !! selmon s = Some m.
Proof. intros [[[[H _] _] _] _]. exact H. Qed.

Lemma good_sel s m p :
  good s -> mons s !! selmon s = Some m -> Monitor.sel m = Some p ->
  ∃ c, heap s !! p = Some c.
Proof.
  intros [[[[_ H] _] _] _] Hm Hs. destruct (H _ _ Hm) as (_ & _ & H3). exact (H3 p Hs).
Qed.

Lemma view_good ui s : good s -> tamed s -> ∃ s', view X ui s = Some (tt, s') ∧ good s'.
Proof.
  intros Hg Htm. destruct (good_selmon s Hg) as [m Hm].
  destruct (decide (tagbits ui = Monitor.seltagset m)) as [E|Hne].
  - exists s. split; [|exact Hg]. unfold view. repeat mstep.
    now rewrite (proj2 (Z.eqb_eq _ _) E).
  - destruct Hg as ([Hl Ht] & Htg & Hf).
    destruct (view_ok X s m ui Hl Htm Hm Hne)
      as (s' & m' & E & Hinv & _ & _ & Hm' & _ & Hts & _ & Hh & Ho).
    pose proof (keeps_view X ui _ _ _ E) as Hk.
    exists s'. split; [exact E|]. split; [exact Hinv|]. split.
    + apply (tagged_views s s' m'); try assumption. rewrite Hts.
      pose proof (proj2 Htg _ _ Hm) as Hok. unfold view_mon.
      destruct (tagbits ui =? 0) eqn:Ez; [exact Hok|].
      apply mask_ok_set_tagset_at; [exact Hok|]. apply mask_ok_tagbits.
      now apply Z.eqb_neq.
    + exact (same_clients_fresh _ _ Hk Hf).
Qed.

Lemma toggleview_good ui s : good s -> tamed s -> ∃ s', toggleview X ui s = Some (tt, s') ∧ good s'.
Proof.
  intros Hg Htm. destruct (good_selmon s Hg) as [m Hm].
  destruct (decide (uint_of (Z.lxor (Monitor.seltagset m) (tagbits ui)) = 0)) as [E|Hne].
  - exists s. split; [|exact Hg]. unfold toggleview. repeat mstep.
    now rewrite (proj2 (Z.eqb_eq _ _) E).
  - destruct Hg as ([Hl Ht] & Htg & Hf).
    destruct (toggleview_ok X s m ui Hl Htm Hm Hne)
      as (s' & m' & E & Hinv & _ & _ & Hm' & _ & Hts & _ & Hh & Ho).
    pose proof (keeps_toggleview X ui _ _ _ E) as Hk.
    exists s'. split; [exact E|]. split; [exact Hinv|]. split.
    + apply (tagged_views s s' m'); try assumption. rewrite Hts.
      pose proof (proj2 Htg _ _ Hm) as Hok.
      apply mask_ok_set_tagset_at; [exact Hok|].
      apply mask_ok_lxor; [apply (mask_ok_seltagset m Hok)|apply tagbits_mask|exact Hne].
    + exact (same_clients_fresh _ _ Hk Hf).
Qed.

Lemma comboview_good ui s : good s -> tamed s -> ∃ s', comboview X ui s = Some (tt, s') ∧ good s'.
Proof.
  intros ([Hl Ht] & Htg & Hf) Htm. destruct (proj1 (proj1 Hl)) as [m Hm].
  destruct (comboview_inv X s m ui Hl Htm Hm)
    as (s' & m' & E & Hinv & _ & _ & Hm' & _ & Hts & _ & Hh & Ho).
  pose proof (keeps_comboview X ui _ _ _ E) as Hk.
  exists s'. split; [exact E|]. split; [exact Hinv|]. split.
  - apply (tagged_views s s' m'); try assumption. rewrite Hts.
    pose proof (proj2 Htg _ _ Hm) as Hok. unfold comboview_mon.
    destruct (combo s).
    + apply mask_ok_set_tagset_at; [exact Hok|].
      apply mask_ok_lor; [apply (mask_ok_seltagset m Hok)|apply tagbits_mask].
    + destruct (tagbits ui =? 0) eqn:Ez; [exact Hok|].
      apply (mask_ok_set_tagset_at _ _ (Monitor.set_seltags _ m)); [exact Hok|].
      apply mask_ok_tagbits. now apply Z.eqb_neq.
  - exact (same_clients_fresh _ _ Hk Hf).
Qed.

Lemma tag_good ui s : good s -> tamed s -> ∃ s', tag X ui s = Some (tt, s') ∧ good s'.
Proof.
  intros Hg Htm. destruct (good_selmon s Hg) as [m Hm].
  destruct (Monitor.sel m) as [p|] eqn:Hsel;
    [|exists s; split; [|exact Hg]; unfold tag; repeat mstep; now rewrite Hsel].
  destruct (decide (tagbits ui = 0)) as [E|Hne].
  { exists s. split; [|exact Hg]. unfold tag. repeat mstep. now rewrite Hsel, E. }
  destruct (good_sel s m p Hg Hm Hsel) as [c Hc].
  destruct Hg as ([Hl Ht] & Htg & Hf).
  destruct (tag_ok X s m p c ui Hl Htm Hm Hsel Hc Hne)
    as (s' & m' & c' & E & Hinv & _ & _ & Hm' & _ & Hts & _ & Hc' & Etags & Hh & Ho).
  pose proof (keeps_tag X ui _ _ _ E) as Hk.
  exists s'. split; [exact E|]. split; [exact Hinv|]. split.
  - apply (tagged_retag s s' p c' m' m); try assumption.
    rewrite Etags. now apply mask_ok_tagbits.
  - exact (same_clients_fresh _ _ Hk Hf).
Qed.

Lemma toggletag_good ui s : good s -> tamed s -> ∃ s', toggletag X ui s = Some (tt, s') ∧ good s'.
Proof.
  intros Hg Htm. destruct (good_selmon s Hg) as [m Hm].
  destruct (Monitor.sel m) as [p|] eqn:Hsel;
    [|exists s; split; [|exact Hg]; unfold toggletag; repeat mstep; now rewrite Hsel].
  destruct (good_sel s m p Hg Hm Hsel) as [c Hc].
  destruct (decide (uint_of (Z.lxor (Client.tags c) (tagbits ui)) = 0)) as [E|Hne].
  { exists s. split; [|exact Hg]. unfold toggletag. repeat mstep. rewrite Hsel.
    rewrite (bind_run _ _ _ _ _ (deref_Some _ _ _ Hc)). now rewrite E. }
  destruct Hg as ([Hl Ht] & Htg & Hf).
  destruct (toggletag_ok X s m p c ui Hl Htm Hm Hsel Hc Hne)
    as (s' & m' & c' & E & Hinv & _ & _ & Hm' & _ & Hts & _ & Hc' & Etags & Hh & Ho).
  pose proof (keeps_toggletag X ui _ _ _ E) as Hk.
  exists s'. split; [exact E|]. split; [exact Hinv|]. split.
  - apply (tagged_retag s s' p c' m' m); try assumption.
    rewrite Etags. apply mask_ok_lxor; [apply (proj1 Htg _ _ Hc)|apply tagbits_mask|exact Hne].
  - exact (same_clients_fresh _ _ Hk Hf).
Qed.

Lemma combotag_good ui s : good s -> tamed s -> ∃ s', combotag X ui s = Some (tt, s') ∧ good s'.
Proof.
  intros Hg Htm. destruct (good_selmon s Hg) as [m Hm].
  destruct (Monitor.sel m) as [p|] eqn:Hsel;
    [|exists s; split; [|exact Hg]; unfold combotag; repeat mstep; now rewrite Hsel].
  destruct (decide (tagbits ui = 0)) as [E|Hne].
  { exists s. split; [|exact Hg]. unfold combotag. repeat mstep. now rewrite Hsel, E. }
  destruct (good_sel s m p Hg Hm Hsel) as [c Hc].
  destruct Hg as ([Hl Ht] & Htg & Hf).
  destruct (combotag_ok X s m p c ui Hl Htm Hm Hsel Hc Hne)
    as (s' & m' & c' & E & Hinv & _ & _ & Hm' & _ & Hts & _ & Hc' & Etags & Hh & Ho).
  pose proof (keeps_combotag X ui _ _ _ E) as Hk.
  exists s'. split; [exact E|]. split; [exact Hinv|]. split.
  - apply (tagged_retag s s' p c' m' m); try assumption.
    rewrite Etags. destruct (combo s).
    + apply mask_ok_lor; [apply (proj1 Htg _ _ Hc)|apply tagbits_mask].
    + now apply mask_ok_tagbits.
  - exact (same_clients_fresh _ _ Hk Hf).
Qed.

Lemma keyrelease_good s : good s -> ∃ s', keyrelease s = Some (tt, s') ∧ good s'.
Proof.
  intros Hg. eexists. split; [reflexivity|]. exact Hg.
Qed.

End Good.

(** ** Handlers that write neither a list nor a tag *)

(** What ties a client to the lists, its window, monitor and tags, and
    what decides whether [applysizehints] returns on it, its resize
    increments. *)
Definition links (c : Client) : Client :=
  let z := zero_client in
  {| Client.name := Client.name z; Client.mina := Client.mina z; Client.maxa := Client.maxa z;
     Client.x := Client.x z; Client.y := Client.y z;
     Client.w := Client.w z; Client.h := Client.h z;
     Client.oldx := Client.oldx z; Client.oldy := Client.oldy z;
     Client.oldw := Client.oldw z; Client.oldh := Client.oldh z;
     Client.basew := Client.basew z; Client.baseh := Client.baseh z;
     Client.incw := Client.incw c; Client.inch := Client.inch c;
     Client.maxw := Client.maxw z; Client.maxh := Client.maxh z;
     Client.minw := Client.minw z; Client.minh := Client.minh z;
     Client.bw := Client.bw z; Client.oldbw := Client.oldbw z;
     Client.tags := Client.tags c;
     Client.isfixed := Client.isfixed z;
     Client.isfloating := Client.isfloating z; Client.isurgent := Client.isurgent z;
     Client.neverfocus := Client.neverfocus z; Client.oldstate := Client.oldstate z;
     Client.isfullscreen := Client.isfullscreen z;
     Client.mon := Client.mon c; Client.win := Client.win c |}.

Lemma links_eq c c' :
  links c = links c' ->
  Client.tags c = Client.tags c' ∧ Client.mon c = Client.mon c' ∧ Client.win c = Client.win c'.
Proof.
  intros E. split; [exact (f_equal Client.tags E)|].
  split; [exact (f_equal Client.mon E)|exact (f_equal Client.win E)].
Qed.

Lemma links_tame c c' : links c = links c' -> tame c' -> tame c.
Proof.
  intros E [Hw Hh]. pose proof (f_equal Client.incw E) as Ew.
  pose proof (f_equal Client.inch E) as Eh. simpl in Ew, Eh. split; congruence.
Qed.

Lemma agree_weaken f g s s' :
  (∀ c c', f c = f c' -> g c = g c') -> agree f s s' -> agree g s s'.
Proof.
  intros Hfg A. unfold agree, norm.
  destruct (agree_globals _ _ _ A) as (-> & -> & ->).
  rewrite (agree_mons _ _ _ A), (agree_selmon _ _ _ A), (agree_combo _ _ _ A).
  rewrite (f_equal brk A : brk s = brk s'). f_equal.
  apply map_eq. intros p. rewrite !lookup_fmap.
  pose proof (agree_lookup _ _ _ p A) as E.
  destruct (heap s !! p), (heap s' !! p); simpl in *; try discriminate; [|reflexivity].
  injection E as E. f_equal. now apply Hfg.
Qed.

Lemma agree_geom_links s s' : agree strip_geom s s' -> agree links s s'.
Proof.
  apply agree_weaken. intros c c' E.
  change (links (strip_geom c) = links (strip_geom c')). now rewrite E.
Qed.

(** What ties a client to the lists alone: its window, monitor and tags.
    [updatesizehints] keeps this of a client, and not its increments. *)
Definition ties (c : Client) : Client :=
  let z := zero_client in
  {| Client.name := Client.name z; Client.mina := Client.mina z; Client.maxa := Client.maxa z;
     Client.x := Client.x z; Client.y := Client.y z;
     Client.w := Client.w z; Client.h := Client.h z;
     Client.oldx := Client.oldx z; Client.oldy := Client.oldy z;
     Client.oldw := Client.oldw z; Client.oldh := Client.oldh z;
     Client.basew := Client.basew z; Client.baseh := Client.baseh z;
     Client.incw := Client.incw z; Client.inch := Client.inch z;
     Client.maxw := Client.maxw z; Client.maxh := Client.maxh z;
     Client.minw := Client.minw z; Client.minh := Client.minh z;
     Client.bw := Client.bw z; Client.oldbw := Client.oldbw z;
     Client.tags := Client.tags c;
     Client.isfixed := Client.isfixed z;
     Client.isfloating := Client.isfloating z; Client.isurgent := Client.isurgent z;
     Client.neverfocus := Client.neverfocus z; Client.oldstate := Client.oldstate z;
     Client.isfullscreen := Client.isfullscreen z;
     Client.mon := Client.mon c; Client.win := Client.win c |}.

Lemma ties_eq c c' :
  ties c = ties c' ->
  Client.tags c = Client.tags c' ∧ Client.mon c = Client.mon c' ∧ Client.win c = Client.win c'.
Proof.
  intros E. split; [exact (f_equal Client.tags E)|].
  split; [exact (f_equal Client.mon E)|exact (f_equal Client.win E)].
Qed.

Lemma agree_links_ties s s' : agree links s s' -> agree ties s s'.
Proof.
  apply agree_weaken. intros c c' E.
  change (ties (links c) = ties (links c')). now rewrite E.
Qed.

Lemma agree_ties_lookup s s' p c :
  agree ties s s' -> heap s !! p = Some c ->
  ∃ c', heap s' !! p = Some c' ∧ Client.tags c' = Client.tags c
        ∧ Client.mon c' = Client.mon c ∧ Client.win c' = Client.win c.
Proof.
  intros A Hc. destruct (agree_lookup_Some _ _ _ _ _ A Hc) as (c' & Hc' & E).
  exists c'. split; [exact Hc'|]. now apply ties_eq.
Qed.

Lemma agree_ties_none s s' p : agree ties s s' -> heap s !! p = None -> heap s' !! p = None.
Proof.
  intros A Hn. pose proof (agree_lookup _ _ _ p A) as E. rewrite Hn in E.
  now destruct (heap s' !! p).
Qed.

Lemma agree_ties_visible s s' p : agree ties s s' -> visible s' p = visible s p.
Proof.
  intros A. apply visible_ext.
  - intros c Hc. destruct (agree_ties_lookup _ _ _ _ A Hc) as (c' & Hc' & Et & Em & _).
    eauto.
  - now apply agree_ties_none.
  - intros i. now rewrite (agree_mons _ _ _ A).
Qed.

Lemma agree_ties_owned s s' mi p : agree ties s s' -> owned s mi p -> owned s' mi p.
Proof.
  intros A (c & Hc & Hm). destruct (agree_ties_lookup _ _ _ _ A Hc) as (c' & Hc' & _ & Em & _).
  exists c'. split; [exact Hc'|congruence].
Qed.

Lemma agree_ties_wf s s' : wf s -> agree ties s s' -> wf s'.
Proof.
  intros [Hsm Hwf] Ha.
  rewrite (agree_selmon _ _ _ Ha), (agree_mons _ _ _ Ha) in Hsm.
  split; [exact Hsm|]. intros mi m Hm. rewrite <- (agree_mons _ _ _ Ha) in Hm.
  destruct (Hwf _ _ Hm) as (Hst & Hcl & Hsl). repeat split.
  - eapply Forall_impl; [exact Hst|]. intros q. now apply agree_ties_owned.
  - eapply Forall_impl; [exact Hcl|]. intros q. now apply agree_ties_owned.
  - intros q Hq. destruct (Hsl q Hq) as [c Hc].
    destruct (agree_ties_lookup _ _ _ _ Ha Hc) as (c' & -> & _). eauto.
Qed.

Lemma agree_ties_inv s s' : inv s -> agree ties s s' -> inv s'.
Proof.
  intros [[Hwf Hl] Ht] A. split; [split|].
  - now apply agree_ties_wf with s.
  - intros mi m Hm. rewrite <- (agree_mons _ _ _ A) in Hm. eauto.
  - intros m Hm. rewrite <- (agree_selmon _ _ _ A), <- (agree_mons _ _ _ A) in Hm.
    rewrite (Ht m Hm). apply find_ext. intros q. symmetry. now apply agree_ties_visible.
Qed.

Lemma agree_ties_tagged s s' : tagged s -> agree ties s s' -> tagged s'.
Proof.
  intros [Hc Hm] A. split.
  - intros p c' Hc'.
    destruct (agree_ties_lookup _ _ _ _ (agree_sym _ _ _ A) Hc') as (c & Hc0 & Et & _).
    rewrite <- Et. eauto.
  - intros i m Hi. rewrite <- (agree_mons _ _ _ A) in Hi. eauto.
Qed.

Lemma agree_ties_good s s' : good s -> agree ties s s' -> good s'.
Proof.
  intros (Hi & Ht & Hf) A. split; [now apply agree_ties_inv with s|].
  split; [now apply agree_ties_tagged with s|].
  exact (same_clients_fresh _ _ (agree_same_clients _ _ _ A) Hf).
Qed.

Lemma agree_links_lookup s s' p c :
  agree links s s' -> heap s !! p = Some c ->
  ∃ c', heap s' !! p = Some c' ∧ Client.tags c' = Client.tags c
        ∧ Client.mon c' = Client.mon c ∧ Client.win c' = Client.win c.
Proof. intros A. now apply agree_ties_lookup, agree_links_ties. Qed.

Lemma agree_links_none s s' p : agree links s s' -> heap s !! p = None -> heap s' !! p = None.
Proof. intros A. now apply agree_ties_none, agree_links_ties. Qed.

Lemma agree_links_visible s s' p : agree links s s' -> visible s' p = visible s p.
Proof. intros A. now apply agree_ties_visible, agree_links_ties. Qed.

Lemma agree_links_owned s s' mi p : agree links s s' -> owned s mi p -> owned s' mi p.
Proof. intros A. now apply agree_ties_owned, agree_links_ties. Qed.

Lemma agree_links_valid s s' p : agree links s s' -> valid s p -> valid s' p.
Proof.
  intros A (c & Hc & Hm). destruct (agree_links_lookup _ _ _ _ A Hc) as (c' & Hc' & _ & Em & _).
  exists c'. split; [exact Hc'|]. now rewrite Em, <- (agree_mons _ _ _ A).
Qed.

Lemma agree_links_wf s s' : wf s -> agree links s s' -> wf s'.
Proof. intros H A. apply agree_ties_wf with s; [exact H|now apply agree_links_ties]. Qed.

Lemma agree_links_inv s s' : inv s -> agree links s s' -> inv s'.
Proof. intros H A. apply agree_ties_inv with s; [exact H|now apply agree_links_ties]. Qed.

Lemma agree_links_tagged s s' : tagged s -> agree links s s' -> tagged s'.
Proof. intros H A. apply agree_ties_tagged with s; [exact H|now apply agree_links_ties]. Qed.

Lemma agree_links_good s s' : good s -> agree links s s' -> good s'.
Proof. intros H A. apply agree_ties_good with s; [exact H|now apply agree_links_ties]. Qed.

Lemma agree_links_tamed s s' : tamed s -> agree links s s' -> tamed s'.
Proof.
  intros Ht A p c' Hc'.
  destruct (agree_lookup_Some _ _ _ _ _ (agree_sym _ _ _ A) Hc') as (c & Hc & E).
  exact (links_tame _ _ (eq_sym E) (Ht _ _ Hc)).
Qed.

Lemma agree_links_arrangeable s s' mi :
  agree links s s' -> arrangeable s mi -> arrangeable s' mi.
Proof.
  intros A (m & Hm & Hst & Hcl & Hsl). exists m. rewrite <- (agree_mons _ _ _ A).
  split; [exact Hm|]. repeat split.
  - eapply Forall_impl; [exact Hst|]. intros q. now apply agree_links_valid.
  - eapply Forall_impl; [exact Hcl|]. intros q. now apply agree_links_valid.
  - intros q Hq. destruct (Hsl q Hq) as [c Hc].
    destruct (agree_links_lookup _ _ _ _ A Hc) as (c' & -> & _). eauto.
Qed.

(** A run that only moves clients, from every state with the same links. *)
Lemma safe_links_moves s0 (m : M unit) :
  (∀ s, agree links s0 s -> moves s m) -> safe links s0 m (λ _, True).
Proof.
  intros H s A. destruct (H s A s (agree_refl _ _)) as (a & s' & E & A' & _).
  exists a, s'. split; [exact E|]. split; [now apply agree_geom_links|exact I].
Qed.

Lemma safe_good s (m : M unit) :
  good s -> safe links s m (λ _, True) -> ∃ s', m s = Some (tt, s') ∧ good s'.
Proof.
  intros Hg Hs. destruct (Hs s (agree_refl _ _)) as ([] & s' & E & A & _).
  exists s'. split; [exact E|]. now apply agree_links_good with s.
Qed.

Lemma safe_ties_good s (m : M unit) :
  good s -> safe ties s m (λ _, True) -> ∃ s', m s = Some (tt, s') ∧ good s'.
Proof.
  intros Hg Hs. destruct (Hs s (agree_refl _ _)) as ([] & s' & E & A & _).
  exists s'. split; [exact E|]. now apply agree_ties_good with s.
Qed.

Lemma safe_links_update s0 p (g : Client -> Client) :
  is_Some (heap s0 !! p) -> (∀ c, links (g c) = links c) ->
  safe links s0 (update p g) (λ _, True).
Proof. apply safe_update. Qed.

Lemma safe_links_resizeclient s0 p x y w h :
  valid s0 p -> safe links s0 (resizeclient p x y w h) (λ _, True).
Proof.
  intros Hv. apply safe_links_moves. intros s A. apply moves_resizeclient.
  now apply agree_links_valid with s0.
Qed.

Lemma safe_links_resize s0 p x y w h i :
  tamed s0 -> valid s0 p -> safe links s0 (resize p x y w h i) (λ _, True).
Proof.
  intros Ht Hv. apply safe_links_moves. intros s A. apply moves_resize.
  - now apply agree_links_tamed with s0.
  - now apply agree_links_valid with s0.
Qed.

Lemma safe_links_arrange s0 mi :
  tamed s0 -> arrangeable s0 mi -> safe links s0 (arrange (Some mi)) (λ _, True).
Proof.
  intros Ht Hv. apply safe_links_moves. intros s A. apply moves_arrange.
  - now apply agree_links_tamed with s0.
  - now apply agree_links_arrangeable with s0.
Qed.

(** A run that keeps the links ends, from a state of the invariant none of
    whose clients has a resize increment of -1, in such a state. *)
Lemma safe_sane s (m : M unit) :
  good s -> tamed s -> safe links s m (λ _, True) ->
  ∃ s', m s = Some (tt, s') ∧ good s' ∧ tamed s'.
Proof.
  intros Hg Ht Hs. destruct (Hs s (agree_refl _ _)) as ([] & s' & E & A & _).
  exists s'. split; [exact E|].
  split; [now apply agree_links_good with s|now apply agree_links_tamed with s].
Qed.

Lemma safe_links_configure s0 p :
  valid s0 p -> safe links s0 (configure p) (λ _, True).
Proof.
  intros Hv. apply safe_links_moves. intros s A. apply moves_configure.
  now apply agree_links_valid with s0.
Qed.

Ltac safe_seq := eapply safe_seq with (Q := λ _, True).

Lemma safe_setfullscreen s0 p c0 b :
  wf s0 -> tamed s0 -> heap s0 !! p = Some c0 -> is_Some (mons s0 !! Client.mon c0) ->
  safe links s0 (setfullscreen p b) (λ _, True).
Proof.
  intros Hwf Htm Hc [m0 Hm]. unfold setfullscreen.
  assert (valid s0 p) as Hv by (exists c0; eauto).
  eapply safe_bind; [exact (safe_deref _ _ _ _ Hc)|]. intros c E. simpl in E.
  apply links_eq in E as (_ & Em & _).
  destruct (b && negb (Client.isfullscreen c)).
  - safe_seq; [apply safe_xsend|].
    safe_seq; [apply safe_links_update; [eauto|reflexivity]|].
    eapply safe_bind; [apply safe_getmon; rewrite Em; exact Hm|]. intros ? ->.
    safe_seq; [now apply safe_links_resizeclient|]. apply safe_xsend.
  - destruct (negb b && Client.isfullscreen c); [|now apply safe_ret].
    safe_seq; [apply safe_xsend|].
    safe_seq; [apply safe_links_update; [eauto|reflexivity]|].
    eapply safe_bind; [exact (safe_deref _ _ _ _ Hc)|]. intros c1 E1. simpl in E1.
    apply links_eq in E1 as (_ & Em1 & _).
    safe_seq; [now apply safe_links_resizeclient|].
    rewrite Em1. apply safe_links_arrange; [exact Htm|]. apply wf_arrangeable; eauto.
Qed.

Lemma good_wf s : good s -> wf s.
Proof. intros [[[H _] _] _]. exact H. Qed.

Lemma wf_sel_valid s m p :
  wf s -> mons s !! selmon s = Some m -> Monitor.sel m = Some p ->
  p ∈ Monitor.stack m -> ∃ c, heap s !! p = Some c ∧ Client.mon c = selmon s.
Proof.
  intros [_ H] Hm Hs Hin. destruct (H _ _ Hm) as (Hst & _).
  rewrite Forall_forall in Hst. exact (Hst p Hin).
Qed.

Lemma good_sel_owned s m p :
  good s -> mons s !! selmon s = Some m -> Monitor.sel m = Some p ->
  ∃ c, heap s !! p = Some c ∧ Client.mon c = selmon s.
Proof.
  intros Hg Hm Hs. apply (wf_sel_valid s m p (good_wf s Hg) Hm Hs).
  destruct Hg as [[[_ Hl] _] _]. destruct (Hl _ _ Hm) as (_ & _ & _ & H). now apply H.
Qed.

Lemma togglefullscr_good s :
  good s -> tamed s -> ∃ s', togglefullscr s = Some (tt, s') ∧ good s'.
Proof.
  intros Hg Htm. destruct (good_selmon s Hg) as [m Hm].
  unfold togglefullscr. rewrite bind_gets, (bind_run _ _ _ _ _ (getmon_Some _ _ _ Hm)).
  destruct (Monitor.sel m) as [p|] eqn:Hsel; [|exists s; now split].
  destruct (good_sel_owned s m p Hg Hm Hsel) as (c & Hc & Hmon).
  rewrite (bind_run _ _ _ _ _ (deref_Some _ _ _ Hc)).
  apply safe_good; [exact Hg|].
  apply safe_setfullscreen with c; [now apply good_wf|exact Htm|exact Hc|].
  rewrite Hmon. eauto.
Qed.

Lemma togglefloating_good s :
  good s -> tamed s -> ∃ s', togglefloating s = Some (tt, s') ∧ good s'.
Proof.
  intros Hg Htm. destruct (good_selmon s Hg) as [m Hm].
  unfold togglefloating. rewrite bind_gets, (bind_run _ _ _ _ _ (getmon_Some _ _ _ Hm)).
  destruct (Monitor.sel m) as [p|] eqn:Hsel; [|exists s; now split].
  destruct (good_sel_owned s m p Hg Hm Hsel) as (c & Hc & Hmon).
  rewrite (bind_run _ _ _ _ _ (deref_Some _ _ _ Hc)).
  destruct (Client.isfullscreen c); [exists s; now split|].
  assert (valid s p) as Hv by (exists c; rewrite Hmon; eauto).
  apply safe_good; [exact Hg|].
  safe_seq; [apply safe_links_update; [eauto|reflexivity]|].
  eapply safe_bind; [exact (safe_deref _ _ _ _ Hc)|]. intros c1 _.
  safe_seq; [apply safe_when; now apply safe_links_resize|].
  apply safe_links_arrange; [exact Htm|]. apply wf_arrangeable; [now apply good_wf|eauto].
Qed.

(** A field of a monitor that is neither a list nor a tag set. *)
Lemma good_upd_fields s i m m1 :
  good s -> mons s !! i = Some m ->
  Monitor.stack m1 = Monitor.stack m -> Monitor.clients m1 = Monitor.clients m ->
  Monitor.sel m1 = Monitor.sel m -> Monitor.seltags m1 = Monitor.seltags m ->
  Monitor.tagset m1 = Monitor.tagset m ->
  good (upd_mon i m1 s).
Proof.
  intros ([Hl Ht] & [Htc Htm] & Hf) Hm Est Ecl Esl Est' Ets.
  assert (i < length (mons s))%nat as Hlt by now apply lookup_lt_Some in Hm.
  assert (∀ q, visible (upd_mon i m1 s) q = visible s q) as Hv.
  { intros q. apply visible_ext; [eauto|auto|].
    intros j. simpl. destruct (decide (j = i)) as [->|Hne].
    + rewrite list_lookup_insert_eq by exact Hlt. rewrite Hm. simpl.
      unfold Monitor.seltagset, Monitor.tagset_at. now rewrite Est', Ets.
    + now rewrite list_lookup_insert_ne. }
  split; [split|split].
  - now apply linked_upd_mon with m.
  - intros m' Hm'. simpl in Hm'. rewrite (find_ext _ _ _ Hv).
    destruct (decide (selmon s = i)) as [<-|Hne].
    + rewrite list_lookup_insert_eq in Hm' by exact Hlt.
      injection Hm' as <-. rewrite Esl, Est. exact (Ht m Hm).
    + rewrite list_lookup_insert_ne in Hm' by done. exact (Ht m' Hm').
  - split; [exact Htc|]. intros j mo Hj. simpl in Hj.
    destruct (decide (j = i)) as [->|Hne].
    + rewrite list_lookup_insert_eq in Hj by exact Hlt. injection Hj as <-.
      rewrite Ets. eauto.
    + rewrite list_lookup_insert_ne in Hj by done. eauto.
  - exact Hf.
Qed.

Lemma good_upd_mon s m m1 :
  good s -> mons s !! selmon s = Some m ->
  Monitor.stack m1 = Monitor.stack m -> Monitor.clients m1 = Monitor.clients m ->
  Monitor.sel m1 = Monitor.sel m -> Monitor.seltags m1 = Monitor.seltags m ->
  Monitor.tagset m1 = Monitor.tagset m ->
  good (upd_mon (selmon s) m1 s).
Proof. apply good_upd_fields. Qed.

(** The invariant reads the store, the monitors, [selmon] and [brk]. *)
Lemma good_globals s s' :
  good s -> heap s' = heap s -> mons s' = mons s -> brk s' = brk s ->
  selmon s' = selmon s -> good s'.
Proof.
  intros ([[[Hsm Hwf] Hl] Ht] & [Htc Htm] & Hf) Eh Em Eb Es.
  assert (∀ q, visible s' q = visible s q) as Hv.
  { intros q. unfold visible. now rewrite Eh, Em. }
  split; [split; [split; [split|]|]|split].
  - now rewrite Es, Em.
  - intros mi m Hm. rewrite Em in Hm. unfold owned. rewrite Eh. exact (Hwf mi m Hm).
  - intros mi m Hm. rewrite Em in Hm. eauto.
  - intros m Hm. rewrite Es, Em in Hm. rewrite (find_ext _ _ _ Hv). exact (Ht m Hm).
  - split.
    + intros q c Hc. rewrite Eh in Hc. eauto.
    + intros i m Hm. rewrite Em in Hm. eauto.
  - intros q Hq. rewrite Eh. rewrite Eb in Hq. auto.
Qed.

Lemma good_arrange s mi :
  good s -> tamed s -> is_Some (mons s !! mi) ->
  ∃ s', arrange (Some mi) s = Some (tt, s') ∧ good s'.
Proof.
  intros Hg Htm Hm. apply safe_good; [exact Hg|]. apply safe_links_arrange; [exact Htm|].
  apply wf_arrangeable; [now apply good_wf|exact Hm].
Qed.

Lemma setmfact_good a s : good s -> tamed s -> ∃ s', setmfact a s = Some (tt, s') ∧ good s'.
Proof.
  intros Hg Htm. destruct a as [af|]; [|exists s; now split].
  destruct (good_selmon s Hg) as [m Hm].
  unfold setmfact. rewrite bind_gets, (bind_run _ _ _ _ _ (getmon_Some _ _ _ Hm)).
  match goal with |- context [if ?b then _ else _] => destruct b end;
    [exists s; now split|].
  rewrite (bind_run _ _ _ _ _ (updmon_Some _ _ _ _ Hm)).
  apply good_arrange.
  - now apply good_upd_mon with m.
  - exact Htm.
  - simpl. rewrite list_lookup_insert_eq by now apply lookup_lt_Some in Hm. eauto.
Qed.

Lemma incnmaster_good i s : good s -> tamed s -> ∃ s', incnmaster i s = Some (tt, s') ∧ good s'.
Proof.
  intros Hg Htm. destruct (good_selmon s Hg) as [m Hm].
  unfold incnmaster. rewrite bind_gets.
  rewrite (bind_run _ _ _ _ _ (updmon_Some _ _ _ _ Hm)).
  apply good_arrange.
  - now apply good_upd_mon with m.
  - exact Htm.
  - simpl. rewrite list_lookup_insert_eq by now apply lookup_lt_Some in Hm. eauto.
Qed.

(** ** Windows and their clients *)

(** [c->win == w], for a pointer of the store. *)
Definition has_win (s : State) (w : Window) (p : cptr) : bool :=
  match heap s !! p with
  | Some c => Client.win c =? w
  | None => false
  end.

(** The clients in the order [wintoclient] visits them: monitor by
    monitor, each client list from its head. *)
Definition all_clients (s : State) : list cptr := mjoin (Monitor.clients <$> mons s).

Lemma find_win_find s w l :
  Forall (λ p, is_Some (heap s !! p)) l ->
  find_win w l s = Some (List.find (has_win s w) l, s).
Proof.
  induction 1 as [|p l [c Hc] Hl IH]; [reflexivity|]. simpl.
  rewrite (bind_run _ _ _ _ _ (deref_Some _ _ _ Hc)). unfold has_win at 1. rewrite Hc.
  destruct (Client.win c =? w); [reflexivity|exact IH].
Qed.

Lemma find_app {A} (f : A -> bool) l1 l2 :
  List.find f (l1 ++ l2)
  = match List.find f l1 with Some a => Some a | None => List.find f l2 end.
Proof. induction l1 as [|a l1 IH]; [reflexivity|]. simpl. now destruct (f a). Qed.

Lemma wintoclient_mons_find s w ms :
  Forall (λ m, Forall (λ p, is_Some (heap s !! p)) (Monitor.clients m)) ms ->
  wintoclient_mons w ms s
  = Some (List.find (has_win s w) (mjoin (Monitor.clients <$> ms)), s).
Proof.
  induction 1 as [|m ms Hm Hms IH]; [reflexivity|]. simpl.
  rewrite (bind_run _ _ _ _ _ (find_win_find s w _ Hm)), find_app.
  destruct (List.find (has_win s w) (Monitor.clients m)); [reflexivity|exact IH].
Qed.

Lemma wf_clients_stored s :
  wf s -> Forall (λ m, Forall (λ p, is_Some (heap s !! p)) (Monitor.clients m)) (mons s).
Proof.
  intros [_ H]. apply Forall_lookup. intros i m Hm. destruct (H _ _ Hm) as (_ & Hcl & _).
  eapply Forall_impl; [exact Hcl|]. intros p (c & Hc & _). eauto.
Qed.

Lemma wintoclient_find s w :
  wf s -> wintoclient w s = Some (List.find (has_win s w) (all_clients s), s).
Proof.
  intros Hwf. unfold wintoclient. rewrite bind_gets.
  now apply wintoclient_mons_find, wf_clients_stored.
Qed.

Lemma all_clients_elem s p :
  p ∈ all_clients s ↔ ∃ mi m, mons s !! mi = Some m ∧ p ∈ Monitor.clients m.
Proof.
  unfold all_clients. rewrite list_elem_of_join. split.
  - intros (l & Hp & Hl). apply list_elem_of_fmap in Hl as (m & -> & Hm).
    apply list_elem_of_lookup in Hm as [mi Hm]. eauto.
  - intros (mi & m & Hm & Hp). exists (Monitor.clients m). split; [exact Hp|].
    apply list_elem_of_fmap. exists m. split; [reflexivity|].
    now apply list_elem_of_lookup_2 with mi.
Qed.

Lemma find_none {A} (f : A -> bool) l a : List.find f l = None -> a ∈ l -> f a = false.
Proof.
  intros H Ha. apply list_elem_of_In in Ha. exact (List.find_none f l H a Ha).
Qed.

(** X8: [wintoclient] on a well-formed state returns, leaves the state as
    it is, and finds a client exactly when some client on a monitor's
    client list has the window: the client it returns is on a client list
    and has the window, and when it returns NULL no client on any client
    list has the window. *)
Theorem wintoclient_finds (s : State) (w : Window) :
  wf s ->
  ∃ r, wintoclient w s = Some (r, s)
       ∧ match r with
         | Some p => ∃ mi m c, mons s !! mi = Some m ∧ p ∈ Monitor.clients m
                               ∧ heap s !! p = Some c ∧ Client.win c = w
                               ∧ Client.mon c = mi
         | None => ∀ mi m p c, mons s !! mi = Some m -> p ∈ Monitor.clients m ->
                               heap s !! p = Some c -> Client.win c ≠ w
         end.
Proof.
  intros Hwf. exists (List.find (has_win s w) (all_clients s)).
  split; [now apply wintoclient_find|].
  destruct (List.find (has_win s w) (all_clients s)) as [p|] eqn:E.
  - apply find_elem in E as [Hin Hw]. apply all_clients_elem in Hin as (mi & m & Hm & Hp).
    destruct Hwf as [_ H]. destruct (H _ _ Hm) as (_ & Hcl & _).
    rewrite Forall_forall in Hcl. destruct (Hcl p Hp) as (c & Hc & Hmon).
    exists mi, m, c. unfold has_win in Hw. rewrite Hc in Hw.
    apply Z.eqb_eq in Hw. auto.
  - intros mi m p c Hm Hp Hc Hw.
    assert (has_win s w p = false) as Hf.
    { apply (find_none _ _ _ E). apply all_clients_elem. eauto. }
    unfold has_win in Hf. rewrite Hc in Hf. apply Z.eqb_neq in Hf. contradiction.
Qed.

(** What the handlers use of it. *)
Lemma wintoclient_listed s w :
  wf s ->
  ∃ r, wintoclient w s = Some (r, s)
       ∧ ∀ p, r = Some p ->
           ∃ mi m c, mons s !! mi = Some m ∧ p ∈ Monitor.clients m
                     ∧ heap s !! p = Some c ∧ Client.mon c = mi ∧ Client.win c = w.
Proof.
  intros Hwf. exists (List.find (has_win s w) (all_clients s)).
  split; [now apply wintoclient_find|]. intros p E.
  apply find_elem in E as [Hin Hw]. apply all_clients_elem in Hin as (mi & m & Hm & Hp).
  destruct Hwf as [_ H]. destruct (H _ _ Hm) as (_ & Hcl & _).
  rewrite Forall_forall in Hcl. destruct (Hcl p Hp) as (c & Hc & Hmon).
  exists mi, m, c. unfold has_win in Hw. rewrite Hc in Hw. apply Z.eqb_eq in Hw. auto.
Qed.

Lemma wintoclient_ok s w :
  wf s ->
  ∃ r, wintoclient w s = Some (r, s)
       ∧ ∀ p, r = Some p -> ∃ c, heap s !! p = Some c ∧ is_Some (mons s !! Client.mon c).
Proof.
  intros Hwf. destruct (wintoclient_listed s w Hwf) as (r & E & H).
  exists r. split; [exact E|]. intros p Hp.
  destruct (H p Hp) as (mi & m & c & Hm & _ & Hc & Hmon & _).
  exists c. split; [exact Hc|]. rewrite Hmon. eauto.
Qed.

Lemma safe_links_ISVISIBLE s0 p :
  valid s0 p -> safe links s0 (ISVISIBLE p) (λ _, True).
Proof.
  intros Hv s A. exists (visible s p), s.
  split; [apply ISVISIBLE_visible; now apply agree_links_valid with s0|].
  split; [apply agree_refl|exact I].
Qed.

Lemma safe_links_deref s0 p :
  is_Some (heap s0 !! p) -> safe links s0 (deref p) (λ _, True).
Proof.
  intros [c Hc]. eapply safe_weaken; [exact (safe_deref _ _ _ _ Hc)|]. done.
Qed.

Section Requests.
Variable X : XServer.

Lemma configurerequest_good ev s :
  good s -> ∃ s', configurerequest ev s = Some (tt, s') ∧ good s'.
Proof.
  intros Hg. pose proof (good_wf s Hg) as Hwf.
  destruct (wintoclient_ok s (ev_window ev) Hwf) as (r & E & Hr).
  unfold configurerequest. rewrite (bind_run _ _ _ _ _ E).
  apply safe_good; [exact Hg|].
  safe_seq; [|apply safe_xsend].
  destruct r as [p|]; [|apply safe_xsend].
  destruct (Hr p eq_refl) as (c & Hc & m & Hm).
  assert (valid s p) as Hv by (exists c; eauto).
  assert (is_Some (heap s !! p)) as Hp by eauto.
  eapply safe_bind; [exact (safe_deref _ _ _ _ Hc)|]. intros cl Ecl. simpl in Ecl.
  apply links_eq in Ecl as (_ & Em & _).
  destruct (has_bits (ev_value_mask ev) CWBorderWidth);
    [apply safe_links_update; [exact Hp|reflexivity]|].
  destruct (Client.isfloating cl); [|now apply safe_links_configure].
  eapply safe_bind; [apply safe_getmon; rewrite Em; exact Hm|]. intros ? ->.
  safe_seq; [apply safe_when, safe_links_update; [exact Hp|reflexivity]|].
  safe_seq; [apply safe_when, safe_links_update; [exact Hp|reflexivity]|].
  safe_seq; [apply safe_when, safe_links_update; [exact Hp|reflexivity]|].
  safe_seq; [apply safe_when, safe_links_update; [exact Hp|reflexivity]|].
  eapply safe_bind; [now apply safe_links_deref|]. intros c1 _.
  safe_seq; [apply safe_when, safe_links_update; [exact Hp|reflexivity]|].
  eapply safe_bind; [now apply safe_links_deref|]. intros c2 _.
  safe_seq; [apply safe_when, safe_links_update; [exact Hp|reflexivity]|].
  safe_seq; [apply safe_when; now apply safe_links_configure|].
  eapply safe_bind; [now apply safe_links_ISVISIBLE|]. intros v _.
  eapply safe_bind; [now apply safe_links_deref|]. intros c3 _.
  apply safe_when, safe_xsend.
Qed.

Lemma safe_seturgent s0 p u :
  is_Some (heap s0 !! p) -> safe links s0 (seturgent X p u) (λ _, True).
Proof.
  intros Hp. unfold seturgent.
  safe_seq; [apply safe_links_update; [exact Hp|reflexivity]|].
  eapply safe_bind; [now apply safe_links_deref|]. intros c _.
  destruct (XGetWMHints X (Client.win c)); [apply safe_xsend|now apply safe_ret].
Qed.

Lemma clientmessage_good cme s :
  good s -> tamed s -> ∃ s', clientmessage X cme s = Some (tt, s') ∧ good s'.
Proof.
  intros Hg Htm. pose proof (good_wf s Hg) as Hwf.
  destruct (wintoclient_ok s (cm_window cme) Hwf) as (r & E & Hr).
  unfold clientmessage. rewrite (bind_run _ _ _ _ _ E).
  destruct r as [p|]; [|exists s; now split].
  destruct (Hr p eq_refl) as (c & Hc & Hm).
  apply safe_good; [exact Hg|].
  destruct (cm_message_type cme).
  - apply safe_when.
    eapply safe_bind; [now apply safe_links_deref|]. intros cl _.
    now apply safe_setfullscreen with c.
  - destruct (good_selmon s Hg) as [mo Hmo].
    eapply safe_bind; [apply safe_gets|]. { intros s1 A. symmetry. apply (agree_selmon _ _ _ A). }
    intros ? ->.
    eapply safe_bind; [apply safe_getmon; exact Hmo|]. intros ? ->.
    eapply safe_bind; [now apply safe_links_deref|]. intros cl _.
    apply safe_when. apply safe_seturgent. eauto.
  - now apply safe_ret.
Qed.

End Requests.

(** ** Handlers that reorder a list *)

(** The invariant up to the choice of [sel] on the selected monitor: what
    holds between a handler's writes to the lists and its [focus]. *)
Definition sound (s : State) : Prop := linked s ∧ tagged s ∧ fresh s.

Lemma good_sound s : good s -> sound s.
Proof. intros ([Hl _] & Ht & Hf). now split. Qed.

Lemma tagged_focus_post s s' : tagged s -> focus_post s s' -> tagged s'.
Proof.
  intros [Hc Hm] (_ & _ & _ & _ & _ & _ & Hh & m & m' & Hm0 & Ems & Est & _). split.
  - intros p c' Hc'. destruct (unurgent_lookup _ _ _ _ (eq_sym Hh) Hc') as (c & Hc0 & E).
    rewrite <- (f_equal Client.tags E : Client.tags c = Client.tags c'). eauto.
  - intros i mo Hi. rewrite Ems in Hi. destruct (decide (i = selmon s)) as [->|Hne].
    + rewrite list_lookup_insert_eq in Hi by now apply lookup_lt_Some in Hm0.
      injection Hi as <-. rewrite (f_equal Monitor.tagset Est : Monitor.tagset m' = Monitor.tagset m). eauto.
    + rewrite list_lookup_insert_ne in Hi by done. eauto.
Qed.

(** [focus] from a state with linked lists ends in a state of the invariant. *)
Lemma focus_good X c s m :
  sound s -> mons s !! selmon s = Some m -> (∀ q, c = Some q -> q ∈ Monitor.stack m) ->
  ∃ s', focus X c s = Some (tt, s') ∧ good s' ∧ focus_post s s'
        ∧ mons s' = <[selmon s:=raised (focus_choice s c m) m]> (mons s).
Proof.
  intros (Hl & Ht & Hf) Hm Hc.
  destruct (focus_inv X c s m Hl Hm Hc) as (s' & E & Hp & Hinv & Ems & _).
  exists s'. split; [exact E|]. split; [|auto]. split; [exact Hinv|].
  split; [now apply tagged_focus_post with s|].
  exact (same_clients_fresh _ _ (focus_post_same_clients _ _ Hp) Hf).
Qed.

(** New lists for a monitor, made of its clients. *)
Lemma sound_upd_owned s i m1 :
  sound s -> (i < length (mons s))%nat -> lists_ok m1 ->
  Forall (owned s i) (Monitor.stack m1) ->
  mask_ok (fst (Monitor.tagset m1)) ∧ mask_ok (snd (Monitor.tagset m1)) ->
  sound (upd_mon i m1 s).
Proof.
  intros ([[Hsm Hwf] Hl] & [Htc Htm] & Hf) Hlt Hok Ost Hts.
  rewrite Forall_forall in Ost.
  pose proof Hok as (_ & _ & Hcs & Hsel).
  split; [split; [split|]|split].
  - simpl. apply lookup_lt_is_Some. rewrite length_insert.
    now apply lookup_lt_is_Some.
  - intros mi mo Hmo. simpl in Hmo. destruct (decide (mi = i)) as [->|Hne].
    + rewrite list_lookup_insert_eq in Hmo by exact Hlt. injection Hmo as <-.
      repeat split.
      * apply Forall_forall. intros q Hq. apply Ost. auto.
      * apply Forall_forall. intros q Hq. apply Ost. now apply Hcs.
      * intros q Hq. destruct (Ost q (Hsel q Hq)) as (c & Hc & _). eauto.
    + rewrite list_lookup_insert_ne in Hmo by done. exact (Hwf _ _ Hmo).
  - intros mi mo Hmo. simpl in Hmo. destruct (decide (mi = i)) as [->|Hne].
    + rewrite list_lookup_insert_eq in Hmo by exact Hlt. now injection Hmo as <-.
    + rewrite list_lookup_insert_ne in Hmo by done. eauto.
  - split; [exact Htc|]. intros mi mo Hmo. simpl in Hmo.
    destruct (decide (mi = i)) as [->|Hne].
    + rewrite list_lookup_insert_eq in Hmo by exact Hlt. now injection Hmo as <-.
    + rewrite list_lookup_insert_ne in Hmo by done. eauto.
  - exact Hf.
Qed.

(** New lists for a monitor, made of clients it had. *)
Lemma sound_upd_lists s i m m1 :
  sound s -> mons s !! i = Some m -> lists_ok m1 ->
  (∀ q, q ∈ Monitor.stack m1 -> q ∈ Monitor.stack m) ->
  Monitor.tagset m1 = Monitor.tagset m ->
  sound (upd_mon i m1 s).
Proof.
  intros Hs Hm Hok Hsub Ets. pose proof Hs as ([[_ Hwf] _] & [_ Htm] & _).
  apply sound_upd_owned; [exact Hs|now apply lookup_lt_Some in Hm|exact Hok| |].
  - destruct (Hwf _ _ Hm) as (Ost & _). rewrite Forall_forall in Ost.
    apply Forall_forall. auto.
  - rewrite Ets. eauto.
Qed.

(** The invariant reads the store, the monitors, [selmon] and [brk]. *)
Lemma sound_globals s s' :
  sound s -> heap s' = heap s -> mons s' = mons s -> brk s' = brk s ->
  is_Some (mons s' !! selmon s') -> sound s'.
Proof.
  intros ([[Hsm Hwf] Hl] & [Htc Htm] & Hf) Eh Em Eb Hsel.
  split; [split; [split|]|split].
  - exact Hsel.
  - intros mi m Hm. rewrite Em in Hm. unfold owned. rewrite Eh. exact (Hwf mi m Hm).
  - intros mi m Hm. rewrite Em in Hm. eauto.
  - split.
    + intros q c Hc. rewrite Eh in Hc. eauto.
    + intros i m Hm. rewrite Em in Hm. eauto.
  - intros q Hq. rewrite Eh. rewrite Eb in Hq. auto.
Qed.

(** A write to a client that is on no list. *)
Lemma sound_store_unlisted s p c' :
  sound s -> is_Some (heap s !! p) ->
  (∀ i m, mons s !! i = Some m -> p ∉ Monitor.stack m) ->
  mask_ok (Client.tags c') ->
  sound (set_heap (<[p:=c']> (heap s)) s).
Proof.
  intros ([[Hsm Hwf] Hl] & [Htc Htm] & Hf) Hp Hun Hok.
  assert (∀ i m q, mons s !! i = Some m -> q ∈ Monitor.stack m -> q ≠ p) as Hne.
  { intros i m q Hm Hq ->. exact (Hun i m Hm Hq). }
  split; [split; [split|]|split].
  - exact Hsm.
  - intros mi m Hm. destruct (Hwf _ _ Hm) as (Ost & Ocl & Osl).
    destruct (Hl _ _ Hm) as (_ & _ & Hcs & Hsel).
    rewrite Forall_forall in Ost, Ocl. repeat split.
    + apply Forall_forall. intros q Hq. destruct (Ost q Hq) as (c & Hc & Hmon).
      exists c. simpl. rewrite lookup_insert_ne by (symmetry; eauto). auto.
    + apply Forall_forall. intros q Hq. destruct (Ocl q Hq) as (c & Hc & Hmon).
      exists c. simpl. rewrite lookup_insert_ne; [auto|].
      symmetry. apply (Hne mi m q Hm). now apply Hcs.
    + intros q Hq. simpl. rewrite lookup_insert_ne by (symmetry; eauto). eauto.
  - exact Hl.
  - split; [|exact Htm]. intros q c Hc. simpl in Hc.
    destruct (decide (q = p)) as [->|Hqp].
    + rewrite lookup_insert_eq in Hc. now injection Hc as <-.
    + rewrite lookup_insert_ne in Hc by done. eauto.
  - intros q Hq. simpl. destruct (decide (q = p)) as [->|Hqp].
    + destruct Hp as [c Hc]. pose proof (Hf p Hq) as E. congruence.
    + rewrite lookup_insert_ne by done. auto.
Qed.

(** A client on no list of its monitor put at the head of both. *)
Lemma sound_attach s p c m :
  sound s -> heap s !! p = Some c -> mons s !! Client.mon c = Some m ->
  p ∉ Monitor.stack m ->
  sound (upd_mon (Client.mon c)
           (Monitor.set_stack (p :: Monitor.stack m)
              (Monitor.set_clients (p :: Monitor.clients m) m)) s).
Proof.
  intros Hs Hc Hm Hn. pose proof Hs as ([[_ Hwf] Hl] & [_ Htm] & _).
  destruct (Hl _ _ Hm) as (Hnc & Hns & Hcs & Hsel).
  destruct (Hwf _ _ Hm) as (Ost & _).
  apply sound_upd_owned; [exact Hs|now apply lookup_lt_Some in Hm| | |exact (Htm _ _ Hm)].
  - split; [|split; [|split]]; simpl.
    + apply NoDup_cons. split; [now rewrite Hcs|exact Hnc].
    + apply NoDup_cons. now split.
    + intros q. rewrite !elem_of_cons, Hcs. tauto.
    + intros q Hq. apply list_elem_of_further. auto.
  - simpl. apply Forall_cons. split; [now exists c|exact Ost].
Qed.

Lemma upd_mon_twice i a b s : upd_mon i a (upd_mon i b s) = upd_mon i a s.
Proof. unfold upd_mon, set_mons. simpl. now rewrite list_insert_insert_eq. Qed.

Lemma upd_mon_lookup i a s : (i < length (mons s))%nat -> mons (upd_mon i a s) !! i = Some a.
Proof. intros H. simpl. now apply list_lookup_insert_eq. Qed.

(** [pop(c)] for a client of the selected monitor. *)
Lemma pop_good X s m p :
  good s -> tamed s -> mons s !! selmon s = Some m -> p ∈ Monitor.clients m ->
  ∃ s' m' l, pop X p s = Some (tt, s') ∧ good s'
             ∧ unlink p (Monitor.clients m) = Some l
             ∧ selmon s' = selmon s
             ∧ mons s' !! selmon s = Some m'
             ∧ Monitor.clients m' = p :: l.
Proof.
  intros Hg Htm Hm Hcl. pose proof (good_sound s Hg) as Hs.
  pose proof (good_wf s Hg) as Hwf.
  pose proof Hwf as [_ H]. destruct (H _ _ Hm) as (Ost & Ocl & Osl). clear H.
  destruct (proj1 (Forall_forall _ _) Ocl p Hcl) as (c & Hc & Hmon).
  destruct (unlink_elem p _ Hcl) as (l & Hl & Hlin).
  assert (selmon s < length (mons s))%nat as Hlt by now apply lookup_lt_Some in Hm.
  destruct Hs as ([_ Hlk] & _). pose proof (Hlk _ _ Hm) as (Hnc & Hns & Hcs & Hsl).
  unfold pop, detach, attach. repeat mstep. rewrite Hmon.
  rewrite (bind_run _ _ _ _ _ (getmon_Some _ _ _ Hm)). rewrite Hl.
  rewrite (bind_run _ _ _ _ _ (updmon_Some _ _ _ _ Hm)).
  rewrite bind_bind.
  rewrite (bind_run _ _ _ (c) (upd_mon (selmon s) (Monitor.set_clients l m) s))
    by (apply deref_Some; exact Hc).
  rewrite Hmon.
  rewrite (bind_run _ _ _ _ _ (updmon_Some _ _ _ _ (upd_mon_lookup _ _ _ Hlt))).
  rewrite upd_mon_twice.
  set (m1 := Monitor.set_clients _ (Monitor.set_clients l m)).
  assert (sound (upd_mon (selmon s) m1 s)) as Hs1.
  { apply sound_upd_lists with m; [now apply good_sound|exact Hm| |auto|reflexivity].
    destruct (unlink_NoDup _ _ _ Hnc Hl) as [Hnd Hin].
    split; [exact Hnd|]. split; [exact Hns|]. split; [|exact Hsl].
    intros q. simpl. rewrite Hin. apply Hcs. }
  destruct (focus_good X (Some p) (upd_mon (selmon s) m1 s) m1 Hs1) as (s2 & E2 & Hg2 & Hp2 & Ems).
  { now apply upd_mon_lookup. }
  { intros q [= <-]. simpl. now apply Hcs. }
  rewrite (bind_run _ _ _ _ _ E2).
  assert (owned s2 (selmon s) p) as (c2 & Hc2 & Hmon2).
  { apply (focus_post_owned _ _ _ _ Hp2). exists c. auto. }
  rewrite (bind_run _ _ _ _ _ (deref_Some _ _ _ Hc2)). rewrite Hmon2.
  simpl in Ems. rewrite list_insert_insert_eq in Ems.
  assert (mons s2 !! selmon s = Some (raised (focus_choice (upd_mon (selmon s) m1 s) (Some p) m1) m1))
    as Hm2.
  { rewrite Ems. now apply list_lookup_insert_eq. }
  destruct (good_arrange s2 (selmon s) Hg2) as (s3 & E3 & Hg3);
    [exact (focus_post_tamed (upd_mon (selmon s) m1 s) _ Htm Hp2)|eauto|].
  pose proof (frame_arrange _ _ _ _ E3) as A.
  exists s3, (raised (focus_choice (upd_mon (selmon s) m1 s) (Some p) m1) m1), l.
  split; [exact E3|]. split; [exact Hg3|]. split; [reflexivity|].
  split; [rewrite <- (agree_selmon _ _ _ A); apply Hp2|].
  split; [now rewrite <- (agree_mons _ _ _ A)|].
  now destruct (focus_choice (upd_mon (selmon s) m1 s) (Some p) m1).
Qed.

(** [nexttiled], read off the state. *)
Definition tiles (s : State) (p : cptr) : bool :=
  match heap s !! p with
  | Some c => negb (Client.isfloating c) && visible s p
  | None => false
  end.

Fixpoint from_tiled (s : State) (l : list cptr) : list cptr :=
  match l with
  | [] => []
  | p :: l' => if tiles s p then p :: l' else from_tiled s l'
  end.

Lemma istiled_tiles s p : valid s p -> istiled p s = Some (tiles s p, s).
Proof.
  intros Hv. pose proof Hv as (c & Hc & _). unfold istiled, tiles.
  rewrite (bind_run _ _ _ _ _ (deref_Some _ _ _ Hc)), Hc.
  destruct (Client.isfloating c); [reflexivity|]. now apply ISVISIBLE_visible.
Qed.

Lemma nexttiled_from s l :
  Forall (valid s) l -> nexttiled l s = Some (from_tiled s l, s).
Proof.
  induction 1 as [|p l Hp Hl IH]; [reflexivity|]. simpl.
  rewrite (bind_run _ _ _ _ _ (istiled_tiles _ _ Hp)).
  destruct (tiles s p); [reflexivity|exact IH].
Qed.

Lemma from_tiled_suffix s l p r : from_tiled s l = p :: r -> ∀ q, q ∈ p :: r -> q ∈ l.
Proof.
  induction l as [|a l IH]; [discriminate|]. simpl. destruct (tiles s a).
  - now intros [= -> ->].
  - intros E q Hq. apply list_elem_of_further. now apply IH.
Qed.

Lemma from_tiled_nil s l : (∀ q, q ∈ l -> tiles s q = false) -> from_tiled s l = [].
Proof.
  induction l as [|a l IH]; intros H; [reflexivity|]. simpl.
  rewrite (H a) by apply list_elem_of_here. apply IH. intros q Hq. apply H.
  now apply list_elem_of_further.
Qed.

Lemma from_tiled_cons s l p : p ∈ l -> tiles s p = true -> ∃ q r, from_tiled s l = q :: r.
Proof.
  induction l as [|a l IH]; intros Hin Ht; [now apply elem_of_nil in Hin|]. simpl.
  destruct (tiles s a) eqn:Ha; [eauto|].
  apply elem_of_cons in Hin as [->|Hin]; [congruence|auto].
Qed.

Lemma wf_valid_clients s mi m :
  wf s -> mons s !! mi = Some m -> Forall (valid s) (Monitor.clients m).
Proof.
  intros [_ H] Hm. destruct (H _ _ Hm) as (_ & Ocl & _).
  eapply Forall_impl; [exact Ocl|]. intros q. apply owned_valid. eauto.
Qed.

Lemma wf_valid_stack s mi m :
  wf s -> mons s !! mi = Some m -> Forall (valid s) (Monitor.stack m).
Proof.
  intros [_ H] Hm. destruct (H _ _ Hm) as (Ost & _ & _).
  eapply Forall_impl; [exact Ost|]. intros q. apply owned_valid. eauto.
Qed.

Lemma Forall_suffix {A} (P : A -> Prop) l l' :
  (∀ q, q ∈ l' -> q ∈ l) -> Forall P l -> Forall P l'.
Proof. intros H Hl. apply Forall_forall. intros q Hq. rewrite Forall_forall in Hl. auto. Qed.

(** [zoom] *)
Lemma zoom_good X s : good s -> tamed s -> ∃ s', zoom X s = Some (tt, s') ∧ good s'.
Proof.
  intros Hg Htm. destruct (good_selmon s Hg) as [m Hm]. pose proof (good_wf s Hg) as Hwf.
  pose proof (wf_valid_clients s _ m Hwf Hm) as Hvc.
  pose proof Hg as ([[_ Hlk] Htop] & _).
  pose proof (Hlk _ _ Hm) as (Hnc & Hns & Hcs & Hsl).
  unfold zoom. rewrite bind_gets, (bind_run _ _ _ _ _ (getmon_Some _ _ _ Hm)).
  destruct (Monitor.sel m) as [p|] eqn:Hsel.
  - destruct (good_sel_owned s m p Hg Hm Hsel) as (c & Hc & Hmon).
    rewrite bind_bind, (bind_run _ _ _ _ _ (deref_Some _ _ _ Hc)), bind_ret.
    destruct (Client.isfloating c) eqn:Hfl; [exists s; now split|].
    rewrite (bind_run _ _ _ _ _ (nexttiled_from s _ Hvc)).
    assert (tiles s p = true) as Htp.
    { unfold tiles. rewrite Hc, Hfl. simpl.
      pose proof (Htop m Hm) as E. rewrite Hsel in E. symmetry in E.
      now apply find_elem in E. }
    assert (p ∈ Monitor.clients m) as Hpc by (apply Hcs; auto).
    destruct (from_tiled_cons s _ p Hpc Htp) as (q & rest & Eq). rewrite Eq.
    pose proof (from_tiled_suffix s _ _ _ Eq) as Hsub.
    destruct (decide (p = q)) as [->|Hne].
    + assert (Forall (valid s) rest) as Hvr.
      { apply (Forall_suffix _ (Monitor.clients m)); [|exact Hvc].
        intros r Hr. apply Hsub. now apply list_elem_of_further. }
      rewrite (bind_run _ _ _ _ _ (nexttiled_from s _ Hvr)).
      destruct (from_tiled s rest) as [|r rest'] eqn:Er; [exists s; now split|].
      destruct (pop_good X s m r Hg Htm Hm) as (s' & _ & _ & E & Hg' & _); [|eauto].
      apply Hsub. apply list_elem_of_further.
      apply (from_tiled_suffix s _ _ _ Er). apply list_elem_of_here.
    + destruct (pop_good X s m p Hg Htm Hm Hpc) as (s' & _ & _ & E & Hg' & _). eauto.
  - rewrite bind_ret. rewrite (bind_run _ _ _ _ _ (nexttiled_from s _ Hvc)).
    rewrite from_tiled_nil; [exists s; now split|].
    intros q Hq. unfold tiles. destruct (heap s !! q) as [c|]; [|reflexivity].
    pose proof (Htop m Hm) as E. rewrite Hsel in E. symmetry in E.
    rewrite (find_none _ _ q E) by now apply Hcs. apply andb_false_r.
Qed.

(** ** Focus along the client list *)

Lemma successors_middle p l1 l2 : p ∉ l1 -> successors p (l1 ++ p :: l2) = Some l2.
Proof.
  induction l1 as [|a l1 IH]; intros Hn; simpl.
  - now rewrite decide_True.
  - apply not_elem_of_cons in Hn as [Hne Hn]. rewrite decide_False by congruence. auto.
Qed.

Lemma predecessors_middle p l1 l2 : p ∉ l1 -> predecessors p (l1 ++ p :: l2) = Some l1.
Proof.
  induction l1 as [|a l1 IH]; intros Hn; simpl.
  - now rewrite decide_True.
  - apply not_elem_of_cons in Hn as [Hne Hn]. rewrite decide_False by congruence.
    now rewrite IH.
Qed.

Lemma elem_of_rev {A} (a : A) l : a ∈ rev l ↔ a ∈ l.
Proof. rewrite !list_elem_of_In. symmetry. apply in_rev. Qed.

Lemma last_visible_find s l :
  Forall (valid s) l ->
  ∀ c, last_visible l c s
       = Some (match List.find (visible s) (rev l) with Some q => Some q | None => c end, s).
Proof.
  induction 1 as [|p l Hp Hl IH]; intros c; [reflexivity|]. simpl.
  rewrite (bind_run _ _ _ _ _ (ISVISIBLE_visible _ _ Hp)), IH, find_app. simpl.
  destruct (List.find (visible s) (rev l)); [reflexivity|]. now destruct (visible s p).
Qed.

(** The client [focusstack] moves the focus to, from the selected client
    [p] with [before] ahead of it and [after] behind it on the client list:
    the first visible one going forward and around for a positive
    argument, going backward and around otherwise. *)
Definition focusstack_choice (s : State) (i : Z) (before : list cptr) (p : cptr)
    (after : list cptr) : option cptr :=
  List.find (visible s)
    (if i >? 0 then after ++ before ++ [p] else rev before ++ rev after ++ [p]).

Lemma focusstack_exact X s m p l1 l2 i :
  good s -> mons s !! selmon s = Some m -> Monitor.sel m = Some p ->
  Monitor.clients m = l1 ++ p :: l2 ->
  ∃ q s' m' l,
    focusstack_choice s i l1 p l2 = Some q
    ∧ focusstack X i s = Some (tt, s') ∧ good s'
    ∧ selmon s' = selmon s ∧ mons s' !! selmon s = Some m'
    ∧ Monitor.sel m' = Some q
    ∧ unlink q (Monitor.stack m) = Some l ∧ Monitor.stack m' = q :: l
    ∧ Monitor.clients m' = Monitor.clients m.
Proof.
  intros Hg Hm Hsel Hcl. pose proof (good_wf s Hg) as Hwf.
  pose proof (wf_valid_clients s _ m Hwf Hm) as Hvc.
  pose proof Hg as ([[_ Hlk] Htop] & _).
  pose proof (Hlk _ _ Hm) as (Hnc & Hns & Hcs & Hsl).
  assert (visible s p = true) as Hvp.
  { pose proof (Htop m Hm) as E. rewrite Hsel in E. symmetry in E. now apply find_elem in E. }
  assert (p ∉ l1) as Hn1.
  { rewrite Hcl in Hnc. apply NoDup_app in Hnc as (_ & H & _). intros Hin.
    apply (H p Hin). apply list_elem_of_here. }
  rewrite Hcl in Hvc. pose proof Hvc as Hvc'.
  apply Forall_app in Hvc' as [Hv1 Hv2]. apply Forall_cons in Hv2 as [Hvp' Hv2].
  assert (∃ q, focusstack_choice s i l1 p l2 = Some q ∧ q ∈ Monitor.clients m
               ∧ visible s q = true) as (q & Eq & Hq & Hvq).
  { unfold focusstack_choice.
    destruct (i >? 0);
      match goal with |- ∃ q, List.find ?f ?l = _ ∧ _ => destruct (List.find f l) as [q|] eqn:E end.
    1,3: exists q; split; [reflexivity|]; apply find_elem in E as [Hin Hv]; split; [|exact Hv];
      rewrite Hcl;
      rewrite !elem_of_app, ?elem_of_rev, ?list_elem_of_singleton in Hin;
      rewrite elem_of_app, elem_of_cons; tauto.
    all: exfalso; assert (visible s p = false); [|congruence];
      apply (find_none _ _ p E);
      rewrite !elem_of_app, list_elem_of_singleton; tauto. }
  assert (∃ s0, (if i >? 0 then
             match successors p (Monitor.clients m) with
             | Some l =>
                 c ← first_visible l;
                 match c with
                 | Some _ => ret c
                 | None => first_visible (Monitor.clients m)
                 end
             | None => fail
             end
           else
             match predecessors p (Monitor.clients m), successors p (Monitor.clients m) with
             | Some before, Some after =>
                 c ← last_visible before None;
                 match c with
                 | Some _ => ret c
                 | None => last_visible (p :: after) None
                 end
             | _, _ => fail
             end) s = Some (Some q, s0) ∧ s0 = s) as (s0 & Ec & ->).
  { exists s. split; [|reflexivity]. unfold focusstack_choice in Eq. rewrite Hcl.
    rewrite successors_middle, ?predecessors_middle by exact Hn1.
    destruct (i >? 0).
    - rewrite (bind_run _ _ _ _ _ (first_visible_find s l2 Hv2)).
      rewrite find_app in Eq. destruct (List.find (visible s) l2) as [r|] eqn:E2.
      + cbv beta iota. unfold ret. congruence.
      + cbv beta iota. rewrite first_visible_find by exact Hvc. f_equal. f_equal.
        rewrite find_app in *. destruct (List.find (visible s) l1); [exact Eq|].
        simpl in *. rewrite Hvp in *. exact Eq.
    - rewrite (bind_run _ _ _ _ _ (last_visible_find s l1 Hv1 None)).
      rewrite find_app in Eq. destruct (List.find (visible s) (rev l1)) as [r|] eqn:E1.
      + cbv beta iota. unfold ret. congruence.
      + cbv beta iota. rewrite last_visible_find by now apply Forall_cons. f_equal. f_equal.
        simpl. rewrite Eq. reflexivity. }
  assert (q ∈ Monitor.stack m) as Hqs by now apply Hcs.
  destruct (focus_good X (Some q) s m (good_sound s Hg) Hm) as (s2 & E2 & Hg2 & Hp2 & Ems).
  { now intros ? [= <-]. }
  unfold focus_choice in Ems. rewrite Hvq in Ems.
  assert (selmon s < length (mons s))%nat as Hlt by now apply lookup_lt_Some in Hm.
  assert (mons s2 !! selmon s = Some (raised (Some q) m)) as Hm2.
  { rewrite Ems. now apply list_lookup_insert_eq. }
  pose proof Hp2 as (Esel2 & _).
  destruct (moves_restack s2 (selmon s2)) with (s := s2) as ([] & s3 & E3 & A3 & _).
  { apply wf_arrangeable; [now apply good_wf|]. rewrite Esel2. eauto. }
  { apply agree_refl. }
  destruct (unlink_elem q _ Hqs) as (l & Hl & _).
  exists q, s3, (raised (Some q) m), l. split; [exact Eq|]. split.
  { unfold focusstack. rewrite bind_gets, (bind_run _ _ _ _ _ (getmon_Some _ _ _ Hm)).
    rewrite Hsel. rewrite (bind_run _ _ _ _ _ Ec).
    cbv beta iota. rewrite (bind_run _ _ _ _ _ E2), bind_gets. exact E3. }
  split; [apply agree_links_good with s2; [exact Hg2|now apply agree_geom_links]|].
  split; [now rewrite <- (agree_selmon _ _ _ A3)|].
  split; [now rewrite <- (agree_mons _ _ _ A3)|].
  unfold raised. rewrite Hl. simpl. auto.
Qed.

Lemma focusstack_good X i s : good s -> ∃ s', focusstack X i s = Some (tt, s') ∧ good s'.
Proof.
  intros Hg. destruct (good_selmon s Hg) as [m Hm].
  destruct (Monitor.sel m) as [p|] eqn:Hsel.
  - pose proof Hg as ([[_ Hlk] _] & _). destruct (Hlk _ _ Hm) as (_ & _ & Hcs & Hsl).
    assert (p ∈ Monitor.clients m) as Hin by (apply Hcs; auto).
    apply list_elem_of_split in Hin as (l1 & l2 & Hcl).
    destruct (focusstack_exact X s m p l1 l2 i Hg Hm Hsel Hcl)
      as (q & s' & _ & _ & _ & E & Hg' & _). eauto.
  - exists s. split; [|exact Hg]. unfold focusstack.
    rewrite bind_gets, (bind_run _ _ _ _ _ (getmon_Some _ _ _ Hm)). now rewrite Hsel.
Qed.

(** ** Monitors in a ring *)

Lemma next_mon_lt ms i : (S i < length ms)%nat -> next_mon ms i = Some (S i).
Proof. intros H. unfold next_mon. now rewrite decide_True. Qed.

Lemma next_mon_last ms i : ¬ (S i < length ms)%nat -> next_mon ms i = None.
Proof. intros H. unfold next_mon. now rewrite decide_False. Qed.

(** The walk to the last monitor. *)
Lemma mon_walk_last ms s : ∀ fuel i,
  (i < length ms)%nat -> (length ms <= i + S fuel)%nat ->
  mon_walk ms (λ nx, bool_decide (nx = None)) i fuel s = Some (pred (length ms), s).
Proof.
  induction fuel as [|fuel IH]; intros i Hi Hf.
  - simpl. rewrite decide_True by exact Hi. rewrite next_mon_last by lia.
    rewrite bool_decide_true by reflexivity. unfold ret. do 2 f_equal. lia.
  - simpl. rewrite decide_True by exact Hi.
    destruct (decide (S i < length ms)%nat) as [Hlt|Hge].
    + rewrite next_mon_lt by exact Hlt. rewrite bool_decide_false by discriminate.
      apply IH; lia.
    + rewrite next_mon_last by exact Hge. rewrite bool_decide_true by reflexivity.
      unfold ret. do 2 f_equal. lia.
Qed.

(** The walk to the monitor before [sel]. *)
Lemma mon_walk_before ms s sel : ∀ fuel i,
  (0 < sel)%nat -> (sel < length ms)%nat -> (i < sel)%nat -> (sel <= i + S fuel)%nat ->
  mon_walk ms (λ nx, bool_decide (nx = Some sel)) i fuel s = Some (pred sel, s).
Proof.
  induction fuel as [|fuel IH]; intros i H0 Hs Hi Hf.
  - simpl. rewrite decide_True by lia. rewrite next_mon_lt by lia.
    rewrite bool_decide_true by (f_equal; lia). unfold ret. do 2 f_equal. lia.
  - simpl. rewrite decide_True by lia. rewrite next_mon_lt by lia.
    destruct (decide (S i = sel)) as [E|Hne].
    + rewrite bool_decide_true by now f_equal. unfold ret. do 2 f_equal. lia.
    + rewrite bool_decide_false by congruence. apply IH; lia.
Qed.

(** The monitor after and the monitor before the selected one, around the
    list of monitors. *)
Definition mon_after (s : State) : nat := (S (selmon s) mod length (mons s))%nat.
Definition mon_before (s : State) : nat :=
  ((selmon s + pred (length (mons s))) mod length (mons s))%nat.

Lemma dirtomon_ring s dir :
  (selmon s < length (mons s))%nat ->
  dirtomon dir s = Some (if dir >? 0 then mon_after s else mon_before s, s).
Proof.
  intros Hlt. unfold dirtomon. rewrite !bind_gets. destruct (dir >? 0).
  - destruct (lookup_lt_is_Some_2 _ _ Hlt) as [m Hm].
    rewrite (bind_run _ _ _ _ _ (getmon_Some _ _ _ Hm)). unfold ret, mon_after.
    do 2 f_equal. destruct (decide (S (selmon s) < length (mons s))%nat) as [H|H].
    + rewrite next_mon_lt by exact H. simpl. symmetry. now apply Nat.mod_small.
    + rewrite next_mon_last by exact H. simpl.
      replace (S (selmon s)) with (length (mons s)) by lia. symmetry.
      apply Nat.Div0.mod_same.
  - unfold mon_before. destruct (decide (selmon s = 0%nat)) as [E|Hne].
    + rewrite mon_walk_last by lia. do 2 f_equal. rewrite E. simpl.
      symmetry. apply Nat.mod_small. lia.
    + rewrite mon_walk_before by lia. do 2 f_equal.
      replace (selmon s + pred (length (mons s)))%nat
        with (pred (selmon s) + 1 * length (mons s))%nat by lia.
      rewrite Nat.Div0.mod_add. symmetry. apply Nat.mod_small. lia.
Qed.

Lemma mon_after_lt s : (selmon s < length (mons s))%nat -> (mon_after s < length (mons s))%nat.
Proof. intros H. apply Nat.mod_upper_bound. lia. Qed.

Lemma mon_before_lt s : (selmon s < length (mons s))%nat -> (mon_before s < length (mons s))%nat.
Proof. intros H. apply Nat.mod_upper_bound. lia. Qed.

Lemma mon_after_ne s :
  (selmon s < length (mons s))%nat -> (2 <= length (mons s))%nat -> mon_after s ≠ selmon s.
Proof.
  intros H H2. unfold mon_after.
  destruct (decide (S (selmon s) < length (mons s))%nat) as [Hlt|Hge].
  - rewrite Nat.mod_small by exact Hlt. lia.
  - replace (S (selmon s)) with (length (mons s)) by lia. rewrite Nat.Div0.mod_same. lia.
Qed.

Lemma mon_before_ne s :
  (selmon s < length (mons s))%nat -> (2 <= length (mons s))%nat -> mon_before s ≠ selmon s.
Proof.
  intros H H2. unfold mon_before.
  destruct (decide (selmon s = 0%nat)) as [E|Hne].
  - rewrite E. simpl. rewrite Nat.mod_small by lia. lia.
  - replace (selmon s + pred (length (mons s)))%nat
      with (pred (selmon s) + 1 * length (mons s))%nat by lia.
    rewrite Nat.Div0.mod_add, Nat.mod_small by lia. lia.
Qed.

Lemma mon_ring_back n i :
  (i < n)%nat ->
  ((S i mod n + pred n) mod n)%nat = i ∧ (S ((i + pred n) mod n) mod n)%nat = i.
Proof.
  intros Hlt. split.
  - destruct (decide (S i < n)%nat) as [H|H].
    + rewrite (Nat.mod_small (S i)) by exact H.
      replace (S i + pred n)%nat with (i + 1 * n)%nat by lia.
      rewrite Nat.Div0.mod_add. now apply Nat.mod_small.
    + replace (S i) with n by lia. rewrite Nat.Div0.mod_same. simpl.
      rewrite Nat.mod_small by lia. lia.
  - destruct (decide (i = 0%nat)) as [E|Hne].
    + rewrite E. simpl. rewrite (Nat.mod_small (pred n)) by lia.
      replace (S (pred n)) with n by lia. apply Nat.Div0.mod_same.
    + replace (i + pred n)%nat with (pred i + 1 * n)%nat by lia.
      rewrite Nat.Div0.mod_add, (Nat.mod_small (pred i)) by lia.
      replace (S (pred i)) with i by lia. now apply Nat.mod_small.
Qed.

(** X9: [dirtomon] on a state whose selected monitor is in the list
    returns, leaves the state as it is, and gives the monitor after the
    selected one for a positive direction and the monitor before it
    otherwise, around the list: after the last comes the first, before
    the first the last.  The result is a monitor of the list; it is the
    selected one only when the list has one monitor; and from the monitor
    it gives, the opposite direction gives the monitor started from. *)
Theorem dirtomon_cycles (s : State) (dir : Z) :
  (selmon s < length (mons s))%nat ->
  let n := length (mons s) in
  let r := if dir >? 0 then (S (selmon s) mod n)%nat else ((selmon s + pred n) mod n)%nat in
  dirtomon dir s = Some (r, s)
  ∧ (r < n)%nat
  ∧ (r = selmon s ↔ n = 1%nat)
  ∧ (∀ back, (back >? 0) = negb (dir >? 0) ->
       dirtomon back (set_selmon r s) = Some (selmon s, set_selmon r s)).
Proof.
  intros Hlt n r. split; [exact (dirtomon_ring s dir Hlt)|].
  assert (n ≠ 0%nat) as Hn by (subst n; lia).
  assert (r < n)%nat as Hr
    by (subst r; destruct (dir >? 0); apply Nat.mod_upper_bound; exact Hn).
  split; [exact Hr|]. split.
  - subst r. split.
    + intros E. destruct (decide (2 <= n)%nat) as [H2|]; [exfalso|subst n; lia].
      destruct (dir >? 0).
      * exact (mon_after_ne s Hlt H2 E).
      * exact (mon_before_ne s Hlt H2 E).
    + intros E. assert (selmon s = 0%nat) as -> by (subst n; lia). rewrite E.
      now destruct (dir >? 0).
  - intros back Hb. rewrite (dirtomon_ring (set_selmon r s) back Hr). do 2 f_equal.
    unfold mon_after, mon_before. simpl. rewrite Hb. fold n.
    destruct (mon_ring_back n (selmon s) Hlt) as [E1 E2].
    subst r. now destruct (dir >? 0).
Qed.

(** ** Handlers that change the selected monitor or a client's monitor *)

Lemma detach_ok s p c m l :
  heap s !! p = Some c -> mons s !! Client.mon c = Some m ->
  unlink p (Monitor.clients m) = Some l ->
  detach p s = Some (tt, upd_mon (Client.mon c) (Monitor.set_clients l m) s).
Proof.
  intros Hc Hm Hl. unfold detach.
  rewrite (bind_run _ _ _ _ _ (deref_Some _ _ _ Hc)).
  rewrite (bind_run _ _ _ _ _ (getmon_Some _ _ _ Hm)). rewrite Hl.
  now apply updmon_Some.
Qed.

Lemma attach_ok s p c m :
  heap s !! p = Some c -> mons s !! Client.mon c = Some m ->
  attach p s
  = Some (tt, upd_mon (Client.mon c) (Monitor.set_clients (p :: Monitor.clients m) m) s).
Proof.
  intros Hc Hm. unfold attach. rewrite (bind_run _ _ _ _ _ (deref_Some _ _ _ Hc)).
  exact (updmon_Some _ _ _ (λ m, Monitor.set_clients (p :: Monitor.clients m) m) Hm).
Qed.

Lemma unlink_NoDup_elem p l l' :
  NoDup l -> unlink p l = Some l' -> NoDup l' ∧ (p ∉ l') ∧ (∀ q, q ∈ l' ↔ (q ∈ l ∧ q ≠ p)).
Proof.
  intros Hnd H. destruct (unlink_NoDup _ _ _ Hnd H) as [Hnd' Hin].
  apply NoDup_cons in Hnd' as [Hp Hnd']. split; [exact Hnd'|]. split; [exact Hp|].
  intros q. rewrite <- Hin, elem_of_cons. split.
  - intros Hq. split; [now right|]. now intros ->.
  - intros [[->|Hq] Hne]; [contradiction|exact Hq].
Qed.

(** [detach] and [detachstack] of a listed client: the lists of its
    monitor without it, and a visible client of the stack selected in its
    place if it was selected. *)
Lemma unlist_ok s p mi m c :
  sound s -> mons s !! mi = Some m -> p ∈ Monitor.stack m -> heap s !! p = Some c ->
  ∃ m3 lc ls,
    bind (detach p) (λ _, detachstack p) s = Some (tt, upd_mon mi m3 s)
    ∧ sound (upd_mon mi m3 s)
    ∧ unlink p (Monitor.clients m) = Some lc ∧ Monitor.clients m3 = lc
    ∧ unlink p (Monitor.stack m) = Some ls ∧ Monitor.stack m3 = ls
    ∧ Monitor.seltags m3 = Monitor.seltags m ∧ Monitor.tagset m3 = Monitor.tagset m
    ∧ (∀ i mo, mons (upd_mon mi m3 s) !! i = Some mo -> p ∉ Monitor.stack mo).
Proof.
  intros Hs Hm Hp Hc.
  pose proof Hs as ([[_ Hown] Hlk] & [_ Htm] & _).
  destruct (Hown _ _ Hm) as (Ost & Ocl & _).
  assert (Client.mon c = mi) as Hmon.
  { destruct (proj1 (Forall_forall _ _) Ost p Hp) as (c0 & Hc0 & Hm0). congruence. }
  pose proof (Hlk _ _ Hm) as (Hnc & Hns & Hcs & Hsl).
  destruct (unlink_elem p _ (proj2 (Hcs p) Hp)) as (lc & Hlc & _).
  destruct (unlink_elem p _ Hp) as (ls & Hls & _).
  destruct (unlink_NoDup_elem _ _ _ Hnc Hlc) as (Hnlc & Hplc & Hinc).
  destruct (unlink_NoDup_elem _ _ _ Hns Hls) as (Hnls & Hpls & Hins).
  assert (mi < length (mons s))%nat as Hlt by now apply lookup_lt_Some in Hm.
  rewrite <- Hmon in Hm.
  rewrite (bind_run _ _ _ _ _ (detach_ok s p c m lc Hc Hm Hlc)).
  set (m2 := Monitor.set_clients lc m).
  destruct (detachstack_ok (upd_mon (Client.mon c) m2 s) p c m2 ls) as (t' & Ed & Ht').
  { exact Hc. }
  { apply upd_mon_lookup. now rewrite Hmon. }
  { exact Hls. }
  { apply Forall_forall. intros q Hq. apply Hins in Hq as [Hq _].
    destruct (proj1 (Forall_forall _ _) Ost q Hq) as (cq & Hcq & Hmq).
    exists cq. split; [exact Hcq|]. simpl. rewrite Hmq, <- Hmon.
    apply lookup_lt_is_Some. rewrite length_insert. now rewrite Hmon. }
  rewrite Ed, upd_mon_twice, Hmon. clear Ed.
  set (m3 := if bool_decide (Monitor.sel m2 = Some p)
             then Monitor.set_sel t' (Monitor.set_stack ls m2) else Monitor.set_stack ls m2).
  assert (Monitor.stack m3 = ls ∧ Monitor.clients m3 = lc
          ∧ Monitor.tagset m3 = Monitor.tagset m ∧ Monitor.seltags m3 = Monitor.seltags m
          ∧ (∀ q, Monitor.sel m3 = Some q -> q ∈ ls)) as (Est3 & Ecl3 & Ets3 & Esl3 & Hsel3).
  { subst m3. destruct (bool_decide (Monitor.sel m2 = Some p)) eqn:Eb; simpl.
    - repeat split. exact Ht'.
    - repeat split. intros q Hq. apply Hins. split; [now apply Hsl|].
      intros ->. apply bool_decide_eq_false in Eb. now apply Eb. }
  rewrite Hmon in Hm.
  exists m3, lc, ls. split; [reflexivity|]. split.
  { apply sound_upd_lists with m; [exact Hs|exact Hm| | |exact Ets3].
    - split; [now rewrite Ecl3|]. split; [now rewrite Est3|].
      split; [|now rewrite Est3].
      intros q. rewrite Ecl3, Est3, Hinc, Hins, Hcs. tauto.
    - intros q. rewrite Est3. intros Hq. now apply Hins in Hq. }
  split; [exact Hlc|]. split; [exact Ecl3|]. split; [exact Hls|]. split; [exact Est3|].
  split; [exact Esl3|]. split; [exact Ets3|].
  intros i mi' Hmi Hin. simpl in Hmi.
  destruct (decide (i = mi)) as [->|Hi].
  - rewrite list_lookup_insert_eq in Hmi by exact Hlt.
    injection Hmi as <-. rewrite Est3 in Hin. contradiction.
  - rewrite list_lookup_insert_ne in Hmi by done.
    destruct (Hown _ _ Hmi) as (Oi & _).
    destruct (proj1 (Forall_forall _ _) Oi p Hin) as (c0 & Hc0 & Hm0).
    rewrite Hc in Hc0. injection Hc0 as <-. congruence.
Qed.

Section Monitors.
Variable X : XServer.

(** [focusmon] with more than one monitor. *)
Lemma focusmon_exact i s mr :
  good s -> (2 <= length (mons s))%nat ->
  let r := if int_of i >? 0 then mon_after s else mon_before s in
  mons s !! r = Some mr ->
  ∃ s', focusmon X i s = Some (tt, s') ∧ good s'
        ∧ selmon s' = r
        ∧ mons s' = <[r:=raised (List.find (visible s) (Monitor.stack mr)) mr]> (mons s).
Proof.
  intros Hg H2 r Hmr. destruct (good_selmon s Hg) as [m Hm].
  assert (selmon s < length (mons s))%nat as Hlt by now apply lookup_lt_Some in Hm.
  assert (r ≠ selmon s) as Hne.
  { subst r. destruct (int_of i >? 0); [now apply mon_after_ne|now apply mon_before_ne]. }
  unfold focusmon. rewrite bind_gets.
  destruct (mons s) as [|m0 [|m1 ms]] eqn:Ems; [simpl in H2; lia|simpl in H2; lia|].
  rewrite <- Ems in *. clear Ems m0 m1 ms.
  rewrite (bind_run _ _ _ _ _ (dirtomon_ring s (int_of i) Hlt)). fold r.
  rewrite bind_gets, decide_False by exact Hne.
  rewrite (bind_run _ _ _ _ _ (getmon_Some _ _ _ Hm)).
  destruct (logs_unfocus (Monitor.sel m) false s) as ([] & l & El).
  { intros q Hq. destruct (good_sel s m q Hg Hm Hq) as [c Hc]. eauto. }
  rewrite (bind_run _ _ _ _ _ El), bind_modify.
  assert (sound (set_selmon r (set_xlog l s))) as Hs1.
  { apply sound_globals with s; [now apply good_sound|reflexivity..|]. simpl. eauto. }
  destruct (focus_good X None _ mr Hs1) as (s' & E & Hg' & Hp & Ems); [exact Hmr|done|].
  exists s'. split; [exact E|]. split; [exact Hg'|]. split; [apply Hp|]. exact Ems.
Qed.

Lemma focusmon_good i s : good s -> ∃ s', focusmon X i s = Some (tt, s') ∧ good s'.
Proof.
  intros Hg. destruct (good_selmon s Hg) as [m Hm].
  assert (selmon s < length (mons s))%nat as Hlt by now apply lookup_lt_Some in Hm.
  destruct (decide (2 <= length (mons s))%nat) as [H2|H1].
  - set (r := if int_of i >? 0 then mon_after s else mon_before s).
    assert (r < length (mons s))%nat as Hr.
    { subst r. destruct (int_of i >? 0); [now apply mon_after_lt|now apply mon_before_lt]. }
    destruct (lookup_lt_is_Some_2 _ _ Hr) as [mr Hmr].
    destruct (focusmon_exact i s mr Hg H2 Hmr) as (s' & E & Hg' & _). eauto.
  - exists s. split; [|exact Hg]. unfold focusmon. rewrite bind_gets.
    destruct (mons s) as [|m0 [|m1 ms]]; simpl in *; [lia|reflexivity|lia].
Qed.

(** [sendmon] of a client of the selected monitor to another monitor. *)
Lemma sendmon_exact s m p t mo :
  good s -> tamed s -> mons s !! selmon s = Some m -> p ∈ Monitor.stack m ->
  t ≠ selmon s -> mons s !! t = Some mo ->
  ∃ s' c c' m' mo' lc,
    sendmon X p t s = Some (tt, s') ∧ good s' ∧ selmon s' = selmon s
    ∧ heap s !! p = Some c ∧ heap s' !! p = Some c'
    ∧ Client.mon c' = t ∧ Client.tags c' = Monitor.seltagset mo
    ∧ mons s' !! t = Some mo'
    ∧ Monitor.clients mo' = p :: Monitor.clients mo
    ∧ Monitor.stack mo' = p :: Monitor.stack mo
    ∧ Monitor.sel mo' = Monitor.sel mo
    ∧ mons s' !! selmon s = Some m'
    ∧ unlink p (Monitor.clients m) = Some lc ∧ Monitor.clients m' = lc
    ∧ p ∉ Monitor.stack m'.
Proof.
  intros Hg Hta Hm Hp Hne Hmo. pose proof (good_sound s Hg) as Hs.
  pose proof Hs as ([[_ Hown] Hlk] & [_ Htm] & _).
  destruct (Hown _ _ Hm) as (Ost & _).
  destruct (proj1 (Forall_forall _ _) Ost p Hp) as (c & Hc & Hmon).
  assert (selmon s < length (mons s))%nat as Hlt by now apply lookup_lt_Some in Hm.
  unfold sendmon. rewrite (bind_run _ _ _ _ _ (deref_Some _ _ _ Hc)).
  rewrite decide_False by congruence.
  destruct (logs_unfocus (Some p) true s) as ([] & l & El).
  { intros q [= <-]. eauto. }
  rewrite (bind_run _ _ _ _ _ El).
  assert (sound (set_xlog l s)) as Hs1.
  { apply sound_globals with s; [exact Hs|reflexivity..|]. simpl. eauto. }
  destruct (unlist_ok (set_xlog l s) p (selmon s) m c Hs1 Hm Hp Hc)
    as (m3 & lc & ls & Eu & Hs3 & Hlc & Ecl3 & Hls & Est3 & Esl3 & Ets3 & Hun).
  rewrite <- bind_bind, (bind_run _ _ _ _ _ Eu). clear Eu.
  (* the target monitor and the client's new links *)
  assert (mons (upd_mon (selmon s) m3 (set_xlog l s)) !! t = Some mo) as Hmo3.
  { simpl. rewrite list_lookup_insert_ne by congruence. exact Hmo. }
  rewrite (bind_run _ _ _ _ _ (getmon_Some _ _ _ Hmo3)).
  rewrite (bind_run _ _ _ _ _
             (update_Some (upd_mon (selmon s) m3 (set_xlog l s)) p c _ Hc)).
  set (c4 := Client.set_tags (Monitor.seltagset mo) (Client.set_mon t c)).
  set (s4 := set_heap _ _).
  assert (sound s4) as Hs4.
  { apply sound_store_unlisted; [exact Hs3|simpl; eauto|exact Hun|].
    simpl. apply mask_ok_seltagset. eauto. }
  assert (heap s4 !! p = Some c4) as Hc4 by apply lookup_insert_eq.
  assert (mons s4 !! Client.mon c4 = Some mo) as Hmo4 by exact Hmo3.
  rewrite (bind_run _ _ _ _ _ (attach_ok s4 p c4 mo Hc4 Hmo4)).
  rewrite (bind_run _ _ _ _ _
             (attachstack_ok
                (upd_mon (Client.mon c4) (Monitor.set_clients (p :: Monitor.clients mo) mo) s4)
                p c4 _ Hc4 (upd_mon_lookup _ _ _ (lookup_lt_Some _ _ _ Hmo4)))).
  rewrite upd_mon_twice.
  set (mo6 := Monitor.set_stack _ (Monitor.set_clients _ mo)).
  assert (p ∉ Monitor.stack mo) as Hpmo by exact (Hun t mo Hmo3).
  pose proof (sound_attach s4 p c4 mo Hs4 Hc4 Hmo4 Hpmo) as Hs6.
  change (Client.mon c4) with t in *.
  (* focus(NULL) and arrange(NULL) *)
  assert (mons (upd_mon t mo6 s4) !! selmon (upd_mon t mo6 s4) = Some m3) as Hm6.
  { simpl. rewrite list_lookup_insert_ne by congruence.
    now apply list_lookup_insert_eq. }
  destruct (focus_good X None _ m3 Hs6 Hm6) as (s7 & E7 & Hg7 & Hp7 & Ems7); [done|].
  rewrite (bind_run _ _ _ _ _ E7).
  assert (tamed (upd_mon t mo6 s4)) as Hta6.
  { exact (tamed_store s p c4 Hta (Hta _ _ Hc)). }
  destruct (arrange_all_moves s7) as (s8 & E8 & A8).
  { exact (focus_post_tamed _ _ Hta6 Hp7). }
  { apply wf_all_arrangeable. now apply good_wf. }
  pose proof (agree_geom_links _ _ A8) as L8.
  assert (owned s7 t p) as (c7 & Hc7 & Hmon7).
  { apply (focus_post_owned _ _ _ _ Hp7). now exists c4. }
  assert (Client.tags c7 = Monitor.seltagset mo) as Htags7.
  { destruct Hp7 as (_ & _ & _ & _ & _ & _ & Hh & _).
    destruct (unurgent_lookup _ _ _ _ Hh Hc4) as (c7' & Hc7' & E).
    rewrite Hc7 in Hc7'. injection Hc7' as <-. exact (f_equal Client.tags E). }
  destruct (agree_links_lookup _ _ _ _ L8 Hc7) as (c8 & Hc8 & Et8 & Em8 & _).
  simpl in Ems7.
  set (m7 := raised _ m3) in Ems7.
  assert (mons s8 !! t = Some mo6) as Hmo8.
  { rewrite <- (agree_mons _ _ _ A8), Ems7. rewrite list_lookup_insert_ne by congruence.
    apply list_lookup_insert_eq. now apply lookup_lt_Some in Hmo3. }
  assert (mons s8 !! selmon s = Some m7) as Hm8.
  { rewrite <- (agree_mons _ _ _ A8), Ems7. apply list_lookup_insert_eq.
    rewrite !length_insert. exact Hlt. }
  exists s8, c, c8, m7, mo6, lc.
  split; [exact E8|]. split; [now apply agree_links_good with s7|].
  split; [rewrite <- (agree_selmon _ _ _ A8); apply Hp7|].
  split; [exact Hc|]. split; [exact Hc8|]. split; [congruence|]. split; [congruence|].
  split; [exact Hmo8|]. split; [reflexivity|]. split; [reflexivity|]. split; [reflexivity|].
  split; [exact Hm8|]. split; [exact Hlc|].
  assert (p ∉ ls) as Hpls.
  { rewrite <- Est3. apply (Hun (selmon s) m3). now apply upd_mon_lookup. }
  subst m7. unfold raised.
  match goal with |- context [List.find ?f (Monitor.stack m3)] =>
    destruct (List.find f (Monitor.stack m3)) as [q|] eqn:Hch end; simpl.
  - split; [exact Ecl3|]. apply find_elem in Hch as [Hq _].
    destruct (unlink_elem q _ Hq) as (l' & Hl' & Hin'). rewrite Hl'. simpl.
    rewrite Hin'. now rewrite Est3.
  - split; [exact Ecl3|]. now rewrite Est3.
Qed.

Lemma tagmon_good i s : good s -> tamed s -> ∃ s', tagmon X i s = Some (tt, s') ∧ good s'.
Proof.
  intros Hg Hta. destruct (good_selmon s Hg) as [m Hm].
  assert (selmon s < length (mons s))%nat as Hlt by now apply lookup_lt_Some in Hm.
  unfold tagmon. rewrite bind_gets, (bind_run _ _ _ _ _ (getmon_Some _ _ _ Hm)).
  destruct (Monitor.sel m) as [p|] eqn:Hsel; [|exists s; now split].
  rewrite bind_gets.
  destruct (decide (2 <= length (mons s))%nat) as [H2|H1].
  - destruct (mons s) as [|m0 [|m1 ms]] eqn:Ems; [simpl in H2; lia|simpl in H2; lia|].
    rewrite <- Ems in *. clear Ems m0 m1 ms.
    rewrite (bind_run _ _ _ _ _ (dirtomon_ring s (int_of i) Hlt)).
    set (r := if int_of i >? 0 then mon_after s else mon_before s).
    assert (r < length (mons s))%nat as Hr.
    { subst r. destruct (int_of i >? 0); [now apply mon_after_lt|now apply mon_before_lt]. }
    assert (r ≠ selmon s) as Hne.
    { subst r. destruct (int_of i >? 0); [now apply mon_after_ne|now apply mon_before_ne]. }
    destruct (lookup_lt_is_Some_2 _ _ Hr) as [mr Hmr].
    destruct (sendmon_exact s m p r mr Hg Hta Hm) as (s' & _ & _ & _ & _ & _ & E & Hg' & _);
      [|exact Hne|exact Hmr|eauto].
    pose proof Hg as ([[_ Hlk] _] & _). destruct (Hlk _ _ Hm) as (_ & _ & _ & Hsl). auto.
  - exists s. split; [|exact Hg].
    destruct (mons s) as [|m0 [|m1 ms]]; simpl in *; [lia|reflexivity|lia].
Qed.

End Monitors.

(** ** Adoption: writes to a client that is on no list *)

Section Edits.
(** The state under the client and the client's address. *)
Variables (s0 : State) (p : cptr).

(** The state with the client set to [c] and the log to [l]. *)
Definition edited (l : list XReq) (c : Client) : State :=
  set_xlog l (set_heap (<[p:=c]> (heap s0)) s0).

(** From a client satisfying [P], [m] returns, having written only to the
    client and the log, with [Q] of its value and the client. *)
Definition edits {A} (P : Client -> Prop) (m : M A) (Q : A -> Client -> Prop) : Prop :=
  ∀ l c, P c -> ∃ a l' c', m (edited l c) = Some (a, edited l' c') ∧ Q a c'.

(** From a client satisfying [P], [m] returns a result satisfying [F]. *)
Definition total {A} (P : Client -> Prop) (m : M A) (F : A * State -> Prop) : Prop :=
  ∀ l c, P c -> ∃ r, m (edited l c) = Some r ∧ F r.

(** [m] keeps [I] of the client. *)
Definition stays {A} (I : Client -> Prop) (m : M A) : Prop := edits I m (λ _, I).

Lemma edits_bind {A B} P (m : M A) (k : A -> M B) Q R :
  edits P m Q -> (∀ a, edits (Q a) (k a) R) -> edits P (bind m k) R.
Proof.
  intros Hm Hk l c Hc. destruct (Hm l c Hc) as (a & l1 & c1 & E1 & H1).
  destruct (Hk a l1 c1 H1) as (b & l2 & c2 & E2 & H2).
  exists b, l2, c2. now rewrite (bind_run _ _ _ _ _ E1).
Qed.

Lemma edits_conseq {A} (P P' : Client -> Prop) (m : M A) (Q Q' : A -> Client -> Prop) :
  (∀ c, P' c -> P c) -> (∀ a c, Q a c -> Q' a c) -> edits P m Q -> edits P' m Q'.
Proof.
  intros HP HQ Hm l c Hc. destruct (Hm l c (HP c Hc)) as (a & l1 & c1 & E1 & H1). eauto 6.
Qed.

Lemma total_bind {A B} P (m : M A) (k : A -> M B) Q F :
  edits P m Q -> (∀ a, total (Q a) (k a) F) -> total P (bind m k) F.
Proof.
  intros Hm Hk l c Hc. destruct (Hm l c Hc) as (a & l1 & c1 & E1 & H1).
  destruct (Hk a l1 c1 H1) as (r & E2 & H2).
  exists r. now rewrite (bind_run _ _ _ _ _ E1).
Qed.

Lemma total_pre {A} (P P' : Client -> Prop) (m : M A) F :
  (∀ c, P' c -> P c) -> total P m F -> total P' m F.
Proof. intros HP Hm l c Hc. exact (Hm l c (HP c Hc)). Qed.

Lemma edits_ret {A} (a : A) P : edits P (ret a) (λ a' c, a' = a ∧ P c).
Proof. intros l c Hc. exists a, l, c. auto. Qed.

Lemma edits_deref P : edits P (deref p) (λ a c, a = c ∧ P c).
Proof.
  intros l c Hc. exists c, l, c. split; [|auto].
  apply deref_Some. simpl. apply lookup_insert_eq.
Qed.

Lemma edits_deref_other P q cq :
  q ≠ p -> heap s0 !! q = Some cq -> edits P (deref q) (λ a c, a = cq ∧ P c).
Proof.
  intros Hne Hq l c Hc. exists cq, l, c. split; [|auto].
  apply deref_Some. simpl. now rewrite lookup_insert_ne.
Qed.

Lemma edited_store l c v :
  set_heap (<[p:=v]> (heap (edited l c))) (edited l c) = edited l v.
Proof. unfold edited. simpl. unfold set_heap, set_xlog. simpl. now rewrite insert_insert_eq. Qed.

Lemma edits_store P v : edits P (store p v) (λ _ c', c' = v).
Proof.
  intros l c Hc. exists tt, l, v. split; [|reflexivity].
  unfold store, modify. now rewrite edited_store.
Qed.

Lemma edits_update P g : edits P (update p g) (λ _ c', ∃ c, c' = g c ∧ P c).
Proof.
  intros l c Hc. exists tt, l, (g c). split; [|eauto].
  rewrite (update_Some (edited l c) p c) by (simpl; apply lookup_insert_eq).
  now rewrite edited_store.
Qed.

Lemma edits_xsend P r : edits P (xsend r) (λ _, P).
Proof. intros l c Hc. exists tt, (l ++ [r]), c. split; [reflexivity|exact Hc]. Qed.

Lemma edits_gets {A} P (g : State -> A) :
  (∀ l c, g (edited l c) = g s0) -> edits P (gets g) (λ a c, a = g s0 ∧ P c).
Proof. intros Hg l c Hc. exists (g s0), l, c. unfold gets. rewrite Hg. auto. Qed.

Lemma edits_getmon P i :
  is_Some (mons s0 !! i) -> edits P (getmon i) (λ a c, mons s0 !! i = Some a ∧ P c).
Proof.
  intros [m Hm] l c Hc. exists m, l, c. split; [|auto]. now apply getmon_Some.
Qed.

(** *** Steps that keep an invariant of the client *)

Lemma stays_ret {A} (a : A) I : stays I (ret a).
Proof.
  apply (edits_conseq I I _ (λ a' c, a' = a ∧ I c)); [auto| |apply edits_ret].
  now intros ? ? [_ H].
Qed.

Lemma stays_seq {A B} I (m : M A) (k : M B) :
  stays I m -> stays I k -> stays I (bind m (λ _, k)).
Proof. intros Hm Hk. eapply edits_bind; [exact Hm|]. intros a. exact Hk. Qed.

Lemma stays_xsend I r : stays I (xsend r).
Proof. apply edits_xsend. Qed.

Lemma stays_update I g : (∀ c, I c -> I (g c)) -> stays I (update p g).
Proof.
  intros Hg. apply (edits_conseq I I _ (λ _ c', ∃ c, c' = g c ∧ I c));
    [auto| |apply edits_update].
  intros _ c' (c & -> & Hc). auto.
Qed.

Lemma stays_store I v : I v -> stays I (store p v).
Proof.
  intros Hv. apply (edits_conseq I I _ (λ _ c', c' = v)); [auto| |apply edits_store].
  now intros _ c' ->.
Qed.

Lemma stays_when I b (m : M unit) : stays I m -> stays I (when b m).
Proof. intros Hm. destruct b; [exact Hm|apply stays_ret]. Qed.

Lemma stays_deref {A} I (k : Client -> M A) :
  (∀ a, I a -> stays I (k a)) -> stays I (bind (deref p) k).
Proof.
  intros Hk. eapply edits_bind; [apply edits_deref|]. intros a.
  intros l c [-> Hc]. now apply Hk.
Qed.

Lemma stays_gets {A B} I (g : State -> A) (k : A -> M B) :
  (∀ l c, g (edited l c) = g s0) -> stays I (k (g s0)) -> stays I (bind (gets g) k).
Proof.
  intros Hg Hk. eapply edits_bind; [now apply edits_gets|]. intros a l c [-> Hc].
  now apply Hk.
Qed.

Lemma stays_getmon {A} I i (k : Monitor -> M A) :
  is_Some (mons s0 !! i) -> (∀ m, mons s0 !! i = Some m -> stays I (k m)) ->
  stays I (bind (getmon i) k).
Proof.
  intros Hi Hk. eapply edits_bind; [now apply edits_getmon|]. intros a l c [Ha Hc].
  now apply Hk.
Qed.

Lemma total_stays {A B} I (m : M A) (k : M B) F :
  stays I m -> total I k F -> total I (bind m (λ _, k)) F.
Proof. intros Hm Hk. eapply total_bind; [exact Hm|]. intros a. exact Hk. Qed.

Lemma total_deref {A} I (k : Client -> M A) F :
  (∀ a, I a -> total (λ c, c = a) (k a) F) -> total I (bind (deref p) k) F.
Proof.
  intros Hk. eapply total_bind; [apply edits_deref|]. intros a l c [-> Hc].
  now apply (Hk c Hc).
Qed.

Lemma total_getmon {A} I i (k : Monitor -> M A) F :
  is_Some (mons s0 !! i) -> (∀ m, mons s0 !! i = Some m -> total I (k m) F) ->
  total I (bind (getmon i) k) F.
Proof.
  intros Hi Hk. eapply total_bind; [now apply edits_getmon|]. intros a l c [Ha Hc].
  now apply Hk.
Qed.

Lemma total_gets {A B} I (g : State -> A) (k : A -> M B) F :
  (∀ l c, g (edited l c) = g s0) -> total I (k (g s0)) F -> total I (bind (gets g) k) F.
Proof.
  intros Hg Hk. eapply total_bind; [now apply edits_gets|]. intros a l c [-> Hc].
  now apply Hk.
Qed.

End Edits.

Arguments edits s0 p {A} P m Q.
Arguments total s0 p {A} P m F.
Arguments stays s0 p {A} I m.

Lemma agree_links_sound s s' : sound s -> agree links s s' -> sound s'.
Proof.
  intros ([Hwf Hl] & Ht & Hf) A. split; [split|split].
  - now apply agree_links_wf with s.
  - intros mi m Hm. rewrite <- (agree_mons _ _ _ A) in Hm. eauto.
  - now apply agree_links_tagged with s.
  - exact (same_clients_fresh _ _ (agree_same_clients _ _ _ A) Hf).
Qed.

(** Every client of [s] is a client of [s'], with the same window,
    monitor and tags. *)
Definition links_kept (s s' : State) : Prop :=
  ∀ q c, heap s !! q = Some c -> ∃ c', heap s' !! q = Some c' ∧ links c' = links c.

Lemma links_kept_refl s : links_kept s s.
Proof. intros q c Hc. eauto. Qed.

Lemma links_kept_trans s1 s2 s3 : links_kept s1 s2 -> links_kept s2 s3 -> links_kept s1 s3.
Proof.
  intros H1 H2 q c Hc. destruct (H1 q c Hc) as (c1 & Hc1 & E1).
  destruct (H2 q c1 Hc1) as (c2 & Hc2 & E2). exists c2. split; [exact Hc2|congruence].
Qed.

Lemma agree_links_kept s s' : agree links s s' -> links_kept s s'.
Proof. intros A q c Hc. exact (agree_lookup_Some _ _ _ _ _ A Hc). Qed.

Lemma focus_post_links_kept s s' : focus_post s s' -> links_kept s s'.
Proof.
  intros (_ & _ & _ & _ & _ & _ & Hh & _) q c Hc.
  destruct (unurgent_lookup _ _ _ _ Hh Hc) as (c' & Hc' & E).
  exists c'. split; [exact Hc'|]. exact (f_equal links E).
Qed.

Lemma mon_by_num_Some n ms : ∀ k i, mon_by_num n ms k = Some i -> is_Some (ms !! (i - k)%nat).
Proof.
  induction ms as [|m ms IH]; intros k i H; [discriminate|]. simpl in H.
  destruct (Monitor.num m =? n).
  - injection H as <-. rewrite Nat.sub_diag. simpl. eauto.
  - pose proof (IH _ _ H) as Hi.
    assert (∀ j, mon_by_num n ms (S k) = Some j -> (S k <= j)%nat) as Hle.
    { clear. revert k. induction ms as [|m ms IH]; intros k j H; [discriminate|]. simpl in H.
      destruct (Monitor.num m =? n); [injection H as <-; lia|]. apply IH in H. lia. }
    specialize (Hle i H). replace (i - k)%nat with (S (i - S k)) by lia. exact Hi.
Qed.

Section Adopt.
Variable X : XServer.
(** The state under the client being adopted and the client's address. *)
Variables (s0 : State) (p : cptr).
Hypothesis Hsel : is_Some (mons s0 !! selmon s0).
Hypothesis Htagged : tagged s0.

(** An invariant of the client that reads only its window, monitor and
    tags, and says that its monitor is in the list. *)
Definition inert (I : Client -> Prop) : Prop :=
  (∀ c c', links c' = links c -> I c -> I c')
  ∧ (∀ c, I c -> is_Some (mons s0 !! Client.mon c)).

Section Inert.
Variable I : Client -> Prop.
Hypothesis HI : inert I.

Lemma stays_edit g : (∀ c, links (g c) = links c) -> stays s0 p I (update p g).
Proof. intros Hg. apply stays_update. intros c Hc. exact (proj1 HI c (g c) (Hg c) Hc). Qed.

Lemma stays_configure : stays s0 p I (configure p).
Proof. unfold configure. apply stays_deref. intros c Hc. apply stays_xsend. Qed.

Lemma stays_grabbuttons b : stays s0 p I (grabbuttons p b).
Proof. unfold grabbuttons. apply stays_deref. intros c Hc. apply stays_xsend. Qed.

Lemma stays_resizeclient x y w h : stays s0 p I (resizeclient p x y w h).
Proof.
  unfold resizeclient. apply stays_seq; [now apply stays_edit|].
  apply stays_deref. intros c Hc. apply stays_seq; [apply stays_xsend|].
  apply stays_seq; [apply stays_configure|apply stays_xsend].
Qed.

Lemma stays_setfullscreen_on : stays s0 p I (setfullscreen p true).
Proof.
  unfold setfullscreen. apply stays_deref. intros c Hc. simpl.
  destruct (Client.isfullscreen c); simpl; [apply stays_ret|].
  apply stays_seq; [apply stays_xsend|].
  apply stays_seq; [now apply stays_edit|].
  apply stays_getmon; [exact (proj2 HI c Hc)|]. intros m Hm.
  apply stays_seq; [apply stays_resizeclient|apply stays_xsend].
Qed.

Lemma stays_updatetitle : stays s0 p I (updatetitle X p).
Proof. unfold updatetitle. apply stays_deref. intros c Hc. now apply stays_edit. Qed.

Lemma stays_updatewindowtype : stays s0 p I (updatewindowtype X p).
Proof.
  unfold updatewindowtype. apply stays_deref. intros c Hc.
  apply stays_seq; [apply stays_when, stays_setfullscreen_on|].
  apply stays_when. now apply stays_edit.
Qed.

Lemma stays_updatewmhints : stays s0 p I (updatewmhints X p).
Proof.
  unfold updatewmhints. apply stays_deref. intros c Hc.
  destruct (XGetWMHints X (Client.win c)) as [wmh|]; [|apply stays_ret].
  apply stays_gets; [reflexivity|].
  apply stays_getmon; [exact Hsel|]. intros m Hm.
  apply stays_seq.
  - destruct (_ && _); [apply stays_xsend|now apply stays_edit].
  - now apply stays_edit.
Qed.

End Inert.

(** The client's monitor is in the list, its window is [w] and its resize
    increments are not -1. *)
Definition placed (w : Window) (c : Client) : Prop :=
  is_Some (mons s0 !! Client.mon c) ∧ Client.win c = w ∧ tame c.

(** And its tags are a mask of the invariant. *)
Definition adopted (w : Window) (c : Client) : Prop :=
  placed w c ∧ mask_ok (Client.tags c).

Lemma inert_placed w : inert (placed w).
Proof.
  split.
  - intros c c' E (Hm & Hw & Ht). pose proof (links_tame _ _ E Ht) as Ht'.
    apply links_eq in E as (_ & Em & Ew). unfold placed.
    now rewrite Em, Ew.
  - now intros c [Hm _].
Qed.

Lemma inert_adopted w : inert (adopted w).
Proof.
  split.
  - intros c c' E [Hp Ht]. split; [exact (proj1 (inert_placed w) c c' E Hp)|].
    apply links_eq in E as (Et & _). now rewrite Et.
  - intros c [Hp _]. exact (proj2 (inert_placed w) c Hp).
Qed.

Lemma stays_updatesizehints w :
  tame_server X -> stays s0 p (adopted w) (updatesizehints X p).
Proof.
  intros HX. unfold updatesizehints. apply stays_deref. intros c Hc. cbv zeta.
  assert (tame_hints X (Client.win c)) as Hh by exact (tame_server_hints X HX _).
  unfold tame_hints in Hh. cbv zeta in Hh.
  repeat match goal with
         | |- stays _ _ _ (let (_, _) := ?e in _) => destruct e eqn:?
         end.
  apply stays_store. destruct Hc as ((Hm & Hw & _) & Hok).
  split; [split; [exact Hm|split; [exact Hw|]]|exact Hok].
  exact Hh.
Qed.

Lemma stays_applyrules_loop w class instance rs :
  stays s0 p (placed w) (applyrules_loop p class instance rs).
Proof.
  induction rs as [|r rs IH]; [apply stays_ret|]. simpl.
  apply stays_deref. intros c Hc. apply stays_seq; [|exact IH].
  apply stays_when. apply stays_seq.
  - apply stays_update. intros c1 [Hm Hw]. now split.
  - apply stays_gets; [reflexivity|].
    destruct (mon_by_num (r_monitor r) (mons s0) 0) as [i|] eqn:Ei; [|apply stays_ret].
    apply stays_update. intros c1 [Hm Hw]. split; [|exact Hw]. simpl.
    apply mon_by_num_Some in Ei. now rewrite Nat.sub_0_r in Ei.
Qed.

Lemma edits_applyrules w :
  edits s0 p (placed w) (applyrules X p) (λ _, adopted w).
Proof.
  unfold applyrules.
  eapply edits_bind; [apply (stays_update s0 p (placed w))|]; [now intros c [Hm Hw]|].
  intros ?. eapply edits_bind; [apply edits_deref|]. intros c. cbv zeta.
  eapply edits_bind.
  { eapply edits_conseq; [| |apply (stays_applyrules_loop w)]; [now intros c1 [_ H]|].
    intros u c1 H. exact H. }
  intros ?. eapply edits_bind; [apply edits_deref|]. intros c1.
  intros l c2 [-> [Hm Hw]].
  destruct Hm as [m Hm].
  destruct (edits_getmon s0 p (λ c, c = c2) (Client.mon c2)) with (l := l) (c := c2)
    as (m' & l' & c' & E & Hm' & ->); [eauto|reflexivity|].
  rewrite Hm in Hm'. injection Hm' as <-.
  rewrite (bind_run _ _ _ _ _ E).
  destruct (edits_update s0 p (λ c, c = c2)
              (Client.set_tags
                 (if Z.land (Client.tags c2) TAGMASK =? 0 then Monitor.seltagset m
                  else Z.land (Client.tags c2) TAGMASK)) l' c2 eq_refl)
    as ([] & l2 & c3 & E3 & c4 & -> & ->).
  eexists tt, l2, _. split; [exact E3|]. split; [split; [simpl; eauto|exact Hw]|]. simpl.
  destruct (Z.land (Client.tags c2) TAGMASK =? 0) eqn:Ez.
  - apply mask_ok_seltagset. exact (proj2 Htagged _ _ Hm).
  - split; [now apply Z.eqb_neq|]. rewrite <- Z.land_assoc. f_equal.
Qed.

End Adopt.

(** ** [manage] *)

Lemma sound_edited s l c :
  sound s -> mask_ok (Client.tags c) ->
  sound (edited (set_brk (Pos.succ (brk s)) s) (brk s) l c).
Proof.
  intros ([[Hsm Hwf] Hl] & [Htc Htm] & Hf) Hok.
  assert (heap s !! brk s = None) as Hp by (apply Hf; reflexivity).
  assert (∀ q, is_Some (heap s !! q) -> q ≠ brk s) as Hne.
  { intros q [cq Hq] ->. congruence. }
  split; [split; [split|]|split].
  - exact Hsm.
  - intros mi m Hm. destruct (Hwf mi m Hm) as (Ost & Ocl & Osl).
    assert (∀ q, owned s mi q
                 -> owned (edited (set_brk (Pos.succ (brk s)) s) (brk s) l c) mi q) as Ho.
    { intros q (cq & Hq & Hmon). exists cq. split; [|exact Hmon]. simpl.
      rewrite lookup_insert_ne; [exact Hq|]. symmetry. apply Hne. eauto. }
    split; [|split].
    + eapply Forall_impl; [exact Ost|exact Ho].
    + eapply Forall_impl; [exact Ocl|exact Ho].
    + intros q Hq. simpl. rewrite lookup_insert_ne; [eauto|]. symmetry. apply Hne. eauto.
  - exact Hl.
  - split; [|exact Htm]. intros q cq Hq. simpl in Hq.
    destruct (decide (q = brk s)) as [->|Hqp].
    + rewrite lookup_insert_eq in Hq. now injection Hq as <-.
    + rewrite lookup_insert_ne in Hq by done. eauto.
  - intros q Hq. simpl in *. rewrite lookup_insert_ne by lia. apply Hf. lia.
Qed.

Lemma sound_unlisted s i m : sound s -> mons s !! i = Some m -> brk s ∉ Monitor.stack m.
Proof.
  intros ([[_ Hwf] _] & _ & Hf) Hm Hin. destruct (Hwf i m Hm) as (Ost & _).
  rewrite Forall_forall in Ost. destruct (Ost _ Hin) as (c & Hc & _).
  rewrite (Hf (brk s)) in Hc by reflexivity. discriminate.
Qed.

Lemma edits_wintoclient s l c w :
  sound s ->
  let s0 := set_brk (Pos.succ (brk s)) s in
  ∃ r, wintoclient w (edited s0 (brk s) l c) = Some (r, edited s0 (brk s) l c)
       ∧ ∀ tp, r = Some tp ->
           tp ≠ brk s ∧ ∃ tc, heap s !! tp = Some tc ∧ is_Some (mons s !! Client.mon tc).
Proof.
  intros Hs s0.
  assert (wf (edited s0 (brk s) l c)) as Hwf.
  { pose proof Hs as ([[Hsm Hwf] _] & _ & Hf). split; [exact Hsm|].
    intros mi m Hm. destruct (Hwf mi m Hm) as (Ost & Ocl & Osl).
    assert (∀ q, is_Some (heap s !! q) -> q ≠ brk s) as Hne.
    { intros q [cq Hq] ->. rewrite (Hf (brk s)) in Hq by reflexivity. discriminate. }
    assert (∀ q, owned s mi q -> owned (edited s0 (brk s) l c) mi q) as Ho.
    { intros q (cq & Hq & Hmon). exists cq. split; [|exact Hmon]. simpl.
      rewrite lookup_insert_ne; [exact Hq|]. symmetry. apply Hne. eauto. }
    split; [|split].
    + eapply Forall_impl; [exact Ost|exact Ho].
    + eapply Forall_impl; [exact Ocl|exact Ho].
    + intros q Hq. simpl. rewrite lookup_insert_ne; [eauto|]. symmetry. apply Hne. eauto. }
  destruct (wintoclient_listed _ w Hwf) as (r & E & H). exists r. split; [exact E|].
  intros tp Htp. destruct (H tp Htp) as (mi & m & tc & Hm & Hin & Htc & Hmon & _).
  simpl in Hm. pose proof Hs as ([[_ Hown] _] & _ & Hf).
  destruct (Hown mi m Hm) as (_ & Ocl & _). rewrite Forall_forall in Ocl.
  destruct (Ocl tp Hin) as (tc0 & Htc0 & Hmon0).
  assert (tp ≠ brk s) as Hne.
  { intros ->. rewrite (Hf (brk s)) in Htc0 by reflexivity. discriminate. }
  split; [exact Hne|]. exists tc0. split; [exact Htc0|]. rewrite Hmon0. eauto.
Qed.

(** What [manage] returns: a state of the invariant with one more client,
    at the address [brk] handed out, on the window given; the client is at
    the head of its monitor's client list and on its stack, and the
    clients there were keep their window, monitor and tags. *)
Definition adopts (s : State) (w : Window) (r : unit * State) : Prop :=
  good (snd r) ∧ brk (snd r) = Pos.succ (brk s) ∧ selmon (snd r) = selmon s
  ∧ links_kept s (snd r) ∧ dom (heap (snd r)) = {[brk s]} ∪ dom (heap s)
  ∧ ∃ c' m m', heap (snd r) !! brk s = Some c' ∧ Client.win c' = w
               ∧ mons s !! Client.mon c' = Some m
               ∧ mons (snd r) !! Client.mon c' = Some m'
               ∧ Monitor.clients m' = brk s :: Monitor.clients m
               ∧ brk s ∈ Monitor.stack m'.

Lemma links_kept_edited s l c :
  sound s -> links_kept s (edited (set_brk (Pos.succ (brk s)) s) (brk s) l c).
Proof.
  intros (_ & _ & Hf) q cq Hq. exists cq. split; [|reflexivity]. simpl.
  rewrite lookup_insert_ne; [exact Hq|]. intros <-.
  rewrite (Hf (brk s)) in Hq by reflexivity. discriminate.
Qed.

Lemma manage_tail X s l a w :
  good s -> tamed s -> adopted (set_brk (Pos.succ (brk s)) s) w a ->
  ∃ r, (attach (brk s);;
        attachstack (brk s);;
        xsend (XChangeProperty_NetClientList_Append (Client.win a));;
        gsw ← gets sw;
        xsend (XMoveResizeWindow (Client.win a) (int_of (Client.x a + 2 * gsw)) (Client.y a)
                 (Client.w a) (Client.h a));;
        setclientstate (brk s) NormalState;;
        mi ← gets selmon;
        when (bool_decide (Client.mon a = mi))
          (m ← getmon mi; unfocus (Monitor.sel m) false);;
        updmon (Client.mon a) (Monitor.set_sel (Some (brk s)));;
        arrange (Some (Client.mon a));;
        xsend (XMapWindow (Client.win a));;
        focus X None) (edited (set_brk (Pos.succ (brk s)) s) (brk s) l a) = Some r
       ∧ adopts s w r ∧ tamed (snd r).
Proof.
  intros Hg Hta [[[mo Hmo] [Hw Hta_a]] Hok]. pose proof (good_sound s Hg) as Hs.
  set (p := brk s) in *. set (s0 := set_brk (Pos.succ p) s) in *.
  simpl in Hmo.
  pose proof (sound_edited s l a Hs Hok) as HsE. fold p s0 in HsE.
  assert (heap (edited s0 p l a) !! p = Some a) as Hc by apply lookup_insert_eq.
  (* attach, attachstack *)
  rewrite (bind_run _ _ _ _ _ (attach_ok (edited s0 p l a) p a mo Hc Hmo)).
  rewrite (bind_run _ _ _ _ _
             (attachstack_ok
                (upd_mon (Client.mon a) (Monitor.set_clients (p :: Monitor.clients mo) mo)
                   (edited s0 p l a))
                p a _ Hc (upd_mon_lookup _ _ _ (lookup_lt_Some _ _ _ Hmo)))).
  rewrite upd_mon_twice.
  set (mo6 := Monitor.set_stack _ (Monitor.set_clients _ mo)).
  pose proof (sound_attach (edited s0 p l a) p a mo HsE Hc Hmo
                (sound_unlisted s _ mo Hs Hmo)) as Hs6.
  fold mo6 in Hs6.
  (* the requests *)
  set (s6 := upd_mon (Client.mon a) mo6 (edited s0 p l a)) in *.
  assert (heap s6 !! p = Some a) as Hc6 by exact Hc.
  assert (∀ L, sound (set_xlog L s6)) as HsL.
  { intros L. apply sound_globals with s6; [exact Hs6|reflexivity..|apply Hs6]. }
  destruct (bind_logs _ (λ _, gsw ← gets sw;
        xsend (XMoveResizeWindow (Client.win a) (int_of (Client.x a + 2 * gsw)) (Client.y a)
                 (Client.w a) (Client.h a));;
        setclientstate p NormalState;;
        mi ← gets selmon;
        when (bool_decide (Client.mon a = mi))
          (m ← getmon mi; unfocus (Monitor.sel m) false);;
        updmon (Client.mon a) (Monitor.set_sel (Some p));;
        arrange (Some (Client.mon a));;
        xsend (XMapWindow (Client.win a));;
        focus X None) s6
      (logs_xsend (XChangeProperty_NetClientList_Append (Client.win a)) s6))
    as ([] & l1 & ->).
  rewrite bind_gets.
  match goal with |- context [bind (xsend ?r) ?k ?st] =>
    destruct (bind_logs _ k st (logs_xsend r st)) as ([] & l2 & ->)
  end.
  rewrite set_xlog_twice.
  match goal with |- context [bind (setclientstate ?q ?n) ?k ?st] =>
    assert (logs (setclientstate q n) st) as Hl;
      [|destruct (bind_logs _ k st Hl) as ([] & l3 & ->); clear Hl]
  end.
  { unfold setclientstate. apply logs_bind; [apply logs_deref; simpl; eauto|].
    intros; apply logs_xsend. }
  rewrite set_xlog_twice, bind_gets.
  match goal with |- context [bind (when ?b ?m) ?k ?st] =>
    assert (logs (when b m) st) as Hl;
      [|destruct (bind_logs (when b m) k st Hl) as ([] & l4 & ->); clear Hl]
  end.
  { apply logs_when. pose proof (HsL l3) as ([[[m7 Hm7] Hown7] _] & _).
    unfold logs. rewrite (bind_run _ _ _ _ _ (getmon_Some _ _ _ Hm7)).
    apply logs_unfocus. intros q Hq. destruct (Hown7 _ _ Hm7) as (_ & _ & H). eauto. }
  rewrite set_xlog_twice.
  (* the selection on the client's monitor *)
  assert (mons (set_xlog l4 s6) !! Client.mon a = Some mo6) as Hmo6.
  { apply upd_mon_lookup. now apply lookup_lt_Some in Hmo. }
  rewrite (bind_run _ _ _ _ _ (updmon_Some _ _ _ _ Hmo6)).
  set (s7 := upd_mon _ _ _).
  assert (sound s7) as Hs7.
  { apply sound_upd_lists with mo6; [apply HsL|exact Hmo6| |auto|reflexivity].
    destruct (proj2 (proj1 (HsL l4)) _ _ Hmo6) as (H1 & H2 & H3 & _).
    split; [exact H1|]. split; [exact H2|]. split; [exact H3|].
    intros q [= <-]. apply list_elem_of_here. }
  assert (mons s7 !! Client.mon a = Some (Monitor.set_sel (Some p) mo6)) as Hmo7.
  { apply upd_mon_lookup. simpl. rewrite length_insert. now apply lookup_lt_Some in Hmo. }
  assert (tamed s7) as Hta7 by exact (tamed_store s p a Hta Hta_a).
  destruct (arrange_moves s7 (Client.mon a)) as (s8 & E8 & A8).
  { exact Hta7. }
  { apply wf_arrangeable; [apply Hs7|eauto]. }
  rewrite (bind_run _ _ _ _ _ E8), bind_xsend.
  pose proof (agree_geom_links _ _ A8) as L8.
  pose proof (agree_links_sound _ _ Hs7 L8) as Hs8.
  set (s9 := set_xlog _ s8).
  assert (sound s9) as Hs9.
  { apply sound_globals with s8; [exact Hs8|reflexivity..|apply Hs8]. }
  pose proof Hs9 as ([[[m9 Hm9] _] _] & _).
  destruct (focus_good X None s9 m9 Hs9 Hm9) as (s' & E & Hg' & Hp' & Ems'); [done|].
  exists (tt, s'). split; [exact E|]. unfold adopts. simpl snd.
  apply and_comm. split.
  { apply (focus_post_tamed s9 _); [|exact Hp']. exact (agree_geom_tamed _ _ Hta7 A8). }
  (* what became of the clients *)
  assert (links_kept s s') as Hk.
  { apply links_kept_trans with (edited s0 p l a); [now apply links_kept_edited|].
    apply links_kept_trans with s8; [|now apply focus_post_links_kept].
    intros q cq Hq. apply (agree_links_kept _ _ L8). exact Hq. }
  assert (links_kept (edited s0 p l a) s') as Hk'.
  { apply links_kept_trans with s8; [|now apply focus_post_links_kept].
    intros q cq Hq. apply (agree_links_kept _ _ L8). exact Hq. }
  destruct (Hk' p a Hc) as (c' & Hc' & El). apply links_eq in El as (Et & Em & Ewin).
  split; [exact Hg'|]. split.
  { destruct (focus_post_same_clients _ _ Hp') as (-> & _).
    simpl. now rewrite <- (f_equal brk A8 : brk s7 = brk s8). }
  split.
  { destruct Hp' as (-> & _). simpl. now rewrite <- (agree_selmon _ _ _ A8). }
  split; [exact Hk|]. split.
  { destruct (focus_post_same_clients _ _ Hp') as (_ & -> & _). simpl.
    destruct (agree_same_clients _ _ _ A8) as (_ & -> & _). simpl.
    apply dom_insert_L. }
  assert (mons s9 !! Client.mon a = Some (Monitor.set_sel (Some p) mo6)) as Hmo9.
  { simpl. now rewrite <- (agree_mons _ _ _ A8). }
  exists c', mo.
  destruct (decide (Client.mon a = selmon s9)) as [Esel|Hne].
  - rewrite <- Esel, Hmo9 in Hm9. injection Hm9 as <-.
    eexists. split; [exact Hc'|]. split; [congruence|]. rewrite Em.
    split; [exact Hmo|]. split.
    { rewrite Ems', <- Esel. apply list_lookup_insert_eq. now apply lookup_lt_Some in Hmo9. }
    unfold raised. destruct (focus_choice s9 None _) as [q|] eqn:Hch; simpl.
    + split; [reflexivity|].
      destruct (decide (q = p)) as [->|Hqp]; [apply list_elem_of_here|].
      apply list_elem_of_further.
      unfold focus_choice in Hch. apply find_elem in Hch as [Hq _]. simpl in Hq.
      apply elem_of_cons in Hq as [->|Hq]; [contradiction|].
      destruct (unlink_elem q _ Hq) as (l' & Hl' & _).
      rewrite decide_False by congruence. rewrite Hl'. simpl. apply list_elem_of_here.
    + split; [reflexivity|]. apply list_elem_of_here.
  - eexists. split; [exact Hc'|]. split; [congruence|]. rewrite Em.
    split; [exact Hmo|]. split.
    { rewrite Ems'. rewrite list_lookup_insert_ne by congruence. exact Hmo9. }
    split; [reflexivity|]. apply list_elem_of_here.
Qed.

Lemma manage_adopts_run X w wa s :
  tame_server X -> good s -> tamed s ->
  ∃ r, manage X w wa s = Some r ∧ adopts s w r ∧ tamed (snd r).
Proof.
  intros HX Hg Hta. pose proof (good_sound s Hg) as Hs.
  set (p := brk s). set (s0 := set_brk (Pos.succ p) s).
  assert (is_Some (mons s0 !! selmon s0)) as Hsel by apply Hs.
  assert (tagged s0) as Htg by apply Hs.
  assert (is_Some (mons s0 !! 0%nat)) as H0.
  { apply lookup_lt_is_Some. destruct Hsel as [m Hm]. apply lookup_lt_Some in Hm. lia. }
  pose proof (inert_placed s0 w) as Ip. pose proof (inert_adopted s0 w) as Ia.
  unfold manage.
  assert (ecalloc_client s = Some (p, edited s0 p (xlog s) zero_client)) as Ee by reflexivity.
  rewrite (bind_run _ _ _ _ _ Ee). clear Ee.
  apply (total_bind s0 p (λ c, c = zero_client) _ _ (λ _, placed s0 w));
    [| |reflexivity].
  { intros l c ->. destruct (edits_update s0 p (λ c, c = zero_client) (Client.set_win w) l _ eq_refl)
      as ([] & l' & c' & E & c0 & -> & ->).
    eexists tt, l', _. split; [exact E|]. now split. }
  intros _.
  apply total_stays; [now apply stays_edit|].
  apply total_stays; [now apply stays_updatetitle|].
  cbv zeta.
  apply (total_bind s0 p _ _ _
           (λ t c, placed s0 w c
                   ∧ ∀ tp, t = Some tp ->
                       tp ≠ p ∧ ∃ tc, heap s !! tp = Some tc
                                      ∧ is_Some (mons s !! Client.mon tc))).
  { intros l c Hc. destruct (XGetTransientForHint X w) as [tw|].
    - destruct (edits_wintoclient s l c tw Hs) as (r & E & Hr). exists r, l, c. auto.
    - exists None, l, c. split; [reflexivity|]. split; [exact Hc|]. discriminate. }
  intros t.
  apply (total_bind s0 p _ _ _ (λ _, adopted s0 w)).
  { destruct t as [tp|].
    - intros l c [Hc Ht]. destruct (Ht tp eq_refl) as (Hne & tc & Htc & Hmv).
      destruct (edits_deref_other s0 p (λ c', c' = c) tp tc Hne Htc l c eq_refl)
        as (? & l1 & c1 & E1 & -> & ->).
      rewrite (bind_run _ _ _ _ _ E1).
      destruct (edits_update s0 p (λ c', c' = c)
                  (λ c, Client.set_tags (Client.tags tc) (Client.set_mon (Client.mon tc) c))
                  l1 c eq_refl) as ([] & l2 & c2 & E2 & c3 & -> & ->).
      eexists tt, l2, _. split; [exact E2|]. destruct Hc as [_ Hw].
      split; [split; [exact Hmv|exact Hw]|]. exact (proj1 Htg _ _ Htc).
    - apply (edits_conseq s0 p (placed s0 w) _ _ (λ _, adopted s0 w)); [now intros c [H _]|auto|].
      eapply edits_bind; [apply edits_gets; reflexivity|]. intros mi.
      intros l c [-> Hc]. 
      assert (stays s0 p (placed s0 w) (update p (Client.set_mon (selmon s0)))) as Hu.
      { apply stays_update. intros c1 [_ Hw]. split; [exact Hsel|exact Hw]. }
      destruct (Hu l c Hc) as ([] & l1 & c1 & E1 & Hc1).
      rewrite (bind_run _ _ _ _ _ E1).
      exact (edits_applyrules X s0 p Htg w l1 c1 Hc1). }
  intros _.
  apply total_deref. intros c Hc.
  apply (total_pre s0 p (adopted s0 w)); [now intros c' ->|].
  apply total_getmon; [exact (proj2 Ia c Hc)|]. intros m Hm.
  apply total_stays; [apply stays_when; now apply stays_edit|].
  apply total_stays; [apply stays_when; now apply stays_edit|].
  apply total_stays; [now apply stays_edit|].
  apply total_gets; [reflexivity|].
  apply total_stays; [now apply stays_edit|].
  apply total_stays; [now apply stays_edit|].
  apply total_stays; [apply stays_xsend|].
  apply total_stays; [now apply stays_configure|].
  apply total_stays; [now apply stays_updatewindowtype|].
  apply total_stays; [now apply stays_updatesizehints|].
  apply total_stays; [now apply stays_updatewmhints|].
  apply total_stays; [apply stays_xsend|].
  apply total_stays; [now apply stays_grabbuttons|].
  apply total_deref. intros c1 Hc1.
  apply (total_pre s0 p (adopted s0 w)); [now intros c' ->|].
  apply total_stays; [apply stays_when; now apply stays_edit|].
  apply total_deref. intros a Ha.
  apply total_stays; [apply stays_when, stays_xsend|].
  intros l c2 ->. exact (manage_tail X s l a w Hg Hta Ha).
Qed.

(** * Windows that come and go *)

(** ** The handlers *)

(** What the handlers below ask of Xlib beyond [XServer], [XReq] and
    [Atom]: requests the log has no name for, given as the entries they
    leave in it; the atom WM_DELETE_WINDOW; the root window, the pointer
    position [getrootptr] finds (if the pointer is on the screen), and the
    attributes of a window with its [override_redirect] flag (if the
    window exists). *)
Record XMore := {
  XGrabServer : XReq;
  XUngrabServer : XReq;
  XUngrabButton : Window -> XReq;                 (* AnyButton, AnyModifier *)
  XDeleteProperty_NetClientList : XReq;
  XSetCloseDownMode : XReq;                       (* DestroyAll *)
  XKillClient : Window -> XReq;
  WMDelete : Atom;
  root : Window;
  XQueryPointer : option (Z * Z);
  XGetWindowAttributes : Window -> option (XWindowAttributes * bool)
}.

(** [static const char *altbarclass] *)
Definition altbarclass : string := "Polybar".

(** [bh = v] *)
Definition set_bh (v : Z) (s : State) : State :=
  {| heap := heap s; mons := mons s; selmon := selmon s; combo := combo s; bh := v;
     sw := sw s; sh := sh s; brk := brk s; xlog := xlog s |}.

(** [m->barwin = w; m->by = y; m->bh = h] *)
Definition set_bar (w : Window) (y h : Z) (m : Monitor) : Monitor :=
  {| Monitor.mfact := Monitor.mfact m; Monitor.nmaster := Monitor.nmaster m;
     Monitor.num := Monitor.num m;
     Monitor.by_ := y; Monitor.bh := h;
     Monitor.mx := Monitor.mx m; Monitor.my := Monitor.my m;
     Monitor.mw := Monitor.mw m; Monitor.mh := Monitor.mh m;
     Monitor.wx := Monitor.wx m; Monitor.wy := Monitor.wy m;
     Monitor.ww := Monitor.ww m; Monitor.wh := Monitor.wh m;
     Monitor.gappx := Monitor.gappx m; Monitor.seltags := Monitor.seltags m;
     Monitor.tagset := Monitor.tagset m; Monitor.clients := Monitor.clients m;
     Monitor.sel := Monitor.sel m; Monitor.stack := Monitor.stack m;
     Monitor.barwin := w; Monitor.traywin := Monitor.traywin m |}.

(** [m->traywin = w] *)
Definition set_traywin (w : Window) (m : Monitor) : Monitor :=
  {| Monitor.mfact := Monitor.mfact m; Monitor.nmaster := Monitor.nmaster m;
     Monitor.num := Monitor.num m;
     Monitor.by_ := Monitor.by_ m; Monitor.bh := Monitor.bh m;
     Monitor.mx := Monitor.mx m; Monitor.my := Monitor.my m;
     Monitor.mw := Monitor.mw m; Monitor.mh := Monitor.mh m;
     Monitor.wx := Monitor.wx m; Monitor.wy := Monitor.wy m;
     Monitor.ww := Monitor.ww m; Monitor.wh := Monitor.wh m;
     Monitor.gappx := Monitor.gappx m; Monitor.seltags := Monitor.seltags m;
     Monitor.tagset := Monitor.tagset m; Monitor.clients := Monitor.clients m;
     Monitor.sel := Monitor.sel m; Monitor.stack := Monitor.stack m;
     Monitor.barwin := Monitor.barwin m; Monitor.traywin := w |}.

(** [free(c)] *)
Definition free (p : cptr) : M unit := modify (λ s, set_heap (delete p (heap s)) s).

(** The inner loop of [updateclientlist], over a client list. *)
Fixpoint append_windows (l : list cptr) : M unit :=
  match l with
  | [] => ret tt
  | p :: l' =>
      c ← deref p;
      xsend (XChangeProperty_NetClientList_Append (Client.win c));;
      append_windows l'
  end.

(** Its outer loop, over the monitors. *)
Fixpoint append_monitors (ms : list Monitor) : M unit :=
  match ms with
  | [] => ret tt
  | m :: ms' => append_windows (Monitor.clients m);; append_monitors ms'
  end.

(** The loop of [wintomon] over the monitors from index [i] on. *)
Fixpoint mon_of_bar (w : Window) (ms : list Monitor) (i : nat) : option nat :=
  match ms with
  | [] => None
  | m :: ms' =>
      if (w =? Monitor.barwin m) || (w =? Monitor.traywin m) then Some i
      else mon_of_bar w ms' (S i)
  end.

(** The atoms [propertynotify] tells apart. *)
Inductive PropertyAtom :=
| XA_WM_TRANSIENT_FOR | XA_WM_NORMAL_HINTS | XA_WM_HINTS | XA_WM_NAME
| NetWMName | NetWMWindowType | OtherProperty.

Global Instance PropertyAtom_eq_dec : EqDecision PropertyAtom.
Proof. solve_decision. Defined.

(** XPropertyEvent: [deleted] is [state == PropertyDelete]. *)
Record XPropertyEvent := { pe_window : Window; pe_atom : PropertyAtom; pe_deleted : bool }.

(** XCrossingEvent: [normal] is [mode == NotifyNormal], [inferior] is
    [detail == NotifyInferior]. *)
Record XCrossingEvent := { ce_window : Window; ce_normal : bool; ce_inferior : bool }.

Section Events.
Variable X : XServer.
Variable R : XMore.

(** [updateclientlist] *)
Definition updateclientlist : M unit :=
  xsend (XDeleteProperty_NetClientList R);;
  ms ← gets mons;
  append_monitors ms.

(** [unmanage] *)
Definition unmanage (p : cptr) (destroyed : bool) : M unit :=
  c ← deref p;
  let m := Client.mon c in
  detach p;;
  detachstack p;;
  when (negb destroyed)
    (xsend (XGrabServer R);;                      (* avoid race conditions *)
     xsend (XConfigureWindow (Client.win c) CWBorderWidth 0 0 0 0 (Client.oldbw c) 0 0);;
                                                  (* restore border *)
     xsend (XUngrabButton R (Client.win c));;
     setclientstate p WithdrawnState;;
     xsend XSync;;
     xsend (XUngrabServer R));;
  free p;;
  focus X None;;
  updateclientlist;;
  arrange (Some m).

(** [wintomon]: the index of the monitor. *)
Definition wintomon (w : Window) : M nat :=
  match (if w =? root R then XQueryPointer R else None) with
  | Some (x, y) => recttomon x y 1 1
  | None =>
      ms ← gets mons;
      match mon_of_bar w ms 0 with
      | Some i => ret i
      | None =>
          c ← wintoclient w;
          match c with
          | Some p => cl ← deref p; ret (Client.mon cl)
          | None => gets selmon
          end
      end
  end.

(** [unmanagealtbar]; [wintomon] never returns NULL. *)
Definition unmanagealtbar (w : Window) : M unit :=
  mi ← wintomon w;
  updmon mi (set_bar 0 0 0);;
  updmon mi updatebarpos;;
  arrange (Some mi).

(** [unmanagetray] *)
Definition unmanagetray (w : Window) : M unit :=
  mi ← wintomon w;
  updmon mi (set_traywin 0);;
  updmon mi updatebarpos;;
  arrange (Some mi).

(** The branches of [destroynotify] and [unmapnotify] for a window that is
    not a client's. *)
Definition unmanage_bars (w : Window) : M unit :=
  mi ← wintomon w;
  m ← getmon mi;
  if Monitor.barwin m =? w then unmanagealtbar w
  else if Monitor.traywin m =? w then unmanagetray w
  else ret tt.

(** [destroynotify] *)
Definition destroynotify (w : Window) : M unit :=
  c ← wintoclient w;
  match c with
  | Some p => unmanage p true
  | None => unmanage_bars w
  end.

(** [unmapnotify] *)
Definition unmapnotify (w : Window) (send_event : bool) : M unit :=
  c ← wintoclient w;
  match c with
  | Some p => if send_event then setclientstate p WithdrawnState else unmanage p false
  | None => unmanage_bars w
  end.

(** [managealtbar]; [recttomon] never returns NULL. *)
Definition managealtbar (win : Window) (wa : XWindowAttributes) : M unit :=
  mi ← recttomon (wa_x wa) (wa_y wa) (wa_width wa) (wa_height wa);
  updmon mi (set_bar win (wa_y wa) (wa_height wa));;
  modify (set_bh (wa_height wa));;
  updmon mi updatebarpos;;
  arrange (Some mi);;
  xsend (XSelectInput win client_event_mask);;
  xsend (XMoveResizeWindow win (wa_x wa) (wa_y wa) (wa_width wa) (wa_height wa));;
  xsend (XMapWindow win);;
  xsend (XChangeProperty_NetClientList_Append win).

(** [wmclasscontains] *)
Definition wmclasscontains (win : Window) (class name : string) : bool :=
  match XGetClassHint X win with
  | Some (res_name, res_class) =>
      match res_name with Some n => strstr n name | None => true end
      && match res_class with Some c => strstr c class | None => true end
  | None => false
  end.

(** [maprequest] *)
Definition maprequest (w : Window) : M unit :=
  match XGetWindowAttributes R w with
  | None => ret tt
  | Some (wa, override_redirect) =>
      if override_redirect then ret tt
      else if wmclasscontains w altbarclass EmptyString then managealtbar w wa
      else
        c ← wintoclient w;
        match c with
        | Some _ => ret tt
        | None => manage X w wa
        end
  end.

(** [enternotify] *)
Definition enternotify (ev : XCrossingEvent) : M unit :=
  if (negb (ce_normal ev) || ce_inferior ev) && negb (ce_window ev =? root R) then ret tt
  else
    c ← wintoclient (ce_window ev);
    m ← match c with
        | Some p => cl ← deref p; ret (Client.mon cl)
        | None => wintomon (ce_window ev)
        end;
    mi ← gets selmon;
    if negb (bool_decide (m = mi)) then
      sel ← getmon mi;
      unfocus (Monitor.sel sel) true;;
      modify (set_selmon m);;
      focus X c
    else
      match c with
      | None => ret tt
      | Some p =>
          sel ← getmon mi;
          if bool_decide (Monitor.sel sel = Some p) then ret tt else focus X c
      end.

(** [focusin] *)
Definition focusin (w : Window) : M unit :=
  mi ← gets selmon;
  m ← getmon mi;
  match Monitor.sel m with
  | Some p =>
      c ← deref p;
      when (negb (w =? Client.win c)) (setfocus X p)
  | None => ret tt
  end.

(** [killclient] *)
Definition killclient : M unit :=
  mi ← gets selmon;
  m ← getmon mi;
  match Monitor.sel m with
  | None => ret tt
  | Some p =>
      sent ← sendevent X p (WMDelete R);
      when (negb sent)
        (c ← deref p;
         xsend (XGrabServer R);;
         xsend (XSetCloseDownMode R);;
         xsend (XKillClient R (Client.win c));;
         xsend XSync;;
         xsend (XUngrabServer R))
  end.

(** [propertynotify] *)
Definition propertynotify (ev : XPropertyEvent) : M unit :=
  if pe_deleted ev then ret tt    (* ignore *)
  else
    c ← wintoclient (pe_window ev);
    match c with
    | None => ret tt
    | Some p =>
        match pe_atom ev with
        | XA_WM_TRANSIENT_FOR =>
            cl ← deref p;
            if Client.isfloating cl then ret tt
            else
              match XGetTransientForHint X (Client.win cl) with
              | None => ret tt
              | Some trans =>
                  t ← wintoclient trans;
                  update p (Client.set_isfloating (bool_decide (t ≠ None)));;
                  when (bool_decide (t ≠ None)) (arrange (Some (Client.mon cl)))
              end
        | XA_WM_NORMAL_HINTS => updatesizehints X p
        | XA_WM_HINTS => updatewmhints X p
        | _ => ret tt
        end;;
        when (bool_decide (pe_atom ev = XA_WM_NAME) || bool_decide (pe_atom ev = NetWMName))
          (updatetitle X p);;
        when (bool_decide (pe_atom ev = NetWMWindowType)) (updatewindowtype X p)
    end.

End Events.

(** ** The invariant along them *)

Lemma sound_free s p :
  sound s -> (∀ i m, mons s !! i = Some m -> p ∉ Monitor.stack m) ->
  sound (set_heap (delete p (heap s)) s).
Proof.
  intros ([[Hsm Hwf] Hl] & [Htc Htm] & Hf) Hun.
  assert (∀ i m q, mons s !! i = Some m -> q ∈ Monitor.stack m -> q ≠ p) as Hne.
  { intros i m q Hm Hq ->. exact (Hun i m Hm Hq). }
  split; [split; [split|]|split].
  - exact Hsm.
  - intros mi m Hm. destruct (Hwf _ _ Hm) as (Ost & Ocl & Osl).
    destruct (Hl _ _ Hm) as (_ & _ & Hcs & Hsel).
    rewrite Forall_forall in Ost, Ocl. repeat split.
    + apply Forall_forall. intros q Hq. destruct (Ost q Hq) as (c & Hc & Hmon).
      exists c. simpl. rewrite lookup_delete_ne by (symmetry; eauto). auto.
    + apply Forall_forall. intros q Hq. destruct (Ocl q Hq) as (c & Hc & Hmon).
      exists c. simpl. rewrite lookup_delete_ne; [auto|].
      symmetry. apply (Hne mi m q Hm). now apply Hcs.
    + intros q Hq. simpl. rewrite lookup_delete_ne by (symmetry; eauto). eauto.
  - exact Hl.
  - split; [|exact Htm]. intros q c Hc. simpl in Hc.
    apply lookup_delete_Some in Hc as [_ Hc]. eauto.
  - intros q Hq. simpl. destruct (decide (q = p)) as [->|Hqp].
    + apply lookup_delete_eq.
    + rewrite lookup_delete_ne by done. auto.
Qed.

Lemma logs_append_windows s l :
  Forall (λ p, is_Some (heap s !! p)) l -> logs (append_windows l) s.
Proof.
  intros H. revert s H. induction l as [|p l IH]; intros s H; [apply logs_ret|]. simpl.
  apply Forall_cons in H as [Hp Hl].
  apply logs_bind; [now apply logs_deref|]. intros c l1.
  apply logs_bind; [apply logs_xsend|]. intros _ l2. apply IH. exact Hl.
Qed.

Lemma logs_append_monitors s ms :
  Forall (λ m, Forall (λ p, is_Some (heap s !! p)) (Monitor.clients m)) ms ->
  logs (append_monitors ms) s.
Proof.
  intros H. revert s H. induction ms as [|m ms IH]; intros s H; [apply logs_ret|]. simpl.
  apply Forall_cons in H as [Hm Hms].
  apply logs_bind; [now apply logs_append_windows|]. intros _ l1. apply IH. exact Hms.
Qed.

Lemma good_xlog s l : good s -> good (set_xlog l s).
Proof. intros Hg. now apply good_globals with s. Qed.

Lemma good_logs {A} (m : M A) s : good s -> logs m s -> ∃ a s', m s = Some (a, s') ∧ good s'.
Proof. intros Hg (a & l & E). exists a, (set_xlog l s). split; [exact E|now apply good_xlog]. Qed.

Lemma recttomon_loop_lt x y w h ms : ∀ i r area n,
  (r < n)%nat -> (i + length ms <= n)%nat -> (recttomon_loop x y w h ms i r area < n)%nat.
Proof.
  induction ms as [|m ms IH]; intros i r area n Hr Hi; simpl in *; [exact Hr|].
  destruct (INTERSECT x y w h m >? area); apply IH; lia.
Qed.

Lemma mon_of_bar_lt w ms : ∀ i j, mon_of_bar w ms i = Some j -> (j < i + length ms)%nat.
Proof.
  induction ms as [|m ms IH]; intros i j H; [discriminate|]. simpl in *.
  destruct ((w =? Monitor.barwin m) || (w =? Monitor.traywin m)).
  - injection H as <-. lia.
  - apply IH in H. lia.
Qed.

Section EventsGood.
Variable X : XServer.
Variable R : XMore.

Lemma logs_updateclientlist s : wf s -> logs (updateclientlist R) s.
Proof.
  intros Hwf. unfold updateclientlist. apply logs_bind; [apply logs_xsend|]. intros _ l.
  unfold logs. rewrite bind_gets. apply logs_append_monitors.
  exact (wf_clients_stored s Hwf).
Qed.

Lemma recttomon_ok x y w h s :
  good s -> ∃ i, recttomon x y w h s = Some (i, s) ∧ (i < length (mons s))%nat.
Proof.
  intros Hg. destruct (good_selmon s Hg) as [m Hm]. apply lookup_lt_Some in Hm.
  eexists. split; [reflexivity|]. apply recttomon_loop_lt; [exact Hm|simpl; lia].
Qed.

Lemma wintomon_ok w s :
  good s -> ∃ i, wintomon R w s = Some (i, s) ∧ (i < length (mons s))%nat.
Proof.
  intros Hg. destruct (good_selmon s Hg) as [m Hm]. pose proof (lookup_lt_Some _ _ _ Hm) as Hlt.
  unfold wintomon.
  destruct (if w =? root R then XQueryPointer R else None) as [[x y]|].
  { apply recttomon_ok. exact Hg. }
  rewrite bind_gets. destruct (mon_of_bar w (mons s) 0) as [i|] eqn:Ei.
  { exists i. split; [reflexivity|]. now apply mon_of_bar_lt in Ei. }
  destruct (wintoclient_ok s w (good_wf s Hg)) as (r & E & Hr).
  rewrite (bind_run _ _ _ _ _ E). destruct r as [p|].
  - destruct (Hr p eq_refl) as (c & Hc & Hmc).
    rewrite (bind_run _ _ _ _ _ (deref_Some _ _ _ Hc)).
    exists (Client.mon c). split; [reflexivity|]. now apply lookup_lt_is_Some.
  - exists (selmon s). split; [reflexivity|exact Hlt].
Qed.

(** Two writes to fields of a monitor's bar, then [arrange]. *)
Lemma bar_good (g1 g2 : Monitor -> Monitor) mi s :
  good s -> tamed s -> (mi < length (mons s))%nat ->
  (∀ m, Monitor.stack (g1 m) = Monitor.stack m ∧ Monitor.clients (g1 m) = Monitor.clients m
        ∧ Monitor.sel (g1 m) = Monitor.sel m ∧ Monitor.seltags (g1 m) = Monitor.seltags m
        ∧ Monitor.tagset (g1 m) = Monitor.tagset m) ->
  (∀ m, Monitor.stack (g2 m) = Monitor.stack m ∧ Monitor.clients (g2 m) = Monitor.clients m
        ∧ Monitor.sel (g2 m) = Monitor.sel m ∧ Monitor.seltags (g2 m) = Monitor.seltags m
        ∧ Monitor.tagset (g2 m) = Monitor.tagset m) ->
  ∀ v, ∃ s', good s'
             ∧ (updmon mi g1;; modify (set_bh v);; updmon mi g2;; arrange (Some mi)) s
               = Some (tt, s')
             ∧ ∀ (k : M unit),
                 (updmon mi g1;; modify (set_bh v);; updmon mi g2;; arrange (Some mi);; k) s
                 = k s'.
Proof.
  intros Hg Hta Hlt H1 H2 v. destruct (lookup_lt_is_Some_2 _ _ Hlt) as [m Hm].
  assert (good (set_bh v (upd_mon mi (g1 m) s))) as Hg1.
  { apply good_globals with (upd_mon mi (g1 m) s); [|reflexivity..].
    destruct (H1 m) as (? & ? & ? & ? & ?). now apply good_upd_fields with m. }
  assert (mons (set_bh v (upd_mon mi (g1 m) s)) !! mi = Some (g1 m)) as Hm1
    by now apply upd_mon_lookup.
  destruct (good_arrange (upd_mon mi (g2 (g1 m)) (set_bh v (upd_mon mi (g1 m) s))) mi)
    as (s' & E & Hg').
  { destruct (H2 (g1 m)) as (? & ? & ? & ? & ?). now apply good_upd_fields with (g1 m). }
  { exact Hta. }
  { simpl. rewrite list_insert_insert_eq.
    rewrite list_lookup_insert_eq by exact Hlt. eauto. }
  exists s'. split; [exact Hg'|]. split; [|intros k].
  - rewrite (bind_run _ _ _ _ _ (updmon_Some _ _ _ _ Hm)), bind_modify.
    now rewrite (bind_run _ _ _ _ _ (updmon_Some _ _ _ _ Hm1)).
  - rewrite (bind_run _ _ _ _ _ (updmon_Some _ _ _ _ Hm)), bind_modify.
    rewrite (bind_run _ _ _ _ _ (updmon_Some _ _ _ _ Hm1)).
    now rewrite (bind_run _ _ _ _ _ E).
Qed.

Lemma same_bh s v : bh s = v -> set_bh v s = s.
Proof. intros <-. now destruct s. Qed.

Lemma unmanage_bars_good w s :
  good s -> tamed s -> ∃ s', unmanage_bars R w s = Some (tt, s') ∧ good s'.
Proof.
  intros Hg Hta. destruct (wintomon_ok w s Hg) as (mi & E & Hlt).
  destruct (lookup_lt_is_Some_2 _ _ Hlt) as [m Hm].
  unfold unmanage_bars. rewrite (bind_run _ _ _ _ _ E).
  rewrite (bind_run _ _ _ _ _ (getmon_Some _ _ _ Hm)).
  destruct (Monitor.barwin m =? w).
  - unfold unmanagealtbar. rewrite (bind_run _ _ _ _ _ E).
    destruct (bar_good (set_bar 0 0 0) updatebarpos mi s Hg Hta Hlt) with (v := bh s)
      as (s' & Hg' & E' & _); [now intros|now intros|].
    exists s'. split; [|exact Hg']. rewrite <- E'.
    destruct (lookup_lt_is_Some_2 _ _ Hlt) as [m0 Hm0].
    rewrite !(bind_run _ _ _ _ _ (updmon_Some _ _ _ _ Hm0)), bind_modify.
    now rewrite same_bh by reflexivity.
  - destruct (Monitor.traywin m =? w); [|exists s; now split].
    unfold unmanagetray. rewrite (bind_run _ _ _ _ _ E).
    destruct (bar_good (set_traywin 0) updatebarpos mi s Hg Hta Hlt) with (v := bh s)
      as (s' & Hg' & E' & _); [now intros|now intros|].
    exists s'. split; [|exact Hg']. rewrite <- E'.
    destruct (lookup_lt_is_Some_2 _ _ Hlt) as [m0 Hm0].
    rewrite !(bind_run _ _ _ _ _ (updmon_Some _ _ _ _ Hm0)), bind_modify.
    now rewrite same_bh by reflexivity.
Qed.

Lemma managealtbar_good win wa s :
  good s -> tamed s -> ∃ s', managealtbar win wa s = Some (tt, s') ∧ good s'.
Proof.
  intros Hg Hta.
  destruct (recttomon_ok (wa_x wa) (wa_y wa) (wa_width wa) (wa_height wa) s Hg)
    as (mi & E & Hlt).
  unfold managealtbar. rewrite (bind_run _ _ _ _ _ E).
  destruct (bar_good (set_bar win (wa_y wa) (wa_height wa)) updatebarpos mi s Hg Hta Hlt)
    with (v := wa_height wa) as (s1 & Hg1 & _ & E1); [now intros|now intros|].
  rewrite E1. rewrite !bind_xsend.
  eexists. split; [reflexivity|]. now apply good_xlog.
Qed.

(** [unmanage] of a listed client. *)
Lemma unmanage_exact p destroyed s mi m :
  good s -> tamed s -> mons s !! mi = Some m -> p ∈ Monitor.stack m ->
  ∃ s' m' lc,
    unmanage X R p destroyed s = Some (tt, s') ∧ good s'
    ∧ heap s' !! p = None ∧ selmon s' = selmon s
    ∧ (∀ q c, q ≠ p -> heap s !! q = Some c ->
         ∃ c', heap s' !! q = Some c' ∧ links c' = links c)
    ∧ dom (heap s') = dom (heap s) ∖ {[p]}
    ∧ mons s' !! mi = Some m'
    ∧ unlink p (Monitor.clients m) = Some lc ∧ Monitor.clients m' = lc
    ∧ (∀ q, q ∈ Monitor.stack m' ↔ (q ∈ Monitor.stack m ∧ q ≠ p))
    ∧ (∀ i, i ≠ mi -> i ≠ selmon s -> mons s' !! i = mons s !! i).
Proof.
  intros Hg Hta Hm Hp. pose proof (good_sound s Hg) as Hs.
  pose proof Hs as ([[_ Hown] Hlk] & _).
  destruct (Hown _ _ Hm) as (Ost & _).
  destruct (proj1 (Forall_forall _ _) Ost p Hp) as (c & Hc & Hmon).
  pose proof (Hlk _ _ Hm) as (_ & Hns & _).
  assert (mi < length (mons s))%nat as Hlt by now apply lookup_lt_Some in Hm.
  unfold unmanage. rewrite (bind_run _ _ _ _ _ (deref_Some _ _ _ Hc)). cbv zeta.
  destruct (unlist_ok s p mi m c Hs Hm Hp Hc)
    as (m3 & lc & ls & Eu & Hs3 & Hlc & Ecl3 & Hls & Est3 & Esl3 & Ets3 & Hun).
  rewrite <- bind_bind, (bind_run _ _ _ _ _ Eu). clear Eu.
  destruct (unlink_NoDup_elem _ _ _ Hns Hls) as (_ & _ & Hins).
  (* the requests *)
  match goal with |- context [bind (when ?b ?k0) ?k ?st] =>
    assert (logs (when b k0) st) as Hl;
      [|destruct (bind_logs _ k st Hl) as ([] & l1 & ->); clear Hl]
  end.
  { apply logs_when. apply logs_bind; [apply logs_xsend|]. intros _ l.
    apply logs_bind; [apply logs_xsend|]. intros _ l0.
    apply logs_bind; [apply logs_xsend|]. intros _ l1.
    apply logs_bind.
    { unfold setclientstate. apply logs_bind; [apply logs_deref; simpl; eauto|].
      intros; apply logs_xsend. }
    intros _ l2. apply logs_bind; [apply logs_xsend|]. intros _ l3. apply logs_xsend. }
  (* free *)
  unfold free at 1. rewrite bind_modify.
  set (s4 := set_heap _ _).
  assert (sound s4) as Hs4.
  { apply sound_free; [|exact Hun].
    apply sound_globals with (upd_mon mi m3 s); [exact Hs3|reflexivity..|apply Hs3]. }
  pose proof Hs4 as ([[[m4 Hm4] _] _] & _).
  destruct (focus_good X None s4 m4 Hs4 Hm4) as (s5 & E5 & Hg5 & Hp5 & Ems5); [done|].
  rewrite (bind_run _ _ _ _ _ E5).
  destruct (bind_logs _ (λ _, arrange (Some (Client.mon c))) s5
              (logs_updateclientlist s5 (good_wf s5 Hg5))) as ([] & l6 & ->).
  assert (tamed s4) as Hta4.
  { intros q cq Hq. apply (Hta q cq). unfold s4 in Hq. simpl in Hq.
    now apply lookup_delete_Some in Hq. }
  destruct (good_arrange (set_xlog l6 s5) (Client.mon c)) as (s7 & E7 & Hg7).
  { now apply good_xlog. }
  { exact (focus_post_tamed s4 s5 Hta4 Hp5). }
  { simpl. rewrite Ems5. apply lookup_lt_is_Some. rewrite length_insert. simpl.
    rewrite length_insert. now rewrite Hmon. }
  pose proof (frame_arrange _ _ _ _ E7) as A7.
  pose proof (agree_geom_links _ _ A7) as L7.
  assert (∀ q, heap s5 !! q = None -> heap s7 !! q = None) as Hnone.
  { intros q Hq. apply (agree_links_none _ _ q L7). exact Hq. }
  assert (∀ q cq, heap s5 !! q = Some cq -> ∃ c', heap s7 !! q = Some c' ∧ links c' = links cq)
    as Hsome.
  { intros q cq Hq. apply (agree_links_kept _ _ L7). exact Hq. }
  assert (heap s5 !! p = None) as Hp5'.
  { destruct Hp5 as (_ & _ & _ & _ & _ & _ & Hh & _).
    pose proof (f_equal (λ h, h !! p) Hh) as E. simpl in E.
    rewrite !lookup_fmap, lookup_delete_eq in E. now destruct (heap s5 !! p). }
  assert (∀ q cq, q ≠ p -> heap s !! q = Some cq ->
            ∃ c', heap s7 !! q = Some c' ∧ links c' = links cq) as Hkept.
  { intros q cq Hq Hcq. destruct (focus_post_links_kept _ _ Hp5 q cq) as (c5 & Hc5 & El5).
    { simpl. now rewrite lookup_delete_ne. }
    destruct (Hsome q c5 Hc5) as (c7 & Hc7 & El7). exists c7. split; [exact Hc7|congruence]. }
  assert (dom (heap s7) = dom (heap s) ∖ {[p]}) as Hdom.
  { destruct (agree_same_clients _ _ _ A7) as (_ & D7 & _).
    destruct (focus_post_same_clients _ _ Hp5) as (_ & D5 & _).
    rewrite D7. simpl. rewrite D5. simpl. apply dom_delete_L. }
  simpl in Ems5.
  set (m5 := raised _ m4) in Ems5.
  exists s7.
  destruct (decide (mi = selmon s)) as [->|Hmi].
  - assert (m4 = m3) as ->.
    { simpl in Hm4. rewrite list_lookup_insert_eq in Hm4 by exact Hlt. congruence. }
    exists m5, lc. split; [exact E7|]. split; [exact Hg7|]. split; [now apply Hnone|].
    split; [rewrite <- (agree_selmon _ _ _ A7); apply Hp5|]. split.
    { exact Hkept. }
    split.
    { exact Hdom. }
    split.
    { rewrite <- (agree_mons _ _ _ A7). simpl. rewrite Ems5, list_insert_insert_eq.
      now apply list_lookup_insert_eq. }
    split; [exact Hlc|]. split.
    { subst m5. unfold raised.
      now destruct (List.find (visible s4) (Monitor.stack m3)). }
    split.
    { intros q. rewrite <- Hins, <- Est3. subst m5. unfold raised.
      destruct (List.find (visible s4) (Monitor.stack m3)) as [r|] eqn:Hch; simpl;
        [|reflexivity].
      apply find_elem in Hch as [Hr _].
      destruct (unlink_elem r _ Hr) as (l' & Hl' & Hin'). rewrite Hl'. simpl. apply Hin'. }
    intros i Hi _. rewrite <- (agree_mons _ _ _ A7). simpl. rewrite Ems5.
    rewrite list_insert_insert_eq. now apply list_lookup_insert_ne.
  - exists m3, lc. split; [exact E7|]. split; [exact Hg7|]. split; [now apply Hnone|].
    split; [rewrite <- (agree_selmon _ _ _ A7); apply Hp5|]. split.
    { exact Hkept. }
    split.
    { exact Hdom. }
    split.
    { rewrite <- (agree_mons _ _ _ A7). simpl. rewrite Ems5.
      rewrite list_lookup_insert_ne by congruence. now apply list_lookup_insert_eq. }
    split; [exact Hlc|]. split; [exact Ecl3|]. split.
    { intros q. now rewrite <- Hins, <- Est3. }
    intros i Hi Hi'. rewrite <- (agree_mons _ _ _ A7). simpl. rewrite Ems5.
    rewrite !list_lookup_insert_ne by congruence. reflexivity.
Qed.

End EventsGood.

Lemma safe_links_store s0 p c0 v :
  heap s0 !! p = Some c0 -> links v = links c0 -> safe links s0 (store p v) (λ _, True).
Proof.
  intros Hc E s A. destruct (agree_lookup_Some _ _ _ _ _ A Hc) as (c' & Hc' & E').
  eexists tt, _. split; [reflexivity|]. split; [|exact I].
  apply agree_store with c'; [exact Hc'|congruence].
Qed.

Lemma safe_links_selmon s0 :
  safe links s0 (gets selmon) (λ a, a = selmon s0).
Proof. apply safe_gets. intros s A. symmetry. exact (agree_selmon _ _ _ A). Qed.

Lemma logs_sendevent X p a s : is_Some (heap s !! p) -> logs (sendevent X p a) s.
Proof.
  intros Hp. unfold sendevent. apply logs_bind; [now apply logs_deref|]. intros c l.
  apply logs_bind; [apply logs_when, logs_xsend|]. intros; apply logs_ret.
Qed.

Section EventsGood2.
Variable X : XServer.
Variable R : XMore.

Lemma safe_updatetitle s0 p :
  is_Some (heap s0 !! p) -> safe links s0 (updatetitle X p) (λ _, True).
Proof.
  intros Hp. unfold updatetitle. eapply safe_bind; [now apply safe_links_deref|].
  intros c _. now apply safe_links_update.
Qed.

Lemma safe_updatesizehints s0 p :
  is_Some (heap s0 !! p) -> safe ties s0 (updatesizehints X p) (λ _, True).
Proof.
  intros [c0 Hc]. unfold updatesizehints.
  eapply safe_bind; [exact (safe_deref _ _ _ _ Hc)|]. intros c E. cbv zeta.
  repeat match goal with
         | |- safe _ _ (let (_, _) := ?e in _) _ => destruct e
         end.
  intros s A. destruct (agree_lookup_Some _ _ _ _ _ A Hc) as (c' & Hc' & E').
  eexists tt, _. split; [reflexivity|]. split; [|exact I].
  apply agree_store with c'; [exact Hc'|]. rewrite E', <- E. reflexivity.
Qed.

Lemma safe_updatewmhints s0 p :
  is_Some (heap s0 !! p) -> is_Some (mons s0 !! selmon s0) ->
  safe links s0 (updatewmhints X p) (λ _, True).
Proof.
  intros Hp [m Hm]. unfold updatewmhints.
  eapply safe_bind; [now apply safe_links_deref|]. intros c _.
  destruct (XGetWMHints X (Client.win c)) as [wmh|]; [|now apply safe_ret].
  eapply safe_bind; [apply safe_links_selmon|]. intros ? ->.
  eapply safe_bind; [apply safe_getmon; exact Hm|]. intros ? ->.
  safe_seq.
  - destruct (_ && _); [apply safe_xsend|now apply safe_links_update].
  - now apply safe_links_update.
Qed.

Lemma safe_updatewindowtype s0 p c0 :
  wf s0 -> tamed s0 -> heap s0 !! p = Some c0 -> is_Some (mons s0 !! Client.mon c0) ->
  safe links s0 (updatewindowtype X p) (λ _, True).
Proof.
  intros Hwf Hta Hc Hm. unfold updatewindowtype.
  eapply safe_bind; [apply safe_links_deref; eauto|]. intros c _.
  safe_seq; [apply safe_when; now apply safe_setfullscreen with c0|].
  apply safe_when. apply safe_links_update; [eauto|reflexivity].
Qed.

Lemma destroynotify_good w s :
  good s -> tamed s -> ∃ s', destroynotify X R w s = Some (tt, s') ∧ good s'.
Proof.
  intros Hg Hta. destruct (wintoclient_listed s w (good_wf s Hg)) as (r & E & Hr).
  unfold destroynotify. rewrite (bind_run _ _ _ _ _ E). destruct r as [p|].
  - destruct (Hr p eq_refl) as (mi & m & c & Hm & Hp & _).
    pose proof Hg as ([[_ Hlk] _] & _). destruct (Hlk _ _ Hm) as (_ & _ & Hcs & _).
    destruct (unmanage_exact X R p true s mi m Hg Hta Hm (proj1 (Hcs p) Hp))
      as (s' & _ & _ & E' & Hg' & _). eauto.
  - now apply unmanage_bars_good.
Qed.

Lemma unmapnotify_good w se s :
  good s -> tamed s -> ∃ s', unmapnotify X R w se s = Some (tt, s') ∧ good s'.
Proof.
  intros Hg Hta. destruct (wintoclient_listed s w (good_wf s Hg)) as (r & E & Hr).
  unfold unmapnotify. rewrite (bind_run _ _ _ _ _ E). destruct r as [p|].
  - destruct (Hr p eq_refl) as (mi & m & c & Hm & Hp & Hc & _).
    destruct se.
    + destruct (good_logs (setclientstate p WithdrawnState) s Hg) as ([] & s' & E' & Hg').
      { unfold setclientstate. apply logs_bind; [apply logs_deref; eauto|].
        intros; apply logs_xsend. }
      eauto.
    + pose proof Hg as ([[_ Hlk] _] & _). destruct (Hlk _ _ Hm) as (_ & _ & Hcs & _).
      destruct (unmanage_exact X R p false s mi m Hg Hta Hm (proj1 (Hcs p) Hp))
        as (s' & _ & _ & E' & Hg' & _). eauto.
  - now apply unmanage_bars_good.
Qed.

Lemma maprequest_good w s :
  tame_server X -> good s -> tamed s -> ∃ s', maprequest X R w s = Some (tt, s') ∧ good s'.
Proof.
  intros HX Hg Hta. unfold maprequest.
  destruct (XGetWindowAttributes R w) as [[wa ov]|]; [|exists s; now split].
  destruct ov; [exists s; now split|].
  destruct (wmclasscontains X w altbarclass EmptyString); [now apply managealtbar_good|].
  destruct (wintoclient_ok s w (good_wf s Hg)) as (r & E & _).
  rewrite (bind_run _ _ _ _ _ E). destruct r as [p|]; [exists s; now split|].
  destruct (manage_adopts_run X w wa s HX Hg Hta) as ([[] s'] & E' & (Hg' & _) & _). eauto.
Qed.

Lemma focusin_good w s : good s -> ∃ s', focusin X w s = Some (tt, s') ∧ good s'.
Proof.
  intros Hg. destruct (good_selmon s Hg) as [m Hm].
  unfold focusin. rewrite bind_gets, (bind_run _ _ _ _ _ (getmon_Some _ _ _ Hm)).
  destruct (Monitor.sel m) as [p|] eqn:Hsel; [|exists s; now split].
  destruct (good_sel s m p Hg Hm Hsel) as [c Hc].
  rewrite (bind_run _ _ _ _ _ (deref_Some _ _ _ Hc)).
  destruct (good_logs (when (negb (w =? Client.win c)) (setfocus X p)) s Hg)
    as ([] & s' & E & Hg'); [|eauto].
  apply logs_when, logs_setfocus. eauto.
Qed.

Lemma killclient_good s : good s -> ∃ s', killclient X R s = Some (tt, s') ∧ good s'.
Proof.
  intros Hg. destruct (good_selmon s Hg) as [m Hm].
  unfold killclient. rewrite bind_gets, (bind_run _ _ _ _ _ (getmon_Some _ _ _ Hm)).
  destruct (Monitor.sel m) as [p|] eqn:Hsel; [|exists s; now split].
  destruct (good_sel s m p Hg Hm Hsel) as [c Hc].
  match goal with |- ∃ s', ?k s = _ ∧ _ =>
    destruct (good_logs k s Hg) as ([] & s' & E & Hg'); [|eauto]
  end.
  apply logs_bind; [apply logs_sendevent; eauto|]. intros sent l.
  apply logs_when. apply logs_bind; [apply logs_deref; simpl; eauto|]. intros c' l'.
  repeat (apply logs_bind; [apply logs_xsend|]; intros).
  apply logs_xsend.
Qed.

Lemma enternotify_good ev s :
  good s -> ∃ s', enternotify X R ev s = Some (tt, s') ∧ good s'.
Proof.
  intros Hg. unfold enternotify.
  destruct ((negb (ce_normal ev) || ce_inferior ev) && negb (ce_window ev =? root R));
    [exists s; now split|].
  destruct (wintoclient_listed s (ce_window ev) (good_wf s Hg)) as (c & E & Hc).
  rewrite (bind_run _ _ _ _ _ E).
  assert (∃ m mm, match c with
                  | Some p => cl ← deref p; ret (Client.mon cl)
                  | None => wintomon R (ce_window ev)
                  end s = Some (m, s)
                  ∧ mons s !! m = Some mm
                  ∧ ∀ q, c = Some q -> q ∈ Monitor.stack mm) as (m & mm & Em & Hmm & Hq).
  { destruct c as [p|].
    - destruct (Hc p eq_refl) as (mi & mo & cl & Hmo & Hp & Hcl & Hmon & _).
      exists mi, mo. rewrite (bind_run _ _ _ _ _ (deref_Some _ _ _ Hcl)).
      split; [unfold ret; now rewrite Hmon|]. split; [exact Hmo|].
      intros q [= <-]. pose proof Hg as ([[_ Hlk] _] & _).
      destruct (Hlk _ _ Hmo) as (_ & _ & Hcs & _). now apply Hcs.
    - destruct (wintomon_ok R (ce_window ev) s Hg) as (i & Ei & Hlt).
      destruct (lookup_lt_is_Some_2 _ _ Hlt) as [mo Hmo].
      exists i, mo. split; [exact Ei|]. split; [exact Hmo|]. discriminate. }
  rewrite (bind_run _ _ _ _ _ Em), bind_gets.
  destruct (good_selmon s Hg) as [sel Hsel].
  destruct (bool_decide (m = selmon s)) eqn:Eb; simpl.
  - apply bool_decide_eq_true in Eb. subst m.
    destruct c as [p|]; [|exists s; now split].
    rewrite (bind_run _ _ _ _ _ (getmon_Some _ _ _ Hsel)).
    destruct (bool_decide (Monitor.sel sel = Some p)); [exists s; now split|].
    destruct (focus_good X (Some p) s mm (good_sound s Hg) Hmm Hq) as (s' & E' & Hg' & _).
    eauto.
  - rewrite (bind_run _ _ _ _ _ (getmon_Some _ _ _ Hsel)).
    destruct (logs_unfocus (Monitor.sel sel) true s) as ([] & l & El).
    { intros q Hs. destruct (good_sel s sel q Hg Hsel Hs) as [cq Hcq]. eauto. }
    rewrite (bind_run _ _ _ _ _ El), bind_modify.
    assert (sound (set_selmon m (set_xlog l s))) as Hs1.
    { apply sound_globals with s; [now apply good_sound|reflexivity..|]. simpl. eauto. }
    destruct (focus_good X c _ mm Hs1 Hmm Hq) as (s' & E' & Hg' & _). eauto.
Qed.

Lemma propertynotify_good ev s :
  good s -> tamed s -> ∃ s', propertynotify X ev s = Some (tt, s') ∧ good s'.
Proof.
  intros Hg Hta. unfold propertynotify. destruct (pe_deleted ev); [exists s; now split|].
  pose proof (good_wf s Hg) as Hwf.
  destruct (wintoclient_ok s (pe_window ev) Hwf) as (r & E & Hr).
  rewrite (bind_run _ _ _ _ _ E). destruct r as [p|]; [|exists s; now split].
  destruct (Hr p eq_refl) as (c & Hc & Hm).
  assert (is_Some (heap s !! p)) as Hp by eauto.
  destruct (pe_atom ev); simpl.
  - (* WM_TRANSIENT_FOR *)
    rewrite bind_bind, (bind_run _ _ _ _ _ (deref_Some _ _ _ Hc)).
    destruct (Client.isfloating c); [exists s; now split|].
    destruct (XGetTransientForHint X (Client.win c)) as [trans|]; [|exists s; now split].
    destruct (wintoclient_ok s trans Hwf) as (t & Et & _).
    rewrite bind_bind, (bind_run _ _ _ _ _ Et).
    apply safe_good; [exact Hg|].
    safe_seq; [|safe_seq; now apply safe_ret].
    safe_seq; [apply safe_links_update; [exact Hp|reflexivity]|].
    apply safe_when. apply safe_links_arrange; [exact Hta|now apply wf_arrangeable].
  - apply safe_ties_good; [exact Hg|].
    safe_seq; [now apply safe_updatesizehints|]. safe_seq; now apply safe_ret.
  - apply safe_good; [exact Hg|].
    safe_seq; [apply safe_updatewmhints; [exact Hp|apply Hwf]|]. safe_seq; now apply safe_ret.
  - apply safe_good; [exact Hg|].
    safe_seq; [now apply safe_ret|]. safe_seq; [now apply safe_updatetitle|now apply safe_ret].
  - apply safe_good; [exact Hg|].
    safe_seq; [now apply safe_ret|]. safe_seq; [now apply safe_updatetitle|now apply safe_ret].
  - apply safe_good; [exact Hg|].
    safe_seq; [now apply safe_ret|]. safe_seq; [now apply safe_ret|].
    now apply safe_updatewindowtype with c.
  - exists s. now split.
Qed.

End EventsGood2.

(** ** Resize increments along the event handlers *)

Lemma tames_free p : tames (free p).
Proof.
  intros s a s' [= _ <-] Ht q c Hc. simpl in Hc.
  apply lookup_delete_Some in Hc as [_ Hc]. exact (Ht _ _ Hc).
Qed.
#[local] Hint Resolve tames_free : tames.

Lemma tames_recttomon x y w h : tames (recttomon x y w h).
Proof. unfold recttomon. repeat tames_step. Qed.
#[local] Hint Resolve tames_recttomon : tames.

Lemma tames_setclientstate p n : tames (setclientstate p n).
Proof. unfold setclientstate. repeat tames_step. Qed.
#[local] Hint Resolve tames_setclientstate : tames.

Lemma tames_append_windows l : tames (append_windows l).
Proof. induction l as [|p l IH]; simpl; repeat tames_step. Qed.
#[local] Hint Resolve tames_append_windows : tames.

Lemma tames_append_monitors ms : tames (append_monitors ms).
Proof. induction ms as [|m ms IH]; simpl; repeat tames_step. Qed.
#[local] Hint Resolve tames_append_monitors : tames.

Lemma tames_ecalloc_client : tames ecalloc_client.
Proof.
  unfold ecalloc_client. repeat tames_step. apply tames_store. now split.
Qed.
#[local] Hint Resolve tames_ecalloc_client : tames.

Lemma tames_applyrules_loop p class instance rs :
  tames (applyrules_loop p class instance rs).
Proof. induction rs as [|r rs IH]; simpl; repeat tames_step. Qed.
#[local] Hint Resolve tames_applyrules_loop : tames.

Section TamesEvents.
Variable X : XServer.
Variable R : XMore.
Hypothesis HX : tame_server X.

Hint Resolve tames_grabbuttons tames_sendevent tames_setfocus tames_seturgent tames_unfocus
  tames_focus : tames.

Lemma tames_updatetitle p : tames (updatetitle X p).
Proof. unfold updatetitle. repeat tames_step. Qed.
Hint Resolve tames_updatetitle : tames.

Lemma tames_updatesizehints p : tames (updatesizehints X p).
Proof.
  unfold updatesizehints. apply tames_bind; [repeat tames_step|]. intros c. cbv zeta.
  assert (tame_hints X (Client.win c)) as Hh by exact (tame_server_hints X HX _).
  unfold tame_hints in Hh. cbv zeta in Hh.
  repeat match goal with
         | |- tames (let (_, _) := ?e in _) => destruct e
         end.
  apply tames_store. exact Hh.
Qed.
Hint Resolve tames_updatesizehints : tames.

Lemma tames_updatewmhints p : tames (updatewmhints X p).
Proof. unfold updatewmhints. repeat tames_step. Qed.
Hint Resolve tames_updatewmhints : tames.

Lemma tames_updatewindowtype p : tames (updatewindowtype X p).
Proof. unfold updatewindowtype. repeat tames_step. Qed.
Hint Resolve tames_updatewindowtype : tames.

Lemma tames_applyrules p : tames (applyrules X p).
Proof. unfold applyrules. repeat tames_step. Qed.
Hint Resolve tames_applyrules : tames.

Lemma tames_wintomon w : tames (wintomon R w).
Proof. unfold wintomon. repeat tames_step. Qed.
Hint Resolve tames_wintomon : tames.

Lemma tames_updateclientlist : tames (updateclientlist R).
Proof. unfold updateclientlist. repeat tames_step. Qed.
Hint Resolve tames_updateclientlist : tames.

Lemma tames_manage w wa : tames (manage X w wa).
Proof. unfold manage. repeat tames_step. Qed.

Lemma tames_unmanage p destroyed : tames (unmanage X R p destroyed).
Proof. unfold unmanage. repeat tames_step. Qed.

Lemma tames_unmanage_bars w : tames (unmanage_bars R w).
Proof. unfold unmanage_bars, unmanagealtbar, unmanagetray. repeat tames_step. Qed.

Lemma tames_managealtbar win wa : tames (managealtbar win wa).
Proof. unfold managealtbar. repeat tames_step. Qed.
Hint Resolve tames_manage tames_unmanage tames_unmanage_bars tames_managealtbar : tames.

Lemma tames_maprequest w : tames (maprequest X R w).
Proof. unfold maprequest. repeat tames_step. Qed.

Lemma tames_destroynotify w : tames (destroynotify X R w).
Proof. unfold destroynotify. repeat tames_step. Qed.

Lemma tames_unmapnotify w se : tames (unmapnotify X R w se).
Proof. unfold unmapnotify. repeat tames_step. Qed.

Lemma tames_propertynotify ev : tames (propertynotify X ev).
Proof. unfold propertynotify. repeat tames_step. Qed.

Lemma tames_focusin w : tames (focusin X w).
Proof. unfold focusin. repeat tames_step. Qed.

Lemma tames_killclient : tames (killclient X R).
Proof. unfold killclient. repeat tames_step. Qed.

Lemma tames_enternotify ev : tames (enternotify X R ev).
Proof. unfold enternotify. repeat tames_step. Qed.

End TamesEvents.

(** * The handlers keep the invariant *)

(** A call of the event loop: a handler of the [handler] table with what
    it reads of its event, or a function of the [keys] table (and [view]
    and [tag], which it does not bind) with its argument. *)
Inductive Call :=
| KeyRelease
| MapRequest (w : Window)
| DestroyNotify (w : Window)
| UnmapNotify (w : Window) (send_event : bool)
| ConfigureRequest (ev : XConfigureRequestEvent)
| ClientMessage (cme : XClientMessageEvent)
| EnterNotify (ev : XCrossingEvent)
| FocusIn (w : Window)
| PropertyNotify (ev : XPropertyEvent)
| Focusstack (i : Z)
| Incnmaster (i : Z)
| Setmfact (f : float)
| Zoom
| Togglefullscr
| Killclient
| Togglefloating
| Comboview (ui : Z)
| Combotag (ui : Z)
| Toggleview (ui : Z)
| Toggletag (ui : Z)
| View (ui : Z)
| Tag (ui : Z)
| Focusmon (i : Z)
| Tagmon (i : Z).

Section Calls.
Variable X : XServer.
Variable R : XMore.

Definition call (c : Call) : M unit :=
  match c with
  | KeyRelease => keyrelease
  | MapRequest w => maprequest X R w
  | DestroyNotify w => destroynotify X R w
  | UnmapNotify w send_event => unmapnotify X R w send_event
  | ConfigureRequest ev => configurerequest ev
  | ClientMessage cme => clientmessage X cme
  | EnterNotify ev => enternotify X R ev
  | FocusIn w => focusin X w
  | PropertyNotify ev => propertynotify X ev
  | Focusstack i => focusstack X i
  | Incnmaster i => incnmaster i
  | Setmfact f => setmfact (Some f)
  | Zoom => zoom X
  | Togglefullscr => togglefullscr
  | Killclient => killclient X R
  | Togglefloating => togglefloating
  | Comboview ui => comboview X ui
  | Combotag ui => combotag X ui
  | Toggleview ui => toggleview X ui
  | Toggletag ui => toggletag X ui
  | View ui => view X ui
  | Tag ui => tag X ui
  | Focusmon i => focusmon X i
  | Tagmon i => tagmon X i
  end.

Lemma tames_call c : tame_server X -> tames (call c).
Proof.
  intros HX. destruct c; unfold call.
  - apply tames_keyrelease.
  - now apply tames_maprequest.
  - now apply tames_destroynotify.
  - now apply tames_unmapnotify.
  - apply tames_configurerequest.
  - apply tames_clientmessage.
  - apply tames_enternotify.
  - apply tames_focusin.
  - now apply tames_propertynotify.
  - apply tames_focusstack.
  - apply tames_incnmaster.
  - apply tames_setmfact.
  - apply tames_zoom.
  - apply tames_togglefullscr.
  - apply tames_killclient.
  - apply tames_togglefloating.
  - apply tames_comboview.
  - apply tames_combotag.
  - apply tames_toggleview.
  - apply tames_toggletag.
  - apply tames_view.
  - apply tames_tag.
  - apply tames_focusmon.
  - apply tames_tagmon.
Qed.

Lemma call_good c s :
  tame_server X -> good s -> tamed s -> ∃ s', call c s = Some (tt, s') ∧ good s'.
Proof.
  intros HX Hg Hta. destruct c; unfold call.
  - now apply keyrelease_good.
  - now apply maprequest_good.
  - now apply destroynotify_good.
  - now apply unmapnotify_good.
  - now apply configurerequest_good.
  - now apply clientmessage_good.
  - now apply enternotify_good.
  - now apply focusin_good.
  - now apply propertynotify_good.
  - now apply focusstack_good.
  - now apply incnmaster_good.
  - now apply setmfact_good.
  - now apply zoom_good.
  - now apply togglefullscr_good.
  - now apply killclient_good.
  - now apply togglefloating_good.
  - now apply comboview_good.
  - now apply combotag_good.
  - now apply toggleview_good.
  - now apply toggletag_good.
  - now apply view_good.
  - now apply tag_good.
  - now apply focusmon_good.
  - now apply tagmon_good.
Qed.

End Calls.

Lemma good_setup sw sh : good (setup_state sw sh).
Proof.
  split; [split; [split; [split|]|]|split].
  - simpl. eauto.
  - intros [|mi] m Hm; [|discriminate]. injection Hm as <-. simpl.
    repeat split; try constructor. intros p [=].
  - intros [|mi] m Hm; [|discriminate]. injection Hm as <-.
    repeat split; simpl; try constructor; try done.
  - intros m Hm. injection Hm as <-. reflexivity.
  - split.
    + intros p c Hc. simpl in Hc. now rewrite lookup_empty in Hc.
    + intros [|mi] m Hm; [|discriminate]. injection Hm as <-. simpl.
      split; split; done.
  - intros p _. apply lookup_empty.
Qed.

Lemma tamed_setup sw sh : tamed (setup_state sw sh).
Proof. intros p c Hc. simpl in Hc. now rewrite lookup_empty in Hc. Qed.

(** X17: a call of [Call] (the handlers and key functions listed there),
    made in a state of the invariant in which no client has a resize
    increment of -1, returns, and returns in such a state again, if the
    server reports no resize increment of -1 in the size hints of a
    window: the call follows no NULL pointer and no pointer to a freed
    client, unlinks no client from a list it is not on, and takes no
    remainder by -1.  The state may have any number of monitors, and the
    server may answer differently from one call to the next.  The
    invariant: the selected monitor exists; on every monitor the client
    list and the focus stack hold the same clients, each once, these
    clients are in the store and point back to the monitor, and [sel] is
    on the stack; the selected monitor has selected the topmost visible
    client of its stack, or none if it shows none; every client's tags and
    both tag sets of every monitor are not empty and within TAGMASK; no
    client lives at an address [ecalloc] has yet to hand out.  The state
    [setup] leaves is such a state ([good_setup], [tamed_setup]). *)
Theorem handlers_safe (X : XServer) (R : XMore) (c : Call) (s : State) :
  tame_server X -> good s -> tamed s ->
  ∃ s', call X R c s = Some (tt, s') ∧ good s' ∧ tamed s'.
Proof.
  intros HX Hg Hta. destruct (call_good X R c s HX Hg Hta) as (s' & E & Hg').
  exists s'. split; [exact E|]. split; [exact Hg'|].
  exact (tames_call X R c HX _ _ _ E Hta).
Qed.

(** * Who creates and frees clients *)

Lemma keeps_store_present p v s a s' :
  is_Some (heap s !! p) -> store p v s = Some (a, s') -> same_clients s s'.
Proof.
  intros Hp [= _ <-]. repeat split. simpl. apply set_eq. intros q.
  rewrite dom_insert, elem_of_union, elem_of_singleton, !elem_of_dom.
  split; [intros [->|H]; eauto|auto].
Qed.

Lemma keeps_recttomon x y w h : keeps (recttomon x y w h).
Proof. unfold recttomon. repeat keeps_step. Qed.
#[local] Hint Resolve keeps_recttomon : keeps.

Lemma keeps_setclientstate p n : keeps (setclientstate p n).
Proof. unfold setclientstate. repeat keeps_step. Qed.
#[local] Hint Resolve keeps_setclientstate : keeps.

Section KeepsEvents.
Variable X : XServer.
Variable R : XMore.

Hint Resolve keeps_grabbuttons keeps_sendevent keeps_setfocus keeps_seturgent keeps_unfocus
  keeps_focus : keeps.

Lemma keeps_updatetitle p : keeps (updatetitle X p).
Proof. unfold updatetitle. repeat keeps_step. Qed.
Hint Resolve keeps_updatetitle : keeps.

Lemma keeps_updatesizehints p : keeps (updatesizehints X p).
Proof.
  intros s a s' E. unfold updatesizehints in E. apply bind_inv in E as (c & s1 & E1 & E2).
  apply deref_inv in E1 as [Hc ->]. cbv zeta in E2.
  repeat match type of E2 with
         | (let (_, _) := ?e in _) _ = _ => destruct e
         end.
  apply (keeps_store_present _ _ _ _ _ (ex_intro _ c Hc) E2).
Qed.
Hint Resolve keeps_updatesizehints : keeps.

Lemma keeps_updatewmhints p : keeps (updatewmhints X p).
Proof.
  unfold updatewmhints. repeat keeps_step.
Qed.

Hint Resolve keeps_updatewmhints : keeps.

Lemma keeps_updatewindowtype p : keeps (updatewindowtype X p).
Proof. unfold updatewindowtype. repeat keeps_step. Qed.
Hint Resolve keeps_updatewindowtype : keeps.

Lemma keeps_wintomon w : keeps (wintomon R w).
Proof. unfold wintomon. repeat keeps_step. Qed.
Hint Resolve keeps_wintomon : keeps.

Lemma keeps_propertynotify ev : keeps (propertynotify X ev).
Proof.
  unfold propertynotify. repeat keeps_step.
Qed.

Lemma keeps_focusin w : keeps (focusin X w).
Proof. unfold focusin. repeat keeps_step. Qed.

Lemma keeps_killclient : keeps (killclient X R).
Proof. unfold killclient. repeat keeps_step. Qed.

Lemma keeps_enternotify ev : keeps (enternotify X R ev).
Proof.
  unfold enternotify. repeat keeps_step.
Qed.

(** X18: a call of [Call] other than [maprequest], [destroynotify] and
    [unmapnotify], when it returns, has neither created nor freed a
    client: the clients in the store are the same and [ecalloc] will hand
    out the same address; the monitors are as many, and the bar height
    and the screen size are as before. *)
Theorem handlers_keep_clients (c : Call) (s s' : State) :
  match c with
  | MapRequest _ | DestroyNotify _ | UnmapNotify _ _ => False
  | _ => True
  end ->
  call X R c s = Some (tt, s') ->
  brk s' = brk s ∧ dom (heap s') = dom (heap s) ∧ length (mons s') = length (mons s)
  ∧ bh s' = bh s ∧ sw s' = sw s ∧ sh s' = sh s.
Proof.
  intros Hc E. revert E. change (call X R c s = Some (tt, s') -> same_clients s s').
  revert s s'. 
  assert (keeps (call X R c)) as Hk; [|intros s s' E; exact (Hk _ _ _ E)].
  destruct c; try contradiction; unfold call.
  - apply keeps_keyrelease.
  - apply keeps_configurerequest.
  - apply keeps_clientmessage.
  - apply keeps_enternotify.
  - apply keeps_focusin.
  - apply keeps_propertynotify.
  - apply keeps_focusstack.
  - apply keeps_incnmaster.
  - apply keeps_setmfact.
  - apply keeps_zoom.
  - apply keeps_togglefullscr.
  - apply keeps_killclient.
  - apply keeps_togglefloating.
  - apply keeps_comboview.
  - apply keeps_combotag.
  - apply keeps_toggleview.
  - apply keeps_toggletag.
  - apply keeps_view.
  - apply keeps_tag.
  - apply keeps_focusmon.
  - apply keeps_tagmon.
Qed.

End KeepsEvents.

(** * What the handlers do *)

Lemma find_exists {A} (f : A -> bool) l a : a ∈ l -> f a = true -> ∃ b, List.find f l = Some b.
Proof.
  intros Hin Hf. destruct (List.find f l) as [b|] eqn:E; [eauto|].
  rewrite (find_none f l a E Hin) in Hf. discriminate.
Qed.

Lemma recttomon_loop_spec x y w h ms : ∀ i r area,
  (recttomon_loop x y w h ms i r area = r
   ∧ ∀ k m, ms !! k = Some m -> INTERSECT x y w h m <= area)
  ∨ (∃ (k : nat) m, recttomon_loop x y w h ms i r area = (i + k)%nat ∧ ms !! k = Some m
       ∧ area < INTERSECT x y w h m
       ∧ (∀ k' m', ms !! k' = Some m' -> INTERSECT x y w h m' <= INTERSECT x y w h m)
       ∧ (∀ k' m', (k' < k)%nat -> ms !! k' = Some m' ->
            INTERSECT x y w h m' < INTERSECT x y w h m)).
Proof.
  induction ms as [|m0 ms IH]; intros i r area; simpl.
  - left. split; [reflexivity|]. intros k m [=].
  - destruct (INTERSECT x y w h m0 >? area) eqn:Ea.
    + apply Z.gtb_lt in Ea. right.
      destruct (IH (S i) i (INTERSECT x y w h m0)) as [[E H]|(k & m & E & Hk & Hlt & Hall & Hb)].
      * exists 0%nat, m0. rewrite E, Nat.add_0_r. repeat split; try done.
        -- intros [|k'] m' Hm'; simpl in Hm'; [injection Hm' as <-; lia|eauto].
        -- intros k' m' Hk'. lia.
      * exists (S k), m. rewrite E. split; [lia|]. split; [exact Hk|]. split; [lia|]. split.
        -- intros [|k'] m' Hm'; simpl in Hm'; [injection Hm' as <-; lia|eauto].
        -- intros [|k'] m' Hk' Hm'; simpl in Hm'; [injection Hm' as <-; lia|].
           apply (Hb k' m'); [lia|exact Hm'].
    + assert (INTERSECT x y w h m0 <= area) as Hle.
      { destruct (Z.gtb_spec (INTERSECT x y w h m0) area); [discriminate|lia]. }
      destruct (IH (S i) r area) as [[E H]|(k & m & E & Hk & Hlt & Hall & Hb)].
      * left. split; [exact E|].
        intros [|k'] m' Hm'; simpl in Hm'; [injection Hm' as <-; lia|eauto].
      * right. exists (S k), m. rewrite E. split; [lia|]. split; [exact Hk|].
        split; [lia|]. split.
        -- intros [|k'] m' Hm'; simpl in Hm'; [injection Hm' as <-; lia|eauto].
        -- intros [|k'] m' Hk' Hm'; simpl in Hm'; [injection Hm' as <-; lia|].
           apply (Hb k' m'); [lia|exact Hm'].
Qed.

(** A position or a length that fits the 16 bits of an X11 coordinate. *)
Definition pixel (v : Z) : Prop := - 2 ^ 15 <= v <= 2 ^ 15.

(** The length two intervals, from [a] of length [l] and from [b] of
    length [k], share. *)
Definition overlap (a l b k : Z) : Z := Z.max 0 (Z.min (a + l) (b + k) - Z.max a b).

(** The area of the part of the rectangle that lies on the monitor. *)
Definition area (x y w h : Z) (m : Monitor) : Z :=
  overlap x w (Monitor.mx m) (Monitor.mw m) * overlap y h (Monitor.my m) (Monitor.mh m).

Lemma overlap_bound a l b k :
  pixel l -> 0 <= overlap a l b k <= 2 ^ 15.
Proof. unfold pixel, overlap. lia. Qed.

(** Within these bounds no step of [INTERSECT] leaves [int]: it is the
    area. *)
Lemma INTERSECT_area x y w h m :
  Forall pixel [x; y; w; h] ->
  Forall pixel [Monitor.mx m; Monitor.my m; Monitor.mw m; Monitor.mh m] ->
  INTERSECT x y w h m = area x y w h m.
Proof.
  intros Hr Hm.
  apply Forall_cons in Hr as [Hx Hr]. apply Forall_cons in Hr as [Hy Hr].
  apply Forall_cons in Hr as [Hw Hr]. apply Forall_cons in Hr as [Hh _].
  apply Forall_cons in Hm as [Hmx Hm]. apply Forall_cons in Hm as [Hmy Hm].
  apply Forall_cons in Hm as [Hmw Hm]. apply Forall_cons in Hm as [Hmh _].
  pose proof (overlap_bound x w (Monitor.mx m) (Monitor.mw m) Hw) as Ho1.
  pose proof (overlap_bound y h (Monitor.my m) (Monitor.mh m) Hh) as Ho2.
  unfold INTERSECT, area. rewrite !MAX_spec, !MIN_spec.
  unfold pixel in *.
  rewrite (int_of_id (x + w)) by (unfold INT_MIN, INT_MAX; lia).
  rewrite (int_of_id (y + h)) by (unfold INT_MIN, INT_MAX; lia).
  rewrite (int_of_id (Monitor.mx m + Monitor.mw m)) by (unfold INT_MIN, INT_MAX; lia).
  rewrite (int_of_id (Monitor.my m + Monitor.mh m)) by (unfold INT_MIN, INT_MAX; lia).
  rewrite (int_of_id (Z.min (x + w) (Monitor.mx m + Monitor.mw m) - Z.max x (Monitor.mx m)))
    by (unfold INT_MIN, INT_MAX; lia).
  rewrite (int_of_id (Z.min (y + h) (Monitor.my m + Monitor.mh m) - Z.max y (Monitor.my m)))
    by (unfold INT_MIN, INT_MAX; lia).
  fold (overlap x w (Monitor.mx m) (Monitor.mw m)).
  fold (overlap y h (Monitor.my m) (Monitor.mh m)).
  apply int_of_id. unfold INT_MIN, INT_MAX. nia.
Qed.

Lemma area_nonneg x y w h m : 0 <= area x y w h m.
Proof. unfold area, overlap. nia. Qed.

(** X19: [recttomon] returns and leaves the state as it is.  For a
    rectangle and monitors whose positions and lengths fit the 16 bits of
    an X11 coordinate (so that the [int] product of [INTERSECT] is the
    area it stands for), it gives the monitor on which the largest part
    of the rectangle lies, the first such in the list if several share
    the largest area, and the selected monitor if the rectangle lies on
    no monitor. *)
Theorem recttomon_largest (s : State) (x y w h : Z) :
  Forall pixel [x; y; w; h] ->
  (∀ i m, mons s !! i = Some m ->
     Forall pixel [Monitor.mx m; Monitor.my m; Monitor.mw m; Monitor.mh m]) ->
  ∃ r, recttomon x y w h s = Some (r, s)
       ∧ ((r = selmon s ∧ ∀ i m, mons s !! i = Some m -> area x y w h m = 0)
          ∨ (∃ m, mons s !! r = Some m ∧ 0 < area x y w h m
                  ∧ (∀ i m', mons s !! i = Some m' -> area x y w h m' <= area x y w h m)
                  ∧ (∀ i m', (i < r)%nat -> mons s !! i = Some m' ->
                       area x y w h m' < area x y w h m))).
Proof.
  intros Hr Hms. eexists. split; [reflexivity|].
  assert (∀ i m, mons s !! i = Some m -> INTERSECT x y w h m = area x y w h m) as Ha.
  { intros i m Hm. apply INTERSECT_area; [exact Hr|exact (Hms i m Hm)]. }
  destruct (recttomon_loop_spec x y w h (mons s) 0 (selmon s) 0)
    as [[E H]|(k & m & E & Hk & Hlt & Hall & Hb)].
  - left. split; [exact E|]. intros i m Hm. specialize (H i m Hm).
    rewrite (Ha i m Hm) in H. pose proof (area_nonneg x y w h m). lia.
  - right. exists m. rewrite E. simpl. rewrite (Ha k m Hk) in *.
    split; [exact Hk|]. split; [exact Hlt|]. split.
    + intros i m' Hm'. specialize (Hall i m' Hm'). now rewrite (Ha i m' Hm') in Hall.
    + intros i m' Hi Hm'. specialize (Hb i m' Hi Hm'). now rewrite (Ha i m' Hm') in Hb.
Qed.

Section Behaviour.
Variable X : XServer.
Variable R : XMore.

(** X10: [focusstack].  With no client selected it returns the state it
    was given.  With the client [p] selected, [before] ahead of it on the
    client list and [after] behind it, it returns in a state of the
    invariant in which the selected client is the first visible one of
    [after ++ before ++ [p]] for a positive argument (the next visible
    client, around the end of the list) and of
    [rev before ++ rev after ++ [p]] otherwise (the previous one, around
    the head); that client is moved to the top of the focus stack, and
    the client list is as it was. *)
Theorem focusstack_cycles (s : State) (m : Monitor) (i : Z) :
  good s -> mons s !! selmon s = Some m ->
  (Monitor.sel m = None -> focusstack X i s = Some (tt, s))
  ∧ (∀ p before after,
       Monitor.sel m = Some p -> Monitor.clients m = before ++ p :: after ->
       ∃ q s' m' l,
         List.find (visible s)
           (if i >? 0 then after ++ before ++ [p] else rev before ++ rev after ++ [p])
         = Some q
         ∧ focusstack X i s = Some (tt, s') ∧ good s'
         ∧ selmon s' = selmon s ∧ mons s' !! selmon s = Some m'
         ∧ Monitor.sel m' = Some q
         ∧ unlink q (Monitor.stack m) = Some l ∧ Monitor.stack m' = q :: l
         ∧ Monitor.clients m' = Monitor.clients m).
Proof.
  intros Hg Hm. split.
  - intros Hsel. unfold focusstack.
    rewrite bind_gets, (bind_run _ _ _ _ _ (getmon_Some _ _ _ Hm)). now rewrite Hsel.
  - intros p before after Hsel Hcl.
    exact (focusstack_exact X s m p before after i Hg Hm Hsel Hcl).
Qed.

(** X11: [focusmon].  With one monitor it returns the state it was
    given.  With more it returns in a state of the invariant in which the
    selected monitor is the one after the monitor selected before, for a
    positive argument, and the one before it otherwise, around the list
    of monitors; that monitor has selected the topmost visible client of
    its focus stack (none if it shows none); its client list and the
    other monitors are as they were. *)
Theorem focusmon_switches (s : State) (i : Z) :
  good s ->
  let n := length (mons s) in
  let r := if int_of i >? 0 then (S (selmon s) mod n)%nat
           else ((selmon s + pred n) mod n)%nat in
  (n = 1%nat -> focusmon X i s = Some (tt, s))
  ∧ ((2 <= n)%nat ->
     ∃ s' mr mr',
       focusmon X i s = Some (tt, s') ∧ good s'
       ∧ selmon s' = r ∧ r ≠ selmon s
       ∧ mons s !! r = Some mr ∧ mons s' !! r = Some mr'
       ∧ Monitor.sel mr' = List.find (visible s) (Monitor.stack mr)
       ∧ Monitor.clients mr' = Monitor.clients mr
       ∧ (∀ j, j ≠ r -> mons s' !! j = mons s !! j)).
Proof.
  intros Hg n r. destruct (good_selmon s Hg) as [m Hm].
  assert (selmon s < n)%nat as Hlt by now apply lookup_lt_Some in Hm. split.
  - intros H1. unfold focusmon. rewrite bind_gets. subst n.
    destruct (mons s) as [|m0 [|m1 ms]]; simpl in *; [lia|reflexivity|lia].
  - intros H2.
    assert (r < n)%nat as Hr.
    { subst r. destruct (int_of i >? 0); apply Nat.mod_upper_bound; lia. }
    destruct (lookup_lt_is_Some_2 _ _ Hr) as [mr Hmr].
    destruct (focusmon_exact X i s mr Hg H2 Hmr) as (s' & E & Hg' & Esel & Ems).
    exists s', mr, (raised (List.find (visible s) (Monitor.stack mr)) mr).
    split; [exact E|]. split; [exact Hg'|]. split; [exact Esel|]. split.
    { subst r. unfold n. destruct (int_of i >? 0);
        [now apply mon_after_ne|now apply mon_before_ne]. }
    split; [exact Hmr|]. split.
    { rewrite Ems. now apply list_lookup_insert_eq. }
    split; [now destruct (List.find (visible s) (Monitor.stack mr))|].
    split; [now destruct (List.find (visible s) (Monitor.stack mr))|].
    intros j Hj. rewrite Ems. now apply list_lookup_insert_ne.
Qed.

(** X12: [tagmon].  With no client selected, or with one monitor, it
    returns the state it was given.  Otherwise it returns in a state of
    the invariant in which the client that was selected belongs to the
    monitor after the selected one, for a positive argument, and to the
    one before it otherwise, around the list of monitors: the client is
    at the head of that monitor's client list and focus stack, has that
    monitor's selected tag set as its tags, and is on no list of the
    monitor it left, whose client list keeps the other clients in their
    order.  The selected monitor stays selected.  This is of a state in
    which no client has a resize increment of -1, by which [arrange]
    would take a remainder and trap. *)
Theorem tagmon_sends (s : State) (m : Monitor) (i : Z) :
  good s -> mons s !! selmon s = Some m ->
  let n := length (mons s) in
  let t := if int_of i >? 0 then (S (selmon s) mod n)%nat
           else ((selmon s + pred n) mod n)%nat in
  (Monitor.sel m = None ∨ n = 1%nat -> tagmon X i s = Some (tt, s))
  ∧ (∀ p, Monitor.sel m = Some p -> (2 <= n)%nat -> tamed s ->
       ∃ s' c' m' mo mo' lc,
         tagmon X i s = Some (tt, s') ∧ good s' ∧ selmon s' = selmon s
         ∧ heap s' !! p = Some c'
         ∧ Client.mon c' = t ∧ t ≠ selmon s
         ∧ mons s !! t = Some mo ∧ Client.tags c' = Monitor.seltagset mo
         ∧ mons s' !! t = Some mo'
         ∧ Monitor.clients mo' = p :: Monitor.clients mo
         ∧ Monitor.stack mo' = p :: Monitor.stack mo
         ∧ mons s' !! selmon s = Some m'
         ∧ unlink p (Monitor.clients m) = Some lc ∧ Monitor.clients m' = lc
         ∧ p ∉ Monitor.stack m').
Proof.
  intros Hg Hm n t.
  assert (selmon s < n)%nat as Hlt by now apply lookup_lt_Some in Hm. split.
  - intros H. unfold tagmon.
    rewrite bind_gets, (bind_run _ _ _ _ _ (getmon_Some _ _ _ Hm)).
    destruct (Monitor.sel m) as [p|]; [|reflexivity].
    destruct H as [H|H]; [discriminate|]. rewrite bind_gets. subst n.
    destruct (mons s) as [|m0 [|m1 ms]]; simpl in *; [lia|reflexivity|lia].
  - intros p Hsel H2 Hta.
    assert (t < n)%nat as Ht.
    { subst t. destruct (int_of i >? 0); apply Nat.mod_upper_bound; lia. }
    assert (t ≠ selmon s) as Hne.
    { subst t. unfold n. destruct (int_of i >? 0);
        [now apply mon_after_ne|now apply mon_before_ne]. }
    destruct (lookup_lt_is_Some_2 _ _ Ht) as [mo Hmo].
    pose proof Hg as ([[_ Hlk] _] & _). destruct (Hlk _ _ Hm) as (_ & _ & _ & Hsl).
    destruct (sendmon_exact X s m p t mo Hg Hta Hm (Hsl p Hsel) Hne Hmo)
      as (s' & c & c' & m' & mo' & lc & E & Hg' & Es & Hc & Hc' & Em & Et & Hmo' & Ecl
          & Est & _ & Hm' & Hlc & Ecl' & Hn).
    exists s', c', m', mo, mo', lc. split.
    { unfold tagmon. rewrite bind_gets, (bind_run _ _ _ _ _ (getmon_Some _ _ _ Hm)).
      rewrite Hsel, bind_gets. subst t n.
      destruct (mons s) as [|m0 [|m1 ms]] eqn:Ems; [simpl in H2; lia|simpl in H2; lia|].
      rewrite <- Ems in *. clear Ems m0 m1 ms.
      rewrite (bind_run _ _ _ _ _ (dirtomon_ring s (int_of i) Hlt)). exact E. }
    auto 15.
Qed.

(** X13: [manage] on a state of the invariant in which no client has a
    resize increment of -1, with a server that reports no such increment
    in the size hints of a window (or [arrange] would take a remainder by
    it and trap), returns in a state of the invariant, again without such
    a client.  It has created one client, at the address [ecalloc] hands
    out, for the window given: the clients of the store are those there
    were and this one, and each of the former keeps its window, monitor
    and tags.  The new client is at the head of the client list of its
    monitor, whose other clients keep their order, and on its focus
    stack; the selected monitor stays selected; and [wintoclient] finds a
    client for the window afterwards. *)
Theorem manage_adopts (w : Window) (wa : XWindowAttributes) (s : State) :
  tame_server X -> good s -> tamed s ->
  ∃ s' c' m m',
    manage X w wa s = Some (tt, s') ∧ good s' ∧ tamed s'
    ∧ brk s' = Pos.succ (brk s) ∧ dom (heap s') = {[brk s]} ∪ dom (heap s)
    ∧ heap s !! brk s = None ∧ heap s' !! brk s = Some c' ∧ Client.win c' = w
    ∧ (∀ q c, heap s !! q = Some c ->
         ∃ c1, heap s' !! q = Some c1 ∧ Client.win c1 = Client.win c
               ∧ Client.mon c1 = Client.mon c ∧ Client.tags c1 = Client.tags c)
    ∧ mons s !! Client.mon c' = Some m ∧ mons s' !! Client.mon c' = Some m'
    ∧ Monitor.clients m' = brk s :: Monitor.clients m
    ∧ brk s ∈ Monitor.stack m'
    ∧ selmon s' = selmon s
    ∧ ∃ q cq, wintoclient w s' = Some (Some q, s') ∧ heap s' !! q = Some cq
              ∧ Client.win cq = w.
Proof.
  intros HX Hg Hta.
  destruct (manage_adopts_run X w wa s HX Hg Hta)
    as ([[] s'] & E & (Hg' & Hb & Hs & Hk & Hd & c' & m & m' & Hc' & Hw & Hm & Hm' & Hcl & Hst)
        & Hta').
  simpl in *. exists s', c', m, m'. split; [exact E|]. split; [exact Hg'|].
  split; [exact Hta'|].
  split; [exact Hb|]. split; [exact Hd|]. split.
  { destruct Hg as (_ & _ & Hf). apply Hf. reflexivity. }
  split; [exact Hc'|]. split; [exact Hw|]. split.
  { intros q c Hc. destruct (Hk q c Hc) as (c1 & Hc1 & El). exists c1.
    apply links_eq in El as (Et & Em & Ew). auto. }
  split; [exact Hm|]. split; [exact Hm'|]. split; [exact Hcl|]. split; [exact Hst|].
  split; [exact Hs|].
  rewrite (wintoclient_find s' w (good_wf s' Hg')).
  destruct (find_exists (has_win s' w) (all_clients s') (brk s)) as [q Hq].
  { apply all_clients_elem. exists (Client.mon c'), m'. split; [exact Hm'|].
    rewrite Hcl. apply list_elem_of_here. }
  { unfold has_win. rewrite Hc'. now apply Z.eqb_eq. }
  rewrite Hq. apply find_elem in Hq as [_ Hq]. unfold has_win in Hq.
  destruct (heap s' !! q) as [cq|] eqn:Hcq; [|discriminate].
  exists q, cq. apply Z.eqb_eq in Hq. auto.
Qed.

(** X14: [unmanage] of a client on the lists of a monitor, in a state of
    the invariant in which no client has a resize increment of -1 (by
    which [arrange] would take a remainder and trap), returns in a state
    of the invariant.  The client is freed and on no list: it is no
    longer in the store, the other clients are and keep their window,
    monitor and tags, the monitor's client list is the list without the
    client, its focus stack holds the clients it held but this one, and
    the monitors other than this one and the selected one are as they
    were.  The selected monitor stays selected. *)
Theorem unmanage_frees (p : cptr) (destroyed : bool) (s : State) (mi : nat) (m : Monitor) :
  good s -> tamed s -> mons s !! mi = Some m -> p ∈ Monitor.stack m ->
  ∃ s' m' lc,
    unmanage X R p destroyed s = Some (tt, s') ∧ good s'
    ∧ heap s' !! p = None ∧ dom (heap s') = dom (heap s) ∖ {[p]}
    ∧ (∀ q c, q ≠ p -> heap s !! q = Some c ->
         ∃ c', heap s' !! q = Some c' ∧ Client.win c' = Client.win c
               ∧ Client.mon c' = Client.mon c ∧ Client.tags c' = Client.tags c)
    ∧ selmon s' = selmon s
    ∧ mons s' !! mi = Some m'
    ∧ unlink p (Monitor.clients m) = Some lc ∧ Monitor.clients m' = lc
    ∧ (∀ q, q ∈ Monitor.stack m' ↔ (q ∈ Monitor.stack m ∧ q ≠ p))
    ∧ (∀ i, i ≠ mi -> i ≠ selmon s -> mons s' !! i = mons s !! i).
Proof.
  intros Hg Hta Hm Hp.
  destruct (unmanage_exact X R p destroyed s mi m Hg Hta Hm Hp)
    as (s' & m' & lc & E & Hg' & Hn & Hs & Hk & Hd & Hm' & Hlc & Ecl & Hst & Ho).
  exists s', m', lc. split; [exact E|]. split; [exact Hg'|]. split; [exact Hn|].
  split; [exact Hd|]. split.
  { intros q c Hq Hc. destruct (Hk q c Hq Hc) as (c1 & Hc1 & El). exists c1.
    apply links_eq in El as (Et & Em & Ew). auto. }
  auto 10.
Qed.

(** X15: [zoom] with the master selected.  When the selected client is
    the first tiled visible client of the client list and [r] is the next
    one, [zoom] returns in a state of the invariant in which [r] is at
    the head of the client list and the other clients, the selected one
    among them, keep their order: the two have changed places as master.
    This is of a state in which no client has a resize increment of -1,
    by which [arrange] would take a remainder and trap. *)
Theorem zoom_swaps_master (s : State) (m : Monitor) (p r : cptr)
    (l1 l2 l3 : list cptr) :
  good s -> tamed s -> mons s !! selmon s = Some m -> Monitor.sel m = Some p ->
  Monitor.clients m = l1 ++ p :: l2 ++ r :: l3 ->
  Forall (skipped s) l1 -> tiled_visible s p -> Forall (skipped s) l2 ->
  tiled_visible s r ->
  ∃ s' m',
    zoom X s = Some (tt, s') ∧ good s'
    ∧ selmon s' = selmon s ∧ mons s' !! selmon s = Some m'
    ∧ Monitor.clients m' = r :: l1 ++ p :: l2 ++ l3.
Proof.
  intros Hg Htm Hm Hsel Hcl H1 Hp H2 Hr.
  pose proof Hg as ([[_ Hlk] _] & _). destruct (Hlk _ _ Hm) as (Hnc & _).
  assert (r ∈ Monitor.clients m) as Hin.
  { rewrite Hcl. rewrite !elem_of_app, !elem_of_cons, elem_of_app, elem_of_cons. tauto. }
  destruct (pop_good X s m r Hg Htm Hm Hin) as (s' & m' & l & E & Hg' & Hl & Es & Hm' & Ecl).
  assert (l = l1 ++ p :: l2 ++ l3) as ->.
  { rewrite Hcl in Hl, Hnc.
    replace (l1 ++ p :: l2 ++ r :: l3) with ((l1 ++ p :: l2) ++ r :: l3) in Hl, Hnc
      by now rewrite <- app_assoc.
    rewrite unlink_middle in Hl.
    - injection Hl as <-. now rewrite <- app_assoc.
    - apply NoDup_app in Hnc as (_ & Hd & _). intros Hx. apply (Hd r Hx).
      apply list_elem_of_here. }
  exists s', m'. split; [|auto].
  pose proof Hp as (c & mc & Hc & _ & Hf & _).
  unfold zoom. rewrite bind_gets, (bind_run _ _ _ _ _ (getmon_Some _ _ _ Hm)).
  rewrite Hsel, bind_bind, (bind_run _ _ _ _ _ (deref_Some _ _ _ Hc)), bind_ret, Hf.
  rewrite Hcl, (bind_run _ _ _ _ _ (nexttiled_found s l1 p _ H1 Hp)).
  rewrite decide_True by reflexivity.
  now rewrite (bind_run _ _ _ _ _ (nexttiled_found s l2 r _ H2 Hr)).
Qed.

End Behaviour.

(** X16: [togglefloating].  With no client selected, or with a
    fullscreen client selected, it returns the state it was given.
    Otherwise, in a state in which no client has a resize increment of -1
    (by which [resize] would take a remainder and trap), it returns in a
    state of the invariant in which the selected client is floating if it
    was tiled or is of fixed size, and tiled otherwise; besides this flag
    only the geometry of clients (and its saved copy) and the log have
    changed. *)
Theorem togglefloating_toggles (s : State) (m : Monitor) :
  good s -> mons s !! selmon s = Some m ->
  (Monitor.sel m = None -> togglefloating s = Some (tt, s))
  ∧ (∀ p c, Monitor.sel m = Some p -> heap s !! p = Some c ->
       (Client.isfullscreen c = true -> togglefloating s = Some (tt, s))
       ∧ (Client.isfullscreen c = false -> tamed s ->
          ∃ s' c',
            togglefloating s = Some (tt, s') ∧ good s'
            ∧ heap s' !! p = Some c'
            ∧ Client.isfloating c' = negb (Client.isfloating c) || Client.isfixed c
            ∧ strip_geom c'
              = strip_geom (Client.set_isfloating
                              (negb (Client.isfloating c) || Client.isfixed c) c)
            ∧ (∀ q cq, q ≠ p -> heap s !! q = Some cq ->
                 ∃ cq', heap s' !! q = Some cq' ∧ strip_geom cq' = strip_geom cq)
            ∧ mons s' = mons s ∧ selmon s' = selmon s)).
Proof.
  intros Hg Hm. split.
  - intros Hsel. unfold togglefloating.
    rewrite bind_gets, (bind_run _ _ _ _ _ (getmon_Some _ _ _ Hm)). now rewrite Hsel.
  - intros p c Hsel Hc. split.
    + intros Hf. unfold togglefloating.
      rewrite bind_gets, (bind_run _ _ _ _ _ (getmon_Some _ _ _ Hm)), Hsel.
      rewrite (bind_run _ _ _ _ _ (deref_Some _ _ _ Hc)). now rewrite Hf.
    + intros Hf Hta.
      destruct (good_sel_owned s m p Hg Hm Hsel) as (c0 & Hc0 & Hmon).
      rewrite Hc in Hc0. injection Hc0 as <-.
      set (v := negb (Client.isfloating c) || Client.isfixed c).
      set (s1 := set_heap (<[p:=Client.set_isfloating v c]> (heap s)) s).
      assert (agree links s s1) as L1 by now apply agree_store with c.
      pose proof (agree_links_good _ _ Hg L1) as Hg1.
      pose proof (agree_links_tamed _ _ Hta L1) as Hta1.
      assert (heap s1 !! p = Some (Client.set_isfloating v c)) as Hc1
        by apply lookup_insert_eq.
      assert (moves s1 (when (Client.isfloating (Client.set_isfloating v c))
                          (resize p (Client.x (Client.set_isfloating v c))
                             (Client.y (Client.set_isfloating v c))
                             (Client.w (Client.set_isfloating v c))
                             (Client.h (Client.set_isfloating v c)) false);;
                        arrange (Some (selmon s)))) as Hmv.
      { eapply safe_seq with (Q := λ _, True).
        - apply safe_when, moves_resize; [exact Hta1|]. exists (Client.set_isfloating v c).
          split; [exact Hc1|]. simpl. rewrite Hmon. eauto.
        - apply moves_arrange; [exact Hta1|].
          apply wf_arrangeable; [now apply good_wf|]. simpl. eauto. }
      destruct (Hmv s1 (agree_refl _ _)) as ([] & s' & E & A & _).
      destruct (agree_lookup_Some _ _ _ _ _ A Hc1) as (c' & Hc' & Ec').
      exists s', c'. split.
      { unfold togglefloating.
        rewrite bind_gets, (bind_run _ _ _ _ _ (getmon_Some _ _ _ Hm)), Hsel.
        rewrite (bind_run _ _ _ _ _ (deref_Some _ _ _ Hc)), Hf.
        rewrite (bind_run _ _ _ _ _ (update_Some s p c _ Hc)).
        fold v s1. rewrite (bind_run _ _ _ _ _ (deref_Some _ _ _ Hc1)). exact E. }
      split; [apply agree_links_good with s1; [exact Hg1|now apply agree_geom_links]|].
      split; [exact Hc'|]. split; [exact (f_equal Client.isfloating Ec')|].
      split; [exact Ec'|]. split.
      { intros q cq Hq Hcq. apply (agree_lookup_Some _ _ _ _ _ A). simpl.
        now rewrite lookup_insert_ne. }
      split; [symmetry; exact (agree_mons _ _ _ A)|symmetry; exact (agree_selmon _ _ _ A)].
Qed.

(** * The properties on the scenarios *)

Lemma run_eq {A} (m : M A) s r : m s = Some r -> run m s = snd r.
Proof. intros E. unfold run, exec. now rewrite E. Qed.

Lemma good_s_empty : good s_empty.
Proof. exact (good_setup 1920 1080). Qed.

Lemma tame_display : tame_server display.
Proof.
  intros w size E _. simpl in E.
  repeat match type of E with
         | (if ?b then _ else _) = _ => destruct b
         end; try discriminate; injection E as <-; simpl; lia.
Qed.

Lemma good_s_one : good s_one.
Proof.
  destruct (manage_adopts_run display 101 attrs s_empty tame_display good_s_empty
              tamed_s_empty) as (r & E & (Hg & _) & _).
  unfold s_one. now rewrite (run_eq _ _ _ E).
Qed.

Lemma good_s_two : good s_two.
Proof.
  destruct (manage_adopts_run display 102 attrs s_one tame_display good_s_one tamed_s_one)
    as (r & E & (Hg & _) & _).
  unfold s_two. now rewrite (run_eq _ _ _ E).
Qed.

Lemma inv_s_two : inv s_two.
Proof. exact (proj1 good_s_two). Qed.

(** The monitor the Xinerama branch of [updategeom] sets up for screen
    [i] with the geometry given ([createmon], then [num], [mx = wx],
    [my = wy], [mw = ww], [mh = wh], then [updatebarpos]). *)
Definition xinerama_monitor (i x y w h : Z) : Monitor :=
  let m := createmon 0 in
  updatebarpos
    {| Monitor.mfact := Monitor.mfact m; Monitor.nmaster := Monitor.nmaster m;
       Monitor.num := i; Monitor.by_ := Monitor.by_ m; Monitor.bh := Monitor.bh m;
       Monitor.mx := x; Monitor.my := y; Monitor.mw := w; Monitor.mh := h;
       Monitor.wx := x; Monitor.wy := y; Monitor.ww := w; Monitor.wh := h;
       Monitor.gappx := Monitor.gappx m; Monitor.seltags := Monitor.seltags m;
       Monitor.tagset := Monitor.tagset m; Monitor.clients := Monitor.clients m;
       Monitor.sel := Monitor.sel m; Monitor.stack := Monitor.stack m;
       Monitor.barwin := Monitor.barwin m; Monitor.traywin := Monitor.traywin m |}.

(** Two 1920x1080 screens side by side with the first selected and no
    client; then with window 101 mapped. *)
Definition s_dual : State :=
  {| heap := ∅;
     mons := [xinerama_monitor 0 0 0 1920 1080; xinerama_monitor 1 1920 0 1920 1080];
     selmon := 0%nat; combo := false; bh := 0; sw := 3840; sh := 1080;
     brk := 1%positive; xlog := [] |}.
Definition s_dual_one : State := run (manage display 101 attrs) s_dual.

(** Xlib for the handlers of windows that come and go: every window
    exists and has the attributes [attrs], and the pointer is at the
    origin. *)
Definition more : XMore :=
  {| XGrabServer := XSync; XUngrabServer := XSync;
     XUngrabButton := λ w, XGrabButtons w false;
     XDeleteProperty_NetClientList := XDeleteProperty_NetActiveWindow;
     XSetCloseDownMode := XSync;
     XKillClient := λ w, XSendEvent_ClientMessage w AtomNone;
     WMDelete := AtomOther 1; root := 1;
     XQueryPointer := Some (0, 0);
     XGetWindowAttributes := λ _, Some (attrs, false) |}.

Lemma good_s_dual : good s_dual.
Proof.
  split; [split; [split; [split|]|]|split].
  - simpl. eauto.
  - intros [|[|mi]] m Hm; [| |discriminate]; injection Hm as <-; simpl;
      (repeat split; try constructor; intros p [=]).
  - intros [|[|mi]] m Hm; [| |discriminate]; injection Hm as <-;
      (repeat split; simpl; try constructor; try done).
  - intros m Hm. injection Hm as <-. reflexivity.
  - split.
    + intros p c Hc. simpl in Hc. now rewrite lookup_empty in Hc.
    + intros [|[|mi]] m Hm; [| |discriminate]; injection Hm as <-; simpl;
        (split; split; done).
  - intros p _. apply lookup_empty.
Qed.

Lemma tamed_s_dual : tamed s_dual.
Proof. apply tamed_b_sound. by_run. Qed.
Lemma tamed_s_dual_one : tamed s_dual_one.
Proof. apply tamed_b_sound. by_run. Qed.

Lemma good_s_dual_one : good s_dual_one.
Proof.
  destruct (manage_adopts_run display 101 attrs s_dual tame_display good_s_dual tamed_s_dual)
    as (r & E & (Hg & _) & _).
  unfold s_dual_one. now rewrite (run_eq _ _ _ E).
Qed.

Lemma arrange_only_moves_witness :
  ∃ s', arrange (Some 0%nat) s_two = Some (tt, s')
        ∧ mons s' = mons s_two ∧ dom (heap s') = dom (heap s_two).
Proof.
  destruct (arrange_only_moves s_two (Some 0%nat) wf_s_two tamed_s_two)
    as (s' & E & Hm & _ & _ & _ & _ & Hd & _).
  - intros mi [= <-]. exists (the_mon s_two 0). by_run.
  - exists s'. split; [exact E|]. split; [exact Hm|exact Hd].
Defined.

Lemma tile_skips_witness :
  ∃ s' c', tile 0 s_two = Some (tt, s') ∧ heap s' !! 1%positive = Some c'
           ∧ strip_geom c' = strip_geom (the s_two 1%positive).
Proof.
  destruct (tile_skips s_two 0 (the_mon s_two 0) wf_s_two tamed_s_two) as (s' & E & _ & H);
    [by_run|].
  destruct (H 1%positive (the s_two 1%positive)) as (c' & Hc' & Es); [by_run|].
  exists s', c'. split; [exact E|]. split; [exact Hc'|exact Es].
Defined.

Lemma focus_raises_witness :
  ∃ s' m', focus display (Some 1%positive) s_two = Some (tt, s')
           ∧ mons s' !! selmon s_two = Some m'
           ∧ Monitor.sel m' = Some 1%positive
           ∧ Monitor.stack m' = [1; 2]%positive.
Proof.
  destruct (focus_raises display 1%positive s_two (the_mon s_two 0) wf_s_two)
    as (s' & m' & l & c & E & Hl & _ & Hm' & Hs & Hst & _).
  - by_run.
  - apply list_elem_of_In. vm_compute. tauto.
  - by_run.
  - vm_compute in Hl. injection Hl as <-. exists s', m'.
    split; [exact E|]. split; [exact Hm'|]. split; [exact Hs|exact Hst].
Defined.

Lemma focus_null_selects_top_witness :
  ∃ s' m', focus display None s_two = Some (tt, s')
           ∧ mons s' !! selmon s_two = Some m'
           ∧ Monitor.sel m' = Some 2%positive
           ∧ Monitor.clients m' = Monitor.clients (the_mon s_two 0).
Proof.
  destruct (focus_null_selects_top display s_two (the_mon s_two 0) wf_s_two)
    as (r & s' & m' & Hr & E & _ & Hm' & Hs & Hc & _); [by_run|].
  vm_compute in Hr. injection Hr as <-. exists s', m'.
  split; [exact E|]. split; [exact Hm'|]. split; [exact Hs|exact Hc].
Defined.

Lemma view_switches_witness :
  ∃ s' m', view display 4 s_two = Some (tt, s') ∧ inv s'
           ∧ mons s' !! selmon s' = Some m' ∧ Monitor.seltagset m' = 4.
Proof.
  destruct (view_switches display s_two (the_mon s_two 0) 4 inv_s_two) as [_ H];
    [by_run|].
  destruct H as (s' & m' & E & Hi & Hm' & _ & Hts & _); [by_run|exact tamed_s_two|].
  exists s', m'. split; [exact E|]. split; [exact Hi|]. split; [exact Hm'|exact Hts].
Defined.

Lemma tag_retags_witness :
  ∃ s' c', tag display 4 s_two = Some (tt, s') ∧ inv s'
           ∧ heap s' !! 2%positive = Some c' ∧ Client.tags c' = 4.
Proof.
  destruct (tag_retags display s_two (the_mon s_two 0) 4 inv_s_two) as [_ H];
    [by_run|].
  destruct (H 2%positive) as (s' & m' & c' & E & Hi & Hc' & Ht & _);
    [by_run|by_run|exact tamed_s_two|].
  exists s', c'. split; [exact E|]. split; [exact Hi|]. split; [exact Hc'|exact Ht].
Defined.

Lemma combotag_chord_witness :
  ∃ s' c', combotag display 4 s_two = Some (tt, s') ∧ combo s' = true
           ∧ heap s' !! 2%positive = Some c' ∧ Client.tags c' = 4.
Proof.
  destruct (combotag_chord display s_two (the_mon s_two 0) 4 inv_s_two) as [_ H];
    [by_run|].
  destruct (H 2%positive (the s_two 2%positive))
    as (s' & c' & E & _ & Hcb & Hc' & Ht & _); [by_run|by_run|by_run|exact tamed_s_two|].
  exists s', c'. split; [exact E|]. split; [exact Hcb|]. split; [exact Hc'|exact Ht].
Defined.

Lemma wintoclient_finds_witness :
  ∃ mi m c, wintoclient 101 s_two = Some (Some 1%positive, s_two)
            ∧ mons s_two !! mi = Some m ∧ 1%positive ∈ Monitor.clients m
            ∧ heap s_two !! 1%positive = Some c ∧ Client.win c = 101.
Proof.
  destruct (wintoclient_finds s_two 101 wf_s_two) as (r & E & H).
  pose proof E as E1. vm_compute in E1. injection E1 as <-.
  destruct H as (mi & m & c & Hm & Hin & Hc & Hw & _). exists mi, m, c.
  split; [exact E|]. split; [exact Hm|]. split; [exact Hin|]. split; [exact Hc|exact Hw].
Defined.

Lemma dirtomon_cycles_witness :
  dirtomon 1 s_dual = Some (1%nat, s_dual)
  ∧ dirtomon (-1) (set_selmon 1 s_dual) = Some (0%nat, set_selmon 1 s_dual).
Proof.
  destruct (dirtomon_cycles s_dual 1) as (E & _ & _ & Hb); [simpl; lia|].
  split; [exact E|exact (Hb (-1) eq_refl)].
Defined.

Lemma focusstack_cycles_witness :
  ∃ s' m', focusstack display 1 s_two = Some (tt, s') ∧ good s'
           ∧ mons s' !! selmon s_two = Some m'
           ∧ Monitor.sel m' = Some 1%positive
           ∧ Monitor.stack m' = [1; 2]%positive.
Proof.
  destruct (focusstack_cycles display s_two (the_mon s_two 0) 1 good_s_two) as [_ H];
    [by_run|].
  destruct (H 2%positive [] [1%positive])
    as (q & s' & m' & l & Hq & E & Hg & _ & Hm' & Hs & Hl & Hst & _); [by_run|by_run|].
  vm_compute in Hq. injection Hq as <-. vm_compute in Hl. injection Hl as <-.
  exists s', m'. split; [exact E|]. split; [exact Hg|]. split; [exact Hm'|].
  split; [exact Hs|exact Hst].
Defined.

Lemma focusmon_switches_witness :
  ∃ s', focusmon display 1 s_dual_one = Some (tt, s') ∧ good s' ∧ selmon s' = 1%nat.
Proof.
  destruct (focusmon_switches display s_dual_one 1 good_s_dual_one) as [_ H].
  destruct H as (s' & mr & mr' & E & Hg & Hs & _).
  - vm_compute. lia.
  - exists s'. split; [exact E|]. split; [exact Hg|exact Hs].
Defined.

Lemma tagmon_sends_witness :
  ∃ s' c' mo', tagmon display 1 s_dual_one = Some (tt, s') ∧ good s'
               ∧ heap s' !! 1%positive = Some c' ∧ Client.mon c' = 1%nat
               ∧ mons s' !! 1%nat = Some mo'
               ∧ Monitor.clients mo' = [1%positive].
Proof.
  destruct (tagmon_sends display s_dual_one (the_mon s_dual_one 0) 1 good_s_dual_one)
    as [_ H]; [by_run|].
  destruct (H 1%positive)
    as (s' & c' & m' & mo & mo' & lc & E & Hg & _ & Hc' & Hmon & _ & Hmo & _ & Hmo'
        & Hcl & _).
  - by_run.
  - vm_compute. lia.
  - exact tamed_s_dual_one.
  - vm_compute in Hmo. injection Hmo as <-. exists s', c', mo'.
    split; [exact E|]. split; [exact Hg|]. split; [exact Hc'|]. split; [exact Hmon|].
    split; [exact Hmo'|exact Hcl].
Defined.

Lemma manage_adopts_witness :
  ∃ s' c', manage display 102 attrs s_one = Some (tt, s') ∧ good s'
           ∧ heap s' !! 2%positive = Some c' ∧ Client.win c' = 102
           ∧ ∃ q, wintoclient 102 s' = Some (Some q, s').
Proof.
  destruct (manage_adopts display 102 attrs s_one tame_display good_s_one tamed_s_one)
    as (s' & c' & m & m' & E & Hg & _ & _ & _ & _ & Hc' & Hw & _ & _ & _ & _ & _ & _
        & q & cq & Hq & _).
  exists s', c'. split; [exact E|]. split; [exact Hg|]. split; [exact Hc'|].
  split; [exact Hw|]. exists q. exact Hq.
Defined.

Lemma unmanage_frees_witness :
  ∃ s' m', unmanage display more 1%positive false s_two = Some (tt, s') ∧ good s'
           ∧ heap s' !! 1%positive = None
           ∧ mons s' !! 0%nat = Some m' ∧ Monitor.clients m' = [2%positive].
Proof.
  destruct (unmanage_frees display more 1%positive false s_two 0 (the_mon s_two 0)
              good_s_two tamed_s_two)
    as (s' & m' & lc & E & Hg & Hn & _ & _ & _ & Hm' & Hlc & Hcl & _).
  - by_run.
  - apply list_elem_of_In. vm_compute. tauto.
  - vm_compute in Hlc. injection Hlc as <-. exists s', m'.
    split; [exact E|]. split; [exact Hg|]. split; [exact Hn|]. split; [exact Hm'|exact Hcl].
Defined.

Lemma zoom_swaps_master_witness :
  ∃ s' m', zoom display s_two = Some (tt, s') ∧ good s'
           ∧ mons s' !! selmon s_two = Some m'
           ∧ Monitor.clients m' = [1; 2]%positive.
Proof.
  destruct (zoom_swaps_master display s_two (the_mon s_two 0) 2%positive 1%positive
              [] [] [] good_s_two tamed_s_two)
    as (s' & m' & E & Hg & _ & Hm' & Hcl).
  - by_run.
  - by_run.
  - by_run.
  - constructor.
  - exists (the s_two 2%positive), (the_mon s_two 0). by_runs.
  - constructor.
  - exists (the s_two 1%positive), (the_mon s_two 0). by_runs.
  - exists s', m'. split; [exact E|]. split; [exact Hg|]. split; [exact Hm'|exact Hcl].
Defined.

Lemma togglefloating_toggles_witness :
  ∃ s' c', togglefloating s_two = Some (tt, s') ∧ good s'
           ∧ heap s' !! 2%positive = Some c' ∧ Client.isfloating c' = true.
Proof.
  destruct (togglefloating_toggles s_two (the_mon s_two 0) good_s_two) as [_ H];
    [by_run|].
  destruct (H 2%positive (the s_two 2%positive)) as [_ H']; [by_run|by_run|].
  destruct H' as (s' & c' & E & Hg & Hc' & Hfl & _); [by_run|exact tamed_s_two|].
  exists s', c'. split; [exact E|]. split; [exact Hg|]. split; [exact Hc'|].
  rewrite Hfl. by_run.
Defined.

Lemma handlers_safe_witness :
  ∃ s', call display more (DestroyNotify 101) s_two = Some (tt, s')
        ∧ good s' ∧ tamed s'.
Proof.
  exact (handlers_safe display more (DestroyNotify 101) s_two tame_display good_s_two
           tamed_s_two).
Defined.

Lemma recttomon_largest_witness :
  recttomon 1900 0 100 100 s_dual = Some (1%nat, s_dual)
  ∧ area 1900 0 100 100 (the_mon s_dual 0) = 2000
  ∧ area 1900 0 100 100 (the_mon s_dual 1) = 8000.
Proof.
  destruct (recttomon_largest s_dual 1900 0 100 100) as (r & E & _).
  - repeat constructor; unfold pixel; lia.
  - intros [|[|i]] m Hm; [| |discriminate]; injection Hm as <-;
      repeat constructor; unfold pixel; simpl; lia.
  - pose proof E as E1. vm_compute in E1. injection E1 as <-.
    split; [exact E|]. split; reflexivity.
Defined.

Lemma handlers_keep_clients_witness :
  brk (run (zoom display) s_two) = brk s_two
  ∧ dom (heap (run (zoom display) s_two)) = dom (heap s_two).
Proof.
  destruct (handlers_keep_clients display more Zoom s_two (run (zoom display) s_two) I)
    as (Hb & Hd & _); [by_run|].
  split; [exact Hb|exact Hd].
Defined.
